(** * Profiler event collection: correlation ids, end times, external-trace
      merge, buffer identities and the call-tree builder.

    Shallow embedding of [torch/csrc/profiler/collection.cpp].

    Every [Result] is owned by a [std::shared_ptr]; the model keeps all of
    them in one store (a list) and a pointer is the position of the object in
    that store.  The vectors the code passes around ([results_],
    [sorted_events]) are lists of pointers, so reordering a vector never
    changes the identity of an event.  A [std::weak_ptr] is an optional
    pointer; it is expired exactly when it is [None].

    Failing [TORCH_INTERNAL_ASSERT]s, [std::out_of_range] and a raising
    [SOFT_ASSERT] are results of type [outcome]. *)

From stdpp Require Import base option list gmap sorting strings.
From Stdlib Require Import ZArith Lia.

Local Open Scope Z_scope.

(** ** Errors *)

Inductive error :=
| InternalAssert   (* TORCH_INTERNAL_ASSERT failed *)
| SoftAssert       (* SOFT_ASSERT failed while soft asserts raise *)
| OutOfRange       (* flat_hash_map::at on a missing key *)
| BadPointer       (* a pointer that is not in the store *)
| OutOfFuel.       (* recursion bound of the model exhausted *)

Inductive outcome (A : Type) :=
| Ok (a : A)
| Err (e : error).
Arguments Ok {A} a.
Arguments Err {A} e.

#[global] Instance outcome_ret : MRet outcome := fun A a => Ok a.
#[global] Instance outcome_bind : MBind outcome := fun A B f m =>
  match m with
  | Ok a => f a
  | Err e => Err e
  end.

Definition check (b : bool) : outcome unit :=
  if b then Ok tt else Err InternalAssert.

(** ** Machine integers *)

(** [std::numeric_limits<time_t>::min()], with [time_t = int64_t]: the
    "no end time" marker. *)
Definition time_min : Z := - 2 ^ 63.

(** Signed 64-bit arithmetic, wrapping. *)
Definition wrap_int64 (z : Z) : Z := (z + 2 ^ 63) mod 2 ^ 64 - 2 ^ 63.

(** Unsigned 64-bit arithmetic ([uint64_t], [size_t]). *)
Definition wrap_uint64 (z : Z) : Z := z mod 2 ^ 64.

(** ** Data model *)

Abbreviation ptr := nat.

(** [ExtraFields<EventType::Kineto>::Flow]. *)
Record Flow := mkFlow {
  flow_id : Z;
  flow_type : Z;
  flow_start : bool }.

(** [TensorMetadata]: the handle ([TensorImpl]) address, the storage data
    address and the identity that [calculate_unique_tensor_ids] fills in.
    Address 0 is [nullptr]. *)
Record TensorMetadata := mkTensorMetadata {
  impl_ : Z;
  data_ : Z;
  id_ : option Z }.

Record TorchOpFields := mkTorchOp {
  end_time_ns_ : Z;
  forward_tid_ : Z;
  tensor_metadata_ : list (option TensorMetadata) }.

Record AllocationFields := mkAllocation {
  ptr_ : Z;
  alloc_size_ : Z;
  alloc_id_ : option Z }.

Record KinetoFields := mkKineto {
  duration_us_ : Z;
  flow : Flow;
  linked_activity_ : option ptr }.

(** The tagged union [Result::extra_fields_]; only the fields read by the
    functions below are kept. *)
Inductive ExtraFields :=
| TorchOp (e : TorchOpFields)
| Backend (end_time_us_ : Z)
| Allocation (e : AllocationFields)
| OutOfMemory
| PyCall (py_end_time_ns_ : Z)
| PyCCall (py_end_time_ns_ : Z)
| Kineto (e : KinetoFields).

Record Result := mkResult {
  start_time_ns_ : Z;
  start_tid_ : Z;
  extra_fields_ : ExtraFields;
  finished_ : bool;
  parent_ : option ptr;
  children_ : list ptr }.

Abbreviation store := (list Result).

Definition deref (s : store) (p : ptr) : outcome Result :=
  match s !! p with
  | Some r => Ok r
  | None => Err BadPointer
  end.

Definition set_finished (r : Result) : Result :=
  mkResult (start_time_ns_ r) (start_tid_ r) (extra_fields_ r) true
           (parent_ r) (children_ r).

Definition set_parent (p : option ptr) (r : Result) : Result :=
  mkResult (start_time_ns_ r) (start_tid_ r) (extra_fields_ r) (finished_ r)
           p (children_ r).

Definition push_child (c : ptr) (r : Result) : Result :=
  mkResult (start_time_ns_ r) (start_tid_ r) (extra_fields_ r) (finished_ r)
           (parent_ r) (children_ r ++ [c]).

Definition set_start_tid (t : Z) (r : Result) : Result :=
  mkResult (start_time_ns_ r) t (extra_fields_ r) (finished_ r)
           (parent_ r) (children_ r).

Definition is_kineto (r : Result) : bool :=
  match extra_fields_ r with
  | Kineto _ => true
  | _ => false
  end.

(** Allocation and OutOfMemory events: the instant events. *)
Definition is_instant (r : Result) : bool :=
  match extra_fields_ r with
  | Allocation _ | OutOfMemory => true
  | _ => false
  end.

(** ** End times *)

(** The end time stored in the event itself: what the visitor of
    [Result::endTimeNS] computes when nothing is borrowed from a parent. *)
Definition own_end_ns (r : Result) : Z :=
  match extra_fields_ r with
  | TorchOp e => end_time_ns_ e
  | Backend end_time_us => wrap_int64 (end_time_us * 1000)
  | Allocation _ => start_time_ns_ r
  | OutOfMemory => start_time_ns_ r
  | Kineto e => wrap_int64 (start_time_ns_ r + wrap_int64 (duration_us_ e * 1000))
  | PyCall e => e
  | PyCCall e => e
  end.

Section EndTime.

(** [softAssertRaises()]: whether a failing [SOFT_ASSERT] throws or only
    warns and yields [false]. *)
Context (soft_assert_raises : bool).

(** [Result::endTimeNS] together with [torchOpEndNS].  The recursion follows
    parent links, one unit of fuel per link. *)
Fixpoint endTimeNS (fuel : nat) (s : store) (p : ptr) : outcome Z :=
  match fuel with
  | O => Err OutOfFuel
  | S fuel' =>
    r ← deref s p;
    end_time_ns ←
      match extra_fields_ r with
      | TorchOp e =>
        if finished_ r && (end_time_ns_ e =? time_min)
        then match parent_ r with
             | Some q => endTimeNS fuel' s q
             | None => Ok (end_time_ns_ e)
             end
        else Ok (end_time_ns_ e)
      | _ => Ok (own_end_ns r)
      end;
    if negb (finished_ r) then Ok end_time_ns
    else if start_time_ns_ r <=? end_time_ns then Ok end_time_ns
    else if soft_assert_raises then Err SoftAssert
    else Ok (start_time_ns_ r)
  end.

(** Parent chains are never longer than the store. *)
Definition chain_fuel (s : store) : nat := S (length s).

Definition end_ns (s : store) (p : ptr) : outcome Z :=
  endTimeNS (chain_fuel s) s p.

(** [mark_finished]. *)
Definition mark_finished (s : store) (p : ptr) : outcome store :=
  r ← deref s p;
  _ ← check (negb (finished_ r));
  let s' := <[p := set_finished r]> s in
  e ← end_ns s' p;
  _ ← check (start_time_ns_ r <=? e);
  Ok s'.

End EndTime.

(** ** The tree builder ([build_tree]) *)

Section BuildTree.

Context (soft_assert_raises : bool).

(** The state of [build_tree]: the store of events, [stacks] (thread id to
    the open frame of that thread) and [end_events_].

    [end_events_] is a [std::priority_queue] ordered by [ResultGreater], so
    its top is an element of least [endTimeNS].  It is kept here as a list
    in ascending order of end time, an element being inserted behind the
    elements that compare equal (the standard leaves the order among equal
    keys open). *)
Record bt_state := mkBt {
  bt_store : store;
  stacks : gmap Z ptr;
  end_events_ : list ptr }.

(** [end_events_.push(event)], comparing with [ResultGreater]. *)
Fixpoint heap_push (s : store) (heap : list ptr) (event : ptr) (key : Z)
  : outcome (list ptr) :=
  match heap with
  | [] => Ok [event]
  | top :: rest =>
    k ← end_ns soft_assert_raises s top;
    if key <? k then Ok (event :: heap)
    else rest' ← heap_push s rest event key; Ok (top :: rest')
  end.

(** The loop over [event->children_] in [push_event]. *)
Fixpoint check_children_finished (s : store) (cs : list ptr) : outcome unit :=
  match cs with
  | [] => Ok tt
  | c :: cs' =>
    rc ← deref s c;
    _ ← check (finished_ rc);
    check_children_finished s cs'
  end.

(** [forward_tid_] for a TorchOp, 0 for every other kind. *)
Definition fwd_tid (r : Result) : Z :=
  match extra_fields_ r with
  | TorchOp e => forward_tid_ e
  | _ => 0
  end.

(** The two lookups in [stacks] that select the parent. *)
Definition find_parent (stk : gmap Z ptr) (r : Result) : option ptr :=
  match stk !! start_tid_ r with
  | Some p => Some p
  | None => if fwd_tid r =? 0 then None else stk !! fwd_tid r
  end.

(** [event->parent_ = p; p->children_.push_back(event)]. *)
Definition attach (s : store) (event p : ptr) : outcome store :=
  r ← deref s event;
  let s1 := <[event := set_parent (Some p) r]> s in
  rp ← deref s1 p;
  Ok (<[p := push_child event rp]> s1).

Definition push_event (st : bt_state) (event : ptr) : outcome bt_state :=
  r ← deref (bt_store st) event;
  if is_kineto r && finished_ r then Ok st
  else
    _ ← check (bool_decide (parent_ r = None));
    _ ← check_children_finished (bt_store st) (children_ r);
    _ ← check (negb (finished_ r));
    s1 ← match find_parent (stacks st) r with
         | Some p => attach (bt_store st) event p
         | None => Ok (bt_store st)
         end;
    e ← end_ns soft_assert_raises s1 event;
    if start_time_ns_ r <? e then
      heap ← heap_push s1 (end_events_ st) event e;
      Ok (mkBt s1 (<[start_tid_ r := event]> (stacks st)) heap)
    else if e =? time_min then
      Ok (mkBt s1 (<[start_tid_ r := event]> (stacks st)) (end_events_ st))
    else
      s2 ← mark_finished soft_assert_raises s1 event;
      Ok (mkBt s2 (stacks st) (end_events_ st)).

(** The [while (frame.get() != event.get())] loop of [pop_event].  Every
    iteration finishes a frame that was not finished before, so the number
    of iterations is bounded by the size of the store. *)
Fixpoint finish_frames (fuel : nat) (s : store) (frame event : ptr)
  : outcome store :=
  if bool_decide (frame = event) then Ok s
  else
    match fuel with
    | O => Err OutOfFuel
    | S fuel' =>
      s' ← mark_finished soft_assert_raises s frame;
      r ← deref s' frame;
      match parent_ r with
      | None => Err InternalAssert
      | Some q => finish_frames fuel' s' q event
      end
    end.

Definition pop_event (s : store) (stk : gmap Z ptr) (event : ptr)
  : outcome (store * gmap Z ptr) :=
  r ← deref s event;
  if finished_ r then Ok (s, stk)
  else
    frame ← match stk !! start_tid_ r with
            | Some f => Ok f
            | None => Err OutOfRange
            end;
    s1 ← finish_frames (length s) s frame event;
    s2 ← mark_finished soft_assert_raises s1 event;
    r2 ← deref s2 event;
    let stk' := delete (start_tid_ r) stk in
    match parent_ r2 with
    | Some new_frame => Ok (s2, <[start_tid_ r := new_frame]> stk')
    | None => Ok (s2, stk')
    end.

(** The inner loop of the stack replay: pop while the top of [end_events_]
    ends strictly before [t]. *)
Fixpoint close_before (s : store) (stk : gmap Z ptr) (heap : list ptr) (t : Z)
  : outcome bt_state :=
  match heap with
  | [] => Ok (mkBt s stk [])
  | top :: rest =>
    e ← end_ns soft_assert_raises s top;
    if e <? t then
      '(s', stk') ← pop_event s stk top;
      close_before s' stk' rest t
    else Ok (mkBt s stk heap)
  end.

(** The cleanup loop after the replay. *)
Fixpoint close_all (s : store) (stk : gmap Z ptr) (heap : list ptr)
  : outcome bt_state :=
  match heap with
  | [] => Ok (mkBt s stk [])
  | top :: rest =>
    '(s', stk') ← pop_event s stk top;
    close_all s' stk' rest
  end.

(** One iteration of the replay loop. *)
Definition replay_step (st : bt_state) (event : ptr) : outcome bt_state :=
  r ← deref (bt_store st) event;
  st' ← close_before (bt_store st) (stacks st) (end_events_ st)
                     (start_time_ns_ r);
  push_event st' event.

Fixpoint replay (st : bt_state) (events : list ptr) : outcome bt_state :=
  match events with
  | [] => Ok st
  | event :: rest => st' ← replay_step st event; replay st' rest
  end.

Definition build_tree_state (s : store) (sorted_events : list ptr)
  : outcome bt_state :=
  st ← replay (mkBt s ∅ []) sorted_events;
  close_all (bt_store st) (stacks st) (end_events_ st).

Definition build_tree (s : store) (sorted_events : list ptr) : outcome store :=
  st ← build_tree_state s sorted_events;
  Ok (bt_store st).

End BuildTree.

(** ** The sort by start time ([std::stable_sort] in [getRecords]) *)

Definition start_of (s : store) (p : ptr) : Z :=
  match s !! p with
  | Some r => start_time_ns_ r
  | None => 0
  end.

(** [std::stable_sort] is specified by its result: the sorted permutation
    that keeps equal elements in their original order.  Insertion sort
    computes it. *)
Fixpoint insert_by_start (s : store) (x : ptr) (l : list ptr) : list ptr :=
  match l with
  | [] => [x]
  | y :: l' =>
    if start_of s y <? start_of s x then y :: insert_by_start s x l'
    else x :: l
  end.

Fixpoint stable_sort (s : store) (l : list ptr) : list ptr :=
  match l with
  | [] => []
  | x :: l' => insert_by_start s x (stable_sort s l')
  end.

(** The tail of [getRecords] once the events are merged (buffer identities
    do not touch the fields the tree builder reads). *)
Definition sort_and_build (soft_assert_raises : bool) (s : store)
  (out : list ptr) : outcome store :=
  build_tree soft_assert_raises s (stable_sort s out).

(** ** The external-trace merge ([TransferEvents::setParents]) *)

Section SetParents.

Context (soft_assert_raises : bool).
(** [libkineto::kLinkAsyncCpuGpu]. *)
Context (kLinkAsyncCpuGpu : Z).
(** Whether the build defines [USE_ROCM]. *)
Context (use_rocm : bool).
(** [at::RecordFunction::currentThreadId()]. *)
Context (currentThreadId : Z).

(** [std::numeric_limits<uint64_t>::max()]. *)
Definition noTID : Z := 2 ^ 64 - 1.

(** First pass: collect the flow starts, set the parent to the linked
    activity. *)
Definition first_pass_step (acc : store * gmap Z ptr) (e : ptr)
  : outcome (store * gmap Z ptr) :=
  r ← deref acc.1 e;
  match extra_fields_ r with
  | Kineto i =>
    flow_map ←
      (if (flow_type (flow i) =? kLinkAsyncCpuGpu) && flow_start (flow i) then
         match acc.2 !! flow_id (flow i) with
         | None => Ok (<[flow_id (flow i) := e]> acc.2)
         | Some _ => if use_rocm then Ok acc.2 else Err InternalAssert
         end
       else Ok acc.2);
    _ ← check (bool_decide (parent_ r = None));
    Ok (<[e := set_parent (linked_activity_ i) r]> acc.1, flow_map)
  | _ => Ok acc
  end.

Fixpoint first_pass (acc : store * gmap Z ptr) (results : list ptr)
  : outcome (store * gmap Z ptr) :=
  match results with
  | [] => Ok acc
  | e :: rest => acc' ← first_pass_step acc e; first_pass acc' rest
  end.

(** The parent after the flow lookup of the second pass. *)
Definition flow_parent (flow_map : gmap Z ptr) (i : KinetoFields)
  (linked : option ptr) : option ptr :=
  match flow_map !! flow_id (flow i) with
  | Some start =>
    if (flow_type (flow i) =? kLinkAsyncCpuGpu) && negb (flow_start (flow i))
    then Some start
    else linked
  | None => linked
  end.

(** Second pass: flow takes priority over the linked event; an event with a
    parent becomes a child of it and is marked finished. *)
Definition second_pass_step (flow_map : gmap Z ptr) (s : store) (e : ptr)
  : outcome store :=
  r ← deref s e;
  match extra_fields_ r with
  | Kineto i =>
    let r1 := set_parent (flow_parent flow_map i (parent_ r)) r in
    let s1 := <[e := r1]> s in
    match parent_ r1 with
    | Some parent =>
      rp ← deref s1 parent;
      mark_finished soft_assert_raises (<[parent := push_child e rp]> s1) e
    | None => Ok s1
    end
  | _ => Ok s
  end.

Fixpoint second_pass (flow_map : gmap Z ptr) (s : store) (results : list ptr)
  : outcome store :=
  match results with
  | [] => Ok s
  | e :: rest => s' ← second_pass_step flow_map s e; second_pass flow_map s' rest
  end.

(** [setKinetoTID]; the recursion descends along [children_]. *)
Fixpoint setKinetoTID (fuel : nat) (s : store) (r : ptr) (parent : option ptr)
  : outcome store :=
  match fuel with
  | O => Err OutOfFuel
  | S fuel' =>
    rr ← deref s r;
    s1 ← (if is_kineto rr then
            _ ← check (start_tid_ rr =? noTID);
            tid ← match parent with
                  | Some p => rp ← deref s p; Ok (start_tid_ rp)
                  | None => Ok currentThreadId
                  end;
            Ok (<[r := set_start_tid tid rr]> s)
          else Ok s);
    (fix each_child (s : store) (cs : list ptr) {struct cs} : outcome store :=
       match cs with
       | [] => Ok s
       | c :: cs' => s' ← setKinetoTID fuel' s c (Some r); each_child s' cs'
       end) s1 (children_ rr)
  end.

(** Third pass: thread ids for the subtrees of the events without parent. *)
Fixpoint third_pass (s : store) (results : list ptr) : outcome store :=
  match results with
  | [] => Ok s
  | e :: rest =>
    r ← deref s e;
    s' ← match parent_ r with
         | None => setKinetoTID (chain_fuel s) s e None
         | Some _ => Ok s
         end;
    third_pass s' rest
  end.

Definition setParents (s : store) (results : list ptr) : outcome store :=
  '(s1, flow_map) ← first_pass (s, ∅) results;
  s2 ← second_pass flow_map s1 results;
  third_pass s2 results.

End SetParents.

(** ** Buffer identities ([calculate_unique_tensor_ids]) *)

(** [TensorStoragePair::id_ref_] refers to the [id_] of one tensor input of a
    TorchOp or to the [id_] of an Allocation. *)
Inductive id_ref :=
| InputRef (event : ptr) (k : nat)
| AllocRef (event : ptr).

#[global] Instance id_ref_eq_dec : EqDecision id_ref.
Proof. solve_decision. Defined.

Record TensorStoragePair := mkPair {
  pair_impl_ : Z;
  storage_id_ : Z;
  id_ref_ : id_ref }.

(** The variables of step 1. *)
Record clustering := mkClustering {
  current_id : Z;
  live_storage : gmap Z Z;
  tensor_set : gset Z;
  tensors : list TensorStoragePair }.

(** The [lookup] lambda: the id of a live address, or the next fresh id. *)
Definition storage_lookup (c : clustering) (data : Z) : clustering * Z :=
  match live_storage c !! data with
  | Some id => (c, id)
  | None =>
    (mkClustering (wrap_uint64 (current_id c + 1))
                  (<[data := current_id c]> (live_storage c))
                  (tensor_set c) (tensors c),
     current_id c)
  end.

(** The TorchOp visitor, input [k] onwards. *)
Fixpoint visit_inputs (event : ptr) (k : nat)
  (ms : list (option TensorMetadata)) (c : clustering) : clustering :=
  match ms with
  | [] => c
  | m :: ms' =>
    let c' :=
      match m with
      | Some md =>
        if negb (impl_ md =? 0) && negb (data_ md =? 0) then
          let '(c1, id) := storage_lookup c (data_ md) in
          mkClustering (current_id c1) (live_storage c1)
                       ({[id]} ∪ tensor_set c1)
                       (tensors c1 ++ [mkPair (impl_ md) id (InputRef event k)])
        else c
      | None => c
      end in
    visit_inputs event (S k) ms' c'
  end.

(** The Allocation visitor. *)
Definition visit_allocation (event : ptr) (a : AllocationFields)
  (c : clustering) : clustering :=
  let '(c1, id) := storage_lookup c (ptr_ a) in
  mkClustering (current_id c1)
               (if alloc_size_ a <? 0 then delete (ptr_ a) (live_storage c1)
                else live_storage c1)
               (tensor_set c1)
               (tensors c1 ++ [mkPair 0 id (AllocRef event)]).

Definition visit_result (s : store) (c : clustering) (event : ptr)
  : outcome clustering :=
  r ← deref s event;
  match extra_fields_ r with
  | TorchOp e => Ok (visit_inputs event 0 (tensor_metadata_ e) c)
  | Allocation a => Ok (visit_allocation event a c)
  | _ => Ok c
  end.

Fixpoint flatten (s : store) (c : clustering) (sorted_results : list ptr)
  : outcome clustering :=
  match sorted_results with
  | [] => Ok c
  | event :: rest => c' ← visit_result s c event; flatten s c' rest
  end.

(** Step 1 up to the [remove_if]. *)
Definition cluster_by_address (s : store) (sorted_results : list ptr)
  : outcome clustering :=
  flatten s (mkClustering 0 ∅ ∅ []) sorted_results.

(** The [remove_if]: drop the pairs whose storage id no op input has. *)
Definition prune (c : clustering) : list TensorStoragePair :=
  filter (fun t => storage_id_ t ∈ tensor_set c) (tensors c).

(** Step 2: the storage of a TensorImpl changed. *)
Definition group_step (acc : gmap Z Z * gset (Z * Z)) (t : TensorStoragePair)
  : gmap Z Z * gset (Z * Z) :=
  if pair_impl_ t =? 0 then acc
  else
    let first := default (storage_id_ t) (acc.1 !! pair_impl_ t) in
    let impl_map := <[pair_impl_ t := first]> acc.1 in
    let edge := if first <? storage_id_ t then (first, storage_id_ t)
                else (storage_id_ t, first) in
    (impl_map, {[edge]} ∪ acc.2).

Definition same_group_set (ts : list TensorStoragePair) : gset (Z * Z) :=
  (foldl group_step (∅, ∅) ts).2.

(** [operator<] of [std::pair], as [<=]. *)
Definition pair_leb (a b : Z * Z) : bool :=
  (a.1 <? b.1) || ((a.1 =? b.1) && (a.2 <=? b.2)).

Fixpoint insert_pair (x : Z * Z) (l : list (Z * Z)) : list (Z * Z) :=
  match l with
  | [] => [x]
  | y :: l' => if pair_leb x y then x :: l else y :: insert_pair x l'
  end.

(** [std::sort] of pairs that are pairwise different. *)
Definition sort_pairs (l : list (Z * Z)) : list (Z * Z) :=
  foldr insert_pair [] l.

(** Step 3: final ids, the first id seen wins. *)
Definition coalesce_step (acc : Z * gmap Z Z) (i : Z * Z) : Z * gmap Z Z :=
  match acc.2 !! i.1 with
  | Some v =>
    (acc.1, match acc.2 !! i.2 with
            | Some _ => acc.2
            | None => <[i.2 := v]> acc.2
            end)
  | None =>
    let m := <[i.1 := acc.1]> acc.2 in
    (wrap_uint64 (acc.1 + 1),
     match m !! i.2 with
     | Some _ => m
     | None => <[i.2 := acc.1]> m
     end)
  end.

Definition coalesce (same_group : gset (Z * Z)) : gmap Z Z :=
  (foldl coalesce_step (0, ∅) (sort_pairs (elements same_group))).2.

(** Step 4: the assignment through [id_ref_]. *)
Definition set_input_id (v : Z) (m : option TensorMetadata)
  : option TensorMetadata :=
  match m with
  | Some md => Some (mkTensorMetadata (impl_ md) (data_ md) (Some v))
  | None => None
  end.

Definition set_extra (x : ExtraFields) (r : Result) : Result :=
  mkResult (start_time_ns_ r) (start_tid_ r) x (finished_ r)
           (parent_ r) (children_ r).

Definition write_id (s : store) (ref : id_ref) (v : Z) : outcome store :=
  match ref with
  | InputRef event k =>
    r ← deref s event;
    match extra_fields_ r with
    | TorchOp e =>
      Ok (<[event := set_extra
              (TorchOp (mkTorchOp (end_time_ns_ e) (forward_tid_ e)
                          (alter (set_input_id v) k (tensor_metadata_ e)))) r]> s)
    | _ => Err BadPointer
    end
  | AllocRef event =>
    r ← deref s event;
    match extra_fields_ r with
    | Allocation a =>
      Ok (<[event := set_extra
              (Allocation (mkAllocation (ptr_ a) (alloc_size_ a) (Some v))) r]> s)
    | _ => Err BadPointer
    end
  end.

Fixpoint write_back (id_map : gmap Z Z) (s : store)
  (ts : list TensorStoragePair) : outcome store :=
  match ts with
  | [] => Ok s
  | t :: rest =>
    v ← match id_map !! storage_id_ t with
        | Some v => Ok v
        | None => Err OutOfRange
        end;
    s' ← write_id s (id_ref_ t) v;
    write_back id_map s' rest
  end.

Definition calculate_unique_tensor_ids (s : store) (sorted_results : list ptr)
  : outcome store :=
  c ← cluster_by_address s sorted_results;
  let ts := prune c in
  write_back (coalesce (same_group_set ts)) s ts.

(** The identity of an Allocation event, if it has one. *)
Definition allocation_id (s : store) (event : ptr) : option Z :=
  match s !! event with
  | Some r =>
    match extra_fields_ r with
    | Allocation a => alloc_id_ a
    | _ => None
    end
  | None => None
  end.

(** The end of [getRecords]: the sort, the buffer identities if input shapes
    and memory events are both recorded, the tree. *)
Definition sort_identify_build (soft_assert_raises : bool)
  (report_input_shapes profile_memory : bool) (s : store) (out : list ptr)
  : outcome store :=
  let sorted := stable_sort s out in
  s1 ← (if report_input_shapes && profile_memory
        then calculate_unique_tensor_ids s sorted
        else Ok s);
  build_tree soft_assert_raises s1 sorted.

(** ** Correlation ids ([EventBlock], [OpList::emplace_back]) *)

Section CorrelationId.

(** The template parameter [ChunkSize] of [EventBlock]. *)
Context (ChunkSize : Z).

(** The constructor of [EventBlock]: [id_start_ = 1 + ChunkSize * counter_++]
    on the static atomic counter; gives [id_start_] and the counter after
    the increment. *)
Definition EventBlock_new (counter_ : Z) : Z * Z :=
  (wrap_uint64 (1 + wrap_uint64 (ChunkSize * counter_)),
   wrap_uint64 (counter_ + 1)).

(** [EventBlock::correlation_id(ptr)], [offset] being [ptr - data()]. *)
Definition correlation_id (id_start_ offset : Z) : Z :=
  wrap_uint64 (id_start_ + offset).

(** An [OpList]: [id_start_] of [buffer_last_] and the offset of [next_] in
    that block; [None] before the first block exists. *)
Definition OpList := option (Z * Z).

(** Modelled from the spec: [AppendOnlyList::maybe_grow] (containers.h is
    not part of the sources): storage grows by one fixed-size block whenever
    the current block is full, existing blocks never move. *)
Definition maybe_grow (counter_ : Z) (l : OpList) : Z * (Z * Z) :=
  match l with
  | Some (id_start, next) =>
    if next <? ChunkSize then (counter_, (id_start, next))
    else let '(id_start', counter') := EventBlock_new counter_ in
         (counter', (id_start', 0))
  | None =>
    let '(id_start', counter') := EventBlock_new counter_ in
    (counter', (id_start', 0))
  end.

(** [OpList::emplace_back]: the new counter, the list after [next_++] and
    the correlation id of the new event. *)
Definition emplace_back (counter_ : Z) (l : OpList) : Z * OpList * Z :=
  let '(counter', (id_start, next)) := maybe_grow counter_ l in
  (counter', Some (id_start, next + 1), correlation_id id_start next).

(** A session: the static counter and the [OpList] of every thread. *)
Record session := mkSession {
  counter : Z;
  op_events_ : gmap Z OpList }.

(** [begin_op] on thread [tid], as far as correlation ids go. *)
Definition begin_op (st : session) (tid : Z) : session * Z :=
  let '(counter', l, corr_id) :=
    emplace_back (counter st) (default None (op_events_ st !! tid)) in
  (mkSession counter' (<[tid := l]> (op_events_ st)), corr_id).

(** The correlation ids handed out when the threads of [schedule] call
    [begin_op] in that order; increments of the atomic counter are totally
    ordered, which is all that the interleaving of threads contributes. *)
Fixpoint correlation_ids (st : session) (schedule : list Z) : list Z :=
  match schedule with
  | [] => []
  | tid :: rest =>
    let '(st', corr_id) := begin_op st tid in
    corr_id :: correlation_ids st' rest
  end.

End CorrelationId.

(** ** Input/output encoder ([InputOutputEncoder]) *)

(** [uint32_t] arithmetic. *)
Definition wrap_uint32 (z : Z) : Z := z mod 2 ^ 32.

(** [InputOutputEncoder::Tag]. *)
Module Tag.
Inductive t :=
| Tensor | UndefinedTensor | TensorListBegin | Scalar | Other | TERMINATOR.
End Tag.

(** What the encoder reads of an [at::Tensor]; a field stands for the
    accessor of the same name ([storage_data] for [storage().data()]). *)
Record Tensor := mkTensor {
  defined : bool;
  is_nested : bool;
  unsafeGetTensorImpl : Z;
  has_storage : bool;
  storage_data : Z;
  device_type : Z;
  device_index : Z;
  scalar_type : Z;
  layout : Z;
  sizes : list Z;
  strides : list Z }.

(** [RawTensorMetadata]; [weakref_], a second handle on [impl_], is left
    out. *)
Record RawTensorMetadata := mkRawTensorMetadata {
  raw_impl_ : Z;
  raw_data_ : Z;
  device_type_ : Z;
  device_index_ : Z;
  dtype_ : Z;
  layout_ : Z;
  dim_ : Z }.

(** The constructor [RawTensorMetadata(const at::Tensor&)]. *)
Definition RawTensorMetadata_of (t : Tensor) : RawTensorMetadata :=
  mkRawTensorMetadata
    (unsafeGetTensorImpl t)
    (if has_storage t then storage_data t else 0)
    (device_type t) (device_index t) (scalar_type t) (layout t)
    (wrap_uint32 (Z.of_nat (length (sizes t)))).

(** [c10::IValue], as far as the encoder looks at it. *)
Class IValueOps (IValue : Type) := {
  isTensor : IValue → bool;
  toTensor : IValue → Tensor;
  isScalar : IValue → bool;
  isTensorList : IValue → bool;
  (** the default-constructed [IValue] *)
  IValue_default : IValue }.

(** The result of a call that may fail a [TORCH_CHECK]: the exception leaves
    the object as it is at the throw. *)
Inductive checked (A : Type) :=
| Returns (a : A)
| Throws (a : A).
Arguments Returns {A} a.
Arguments Throws {A} a.

(** [struct Inputs]. *)
Record Inputs {IValue : Type} := mkInputs {
  shapes_ : list (list Z);
  strides_ : list (list Z);
  inputs_ivalues_ : list IValue;
  dtypes_ : list string;
  inputs_tensor_metadata_ : list (option TensorMetadata) }.
Arguments Inputs IValue : clear implicits.
Arguments mkInputs {IValue} _ _ _ _ _.

Record InputOutputEncoder {IValue : Type} := mkEncoder {
  tags_ : list Tag.t;
  encoder_tensor_metadata_ : list RawTensorMetadata;
  tensor_sizes_strides_ : list Z;
  ivalues_ : list IValue }.
Arguments InputOutputEncoder IValue : clear implicits.
Arguments mkEncoder {IValue} _ _ _ _.

(** The state that the lambda of [getNextShapesAndDtypes] captures: each
    iterator is the part of its stream that is still to be read. *)
Record decoder {IValue : Type} := mkDecoder {
  tag_it : list Tag.t;
  tensor_metadata_it : list RawTensorMetadata;
  tensor_size_strides_it : list Z;
  ivals_it : list IValue }.
Arguments decoder IValue : clear implicits.
Arguments mkDecoder {IValue} _ _ _ _.

Section Encoder.

Context {IValue : Type} `{!IValueOps IValue}.
(** [at::kStrided]. *)
Context (kStrided : Z).
(** [scalarTypeToTypeMeta(dtype).name()]. *)
Context (type_name : Z → string).

#[local] Abbreviation Encoder := (InputOutputEncoder IValue).

(** [InputOutputEncoder::push(const at::Tensor&)]. *)
Definition push_tensor (enc : Encoder) (t : Tensor) : checked Encoder :=
  if defined t && negb (is_nested t) then
    let tags := tags_ enc ++ [Tag.Tensor] in
    if Z.of_nat (length (sizes t)) <=? 2 ^ 32 - 1 then
      Returns
        (mkEncoder tags
           (encoder_tensor_metadata_ enc ++ [RawTensorMetadata_of t])
           (tensor_sizes_strides_ enc ++ sizes t
            ++ (if layout t =? kStrided then strides t else []))
           (ivalues_ enc))
    else
      Throws (mkEncoder tags (encoder_tensor_metadata_ enc)
                        (tensor_sizes_strides_ enc) (ivalues_ enc))
  else
    Returns (mkEncoder (tags_ enc ++ [Tag.UndefinedTensor])
                       (encoder_tensor_metadata_ enc)
                       (tensor_sizes_strides_ enc) (ivalues_ enc)).

(** The body of the loop of [push(ArrayRef<const IValue>)]. *)
Definition push_value (enc : Encoder) (value : IValue) : checked Encoder :=
  if isTensor value then push_tensor enc (toTensor value)
  else if isScalar value then
    Returns (mkEncoder (tags_ enc ++ [Tag.Scalar])
                       (encoder_tensor_metadata_ enc)
                       (tensor_sizes_strides_ enc) (ivalues_ enc ++ [value]))
  else if isTensorList value then
    Returns (mkEncoder (tags_ enc ++ [Tag.TensorListBegin; Tag.TERMINATOR])
                       (encoder_tensor_metadata_ enc)
                       (tensor_sizes_strides_ enc) (ivalues_ enc))
  else
    Returns (mkEncoder (tags_ enc ++ [Tag.Other])
                       (encoder_tensor_metadata_ enc)
                       (tensor_sizes_strides_ enc) (ivalues_ enc)).

Fixpoint push_values (enc : Encoder) (values : list IValue)
  : checked Encoder :=
  match values with
  | [] => Returns enc
  | value :: rest =>
    match push_value enc value with
    | Returns enc' => push_values enc' rest
    | Throws enc' => Throws enc'
    end
  end.

(** [InputOutputEncoder::push(ArrayRef<const IValue>)]. *)
Definition push (enc : Encoder) (values : list IValue) : checked Encoder :=
  match push_values enc values with
  | Returns enc' =>
    Returns (mkEncoder (tags_ enc' ++ [Tag.TERMINATOR])
                       (encoder_tensor_metadata_ enc')
                       (tensor_sizes_strides_ enc') (ivalues_ enc'))
  | Throws enc' => Throws enc'
  end.

(** [InputOutputEncoder::clear]. *)
Definition clear (enc : Encoder) : Encoder := mkEncoder [] [] [] [].

(** [getNextShapesAndDtypes]: the iterators start at [begin()]. *)
Definition getNextShapesAndDtypes (enc : Encoder) : decoder IValue :=
  mkDecoder (tags_ enc) (encoder_tensor_metadata_ enc)
            (tensor_sizes_strides_ enc) (ivalues_ enc).

(** [n] times [*tensor_size_strides_it++]; reading past the end of the
    stream is undefined behaviour, here [None]. *)
Definition read_sizes (n : nat) (it : list Z) : option (list Z * list Z) :=
  if decide (n ≤ length it)%nat then Some (take n it, drop n it) else None.

(** [out.X_.emplace_back(...)] for the three vectors that every case of the
    switch appends to, on top of a row [shape] of [shapes_] and a row
    [stride] of [strides_]. *)
Definition emplace_input (out : Inputs IValue) (shape stride : list Z)
  (md : option TensorMetadata) (ivalue : IValue) (dtype : string)
  : Inputs IValue :=
  mkInputs (shapes_ out ++ [shape]) (strides_ out ++ [stride])
           (inputs_ivalues_ out ++ [ivalue]) (dtypes_ out ++ [dtype])
           (inputs_tensor_metadata_ out ++ [md]).

(** The loop of the lambda.  [skipping] holds inside the inner loop
    [while ( *(++tag_it) != Tag::TERMINATOR)] of the [TensorListBegin] case;
    [tags] is the stream from [tag_it] on.  A dereference past the end of a
    stream gives [None]. *)
Fixpoint next_loop (skipping : bool) (tags : list Tag.t)
  (mds : list RawTensorMetadata) (szs : list Z) (ivs : list IValue)
  (out : Inputs IValue) : option (Inputs IValue * decoder IValue) :=
  match tags with
  | [] => if skipping then None else Some (out, mkDecoder [] mds szs ivs)
  | tag :: tags' =>
    if skipping then
      match tag with
      | Tag.TERMINATOR =>
        next_loop false tags' mds szs ivs
                  (emplace_input out [] [] None IValue_default "TensorList")
      | _ => next_loop true tags' mds szs ivs out
      end
    else
      match tag with
      | Tag.Tensor =>
        match mds with
        | [] => None
        | md :: mds' =>
          '(shape, szs1) ← read_sizes (Z.to_nat (dim_ md)) szs;
          '(stride, szs2) ←
            (if layout_ md =? kStrided
             then read_sizes (Z.to_nat (dim_ md)) szs1
             else Some ([], szs1));
          next_loop false tags' mds' szs2 ivs
            (emplace_input out shape stride
               (Some (mkTensorMetadata (raw_impl_ md) (raw_data_ md) None))
               IValue_default (type_name (dtype_ md)))
        end
      | Tag.TensorListBegin => next_loop true tags' mds szs ivs out
      | Tag.Scalar =>
        match ivs with
        | [] => None
        | ivalue :: ivs' =>
          next_loop false tags' mds szs ivs'
                    (emplace_input out [] [] None ivalue "Scalar")
        end
      | Tag.UndefinedTensor | Tag.Other =>
        next_loop false tags' mds szs ivs
                  (emplace_input out [] [] None IValue_default "")
      | Tag.TERMINATOR =>
        Some (mkInputs (removelast (shapes_ out ++ [[]]))
                       (removelast (strides_ out ++ [[]]))
                       (inputs_ivalues_ out) (dtypes_ out)
                       (inputs_tensor_metadata_ out),
              mkDecoder tags' mds szs ivs)
      end
  end.

(** One call of the lambda: the decoded inputs of the next op and the
    advanced iterators. *)
Definition next_inputs (d : decoder IValue)
  : option (Inputs IValue * decoder IValue) :=
  next_loop false (tag_it d) (tensor_metadata_it d)
            (tensor_size_strides_it d) (ivals_it d)
            (mkInputs [] [] [] [] []).

End Encoder.

(** ** Recording and collation of TorchOps
       ([ThreadLocalSubqueue::begin_op], [TorchOpStorage::materialize]) *)

(** [at::RecordScope], as far as the profiler tells the scopes apart. *)
Inductive RecordScope :=
| FUNCTION
| BACKWARD_FUNCTION
| USER_SCOPE
| OtherScope (code : Z).

#[global] Instance RecordScope_eq_dec : EqDecision RecordScope.
Proof. solve_decision. Defined.

(** [ProfilerState], of which [begin_op] singles out one value. *)
Inductive ProfilerState :=
| KINETO_GPU_FALLBACK
| OtherState (code : Z).

#[global] Instance ProfilerState_eq_dec : EqDecision ProfilerState.
Proof. solve_decision. Defined.

Module ThreadLocalSubqueue.

(** The arguments of [op_events_.emplace_back] in [begin_op]. *)
Record BasicFields := mkBasicFields {
  sequence_number_ : Z;
  forward_tid_ : Z;
  scope_ : RecordScope;
  is_async_ : bool;
  debug_handle_ : Z;
  name_ : string }.

(** [KinetoObserverContext::Event]. *)
Record Event := mkEvent {
  basic_fields_ : BasicFields;
  start_time_ : Z;
  end_time_ : Z;
  allow_tf32_cublas_ : bool }.

(** [FallbackPair]: the two CUDA events, null until recorded. *)
Record FallbackPair := mkFallbackPair {
  cuda_event_start_ : option Z;
  cuda_event_end_ : option Z }.

Record ProfilerConfig := mkConfig {
  state : ProfilerState;
  report_input_shapes : bool;
  with_stack : bool;
  with_flops : bool;
  with_modules : bool }.

(** [op_events_]: the events in order, each with the [id_start_] of its
    block and its offset in the block, and the block that is written to. *)
Record OpEvents := mkOpEvents {
  elements : list (Event * (Z * Z));
  buffer_last_ : OpList }.

Section Collation.

Context {IValue : Type} `{!IValueOps IValue}.
Context (kStrided : Z) (type_name : Z → string).
(** The template parameter [ChunkSize] of the event blocks. *)
Context (ChunkSize : Z).
(** Whether [BUILD_LITE_INTERPRETER] or [C10_MOBILE] is defined. *)
Context (lite_interpreter : bool).
(** The values that the constructor of [Event] gives to [start_time_],
    [end_time_] and [allow_tf32_cublas_] (collection.h is not part of the
    sources). *)
Context (Event_start_time Event_end_time : Z) (Event_allow_tf32 : bool).

(** [extra_args_t], a map from argument names to values. *)
#[local] Abbreviation extra_args_t := (gmap string IValue).

(** [TorchOpStorage]. *)
Record TorchOpStorage := mkStorage {
  op_events_ : OpEvents;
  inputs_outputs_ : InputOutputEncoder IValue;
  jit_stack_ : list (list string);
  jit_modules_ : list (list string);
  extra_args_ : list extra_args_t;
  gpu_fallback_ : list FallbackPair }.

(** What [begin_op] reads of its [at::RecordFunction]. *)
Record RecordFunction := mkRecordFunction {
  seqNr : Z;
  forwardThreadId : Z;
  scope : RecordScope;
  isAsync : bool;
  debugHandle : Z;
  name : string;
  inputs : list IValue }.

(** What the surroundings answer during one call of [begin_op]:
    [callstackStr(prepareCallstack(jit::currentCallstack()))],
    [jit::currentModuleHierarchy()], [saveExtraArgs(fn)], the event that
    [cudaStubs()->record] stores ([None] if it throws),
    [getApproximateTime()] and [at::globalContext().allowTF32CuBLAS()]. *)
Record Observed := mkObserved {
  callstack : list string;
  module_hierarchy : list string;
  saved_extra_args : extra_args_t;
  recorded_cuda_event : option Z;
  approximate_time : Z;
  allowTF32CuBLAS : bool }.

(** [ThreadLocalSubqueue::begin_op]: the static block counter afterwards,
    the correlation id (which is pushed to Kineto) and the storage.  When
    the [TORCH_CHECK] of the encoder fails the event is in [op_events_] as
    constructed and nothing else has happened. *)
Definition begin_op (config_ : ProfilerConfig) (counter_ : Z)
  (torch_ops_ : TorchOpStorage) (fn : RecordFunction) (now : Observed)
  : Z * Z * checked TorchOpStorage :=
  let '(counter', (id_start, next)) :=
    maybe_grow ChunkSize counter_ (buffer_last_ (op_events_ torch_ops_)) in
  let corr_id := correlation_id id_start next in
  let basic := mkBasicFields (seqNr fn) (forwardThreadId fn) (scope fn)
                             (isAsync fn) (debugHandle fn) (name fn) in
  let emplaced event :=
    mkOpEvents (elements (op_events_ torch_ops_) ++ [(event, (id_start, next))])
               (Some (id_start, next + 1)) in
  match (if report_input_shapes config_
         then push kStrided (inputs_outputs_ torch_ops_) (inputs fn)
         else Returns (inputs_outputs_ torch_ops_)) with
  | Throws enc =>
    (counter', corr_id,
     Throws (mkStorage
               (emplaced (mkEvent basic Event_start_time Event_end_time
                                  Event_allow_tf32))
               enc (jit_stack_ torch_ops_) (jit_modules_ torch_ops_)
               (extra_args_ torch_ops_) (gpu_fallback_ torch_ops_)))
  | Returns enc =>
    let jit_stack :=
      if negb lite_interpreter && with_stack config_
         && negb (bool_decide (scope fn = BACKWARD_FUNCTION))
      then jit_stack_ torch_ops_ ++ [callstack now]
      else jit_stack_ torch_ops_ in
    let jit_modules :=
      if negb lite_interpreter && with_modules config_
         && negb (bool_decide (scope fn = BACKWARD_FUNCTION))
      then jit_modules_ torch_ops_ ++ [module_hierarchy now]
      else jit_modules_ torch_ops_ in
    let extra_args :=
      if with_flops config_
      then extra_args_ torch_ops_ ++ [saved_extra_args now]
      else extra_args_ torch_ops_ in
    let gpu_fallback :=
      if bool_decide (state config_ = KINETO_GPU_FALLBACK)
      then gpu_fallback_ torch_ops_
           ++ [mkFallbackPair (recorded_cuda_event now) None]
      else gpu_fallback_ torch_ops_ in
    (counter', corr_id,
     Returns (mkStorage
                (emplaced (mkEvent basic (approximate_time now) Event_end_time
                                   (allowTF32CuBLAS now)))
                enc jit_stack jit_modules extra_args gpu_fallback))
  end.

(** [StealOrDefault::operator()]: the next element of the container, or a
    default-constructed value once the iterator is exhausted. *)
Definition StealOrDefault {T} (default : T) (it_ : list T) : T * list T :=
  match it_ with
  | [] => (default, [])
  | result :: it' => (result, it')
  end.

(** One iteration of the loop "Plumb Autograd info to the top level
    annotation", [it] being at position [i]; the update is in place. *)
Definition plumb_step (events : list (Event * (Z * Z))) (i : nat)
  : list (Event * (Z * Z)) :=
  match events !! i, events !! S i with
  | Some (e1, address), Some (e2, _) =>
    let first := basic_fields_ e1 in
    let second := basic_fields_ e2 in
    if bool_decide (scope_ first = FUNCTION)
       && bool_decide (scope_ second = BACKWARD_FUNCTION)
       && String.prefix "autograd::engine::evaluate_function: " (name_ first)
    then
      <[i := (mkEvent (mkBasicFields (sequence_number_ second)
                         (forward_tid_ second) (scope_ first) (is_async_ first)
                         (debug_handle_ first) (name_ first))
                      (start_time_ e1) (end_time_ e1) (allow_tf32_cublas_ e1),
              address)]> events
    else events
  | _, _ => events
  end.

(** The loop, over [c10::irange(op_events_.size() - 1)]. *)
Definition plumb_autograd (events : list (Event * (Z * Z)))
  : list (Event * (Z * Z)) :=
  foldl plumb_step events (seq 0 (length events - 1)).

(** [ExtraFields<EventType::TorchOp>] as [materialize] builds it, with the
    arguments of [Result::create]. *)
Record Materialized := mkMaterialized {
  result_start_time_ns_ : Z;
  result_start_tid_ : Z;
  result_kineto_info_ : Z * Z;
  op_basic_fields_ : BasicFields;
  op_correlation_id_ : Z;
  op_end_time_ns_ : Z;
  op_inputs_ : Inputs IValue;
  op_jit_stack_ : list string;
  op_jit_modules_ : list string;
  op_extra_args_ : extra_args_t;
  op_gpu_fallback_ : FallbackPair;
  op_allow_tf32_cublas_ : bool }.

(** The loop over [op_events_] in [materialize]. *)
Fixpoint materialize_loop (time_converter : Z → Z) (tid : Z)
  (kineto_info : Z * Z) (events : list (Event * (Z * Z)))
  (input_getter : decoder IValue) (jit_stack jit_module : list (list string))
  (extra_args : list extra_args_t) (gpu_fallback : list FallbackPair)
  : option (list Materialized) :=
  match events with
  | [] => Some []
  | (event, (id_start, offset)) :: rest =>
    '(op_inputs, input_getter') ← next_inputs kStrided type_name input_getter;
    let '(stack, jit_stack') := StealOrDefault [] jit_stack in
    let '(modules, jit_module') := StealOrDefault [] jit_module in
    let '(args, extra_args') := StealOrDefault ∅ extra_args in
    let '(fallback, gpu_fallback') :=
      StealOrDefault (mkFallbackPair None None) gpu_fallback in
    out ← materialize_loop time_converter tid kineto_info rest input_getter'
                           jit_stack' jit_module' extra_args' gpu_fallback';
    Some (mkMaterialized (time_converter (start_time_ event)) tid kineto_info
            (basic_fields_ event) (correlation_id id_start offset)
            (time_converter (end_time_ event)) op_inputs stack modules args
            fallback (allow_tf32_cublas_ event)
          :: out)
  end.

(** [TorchOpStorage::materialize]: the results that are appended to [out]
    and the storage, which is left empty. *)
Definition materialize (time_converter : Z → Z) (tid : Z)
  (kineto_info : Z * Z) (q : TorchOpStorage)
  : option (list Materialized * TorchOpStorage) :=
  out ← materialize_loop time_converter tid kineto_info
         (plumb_autograd (elements (op_events_ q)))
         (getNextShapesAndDtypes (inputs_outputs_ q))
         (jit_stack_ q) (jit_modules_ q) (extra_args_ q) (gpu_fallback_ q);
  Some (out, mkStorage (mkOpEvents [] None) (clear (inputs_outputs_ q))
                       [] [] [] []).

End Collation.

End ThreadLocalSubqueue.

(** ** The directory of subqueues ([RecordQueue::getSubqueue]) *)

Module RecordQueues.

(** [SubQueueThreadCache]. *)
Record SubQueueThreadCache := mkCache {
  key_ : Z;
  ref_ : option ptr }.

(** A [RecordQueue], as far as the directory goes: [sub_queues_] maps a
    thread id to the subqueue that the queue owns for it. *)
Record RecordQueue := mkQueue {
  id_ : Z;
  sub_queues_ : gmap Z ptr }.

(** The process: the static [queue_id_], the [thread_local]
    [sub_queue_cache_] of every thread (a thread is named by its
    [currentThreadId()]; a thread that is not in the map has the initial
    cache), the [RecordQueue] objects that exist, by address, and the
    [ThreadLocalSubqueue] objects allocated so far, a pointer being a
    position: the [tid_] of a subqueue, [None] once it is freed. *)
Record process := mkProcess {
  queue_id_ : Z;
  sub_queue_cache_ : gmap Z SubQueueThreadCache;
  queues : gmap nat RecordQueue;
  subqueues : list (option Z) }.

(** Before the first [RecordQueue] is made. *)
Definition initial : process := mkProcess 0 ∅ ∅ [].

(** The constructor of [RecordQueue], [id_(++queue_id_)] on a [uint32_t];
    gives the address of the new object. *)
Definition RecordQueue_new (p : process) : process * nat :=
  let id := wrap_uint32 (queue_id_ p + 1) in
  let this := fresh (dom (queues p)) in
  (mkProcess id (sub_queue_cache_ p)
             (<[this := mkQueue id ∅]> (queues p)) (subqueues p),
   this).

(** [RecordQueue::getSubqueue] called on the queue at [this] by [thread];
    [None] if there is no queue at [this]. *)
Definition getSubqueue (p : process) (this : nat) (thread : Z)
  : option (process * option ptr) :=
  q ← queues p !! this;
  let cache := default (mkCache 0 None) (sub_queue_cache_ p !! thread) in
  if id_ q =? key_ cache then Some (p, ref_ cache)
  else
    let tid := thread in
    match sub_queues_ q !! tid with
    | Some it =>
      Some (mkProcess (queue_id_ p)
              (<[thread := mkCache (id_ q) (Some it)]> (sub_queue_cache_ p))
              (queues p) (subqueues p),
            Some it)
    | None =>
      let it := length (subqueues p) in
      Some (mkProcess (queue_id_ p)
              (<[thread := mkCache (id_ q) (Some it)]> (sub_queue_cache_ p))
              (<[this := mkQueue (id_ q) (<[tid := it]> (sub_queues_ q))]>
                 (queues p))
              (subqueues p ++ [Some tid]),
            Some it)
    end.

(** The destructor of [RecordQueue], which is implicit: the subqueues that
    [sub_queues_] owns are freed; no cache is touched. *)
Definition RecordQueue_delete (p : process) (this : nat) : option process :=
  q ← queues p !! this;
  let owned : gset nat := map_img (sub_queues_ q) in
  Some (mkProcess (queue_id_ p) (sub_queue_cache_ p)
          (delete this (queues p))
          (imap (λ s o, if decide (s ∈ owned) then None else o)
                (subqueues p))).

End RecordQueues.

(** ** Events from the external trace ([TransferEvents]) *)

(** [libkineto::ActivityType], as far as [toResult] tells the types
    apart. *)
Inductive ActivityType :=
| CPU_OP
| CPU_INSTANT_EVENT
| USER_ANNOTATION
| PYTHON_FUNCTION
| OtherActivity (code : Z).

(** What [TransferEvents] reads of a [libkineto::ITraceActivity]; a field
    stands for the method of the same name, [metadata_index] for
    [extractIndex(metadataJson())], which is [unmatchedIndex] when the
    metadata hold no event index.  Activities are owned by Kineto; a pointer
    to one is its position in the table of all activities. *)
Record ITraceActivity := mkActivity {
  activity_type : ActivityType;
  timestamp : Z;
  duration : Z;
  flowId : Z;
  flowType : Z;
  flowStart : bool;
  linkedActivity : option nat;
  metadata_index : Z }.

Definition unmatchedIndex : Z := -1.

(** The members of [TransferEvents] with the store of events;
    [kineto_activity_] holds the field of that name of every [Result] in
    which it is not null. *)
Record transfer := mkTransfer {
  tr_store : store;
  results_ : list ptr;
  kineto_events_ : gmap nat ptr;
  kineto_activity_ : gmap ptr nat }.

Section TransferEvents.

(** The activities that exist. *)
Context (activities : list ITraceActivity).

Definition activity_at (key : nat) : outcome ITraceActivity :=
  match activities !! key with
  | Some a => Ok a
  | None => Err BadPointer
  end.

(** [TransferEvents::lookup]. *)
Definition lookup_activity (st : transfer) (key : option nat)
  : outcome (transfer * option ptr) :=
  match key with
  | None => Ok (st, None)
  | Some k =>
    match kineto_events_ st !! k with
    | Some e => Ok (st, Some e)
    | None =>
      a ← activity_at k;
      let index := metadata_index a in
      if bool_decide (index ≠ unmatchedIndex) then
        match results_ st !! Z.to_nat (wrap_uint64 index) with
        | Some out =>
          Ok (mkTransfer (tr_store st) (results_ st)
                         (<[k := out]> (kineto_events_ st))
                         (kineto_activity_ st),
              Some out)
        | None => Err OutOfRange
        end
      else Ok (st, None)
    end
  end.

(** The loop of [TransferEvents::reassociate]. *)
Fixpoint reassociate (st : transfer) (trace_activities_ : list (option nat))
  : outcome transfer :=
  match trace_activities_ with
  | [] => Ok st
  | activity :: rest =>
    _ ← check (bool_decide (activity ≠ None));
    '(st1, e) ← lookup_activity st activity;
    st2 ← match e, activity with
          | Some e, Some k =>
            _ ← check (bool_decide (kineto_activity_ st1 !! e = None));
            Ok (mkTransfer (tr_store st1) (results_ st1) (kineto_events_ st1)
                           (<[e := k]> (kineto_activity_ st1)))
          | _, _ => Ok st1
          end;
    reassociate st2 rest
  end.

(** Modelled from the spec: [Result::create] (collection.h is not part of
    the sources) makes an event that is in no tree yet: not finished,
    without parent and without children.  [resultFromActivity] calls it
    with the start in ns, the placeholder thread id and the Kineto fields of
    the activity. *)
Definition resultFromActivity (a : ITraceActivity) : Result :=
  mkResult (wrap_int64 (timestamp a * 1000)) noTID
           (Kineto (mkKineto (duration a)
                      (mkFlow (wrap_uint32 (flowId a))
                              (wrap_uint32 (flowType a)) (flowStart a))
                      None))
           false None [].

Definition passed_by_profiler (type : ActivityType) : bool :=
  match type with
  | CPU_OP | CPU_INSTANT_EVENT | USER_ANNOTATION | PYTHON_FUNCTION => true
  | OtherActivity _ => false
  end.

(** [TransferEvents::toResult]. *)
Definition toResult (st : transfer) (activity : nat)
  : outcome (transfer * option ptr) :=
  '(st1, e) ← lookup_activity st (Some activity);
  a ← activity_at activity;
  match e with
  | Some e => Ok (st1, Some e)
  | None =>
    if passed_by_profiler (activity_type a) then Ok (st1, None)
    else
      let e := length (tr_store st1) in
      Ok (mkTransfer (tr_store st1 ++ [resultFromActivity a])
                     (results_ st1 ++ [e])
                     (<[activity := e]> (kineto_events_ st1))
                     (kineto_activity_ st1),
          Some e)
  end.

(** [i.linked_activity_ = linked] on the Kineto fields [i] of an event. *)
Definition set_linked_activity (linked : option ptr) (r : Result) : Result :=
  match extra_fields_ r with
  | Kineto i =>
    mkResult (start_time_ns_ r) (start_tid_ r)
             (Kineto (mkKineto (duration_us_ i) (flow i) linked))
             (finished_ r) (parent_ r) (children_ r)
  | _ => r
  end.

(** The loop of [TransferEvents::extractEventsFromTrace]. *)
Fixpoint extractEventsFromTrace (st : transfer) (trace_activities_ : list nat)
  : outcome transfer :=
  match trace_activities_ with
  | [] => Ok st
  | activity :: rest =>
    '(st1, e) ← toResult st activity;
    a ← activity_at activity;
    st3 ← match e, linkedActivity a with
          | Some e, Some linked_activity =>
            r ← deref (tr_store st1) e;
            match extra_fields_ r with
            | Kineto _ =>
              '(st2, linked) ← toResult st1 linked_activity;
              r2 ← deref (tr_store st2) e;
              Ok (mkTransfer
                    (<[e := set_linked_activity linked r2]> (tr_store st2))
                    (results_ st2) (kineto_events_ st2) (kineto_activity_ st2))
            | _ => Err InternalAssert
            end
          | _, _ => Ok st1
          end;
    extractEventsFromTrace st3 rest
  end.

End TransferEvents.

(** The constructor of [TransferEvents]: [trace_activities] is what
    [trace->get()->activities()] points to, [kineto_activity] the
    [kineto_activity_] fields of the events when it starts.  [reassociate]
    stops at a null activity, so the loops after it run over activities that
    are not null. *)
Definition TransferEvents_new (soft_assert_raises : bool)
  (kLinkAsyncCpuGpu : Z) (use_rocm : bool) (currentThreadId : Z)
  (activities : list ITraceActivity) (s : store) (results : list ptr)
  (kineto_activity : gmap ptr nat)
  (trace_activities : option (list (option nat))) : outcome transfer :=
  match trace_activities with
  | None => Err InternalAssert
  | Some trace_activities_ =>
    st1 ← reassociate activities (mkTransfer s results ∅ kineto_activity)
            trace_activities_;
    st2 ← extractEventsFromTrace activities st1 (omap id trace_activities_);
    s3 ← setParents soft_assert_raises kLinkAsyncCpuGpu use_rocm
           currentThreadId (tr_store st2) (results_ st2);
    Ok (mkTransfer s3 (results_ st2) (kineto_events_ st2)
                   (kineto_activity_ st2))
  end.

(** ** Example inputs *)

(** A finished TorchOp at 10 without end time, child of a finished TorchOp
    [0,100]. *)
Definition open_ended_store : store :=
  [mkResult 0 1 (TorchOp (mkTorchOp 100 0 [])) true None [1%nat];
   mkResult 10 1 (TorchOp (mkTorchOp time_min 0 [])) true (Some 0%nat) []].

(** A:[0,100] and B:[10,150] on one thread. *)
Definition overlap_store : store :=
  [mkResult 0 1 (TorchOp (mkTorchOp 100 0 [])) false None [];
   mkResult 10 1 (TorchOp (mkTorchOp 150 0 [])) false None []].

(** A:[0,100], B:[10,50], C:[60,90], all on thread 1. *)
Definition abc_store : store :=
  [mkResult 0 1 (TorchOp (mkTorchOp 100 0 [])) false None [];
   mkResult 10 1 (TorchOp (mkTorchOp 50 0 [])) false None [];
   mkResult 60 1 (TorchOp (mkTorchOp 90 0 [])) false None []].

(** An operation [0,100] on thread 1 in which an Allocation and an
    OutOfMemory event are recorded at 10 and another operation runs from 20
    to 30. *)
Definition alloc_store : store :=
  [mkResult 0 1 (TorchOp (mkTorchOp 100 0 [])) false None [];
   mkResult 10 1 (Allocation (mkAllocation 4096 16 None)) false None [];
   mkResult 10 1 OutOfMemory false None [];
   mkResult 20 1 (TorchOp (mkTorchOp 30 0 [])) false None []].

(** An operation P:[0,5000], a nested operation C:[1000,2000] and an
    external activity K at 1000 for 1 us whose linked activity is P. *)
Definition merge_store : store :=
  [mkResult 0 1 (TorchOp (mkTorchOp 5000 0 [])) false None [];
   mkResult 1000 1 (TorchOp (mkTorchOp 2000 0 [])) false None [];
   mkResult 1000 noTID
     (Kineto (mkKineto 1 (mkFlow 0 0 false) (Some 0%nat))) false None []].

(** Two allocations recorded at the same time inside one operation. *)
Definition tie_store : store :=
  [mkResult 0 1 (TorchOp (mkTorchOp 100 0 [])) false None [];
   mkResult 10 1 (Allocation (mkAllocation 4096 16 None)) false None [];
   mkResult 10 1 (Allocation (mkAllocation 8192 16 None)) false None []].

(** An operation [0,100] with a runtime launch that starts flow 7 and a
    device kernel that continues flow 7; the linked activity of both is the
    operation. *)
Definition flow_store : store :=
  [mkResult 0 1 (TorchOp (mkTorchOp 100 0 [])) false None [];
   mkResult 10 noTID
     (Kineto (mkKineto 5 (mkFlow 7 2 true) (Some 0%nat))) false None [];
   mkResult 20 noTID
     (Kineto (mkKineto 30 (mkFlow 7 2 false) (Some 0%nat))) false None []].

(** Two allocations at different addresses, an operation reads the second. *)
Definition two_buffers_store : store :=
  [mkResult 0 1 (Allocation (mkAllocation 4096 16 None)) false None [];
   mkResult 1 1 (Allocation (mkAllocation 8192 16 None)) false None [];
   mkResult 2 1 (TorchOp (mkTorchOp 5 0 [Some (mkTensorMetadata 77 8192 None)]))
            false None []].

(** The scenario of the specification alone: allocation at 4096 of size 16,
    free of it, allocation at 4096 of size 32. *)
Definition reuse_alone_store : store :=
  [mkResult 0 1 (Allocation (mkAllocation 4096 16 None)) false None [];
   mkResult 1 1 (Allocation (mkAllocation 4096 (-16) None)) false None [];
   mkResult 2 1 (Allocation (mkAllocation 4096 32 None)) false None []].

(** The same allocations, each buffer being read by an operation before it
    is freed or the trace ends; [I1] and [I2] are the addresses of the
    handles (TensorImpl) of the two inputs. *)
Definition reuse_scenario (X I1 I2 sz1 sz2 sz3 : Z) : store :=
  [mkResult 0 1 (Allocation (mkAllocation X sz1 None)) false None [];
   mkResult 1 1 (TorchOp (mkTorchOp 2 0 [Some (mkTensorMetadata I1 X None)]))
            false None [];
   mkResult 3 1 (Allocation (mkAllocation X sz2 None)) false None [];
   mkResult 4 1 (Allocation (mkAllocation X sz3 None)) false None [];
   mkResult 5 1 (TorchOp (mkTorchOp 6 0 [Some (mkTensorMetadata I2 X None)]))
            false None []].

(** Values for the examples: a tensor, an integer scalar, a list of tensors
    and a value of any other kind. *)
Inductive example_value :=
| ExTensor (t : Tensor)
| ExScalar (n : Z)
| ExTensorList
| ExOther.

#[global] Instance example_value_ops : IValueOps example_value := {|
  isTensor v := match v with ExTensor _ => true | _ => false end;
  toTensor v := match v with
                | ExTensor t => t
                | _ => mkTensor false false 0 false 0 0 0 0 0 [] []
                end;
  isScalar v := match v with ExScalar _ => true | _ => false end;
  isTensorList v := match v with ExTensorList => true | _ => false end;
  IValue_default := ExOther |}.

(** A strided 2x3 tensor of dtype 6 and a sparse tensor of dtype 7, layout 0
    being the strided one. *)
Definition strided_tensor : Tensor :=
  mkTensor true false 77 true 4096 0 (-1) 6 0 [2; 3] [3; 1].

Definition sparse_tensor : Tensor :=
  mkTensor true false 78 false 0 0 (-1) 7 1 [4; 4] [].

Definition example_type_name (dtype : Z) : string :=
  if dtype =? 6 then "float" else "double".

(** The inputs of two ops. *)
Definition example_ops : list (list example_value) :=
  [[ExTensor strided_tensor; ExScalar 5; ExTensorList; ExTensor sparse_tensor];
   [ExOther]].

(** Three calls on one thread, the second from the autograd engine. *)
Definition example_calls
  : list (ThreadLocalSubqueue.RecordFunction (IValue := example_value)
          * ThreadLocalSubqueue.Observed (IValue := example_value)) :=
  [(ThreadLocalSubqueue.mkRecordFunction 0 0 FUNCTION false 0 "aten::add"
      [ExTensor strided_tensor; ExScalar 5],
    ThreadLocalSubqueue.mkObserved ["a.py:1"] ["top"] ∅ None 10 false);
   (ThreadLocalSubqueue.mkRecordFunction 3 1 BACKWARD_FUNCTION false 0
      "AddBackward0" [ExTensor strided_tensor],
    ThreadLocalSubqueue.mkObserved ["b.py:2"] ["top"] ∅ None 20 false);
   (ThreadLocalSubqueue.mkRecordFunction 0 0 FUNCTION false 0 "aten::mul"
      [ExOther],
    ThreadLocalSubqueue.mkObserved ["c.py:3"] ["top"] ∅ None 30 false)].

Definition example_config : ThreadLocalSubqueue.ProfilerConfig :=
  ThreadLocalSubqueue.mkConfig (OtherState 0) true true false false.

(** Two handles that are first seen on a third buffer (at 512) and then on
    the first and on the second buffer at 4096. *)
Definition reuse_shared_store : store :=
  [mkResult 0 1 (TorchOp (mkTorchOp 1 0
      [Some (mkTensorMetadata 77 512 None);
       Some (mkTensorMetadata 78 512 None)])) false None [];
   mkResult 2 1 (Allocation (mkAllocation 4096 16 None)) false None [];
   mkResult 3 1 (TorchOp (mkTorchOp 4 0 [Some (mkTensorMetadata 77 4096 None)]))
            false None [];
   mkResult 5 1 (Allocation (mkAllocation 4096 (-16) None)) false None [];
   mkResult 6 1 (Allocation (mkAllocation 4096 32 None)) false None [];
   mkResult 7 1 (TorchOp (mkTorchOp 8 0 [Some (mkTensorMetadata 78 4096 None)]))
            false None []].

(** One Allocation event at 10 ns. *)
Definition allocation_store : store :=
  [mkResult 10 1 (Allocation (mkAllocation 4096 16 None)) false None []].

(** The activities of a trace of [allocation_store]: the Allocation, passed
    to Kineto with event index 0, and a device activity at 20 us whose
    linked activity is the Allocation. *)
Definition allocation_activities : list ITraceActivity :=
  [mkActivity CPU_INSTANT_EVENT 0 0 0 0 false None 0;
   mkActivity (OtherActivity 9) 20 30 0 0 false (Some 0%nat) unmatchedIndex].

(** An Allocation event whose start time is the smallest int64, then an
    operation [5, 8]. *)
Definition unset_start_store : store :=
  [mkResult time_min 1 (Allocation (mkAllocation 4096 16 None)) false None [];
   mkResult 5 1 (TorchOp (mkTorchOp 8 0 [])) false None []].

(** One operation of the profiler, [0, 100000]. *)
Definition profiled_store : store :=
  [mkResult 0 1 (TorchOp (mkTorchOp 100000 0 [])) false None []].

(** The activities of a trace of [profiled_store]: the operation, passed to
    Kineto with event index 0; a runtime launch that starts flow 7 and a
    device kernel that continues it, both linked to the operation; and an
    operation with event index 0 that claims a linked activity. *)
Definition example_activities : list ITraceActivity :=
  [mkActivity CPU_OP 0 100 0 0 false None 0;
   mkActivity (OtherActivity 7) 10 5 7 2 true (Some 0%nat) unmatchedIndex;
   mkActivity (OtherActivity 9) 20 30 7 2 false (Some 0%nat) unmatchedIndex;
   mkActivity CPU_OP 0 100 0 0 false (Some 1%nat) 0].

(** * Properties *)

(** ** The error monad *)

Lemma bind_Ok {A B} (m : outcome A) (f : A → outcome B) (b : B) :
  m ≫= f = Ok b → ∃ a, m = Ok a ∧ f a = Ok b.
Proof. destruct m as [a|e]; [eauto | discriminate]. Qed.

Lemma check_Ok (b : bool) (u : unit) : check b = Ok u → b = true.
Proof. by destruct b. Qed.

Lemma deref_Ok (s : store) (p : ptr) (r : Result) :
  deref s p = Ok r → s !! p = Some r.
Proof. unfold deref. destruct (s !! p); congruence. Qed.

Lemma deref_lookup (s : store) (p : ptr) (r : Result) :
  s !! p = Some r → deref s p = Ok r.
Proof. unfold deref. by intros ->. Qed.

(** Splits a successful run of a sequence of monadic steps into its steps. *)
Ltac ok_step H :=
  match type of H with
  | Ok _ = Ok _ => injection H as H; try subst
  | Err _ = Ok _ => discriminate H
  | mbind _ _ = Ok _ =>
    let H1 := fresh "E" in
    apply bind_Ok in H as (? & H1 & H); cbv beta in H;
    try (apply deref_Ok in H1); try (apply check_Ok in H1);
    try match type of H1 with
        | Ok _ = Ok _ => injection H1 as H1; subst
        | Err _ = Ok _ => discriminate H1
        end
  end.
Ltac ok_inv H := repeat ok_step H.

Tactic Notation "ok_bind" hyp(H) "as" ident(x) ident(Hx) :=
  apply bind_Ok in H as (x & Hx & H); cbv beta in H;
  try (apply deref_Ok in Hx); try (apply check_Ok in Hx).

(** ** End times *)

Section EndTimeFacts.

Context (soft_assert_raises : bool).

#[local] Abbreviation end_time := (endTimeNS soft_assert_raises).

(** The final clamp of [Result::endTimeNS]. *)
Lemma endTimeNS_finished_ge fuel (s : store) p r e :
  s !! p = Some r → finished_ r = true →
  end_time fuel s p = Ok e → start_time_ns_ r ≤ e.
Proof.
  intros Hp Hf H. destruct fuel as [|fuel]; [discriminate|].
  simpl in H. rewrite (deref_lookup _ _ _ Hp) in H. cbn in H.
  ok_step H. rewrite Hf in H. cbn in H.
  destruct (Z.leb_spec (start_time_ns_ r) x).
  - by ok_inv H.
  - destruct soft_assert_raises; ok_inv H. lia.
Qed.

(** An event that is not finished reports the end time it stores. *)
Lemma endTimeNS_unfinished fuel (s : store) p r :
  s !! p = Some r → finished_ r = false →
  end_time (S fuel) s p = Ok (own_end_ns r).
Proof.
  intros Hp Hf. simpl. rewrite (deref_lookup _ _ _ Hp). cbn.
  rewrite Hf. unfold own_end_ns. by destruct (extra_fields_ r).
Qed.


(** Allocation and OutOfMemory events end when they start. *)
Lemma endTimeNS_instant fuel (s : store) p r :
  s !! p = Some r → is_instant r = true →
  end_time (S fuel) s p = Ok (start_time_ns_ r).
Proof.
  intros Hp Hi. simpl. rewrite (deref_lookup _ _ _ Hp). cbn.
  unfold is_instant in Hi. unfold own_end_ns.
  destruct (extra_fields_ r); try discriminate; cbn;
    rewrite Z.leb_refl; by destruct (finished_ r).
Qed.

(** A finished TorchOp without end time borrows the end time of its parent. *)
Lemma endTimeNS_borrowed fuel (s : store) p r e q :
  s !! p = Some r → extra_fields_ r = TorchOp e →
  end_time_ns_ e = time_min → finished_ r = true → parent_ r = Some q →
  end_time (S fuel) s p =
    (pe ← end_time fuel s q;
     if start_time_ns_ r <=? pe then Ok pe
     else if soft_assert_raises then Err SoftAssert
     else Ok (start_time_ns_ r)).
Proof.
  intros Hp Hx He Hf Hq. simpl. rewrite (deref_lookup _ _ _ Hp). cbn.
  rewrite Hx, Hf, He, Hq. cbn. done.
Qed.

End EndTimeFacts.

(** ** What the primitive steps do to the store *)

Definition parent_of (s : store) (p : ptr) : option ptr := s !! p ≫= parent_.

Definition children_of (s : store) (p : ptr) : list ptr :=
  match s !! p with
  | Some r => children_ r
  | None => []
  end.

Lemma lookup_insert_store (s : store) p q r r' :
  s !! p = Some r →
  <[p := r']> s !! q = if decide (p = q) then Some r' else s !! q.
Proof.
  intros Hp. destruct (decide (p = q)) as [->|Hne].
  - apply list_lookup_insert_eq. by eapply lookup_lt_Some.
  - by apply list_lookup_insert_ne.
Qed.

Lemma mark_finished_Ok raises (s s' : store) p :
  mark_finished raises s p = Ok s' →
  ∃ r, s !! p = Some r ∧ finished_ r = false ∧ s' = <[p := set_finished r]> s.
Proof.
  unfold mark_finished. intros H. ok_inv H.
  eexists; split; [eassumption|]. split; [|done].
  by destruct (finished_ _).
Qed.

Lemma attach_Ok (s s' : store) event p :
  attach s event p = Ok s' →
  ∃ r rp, s !! event = Some r ∧
          <[event := set_parent (Some p) r]> s !! p = Some rp ∧
          s' = <[p := push_child event rp]>
                 (<[event := set_parent (Some p) r]> s).
Proof. unfold attach. intros H. ok_inv H. eauto. Qed.

(** Finishing an event changes neither parents nor children. *)
Lemma parent_of_set_finished (s : store) p r q :
  s !! p = Some r → parent_of (<[p := set_finished r]> s) q = parent_of s q.
Proof.
  intros Hp. unfold parent_of. rewrite (lookup_insert_store _ _ _ _ _ Hp).
  destruct (decide (p = q)) as [<-|]; [by rewrite Hp|done].
Qed.

Lemma children_of_set_finished (s : store) p r q :
  s !! p = Some r → children_of (<[p := set_finished r]> s) q = children_of s q.
Proof.
  intros Hp. unfold children_of. rewrite (lookup_insert_store _ _ _ _ _ Hp).
  destruct (decide (p = q)) as [<-|]; [by rewrite Hp|done].
Qed.

Lemma filter_ext_elem {A} (P Q : A → Prop) `{∀ x, Decision (P x)}
  `{∀ x, Decision (Q x)} (l : list A) :
  (∀ x, x ∈ l → P x ↔ Q x) → filter P l = filter Q l.
Proof.
  induction l as [|a l IH]; intros Hext; [done|].
  rewrite !filter_cons.
  assert (Ha : P a ↔ Q a) by (apply Hext; left).
  rewrite IH by (intros; apply Hext; by right).
  destruct (decide (P a)), (decide (Q a)); tauto.
Qed.

(** ** The invariant of the stack replay *)

Section Replay.

Context (soft_assert_raises : bool).
(** The store on entry to [build_tree]. *)
Context (s0 : store).

(** Events that [push_event] leaves alone: Kineto events finished by the
    merge. *)
Definition skipped (e : ptr) : bool :=
  match s0 !! e with
  | Some r => is_kineto r && finished_ r
  | None => false
  end.

(** The events of [done] that [push_event] has worked on. *)
Definition pushed (done : list ptr) : list ptr :=
  filter (fun e => skipped e = false) done.

(** An instant event with a real start time can never be an open frame. *)
Definition never_open (e : ptr) : bool :=
  match s0 !! e with
  | Some r => is_instant r && negb (start_time_ns_ r =? time_min)
  | None => false
  end.

(** [q] comes before [e] in [l]. *)
Definition before (q e : ptr) (l : list ptr) : Prop :=
  ∃ l1 l2, l = l1 ++ e :: l2 ∧ q ∈ l1.

Record store_inv (done : list ptr) (s : store) : Prop := {
  inv_valid : ∀ p, p ∈ pushed done → is_Some (s0 !! p);
  inv_untouched : ∀ p, p ∉ pushed done → s !! p = s0 !! p;
  inv_kind : ∀ p r, s !! p = Some r →
    ∃ r0, s0 !! p = Some r0 ∧ start_time_ns_ r = start_time_ns_ r0 ∧
          start_tid_ r = start_tid_ r0 ∧ extra_fields_ r = extra_fields_ r0;
  inv_parent : ∀ e q, e ∈ pushed done → parent_of s e = Some q →
    before q e done ∧ q ∈ pushed done ∧ never_open q = false;
  inv_children : ∀ p, is_Some (s0 !! p) →
    children_of s p =
    children_of s0 p ++ filter (fun e => parent_of s e = Some p) (pushed done);
  inv_length : length s = length s0 }.

Definition frames_inv (done : list ptr) (stk : gmap Z ptr) : Prop :=
  ∀ tid v, stk !! tid = Some v → v ∈ pushed done ∧ never_open v = false.

Record replay_inv (done : list ptr) (st : bt_state) : Prop := {
  inv_store : store_inv done (bt_store st);
  inv_stacks : frames_inv done (stacks st);
  inv_heap : ∀ v, v ∈ end_events_ st → v ∈ pushed done }.

Lemma pushed_app done e :
  pushed (done ++ [e]) = pushed done ++ (if skipped e then [] else [e]).
Proof.
  unfold pushed. rewrite filter_app. f_equal.
  destruct (skipped e) eqn:He.
  - by rewrite filter_cons_False by (rewrite He; done).
  - by rewrite filter_cons_True by done.
Qed.

Lemma pushed_done done e : e ∈ pushed done → e ∈ done.
Proof. unfold pushed. rewrite list_elem_of_filter. tauto. Qed.

Lemma before_snoc q e done x : before q e done → before q e (done ++ [x]).
Proof.
  intros (l1 & l2 & -> & Hq). exists l1, (l2 ++ [x]).
  by rewrite <- app_assoc.
Qed.

Lemma store_inv_init : store_inv [] s0.
Proof.
  split.
  - intros p Hp. by apply elem_of_nil in Hp.
  - done.
  - intros p r Hp. eauto.
  - intros e q He. by apply elem_of_nil in He.
  - intros p _. cbn. by rewrite app_nil_r.
  - done.
Qed.

(** [mark_finished] on an event that was pushed keeps the invariant. *)
Lemma store_inv_mark_finished done (s s' : store) p :
  store_inv done s → p ∈ pushed done →
  mark_finished soft_assert_raises s p = Ok s' → store_inv done s'.
Proof.
  intros [Hv Hu Hk Hp Hc Hl] Hin H.
  apply mark_finished_Ok in H as (r & Hr & _ & ->). split.
  - done.
  - intros q Hq. rewrite (lookup_insert_store _ _ _ _ _ Hr).
    destruct (decide (p = q)) as [<-|]; [done|by apply Hu].
  - intros q rq. rewrite (lookup_insert_store _ _ _ _ _ Hr).
    destruct (decide (p = q)) as [<-|]; [|by apply Hk].
    intros [= <-]. cbn. by apply Hk.
  - intros e q He. rewrite (parent_of_set_finished _ _ _ _ Hr). by apply Hp.
  - intros q Hq. rewrite (children_of_set_finished _ _ _ _ Hr), (Hc q Hq).
    f_equal. apply filter_ext_elem. intros x _.
    by rewrite (parent_of_set_finished _ _ _ _ Hr).
  - by rewrite length_insert.
Qed.

Lemma store_inv_finish_frames done fuel (s s' : store) frame event :
  store_inv done s → frame ∈ pushed done →
  finish_frames soft_assert_raises fuel s frame event = Ok s' →
  store_inv done s'.
Proof.
  revert s frame. induction fuel as [|fuel IH]; intros s frame Hs Hin H;
    cbn in H; case_bool_decide; try by ok_inv H.
  ok_step H. apply (store_inv_mark_finished _ _ _ _ Hs Hin) in E.
  ok_step H. destruct (parent_ x0) as [q|] eqn:Hq; [|discriminate].
  eapply IH; [exact E| |exact H].
  eapply (inv_parent _ _ E frame q Hin). unfold parent_of. by rewrite E0.
Qed.

Lemma frames_inv_insert done (stk : gmap Z ptr) tid v :
  frames_inv done stk → v ∈ pushed done → never_open v = false →
  frames_inv done (<[tid := v]> stk).
Proof.
  intros Hst Hv Hn t w. rewrite lookup_insert. case_decide; [|by apply Hst].
  by intros [= <-].
Qed.

Lemma frames_inv_delete done (stk : gmap Z ptr) tid :
  frames_inv done stk → frames_inv done (delete tid stk).
Proof.
  intros Hst t w. rewrite lookup_delete. case_decide; [done|by apply Hst].
Qed.

Lemma inv_pop_event done (s s' : store) (stk stk' : gmap Z ptr) event :
  store_inv done s → frames_inv done stk → event ∈ pushed done →
  pop_event soft_assert_raises s stk event = Ok (s', stk') →
  store_inv done s' ∧ frames_inv done stk'.
Proof.
  intros Hs Hst Hin H. unfold pop_event in H. ok_step H.
  destruct (finished_ x); [by ok_inv H|].
  destruct (stk !! start_tid_ x) as [f|] eqn:Hf; [|by ok_inv H].
  destruct (Hst _ _ Hf) as [Hfin _].
  ok_step H. ok_step H.
  apply (store_inv_finish_frames _ _ _ _ _ _ Hs Hfin) in E0.
  ok_step H. apply (store_inv_mark_finished _ _ _ _ E0 Hin) in E1.
  ok_step H. destruct (parent_ x3) as [q|] eqn:Hq; ok_inv H.
  - split; [done|]. destruct (inv_parent _ _ E1 event q Hin) as (_ & ? & ?).
    { unfold parent_of. by rewrite E2. }
    apply frames_inv_insert; [|done|done]. by apply frames_inv_delete.
  - split; [done|]. by apply frames_inv_delete.
Qed.

Lemma inv_close_before done (s : store) (stk : gmap Z ptr) heap t st' :
  store_inv done s → frames_inv done stk →
  (∀ v, v ∈ heap → v ∈ pushed done) →
  close_before soft_assert_raises s stk heap t = Ok st' →
  replay_inv done st'.
Proof.
  revert s stk. induction heap as [|top rest IH]; intros s stk Hs Hst Hh H;
    cbn in H.
  - ok_inv H. split; [done|done|]. cbn. intros v Hv. by apply elem_of_nil in Hv.
  - ok_step H. destruct (x <? t).
    + ok_step H. destruct x0 as [s1 stk1].
      apply (inv_pop_event done) in E0 as [? ?]; [|done|done|apply Hh; left].
      eapply IH; [done|done| |exact H]. intros v Hv. apply Hh. by right.
    + ok_inv H. by split.
Qed.

Lemma inv_close_all done (s : store) (stk : gmap Z ptr) heap st' :
  store_inv done s → frames_inv done stk →
  (∀ v, v ∈ heap → v ∈ pushed done) →
  close_all soft_assert_raises s stk heap = Ok st' →
  replay_inv done st'.
Proof.
  revert s stk. induction heap as [|top rest IH]; intros s stk Hs Hst Hh H;
    cbn in H.
  - ok_inv H. split; [done|done|]. cbn. intros v Hv. by apply elem_of_nil in Hv.
  - ok_step H. destruct x as [s1 stk1].
    apply (inv_pop_event done) in E as [? ?]; [|done|done|apply Hh; left].
    eapply IH; [done|done| |exact H]. intros v Hv. apply Hh. by right.
Qed.

Lemma heap_push_elem (s : store) heap event key heap' :
  heap_push soft_assert_raises s heap event key = Ok heap' →
  ∀ v, v ∈ heap' ↔ v = event ∨ v ∈ heap.
Proof.
  revert heap'. induction heap as [|top rest IH]; intros heap' H v; cbn in H.
  - ok_inv H. rewrite list_elem_of_singleton, elem_of_nil. tauto.
  - ok_step H. destruct (key <? x).
    + ok_inv H. by rewrite elem_of_cons.
    + ok_inv H. rewrite !elem_of_cons, (IH _ E0). tauto.
Qed.

Lemma store_inv_skip done (s : store) e :
  store_inv done s → skipped e = true → store_inv (done ++ [e]) s.
Proof.
  intros [Hv Hu Hk Hp Hc Hl] He.
  assert (Hpd : pushed (done ++ [e]) = pushed done).
  { by rewrite pushed_app, He, app_nil_r. }
  split; rewrite ?Hpd; try done.
  intros e' q He' Hq. destruct (Hp e' q He' Hq) as (? & ? & ?).
  split; [by apply before_snoc|done].
Qed.

Lemma store_inv_root done (s : store) e :
  store_inv done s → skipped e = false → is_Some (s0 !! e) →
  parent_of s e = None → store_inv (done ++ [e]) s.
Proof.
  intros [Hv Hu Hk Hp Hc Hl] He Hval Hroot.
  assert (Hpd : pushed (done ++ [e]) = pushed done ++ [e]).
  { by rewrite pushed_app, He. }
  split; rewrite ?Hpd.
  - intros p [Hin|Hin]%elem_of_app; [by apply Hv|].
    by apply list_elem_of_singleton in Hin as ->.
  - intros p Hn. apply Hu. intros ?. apply Hn, elem_of_app. by left.
  - done.
  - intros e' q [He'|He']%elem_of_app Hq.
    + destruct (Hp e' q He' Hq) as (? & ? & ?).
      split; [by apply before_snoc|]. split; [|done].
      apply elem_of_app. by left.
    + apply list_elem_of_singleton in He' as ->. congruence.
  - intros p Hp0. rewrite (Hc p Hp0), filter_app. f_equal.
    rewrite filter_cons_False, filter_nil, app_nil_r; [done|].
    rewrite Hroot. done.
  - done.
Qed.

Lemma store_inv_attach done (s s1 : store) e p :
  store_inv done s → e ∉ done → skipped e = false →
  p ∈ pushed done → never_open p = false →
  attach s e p = Ok s1 → store_inv (done ++ [e]) s1.
Proof.
  intros [Hv Hu Hk Hp Hc Hl] Hne He Hpin Hpn H.
  apply attach_Ok in H as (r & rp & Hr & Hrp & ->).
  assert (Hpe : e ≠ p) by (intros ->; by apply Hne, pushed_done).
  rewrite (lookup_insert_store _ _ _ _ _ Hr) in Hrp.
  destruct (decide (e = p)); [done|].
  set (s1 := <[e := set_parent (Some p) r]> s).
  assert (Hrp1 : s1 !! p = Some rp).
  { unfold s1. rewrite (lookup_insert_store _ _ _ _ _ Hr).
    by destruct (decide (e = p)). }
  assert (Hlk : ∀ x, <[p := push_child e rp]> s1 !! x =
    if decide (p = x) then Some (push_child e rp)
    else if decide (e = x) then Some (set_parent (Some p) r) else s !! x).
  { intros x. rewrite (lookup_insert_store _ _ _ _ _ Hrp1).
    destruct (decide (p = x)); [done|]. unfold s1.
    by rewrite (lookup_insert_store _ _ _ _ _ Hr). }
  assert (Hpar : ∀ x, parent_of (<[p := push_child e rp]> s1) x =
    if decide (e = x) then Some p else parent_of s x).
  { intros x. unfold parent_of. rewrite Hlk.
    destruct (decide (p = x)) as [<-|].
    - destruct (decide (e = p)); [done|]. by rewrite Hrp.
    - by destruct (decide (e = x)). }
  assert (Hch : ∀ x, children_of (<[p := push_child e rp]> s1) x =
    if decide (p = x) then children_of s p ++ [e] else children_of s x).
  { intros x. unfold children_of. rewrite Hlk.
    destruct (decide (p = x)) as [<-|]; [by rewrite Hrp|].
    destruct (decide (e = x)) as [<-|]; [by rewrite Hr|done]. }
  assert (Hpd : pushed (done ++ [e]) = pushed done ++ [e]).
  { by rewrite pushed_app, He. }
  split; rewrite ?Hpd.
  - intros x [Hin|Hin]%elem_of_app; [by apply Hv|].
    apply list_elem_of_singleton in Hin as ->.
    apply Hk in Hr as (? & -> & _). eauto.
  - intros x Hx. rewrite Hlk.
    destruct (decide (p = x)) as [<-|].
    { exfalso. apply Hx, elem_of_app. by left. }
    destruct (decide (e = x)) as [<-|].
    { exfalso. apply Hx, elem_of_app. right. by left. }
    apply Hu. intros ?. apply Hx, elem_of_app. by left.
  - intros x rx. rewrite Hlk.
    destruct (decide (p = x)) as [<-|].
    { intros [= <-]. cbn. by apply Hk. }
    destruct (decide (e = x)) as [<-|]; [|by apply Hk].
    intros [= <-]. cbn. by apply Hk.
  - intros e' q He' Hq. rewrite Hpar in Hq.
    destruct (decide (e = e')) as [<-|Hee].
    + injection Hq as <-. split; [|split; [|done]].
      * exists done, []. split; [done|by apply pushed_done].
      * apply elem_of_app. by left.
    + apply elem_of_app in He' as [He'|He'].
      * destruct (Hp e' q He' Hq) as (? & ? & ?).
        split; [by apply before_snoc|]. split; [|done].
        apply elem_of_app. by left.
      * apply list_elem_of_singleton in He'. congruence.
  - intros x Hx0. rewrite Hch, filter_app.
    assert (Hold : filter (fun y => parent_of (<[p := push_child e rp]> s1) y
                                    = Some x) (pushed done)
                 = filter (fun y => parent_of s y = Some x) (pushed done)).
    { apply filter_ext_elem. intros y Hy. rewrite Hpar.
      destruct (decide (e = y)) as [<-|]; [|done].
      exfalso. by apply Hne, pushed_done. }
    rewrite Hold. destruct (decide (p = x)) as [<-|Hpx].
    + rewrite filter_cons_True, filter_nil.
      * rewrite (Hc p), app_assoc; [done|]. apply Hk in Hrp as (? & -> & _). eauto.
      * rewrite Hpar. by destruct (decide (e = e)).
    + rewrite filter_cons_False, filter_nil, app_nil_r.
      * by apply Hc.
      * rewrite Hpar. destruct (decide (e = e)); congruence.
  - unfold s1. by rewrite !length_insert.
Qed.

Lemma frames_inv_snoc done (stk : gmap Z ptr) e :
  frames_inv done stk → frames_inv (done ++ [e]) stk.
Proof.
  intros Hst tid v Hv. destruct (Hst tid v Hv). split; [|done].
  rewrite pushed_app. apply elem_of_app. by left.
Qed.

Lemma find_parent_Some (stk : gmap Z ptr) r p :
  find_parent stk r = Some p → ∃ tid, stk !! tid = Some p.
Proof.
  unfold find_parent. destruct (stk !! start_tid_ r) eqn:H1.
  - intros [= <-]. eauto.
  - destruct (fwd_tid r =? 0); [done|]. eauto.
Qed.

Lemma never_open_own_end e r :
  s0 !! e = Some r →
  start_time_ns_ r < own_end_ns r ∨ own_end_ns r = time_min →
  never_open e = false.
Proof.
  intros Hr Hend. unfold never_open. rewrite Hr.
  destruct (is_instant r) eqn:Hi; [|done]. cbn.
  assert (own_end_ns r = start_time_ns_ r) as Heq.
  { unfold is_instant in Hi. unfold own_end_ns.
    by destruct (extra_fields_ r). }
  destruct Hend as [?|Hmin]; [lia|].
  rewrite <- Heq, Hmin. done.
Qed.

Lemma inv_push_event done st st' e :
  replay_inv done st → e ∉ done →
  push_event soft_assert_raises st e = Ok st' →
  replay_inv (done ++ [e]) st'.
Proof.
  intros [Hs Hst Hh] Hne H. unfold push_event in H. ok_step H.
  rename x into r.
  assert (Hr0 : s0 !! e = Some r).
  { rewrite <- (inv_untouched _ _ Hs); [done|]. intros ?%pushed_done. done. }
  assert (Hsk : skipped e = is_kineto r && finished_ r).
  { unfold skipped. by rewrite Hr0. }
  assert (Hmono : ∀ v, v ∈ pushed done → v ∈ pushed (done ++ [e])).
  { intros v Hv. rewrite pushed_app. apply elem_of_app. by left. }
  destruct (is_kineto r && finished_ r) eqn:Hskip.
  { ok_inv H. split; [by apply store_inv_skip|by apply frames_inv_snoc|auto]. }
  assert (Hein : e ∈ pushed (done ++ [e])).
  { rewrite pushed_app, Hsk. apply elem_of_app. right. by left. }
  ok_bind H as u0 E0. apply bool_decide_eq_true in E0.
  ok_bind H as u1 E1. ok_bind H as u2 E2. apply negb_true_iff in E2.
  ok_bind H as s1 E3.
  assert (Hs1 : store_inv (done ++ [e]) s1 ∧
                ∃ r1, s1 !! e = Some r1 ∧ finished_ r1 = false ∧
                      own_end_ns r1 = own_end_ns r).
  { destruct (find_parent (stacks st) r) as [p|] eqn:Hfp.
    - destruct (find_parent_Some _ _ _ Hfp) as [tid Htid].
      destruct (Hst _ _ Htid) as [Hpin Hpn].
      split; [by eapply store_inv_attach|].
      apply attach_Ok in E3 as (r' & rp & Hr' & Hrp & ->).
      assert (r' = r) as -> by congruence.
      assert (p ≠ e) by (intros ->; by apply Hne, pushed_done).
      exists (set_parent (Some p) r). split; [|done].
      rewrite list_lookup_insert_ne by done.
      apply list_lookup_insert_eq. by eapply lookup_lt_Some.
    - ok_inv E3. split; [|by eauto].
      apply store_inv_root; [done|by rewrite Hsk|by eauto|].
      unfold parent_of. by rewrite E. }
  destruct Hs1 as (Hs1 & r1 & Hr1 & Hf1 & Hown).
  ok_bind H as t E4. unfold end_ns, chain_fuel in E4.
  rewrite (endTimeNS_unfinished _ _ _ _ _ Hr1 Hf1), Hown in E4.
  injection E4 as <-.
  destruct (Z.ltb_spec (start_time_ns_ r) (own_end_ns r)) as [Hlt|Hge].
  { ok_bind H as heap E5. ok_inv H. split; cbn.
    - done.
    - apply frames_inv_insert; [by apply frames_inv_snoc|done|].
      eapply never_open_own_end; eauto.
    - intros v [->|Hv]%(heap_push_elem _ _ _ _ _ E5); auto. }
  destruct (Z.eqb_spec (own_end_ns r) time_min) as [Hmin|Hnmin].
  { ok_inv H. split; cbn.
    - done.
    - apply frames_inv_insert; [by apply frames_inv_snoc|done|].
      eapply never_open_own_end; eauto.
    - auto. }
  ok_bind H as s2 E5. ok_inv H. split; cbn.
  - by eapply store_inv_mark_finished.
  - by apply frames_inv_snoc.
  - auto.
Qed.

Lemma inv_replay done st events st' :
  replay_inv done st → NoDup (done ++ events) →
  replay soft_assert_raises st events = Ok st' →
  replay_inv (done ++ events) st'.
Proof.
  revert done st. induction events as [|e rest IH]; intros done st Hinv Hnd H;
    cbn in H.
  - ok_inv H. by rewrite app_nil_r.
  - ok_step H. unfold replay_step in E. ok_step E. ok_step E.
    destruct Hinv as [Hs Hst Hh].
    apply (inv_close_before done) in E1; [|done..].
    apply (inv_push_event done) in E; [|done|].
    + replace (done ++ e :: rest) with ((done ++ [e]) ++ rest)
        by (by rewrite <- app_assoc).
      apply (IH _ _ E); [|done]. by rewrite <- app_assoc.
    + apply NoDup_app in Hnd as (_ & Hd & _). intros Hin.
      apply (Hd e Hin). by left.
Qed.

Lemma replay_inv_init : replay_inv [] (mkBt s0 ∅ []).
Proof.
  split; cbn.
  - apply store_inv_init.
  - intros tid v. by rewrite lookup_empty.
  - intros v Hv. by apply elem_of_nil in Hv.
Qed.

(** The invariant holds of the final state of [build_tree]. *)
Lemma build_tree_state_inv sorted_events st :
  NoDup sorted_events →
  build_tree_state soft_assert_raises s0 sorted_events = Ok st →
  replay_inv sorted_events st.
Proof.
  intros Hnd H. unfold build_tree_state in H. ok_step H.
  apply (inv_replay [] _ _ _ replay_inv_init Hnd) in E. cbn in E.
  destruct E as [Hs Hst Hh]. by eapply inv_close_all.
Qed.

Lemma build_tree_inv sorted_events s :
  NoDup sorted_events →
  build_tree soft_assert_raises s0 sorted_events = Ok s →
  store_inv sorted_events s.
Proof.
  intros Hnd H. unfold build_tree in H. ok_inv H.
  by apply (build_tree_state_inv _ _ Hnd) in E as [? _ _].
Qed.

End Replay.

(** ** Open-ended events *)

(** C7.  A TorchOp whose end time is the "unset" marker and that is finished
    with a parent reports the end time of the parent, the soft assertion
    [end >= start] being checked on that value: when it holds the parent's
    end time is the result; when it fails the call raises or, if soft
    assertions only warn, falls back to the start time.  Whatever is
    reported is not earlier than the start. *)
Theorem open_ended_inheritance raises fuel (s : store) p r e q pe :
  s !! p = Some r → extra_fields_ r = TorchOp e →
  end_time_ns_ e = time_min → finished_ r = true → parent_ r = Some q →
  endTimeNS raises fuel s q = Ok pe →
  (start_time_ns_ r ≤ pe → endTimeNS raises (S fuel) s p = Ok pe) ∧
  (pe < start_time_ns_ r →
   endTimeNS raises (S fuel) s p =
     if raises then Err SoftAssert else Ok (start_time_ns_ r)) ∧
  (∀ x, endTimeNS raises (S fuel) s p = Ok x → start_time_ns_ r ≤ x).
Proof.
  intros Hp Hx He Hf Hq Hpe.
  rewrite (endTimeNS_borrowed raises fuel s p r e q Hp Hx He Hf Hq), Hpe.
  cbn. destruct (Z.leb_spec (start_time_ns_ r) pe) as [Hle|Hlt].
  - split; [done|]. split; [lia|]. by intros x [= <-].
  - split; [lia|]. split; [done|].
    destruct raises; [done|]. intros x [= <-]. lia.
Qed.

Lemma open_ended_inheritance_witness :
  endTimeNS false 1 open_ended_store 0 = Ok 100 ∧
  endTimeNS false 2 open_ended_store 1 = Ok 100.
Proof.
  split; [reflexivity|].
  refine (proj1 (open_ended_inheritance false 1 open_ended_store 1%nat
    (mkResult 10 1 (TorchOp (mkTorchOp time_min 0 [])) true (Some 0%nat) [])
    (mkTorchOp time_min 0 []) 0%nat 100 _ _ _ _ _ _) _);
    try reflexivity. cbn. lia.
Defined.

(** ** Well-formedness of the tree *)

Lemma before_sorted (R : ptr → ptr → Prop) (l : list ptr) q e :
  StronglySorted R l → before q e l → R q e.
Proof.
  intros Hs (l1 & l2 & -> & Hq). induction l1 as [|x l1 IH].
  - by apply elem_of_nil in Hq.
  - cbn in Hs. apply StronglySorted_inv in Hs as [Hs Hall].
    apply elem_of_cons in Hq as [->|Hq]; [|by apply IH].
    rewrite Forall_forall in Hall. apply Hall.
    apply elem_of_app. right. by left.
Qed.

Lemma start_of_build_tree (s0 s : store) evs p :
  store_inv s0 evs s → start_of s p = start_of s0 p.
Proof.
  intros Hinv. unfold start_of. destruct (s !! p) as [r|] eqn:Hr.
  - apply (inv_kind _ _ _ Hinv) in Hr as (r0 & -> & -> & _). done.
  - apply lookup_ge_None in Hr. rewrite (inv_length _ _ _ Hinv) in Hr.
    apply lookup_ge_None in Hr. by rewrite Hr.
Qed.

(** An event that [build_tree] gave a parent was pushed. *)
Lemma adopted_pushed (s0 s : store) evs c q :
  store_inv s0 evs s → parent_of s0 c = None → parent_of s c = Some q →
  c ∈ pushed s0 evs.
Proof.
  intros Hinv H0 H1. destruct (decide (c ∈ pushed s0 evs)) as [|Hn]; [done|].
  unfold parent_of in *. rewrite (inv_untouched _ _ _ Hinv c Hn) in H1.
  congruence.
Qed.

Lemma adopted_child (s0 s : store) evs c q :
  store_inv s0 evs s → c ∈ pushed s0 evs → parent_of s c = Some q →
  c ∈ children_of s q.
Proof.
  intros Hinv Hc Hq.
  destruct (inv_parent _ _ _ Hinv c q Hc Hq) as (_ & Hqp & _).
  rewrite (inv_children _ _ _ Hinv q (inv_valid _ _ _ Hinv q Hqp)).
  apply elem_of_app. right. by apply list_elem_of_filter.
Qed.

(** The property as the specification words it: in the forest every finished
    node ends no earlier than it starts, and the interval of a node contains
    the interval of each of its children. *)
Definition tree_well_formed (raises : bool) (s : store) : Prop :=
  (∀ p r e, s !! p = Some r → finished_ r = true →
            end_ns raises s p = Ok e → start_time_ns_ r ≤ e) ∧
  (∀ p c rp rc ep ec, s !! p = Some rp → c ∈ children_ rp →
     s !! c = Some rc → end_ns raises s p = Ok ep →
     end_ns raises s c = Ok ec →
     start_time_ns_ rp ≤ start_time_ns_ rc ∧ ec ≤ ep).

(** B becomes a child of A although it ends 50 ns after A. *)
Lemma overlapping_child_not_contained :
  ∃ s, build_tree false overlap_store [0; 1]%nat = Ok s ∧
       children_of s 0 = [1%nat] ∧
       end_ns false s 0 = Ok 100 ∧ end_ns false s 1 = Ok 150 ∧
       ¬ tree_well_formed false s.
Proof.
  eexists. split; [vm_compute; reflexivity|].
  split; [reflexivity|]. split; [reflexivity|]. split; [reflexivity|].
  intros [_ Hnest].
  edestruct (Hnest 0%nat 1%nat) as [_ Hle];
    [reflexivity|by left|reflexivity|reflexivity|reflexivity|].
  vm_compute in Hle. by apply Hle.
Qed.

(** C1 (amended).  In the store that [build_tree] returns for events sorted
    by start time, every finished node reports an end time not before its
    start, and every event that the builder gave a parent is in the child
    list of that parent and starts no earlier than the parent.  (The end of
    a child is not bounded by the end of its parent.) *)
Theorem build_tree_well_formed raises (s0 s : store) evs :
  NoDup evs →
  Sorted (fun a b => start_of s0 a ≤ start_of s0 b) evs →
  build_tree raises s0 evs = Ok s →
  (∀ fuel p r e, s !! p = Some r → finished_ r = true →
     endTimeNS raises fuel s p = Ok e → start_time_ns_ r ≤ e) ∧
  (∀ c q, parent_of s0 c = None → parent_of s c = Some q →
     c ∈ children_of s q ∧ start_of s q ≤ start_of s c).
Proof.
  intros Hnd Hsorted H. apply (build_tree_inv raises s0 evs s Hnd) in H.
  split.
  - intros fuel p r e. apply endTimeNS_finished_ge.
  - intros c q H0 H1.
    pose proof (adopted_pushed _ _ _ _ _ H H0 H1) as Hc.
    split; [by eapply adopted_child|].
    rewrite !(start_of_build_tree s0 s evs) by done.
    destruct (inv_parent _ _ _ H c q Hc H1) as (Hb & _ & _).
    apply Sorted_StronglySorted in Hsorted; [|intros x y z; lia].
    by apply (before_sorted _ _ _ _ Hsorted) in Hb.
Qed.

Lemma build_tree_well_formed_witness :
  ∃ s, build_tree false overlap_store [0; 1]%nat = Ok s ∧
       1%nat ∈ children_of s 0 ∧ start_of s 0 ≤ start_of s 1.
Proof.
  eexists. split; [vm_compute; reflexivity|].
  refine (proj2 (build_tree_well_formed false overlap_store _ [0; 1]%nat
                   _ _ _) 1%nat 0%nat _ _); try reflexivity.
  - apply (bool_decide_unpack (NoDup [0; 1]%nat)). vm_compute. exact I.
  - repeat constructor. cbn. lia.
Defined.

(** ** Closing the frames that ended *)

(** [s'] is [s] with more events marked finished. *)
Definition finishes (s s' : store) : Prop :=
  ∀ p r, s !! p = Some r →
    ∃ r', s' !! p = Some r' ∧ start_time_ns_ r' = start_time_ns_ r ∧
          extra_fields_ r' = extra_fields_ r ∧
          (finished_ r = true → finished_ r' = true).

Lemma finishes_refl s : finishes s s.
Proof. intros p r Hp. eauto. Qed.

Lemma finishes_trans s1 s2 s3 : finishes s1 s2 → finishes s2 s3 → finishes s1 s3.
Proof.
  intros H12 H23 p r Hp.
  destruct (H12 p r Hp) as (r2 & Hp2 & Hs2 & Hx2 & Hf2).
  destruct (H23 p r2 Hp2) as (r3 & Hp3 & Hs3 & Hx3 & Hf3).
  exists r3. repeat split; [done|congruence|congruence|auto].
Qed.

Lemma mark_finished_finishes raises (s s' : store) p :
  mark_finished raises s p = Ok s' →
  finishes s s' ∧ ∃ r, s' !! p = Some r ∧ finished_ r = true.
Proof.
  intros (r & Hr & _ & ->)%mark_finished_Ok. split.
  - intros q rq Hq. rewrite (lookup_insert_store _ _ _ _ _ Hr).
    destruct (decide (p = q)) as [<-|]; [|eauto].
    assert (rq = r) as -> by congruence. by exists (set_finished r).
  - exists (set_finished r). split; [|done].
    apply list_lookup_insert_eq. by eapply lookup_lt_Some.
Qed.

Lemma finish_frames_finishes raises fuel (s s' : store) frame event :
  finish_frames raises fuel s frame event = Ok s' → finishes s s'.
Proof.
  revert s frame. induction fuel as [|fuel IH]; intros s frame H;
    cbn in H; case_bool_decide; try (ok_inv H; apply finishes_refl).
  ok_bind H as s1 E1. ok_bind H as r E2.
  destruct (parent_ r) as [q|]; [|discriminate].
  apply mark_finished_finishes in E1 as [E1 _].
  eapply finishes_trans; [exact E1|by eapply IH].
Qed.

Lemma pop_event_finishes raises (s s' : store) (stk stk' : gmap Z ptr) event :
  pop_event raises s stk event = Ok (s', stk') →
  finishes s s' ∧ ∃ r, s' !! event = Some r ∧ finished_ r = true.
Proof.
  unfold pop_event. intros H. ok_bind H as r E.
  destruct (finished_ r) eqn:Hf.
  { ok_inv H. split; [apply finishes_refl|eauto]. }
  destruct (stk !! start_tid_ r) as [f|]; [|by ok_inv H].
  ok_bind H as f' E0. injection E0 as <-.
  ok_bind H as s1 E1. ok_bind H as s2 E2. ok_bind H as r2 E3.
  apply finish_frames_finishes in E1.
  apply mark_finished_finishes in E2 as [E2 Hfin].
  assert (s' = s2) as -> by (destruct (parent_ r2); by ok_inv H).
  split; [by eapply finishes_trans|done].
Qed.





Lemma close_before_cons raises (s : store) (stk : gmap Z ptr) top rest t :
  close_before raises s stk (top :: rest) t =
  (e ← end_ns raises s top;
   if e <? t then
     '(s', stk') ← pop_event raises s stk top;
     close_before raises s' stk' rest t
   else Ok (mkBt s stk (top :: rest))).
Proof. reflexivity. Qed.


(** ** The pending ends during the replay *)



















(** ** The example of the specification *)



(** ** Instant events *)

Lemma filter_none {A} (P : A → Prop) `{∀ x, Decision (P x)} (l : list A) :
  (∀ x, x ∈ l → ¬ P x) → filter P l = [].
Proof.
  induction l as [|a l IH]; intros Hn; [done|].
  rewrite filter_cons_False by (apply Hn; left).
  apply IH. intros x Hx. apply Hn. by right.
Qed.

Lemma never_open_children (s0 s : store) done a :
  store_inv s0 done s → never_open s0 a = true →
  children_of s a = children_of s0 a.
Proof.
  intros Hinv Hno.
  assert (is_Some (s0 !! a)) as Hval.
  { unfold never_open in Hno. destruct (s0 !! a); [eauto|done]. }
  rewrite (inv_children _ _ _ Hinv a Hval), filter_none, app_nil_r; [done|].
  intros x Hx Hp. destruct (inv_parent _ _ _ Hinv x a Hx Hp) as (_ & _ & Hf).
  congruence.
Qed.

Lemma push_event_instant raises st st' a r :
  bt_store st !! a = Some r → is_instant r = true →
  start_time_ns_ r ≠ time_min →
  push_event raises st a = Ok st' →
  stacks st' = stacks st ∧ end_events_ st' = end_events_ st ∧
  ∃ r', bt_store st' !! a = Some r' ∧ finished_ r' = true.
Proof.
  intros Hr Hi Hmin H. unfold push_event in H.
  rewrite (deref_lookup _ _ _ Hr) in H. cbn [mbind outcome_bind] in H.
  assert (is_kineto r = false) as Hk.
  { unfold is_instant in Hi. unfold is_kineto. by destruct (extra_fields_ r). }
  rewrite Hk in H. cbn [andb] in H.
  ok_bind H as u0 E0. ok_bind H as u1 E1. ok_bind H as u2 E2.
  ok_bind H as s1 E3.
  assert (∃ r1, s1 !! a = Some r1 ∧ is_instant r1 = true ∧
                start_time_ns_ r1 = start_time_ns_ r) as (r1 & Hr1 & Hi1 & Hs1).
  { destruct (find_parent (stacks st) r) as [p|].
    - apply attach_Ok in E3 as (r' & rp & Hr' & Hrp & ->).
      assert (r' = r) as -> by congruence.
      destruct (decide (p = a)) as [->|Hne].
      + rewrite list_lookup_insert_eq in Hrp by (by eapply lookup_lt_Some).
        injection Hrp as <-.
        exists (push_child a (set_parent (Some a) r)).
        split; [|done]. apply list_lookup_insert_eq.
        rewrite length_insert. by eapply lookup_lt_Some.
      + exists (set_parent (Some p) r). split; [|done].
        rewrite list_lookup_insert_ne by done.
        apply list_lookup_insert_eq. by eapply lookup_lt_Some.
    - ok_inv E3. eauto. }
  ok_bind H as t E4. unfold end_ns, chain_fuel in E4.
  rewrite (endTimeNS_instant _ _ _ _ _ Hr1 Hi1), Hs1 in E4.
  injection E4 as <-. rewrite Z.ltb_irrefl in H.
  destruct (Z.eqb_spec (start_time_ns_ r) time_min) as [|_]; [done|].
  ok_bind H as s2 E5. ok_inv H. cbn.
  apply mark_finished_finishes in E5 as [_ Hfin]. done.
Qed.

(** An Allocation event has a child in the final forest: the merge of the
    external trace makes the device activity that is linked to it its child,
    and the tree builder keeps the child. *)
Lemma allocation_adopts_linked_activity :
  ∃ st s r,
    TransferEvents_new false 2 false 1 allocation_activities allocation_store
      [0%nat] ∅ (Some [Some 0; Some 1]%nat) = Ok st ∧
    sort_and_build false (tr_store st) (results_ st) = Ok s ∧
    s !! 0%nat = Some r ∧ is_instant r = true ∧
    start_time_ns_ r ≠ time_min ∧ finished_ r = true ∧
    children_of s 0 = [1%nat].
Proof.
  eexists _, _, _. split; [vm_compute; reflexivity|].
  split; [vm_compute; reflexivity|]. split; [reflexivity|].
  split; [reflexivity|]. split; [|by split].
  cbn. unfold time_min. lia.
Qed.

(** With the smallest int64 as start time the reported end time is the
    "unset" marker: [push_event] does not finish the event, it becomes the
    open frame of its thread and adopts the next event. *)
Lemma instant_event_with_unset_start_opens :
  ∃ s r, build_tree false unset_start_store [0; 1]%nat = Ok s ∧
         s !! 0%nat = Some r ∧ is_instant r = true ∧ finished_ r = false ∧
         children_of s 0 = [1%nat].
Proof.
  eexists _, _. split; [vm_compute; reflexivity|]. by repeat split.
Qed.

(** C10 (amended).  An Allocation or OutOfMemory event reports its start
    time as its end time.  When the start time is not the smallest int64
    (the "unset" marker of [push_event]), [push_event] marks the event
    finished at once and leaves [stacks] and [end_events_] as they were;
    after any number of iterations of the replay the event is the open frame
    of no thread, and [build_tree] adds no child to it: its children in the
    forest are the ones it had before, those that the merge of the external
    trace gave it. *)
Theorem instant_event_never_opens raises (s0 : store) a r :
  s0 !! a = Some r → is_instant r = true → start_time_ns_ r ≠ time_min →
  (∀ fuel (s : store) ra, s !! a = Some ra → is_instant ra = true →
     endTimeNS raises (S fuel) s a = Ok (start_time_ns_ ra)) ∧
  (∀ st st', bt_store st !! a = Some r → push_event raises st a = Ok st' →
     stacks st' = stacks st ∧ end_events_ st' = end_events_ st ∧
     ∃ r', bt_store st' !! a = Some r' ∧ finished_ r' = true) ∧
  (∀ evs st, NoDup evs → replay raises (mkBt s0 ∅ []) evs = Ok st →
     (∀ tid, stacks st !! tid ≠ Some a) ∧
     children_of (bt_store st) a = children_of s0 a) ∧
  (∀ evs s, NoDup evs → build_tree raises s0 evs = Ok s →
     children_of s a = children_of s0 a).
Proof.
  intros Hr Hi Hmin.
  assert (never_open s0 a = true) as Hno.
  { unfold never_open. rewrite Hr, Hi. cbn.
    by destruct (Z.eqb_spec (start_time_ns_ r) time_min). }
  split; [|split; [|split]].
  - intros fuel s ra. apply endTimeNS_instant.
  - intros st st' Hst. by apply (push_event_instant raises st st' a r).
  - intros evs st Hnd H.
    apply (inv_replay raises s0 [] _ _ _ (replay_inv_init s0) Hnd) in H.
    destruct H as [Hs Hst _]. split.
    + intros tid Htid. destruct (Hst _ _ Htid) as [_ Hf]. congruence.
    + by eapply never_open_children.
  - intros evs s Hnd H. apply (build_tree_inv raises s0 evs s Hnd) in H.
    by eapply never_open_children.
Qed.

Lemma instant_event_never_opens_witness :
  ∃ s, build_tree false alloc_store [0; 1; 2; 3]%nat = Ok s ∧
       children_of s 1 = [] ∧ children_of s 0 = [1; 2; 3]%nat.
Proof.
  eexists. split; [vm_compute; reflexivity|]. split; [|reflexivity].
  refine (proj2 (proj2 (proj2 (instant_event_never_opens false alloc_store
    1%nat _ _ _ _))) [0; 1; 2; 3]%nat _ _ _); try reflexivity.
  - cbn. unfold time_min. lia.
  - apply (bool_decide_unpack (NoDup [0; 1; 2; 3]%nat)). vm_compute. exact I.
Defined.

(** ** The stable sort and the order of siblings *)

Lemma before_cons a b x (l : list ptr) : before a b l → before a b (x :: l).
Proof.
  intros (l1 & l2 & -> & Ha). exists (x :: l1), l2. split; [done|by right].
Qed.

Lemma before_head a b (l : list ptr) : b ∈ l → before a b (a :: l).
Proof.
  intros (l1 & l2 & ->)%list_elem_of_split. exists (a :: l1), l2.
  split; [done|by left].
Qed.

Lemma before_inv_cons a b x (l : list ptr) :
  before a b (x :: l) → (a = x ∧ b ∈ l) ∨ before a b l.
Proof.
  intros (l1 & l2 & Heq & Ha). destruct l1 as [|y l1].
  { by apply elem_of_nil in Ha. }
  injection Heq as <- ->. apply elem_of_cons in Ha as [->|Ha].
  - left. split; [done|]. apply elem_of_app. right. by left.
  - right. by exists l1, l2.
Qed.

Lemma before_app_r a b (l1 l2 : list ptr) : before a b l2 → before a b (l1 ++ l2).
Proof.
  intros (k1 & k2 & -> & Ha). exists (l1 ++ k1), k2.
  split; [by rewrite <- app_assoc|]. apply elem_of_app. by right.
Qed.

Lemma before_filter (P : ptr → Prop) `{∀ x, Decision (P x)} a b l :
  before a b l → P a → P b → before a b (filter P l).
Proof.
  intros (l1 & l2 & -> & Ha) HPa HPb. rewrite filter_app, filter_cons_True by done.
  exists (filter P l1), (filter P l2). split; [done|].
  by apply list_elem_of_filter.
Qed.

Lemma insert_by_start_elem (s : store) x l v :
  v ∈ insert_by_start s x l ↔ v = x ∨ v ∈ l.
Proof.
  induction l as [|y l IH]; cbn.
  - rewrite list_elem_of_singleton, elem_of_nil. tauto.
  - destruct (start_of s y <? start_of s x).
    + rewrite !elem_of_cons, IH. tauto.
    + by rewrite elem_of_cons.
Qed.

Lemma stable_sort_elem (s : store) l v : v ∈ stable_sort s l ↔ v ∈ l.
Proof.
  induction l as [|x l IH]; cbn; [done|].
  by rewrite insert_by_start_elem, elem_of_cons, IH.
Qed.

Lemma insert_by_start_NoDup (s : store) x l :
  x ∉ l → NoDup l → NoDup (insert_by_start s x l).
Proof.
  induction l as [|y l IH]; cbn; intros Hx Hnd.
  - by apply NoDup_singleton.
  - destruct (start_of s y <? start_of s x).
    + apply NoDup_cons in Hnd as [Hy Hnd]. apply NoDup_cons. split.
      * rewrite insert_by_start_elem. intros [->|?]; [|done].
        apply Hx. by left.
      * apply IH; [|done]. intros ?. apply Hx. by right.
    + by apply NoDup_cons.
Qed.

Lemma stable_sort_NoDup (s : store) l : NoDup l → NoDup (stable_sort s l).
Proof.
  induction l as [|x l IH]; cbn; intros Hnd; [done|].
  apply NoDup_cons in Hnd as [Hx Hnd].
  apply insert_by_start_NoDup; [by rewrite stable_sort_elem|by apply IH].
Qed.

Lemma insert_by_start_sorted (s : store) x l :
  Sorted (fun a b => start_of s a ≤ start_of s b) l →
  Sorted (fun a b => start_of s a ≤ start_of s b) (insert_by_start s x l).
Proof.
  induction l as [|y l IH]; cbn; intros Hs.
  - by repeat constructor.
  - destruct (Z.ltb_spec (start_of s y) (start_of s x)).
    + apply Sorted_inv in Hs as [Hs Hhd]. constructor; [by apply IH|].
      destruct l as [|z l]; cbn.
      * constructor. lia.
      * destruct (start_of s z <? start_of s x); constructor; [|lia].
        by apply HdRel_inv in Hhd.
    + constructor; [done|]. by constructor.
Qed.

(** The result of the sort is sorted by start time. *)
Lemma stable_sort_sorted (s : store) l :
  Sorted (fun a b => start_of s a ≤ start_of s b) (stable_sort s l).
Proof.
  induction l as [|x l IH]; cbn; [constructor|].
  by apply insert_by_start_sorted.
Qed.

Lemma insert_by_start_keeps (s : store) x l a b :
  before a b l → before a b (insert_by_start s x l).
Proof.
  induction l as [|y l IH]; cbn; intros Hb.
  - destruct Hb as (l1 & l2 & Heq & _). by destruct l1.
  - destruct (start_of s y <? start_of s x); [|by apply before_cons].
    apply before_inv_cons in Hb as [[-> Hin]|Hb].
    + apply before_head, insert_by_start_elem. by right.
    + by apply before_cons, IH.
Qed.

Lemma insert_by_start_first (s : store) x l b :
  b ∈ l → start_of s x ≤ start_of s b → before x b (insert_by_start s x l).
Proof.
  induction l as [|y l IH]; cbn; intros Hin Hle.
  - by apply elem_of_nil in Hin.
  - destruct (Z.ltb_spec (start_of s y) (start_of s x)) as [Hlt|Hge].
    + apply elem_of_cons in Hin as [->|Hin]; [lia|].
      by apply before_cons, IH.
    + by apply before_head.
Qed.

(** The sort is stable: an event that comes first in the input and does not
    start later also comes first in the result. *)
Lemma stable_sort_stable (s : store) l a b :
  before a b l → start_of s a ≤ start_of s b → before a b (stable_sort s l).
Proof.
  induction l as [|x l IH]; intros Hb Hle.
  - destruct Hb as (l1 & l2 & Heq & _). by destruct l1.
  - cbn. apply before_inv_cons in Hb as [[-> Hin]|Hb].
    + apply insert_by_start_first; [by apply stable_sort_elem|done].
    + by apply insert_by_start_keeps, IH.
Qed.

(** The sibling order that the specification claims: events with the same
    start time appear among the children of a node in the order they have in
    the input. *)
Definition sibling_order_matches_input (s0 : store) (out : list ptr)
  (s : store) : Prop :=
  ∀ p a b, before a b out → start_of s0 a = start_of s0 b →
           a ∈ children_of s p → b ∈ children_of s p →
           before a b (children_of s p).

(** The merge makes K the first child of P; the tree builder appends C
    although C comes before K in the input and starts at the same time. *)
Lemma merged_child_precedes_tie :
  ∃ s1 s2,
    setParents false 2 false 1 merge_store [0; 1; 2]%nat = Ok s1 ∧
    sort_and_build false s1 [0; 1; 2]%nat = Ok s2 ∧
    children_of s2 0 = [2; 1]%nat ∧
    ¬ sibling_order_matches_input s1 [0; 1; 2]%nat s2.
Proof.
  eexists _, _. split; [vm_compute; reflexivity|].
  split; [vm_compute; reflexivity|]. split; [reflexivity|].
  intros Hclaim. specialize (Hclaim 0%nat 1%nat 2%nat).
  destruct Hclaim as (l1 & l2 & Heq & Hin).
  - exists [0; 1]%nat, []. split; [done|]. right. by left.
  - reflexivity.
  - right. by left.
  - by left.
  - cbn in Heq. destruct l1 as [|x [|y l1]].
    + by apply elem_of_nil in Hin.
    + injection Heq as _ Heq. discriminate.
    + injection Heq as _ _ Heq. by destruct l1.
Qed.

(** C9 (amended).  Among the events that the tree builder gives a parent,
    the order of siblings follows the stable sort: of two children of one
    node, the one that comes first in the input and does not start later
    (in particular, starts at the same time) comes first in the child list.
    Children attached by the external-trace merge come before them whatever
    their start times. *)
Theorem sibling_order_is_stable raises (s0 s : store) out p a b :
  NoDup out → sort_and_build raises s0 out = Ok s →
  before a b out → start_of s0 a ≤ start_of s0 b →
  parent_of s0 a = None → parent_of s0 b = None →
  parent_of s a = Some p → parent_of s b = Some p →
  before a b (children_of s p).
Proof.
  intros Hnd H Hb Hle Ha0 Hb0 Ha Hbp. unfold sort_and_build in H.
  apply (build_tree_inv raises s0 _ s (stable_sort_NoDup s0 out Hnd)) in H.
  pose proof (adopted_pushed _ _ _ _ _ H Ha0 Ha) as Hpa.
  pose proof (adopted_pushed _ _ _ _ _ H Hb0 Hbp) as Hpb.
  destruct (inv_parent _ _ _ H a p Hpa Ha) as (_ & Hpp & _).
  rewrite (inv_children _ _ _ H p (inv_valid _ _ _ H p Hpp)).
  apply before_app_r, before_filter; [|done|done].
  apply before_filter.
  - by apply stable_sort_stable.
  - unfold pushed in Hpa. by apply list_elem_of_filter in Hpa as [? _].
  - unfold pushed in Hpb. by apply list_elem_of_filter in Hpb as [? _].
Qed.

Lemma sibling_order_is_stable_witness :
  ∃ s, sort_and_build false tie_store [2; 1; 0]%nat = Ok s ∧
       before 2%nat 1%nat (children_of s 0).
Proof.
  eexists. split; [vm_compute; reflexivity|].
  refine (sibling_order_is_stable false tie_store _ [2; 1; 0]%nat 0%nat
            2%nat 1%nat _ _ _ _ _ _ _ _); try reflexivity.
  - apply (bool_decide_unpack (NoDup [2; 1; 0]%nat)). vm_compute. exact I.
  - exists [2%nat], [0%nat]. split; [done|by left].
Defined.

(** ** The external-trace merge *)

Section SetParentsFacts.

Context (raises : bool) (kLinkAsyncCpuGpu : Z) (use_rocm : bool)
        (currentThreadId : Z).

#[local] Abbreviation pass2_step :=
  (second_pass_step raises kLinkAsyncCpuGpu).
#[local] Abbreviation pass2 := (second_pass raises kLinkAsyncCpuGpu).
#[local] Abbreviation pass1_step :=
  (first_pass_step kLinkAsyncCpuGpu use_rocm).
#[local] Abbreviation pass1 := (first_pass kLinkAsyncCpuGpu use_rocm).
#[local] Abbreviation set_tid := (setKinetoTID currentThreadId).
#[local] Abbreviation pass3 := (third_pass currentThreadId).

(** [s'] keeps the payload of every event of [s]; outside [e] it keeps
    parent and finished flag as well, and child lists only grow. *)
Definition merge_step (e : ptr) (s s' : store) : Prop :=
  length s' = length s ∧
  ∀ y ry, s !! y = Some ry →
    ∃ ry', s' !! y = Some ry' ∧
           extra_fields_ ry' = extra_fields_ ry ∧
           (y ≠ e → parent_ ry' = parent_ ry ∧ finished_ ry' = finished_ ry) ∧
           (∀ c, c ∈ children_ ry → c ∈ children_ ry').

Lemma merge_step_refl e s : merge_step e s s.
Proof. split; [done|]. intros y ry Hy. exists ry. by repeat split. Qed.

Lemma merge_step_insert e (s : store) r r' :
  s !! e = Some r → extra_fields_ r' = extra_fields_ r →
  (∀ c, c ∈ children_ r → c ∈ children_ r') →
  merge_step e s (<[e := r']> s).
Proof.
  intros Hr Hx Hc. split; [by rewrite length_insert|].
  intros y ry Hy. rewrite (lookup_insert_store _ _ _ _ _ Hr).
  destruct (decide (e = y)) as [<-|Hne].
  - assert (ry = r) as -> by congruence. exists r'. by repeat split.
  - exists ry. by repeat split.
Qed.

Lemma merge_step_child e (s : store) p rp c :
  s !! p = Some rp → merge_step e s (<[p := push_child c rp]> s).
Proof.
  intros Hrp. split; [by rewrite length_insert|].
  intros y ry Hy. rewrite (lookup_insert_store _ _ _ _ _ Hrp).
  destruct (decide (p = y)) as [<-|Hne].
  - assert (ry = rp) as -> by congruence. exists (push_child c rp).
    repeat split; try done. intros c' Hc'. cbn. apply elem_of_app. by left.
  - exists ry. by repeat split.
Qed.

Lemma merge_step_trans e s1 s2 s3 :
  merge_step e s1 s2 → merge_step e s2 s3 → merge_step e s1 s3.
Proof.
  intros [Hl12 H12] [Hl23 H23]. split; [congruence|]. intros y ry Hy.
  destruct (H12 y ry Hy) as (r2 & Hy2 & Hx2 & Hp2 & Hc2).
  destruct (H23 y r2 Hy2) as (r3 & Hy3 & Hx3 & Hp3 & Hc3).
  exists r3. split; [done|]. split; [congruence|]. split; [|auto].
  intros Hne. destruct (Hp2 Hne), (Hp3 Hne). split; congruence.
Qed.

(** What the second pass does for one event. *)
Lemma second_pass_step_Ok flow_map (s s' : store) e :
  pass2_step flow_map s e = Ok s' →
  merge_step e s s' ∧
  ∀ r i, s !! e = Some r → extra_fields_ r = Kineto i →
    ∃ r', s' !! e = Some r' ∧
          parent_ r' = flow_parent kLinkAsyncCpuGpu flow_map i (parent_ r) ∧
          ∀ p, parent_ r' = Some p →
               finished_ r' = true ∧ e ∈ children_of s' p.
Proof.
  unfold second_pass_step. intros H. ok_bind H as r E.
  destruct (extra_fields_ r) as [| | | | | |i] eqn:Hx;
    try (ok_inv H; split; [apply merge_step_refl|]; intros; congruence).
  set (r1 := set_parent (flow_parent kLinkAsyncCpuGpu flow_map i (parent_ r)) r)
    in *.
  assert (Hm1 : merge_step e s (<[e := r1]> s)).
  { by apply (merge_step_insert e s r r1). }
  assert (Hr1 : <[e := r1]> s !! e = Some r1).
  { apply list_lookup_insert_eq. by eapply lookup_lt_Some. }
  destruct (parent_ r1) as [p|] eqn:Hp.
  - ok_bind H as rp Erp.
    apply mark_finished_Ok in H as (r2 & Hr2 & Hf2 & ->).
    set (s2 := <[p := push_child e rp]> (<[e := r1]> s)) in *.
    assert (Hm2 : merge_step e s s2).
    { eapply merge_step_trans; [exact Hm1|by apply merge_step_child]. }
    split.
    + eapply merge_step_trans; [exact Hm2|].
      by apply (merge_step_insert e s2 r2 (set_finished r2)).
    + intros r' i' Hr' Hi'. assert (r' = r) as -> by congruence.
      assert (i' = i) as -> by congruence.
      exists (set_finished r2).
      assert (Hlk : <[e := set_finished r2]> s2 !! e = Some (set_finished r2)).
      { apply list_lookup_insert_eq. by eapply lookup_lt_Some. }
      split; [done|].
      assert (Hr2' : parent_ r2 = Some p ∧
                     (p = e → e ∈ children_ r2) ∧
                     (p ≠ e → ∃ rp', s2 !! p = Some rp' ∧ e ∈ children_ rp')).
      { unfold s2 in Hr2 |- *.
        rewrite (lookup_insert_store _ _ _ _ _ Erp) in Hr2.
        rewrite (lookup_insert_store _ _ _ _ _ Erp).
        destruct (decide (p = e)) as [->|Hne].
        - injection Hr2 as <-. destruct (decide (e = e)); [|done].
          assert (rp = r1) as -> by congruence.
          split; [done|]. split; [|done]. intros _. cbn.
          apply elem_of_app. right. by left.
        - rewrite Hr1 in Hr2. injection Hr2 as <-.
          split; [done|]. split; [done|]. intros _.
          destruct (decide (p = p)); [|done].
          exists (push_child e rp). split; [done|]. cbn.
          apply elem_of_app. right. by left. }
      destruct Hr2' as (Hpar & Hself & Hother).
      split; [cbn; by rewrite Hpar, <- Hp|].
      intros p' Hp'. cbn in Hp'. rewrite Hpar in Hp'. injection Hp' as <-.
      split; [done|]. unfold children_of.
      rewrite (lookup_insert_store _ _ _ _ _ Hr2).
      destruct (decide (e = p)) as [<-|Hne]; [cbn; by apply Hself|].
      destruct (Hother (not_eq_sym Hne)) as (rp' & -> & Hin). done.
  - ok_inv H. split; [done|].
    intros r' i' Hr' Hi'. assert (r' = r) as -> by congruence.
    assert (i' = i) as -> by congruence.
    exists r1. split; [done|]. split; [done|]. intros p. by rewrite Hp.
Qed.

(** A Kineto event with a parent is finished and is a child of the parent. *)
Definition linked (s : store) (e : ptr) : Prop :=
  ∀ r p, s !! e = Some r → is_kineto r = true → parent_ r = Some p →
         finished_ r = true ∧ e ∈ children_of s p.

Lemma lookup_same_length (s s' : store) x r' :
  length s' = length s → s' !! x = Some r' → is_Some (s !! x).
Proof.
  intros Hl Hx. apply lookup_lt_is_Some. rewrite <- Hl.
  by eapply lookup_lt_Some.
Qed.

Lemma merge_step_children e (s s' : store) c p :
  merge_step e s s' → c ∈ children_of s p → c ∈ children_of s' p.
Proof.
  intros [_ Hm]. unfold children_of. destruct (s !! p) as [rp|] eqn:Hp.
  - destruct (Hm p rp Hp) as (rp' & -> & _ & _ & Hc). apply Hc.
  - intros Hin. by apply elem_of_nil in Hin.
Qed.

Lemma second_pass_step_linked flow_map (s s' : store) e x :
  pass2_step flow_map s e = Ok s' →
  x = e ∨ linked s x → linked s' x.
Proof.
  intros [Hm He]%second_pass_step_Ok Hx r' p Hr' Hk Hp.
  destruct (lookup_same_length s s' x r' (proj1 Hm) Hr') as [r Hr].
  destruct (proj2 Hm x r Hr) as (r'' & Hr'' & Hxf & Hpf & _).
  assert (r'' = r') as -> by congruence.
  destruct (decide (x = e)) as [->|Hne].
  - unfold is_kineto in Hk. rewrite Hxf in Hk.
    destruct (extra_fields_ r) as [| | | | | |i] eqn:Hi; try done.
    destruct (He r i Hr Hi) as (r2 & Hr2 & _ & Hfin).
    assert (r2 = r') as -> by congruence. by apply Hfin.
  - destruct Hx as [?|Hl]; [done|]. destruct (Hpf Hne) as [Hpar Hfin].
    destruct (Hl r p Hr) as [Hf Hc].
    { unfold is_kineto in *. by rewrite <- Hxf. }
    { congruence. }
    split; [congruence|]. by eapply merge_step_children.
Qed.

Lemma second_pass_linked flow_map (s s' : store) results x :
  pass2 flow_map s results = Ok s' →
  x ∈ results ∨ linked s x → linked s' x.
Proof.
  revert s. induction results as [|e rest IH]; intros s H Hx; cbn in H.
  - ok_inv H. destruct Hx as [Hx|]; [by apply elem_of_nil in Hx|done].
  - ok_bind H as s1 E. apply (IH s1 H).
    destruct Hx as [[->|Hx]%elem_of_cons|Hx]; [|by left|].
    + right. eapply second_pass_step_linked; [exact E|by left].
    + right. eapply second_pass_step_linked; [exact E|by right].
Qed.

(** The payload of [e] selects the flow start [start] in [flow_map]. *)
Definition continues_flow (flow_map : gmap Z ptr) (s : store) (e start : ptr)
  : Prop :=
  ∃ r i, s !! e = Some r ∧ extra_fields_ r = Kineto i ∧
         flow_map !! flow_id (flow i) = Some start ∧
         flow_type (flow i) = kLinkAsyncCpuGpu ∧ flow_start (flow i) = false.

Lemma second_pass_step_flow flow_map (s s' : store) x e start :
  pass2_step flow_map s x = Ok s' →
  continues_flow flow_map s e start →
  x = e ∨ parent_of s e = Some start →
  continues_flow flow_map s' e start ∧ parent_of s' e = Some start.
Proof.
  intros [Hm He]%second_pass_step_Ok (r & i & Hr & Hi & Hfm & Hty & Hst) Hx.
  destruct (proj2 Hm e r Hr) as (r' & Hr' & Hxf & Hpf & _).
  split.
  { exists r', i. rewrite Hxf. done. }
  unfold parent_of in *. rewrite Hr'. cbn.
  destruct (decide (e = x)) as [->|Hne].
  - destruct (He r i Hr Hi) as (r2 & Hr2 & Hpar & _).
    assert (r2 = r') as -> by congruence. rewrite Hpar.
    unfold flow_parent. rewrite Hfm, Hty, Hst, Z.eqb_refl. done.
  - destruct Hx as [->|Hx]; [done|]. destruct (Hpf Hne) as [-> _].
    by rewrite Hr in Hx.
Qed.

Lemma second_pass_flow flow_map (s s' : store) results e start :
  pass2 flow_map s results = Ok s' →
  continues_flow flow_map s e start →
  e ∈ results ∨ parent_of s e = Some start →
  parent_of s' e = Some start.
Proof.
  revert s. induction results as [|x rest IH]; intros s H Hc Hx; cbn in H.
  - ok_inv H. destruct Hx as [Hx|]; [by apply elem_of_nil in Hx|done].
  - ok_bind H as s1 E.
    destruct Hx as [[->|Hx]%elem_of_cons|Hx].
    + destruct (second_pass_step_flow _ _ _ _ _ _ E Hc) as [Hc1 Hp1];
        [by left|]. apply (IH s1 H Hc1). by right.
    + destruct (decide (x = e)) as [->|Hne].
      * destruct (second_pass_step_flow _ _ _ _ _ _ E Hc) as [Hc1 Hp1];
          [by left|]. apply (IH s1 H Hc1). by right.
      * pose proof (second_pass_step_Ok _ _ _ _ E) as [Hm _].
        destruct Hc as (r & i & Hr & Hi & Hrest).
        destruct (proj2 Hm e r Hr) as (r' & Hr' & Hxf & _).
        apply (IH s1 H); [|by left].
        exists r', i. by rewrite Hxf.
    + destruct (second_pass_step_flow _ _ _ _ _ _ E Hc) as [Hc1 Hp1];
        [by right|]. apply (IH s1 H Hc1). by right.
Qed.

(** [s'] is [s] up to thread ids. *)
Definition same_links (s s' : store) : Prop :=
  length s' = length s ∧
  ∀ y ry, s !! y = Some ry →
    ∃ ry', s' !! y = Some ry' ∧ extra_fields_ ry' = extra_fields_ ry ∧
           parent_ ry' = parent_ ry ∧ finished_ ry' = finished_ ry ∧
           children_ ry' = children_ ry.

Lemma same_links_refl s : same_links s s.
Proof. split; [done|]. intros y ry Hy. by exists ry. Qed.

Lemma same_links_trans s1 s2 s3 :
  same_links s1 s2 → same_links s2 s3 → same_links s1 s3.
Proof.
  intros [Hl12 H12] [Hl23 H23]. split; [congruence|]. intros y ry Hy.
  destruct (H12 y ry Hy) as (r2 & Hy2 & ? & ? & ? & ?).
  destruct (H23 y r2 Hy2) as (r3 & Hy3 & ? & ? & ? & ?).
  exists r3. repeat split; congruence.
Qed.

Lemma setKinetoTID_links fuel (s s' : store) r parent :
  set_tid fuel s r parent = Ok s' → same_links s s'.
Proof.
  revert s s' r parent. induction fuel as [|fuel IH];
    intros s s' r parent H; [discriminate|].
  cbn [setKinetoTID] in H. ok_bind H as rr E. ok_bind H as s1 E1.
  assert (Hs1 : same_links s s1).
  { destruct (is_kineto rr); [|ok_inv E1; apply same_links_refl].
    ok_bind E1 as u E2. ok_bind E1 as tid E3. ok_inv E1.
    split; [by rewrite length_insert|]. intros y ry Hy.
    rewrite (lookup_insert_store _ _ _ _ _ E).
    destruct (decide (r = y)) as [<-|]; [|by exists ry].
    assert (ry = rr) as -> by congruence. by exists (set_start_tid tid rr). }
  eapply same_links_trans; [exact Hs1|]. clear E E1 Hs1.
  revert s1 H. induction (children_ rr) as [|c cs IHcs]; intros s1 H.
  - ok_inv H. apply same_links_refl.
  - ok_bind H as s2 E2. eapply same_links_trans; [by eapply IH|by apply IHcs].
Qed.

Lemma third_pass_links (s s' : store) results :
  pass3 s results = Ok s' → same_links s s'.
Proof.
  revert s. induction results as [|e rest IH]; intros s H.
  - cbn in H. ok_inv H. apply same_links_refl.
  - change (pass3 s (e :: rest)) with
      (r ← deref s e;
       s' ← match parent_ r with
            | None => set_tid (chain_fuel s) s e None
            | Some _ => Ok s
            end;
       pass3 s' rest) in H.
    ok_bind H as r E. ok_bind H as s1 E1.
    eapply same_links_trans; [|by apply IH].
    destruct (parent_ r); [ok_inv E1; apply same_links_refl|].
    by eapply setKinetoTID_links.
Qed.

Lemma same_links_parent_of (s s' : store) e :
  same_links s s' → parent_of s' e = parent_of s e.
Proof.
  intros [Hl Hs]. unfold parent_of. destruct (s !! e) as [r|] eqn:Hr.
  - destruct (Hs e r Hr) as (r' & -> & _ & Hp & _). cbn. by rewrite Hp.
  - apply lookup_ge_None in Hr. rewrite <- Hl in Hr.
    apply lookup_ge_None in Hr. by rewrite Hr.
Qed.

Lemma same_links_children_of (s s' : store) e :
  same_links s s' → children_of s' e = children_of s e.
Proof.
  intros [Hl Hs]. unfold children_of. destruct (s !! e) as [r|] eqn:Hr.
  - by destruct (Hs e r Hr) as (r' & -> & _ & _ & _ & ->).
  - apply lookup_ge_None in Hr. rewrite <- Hl in Hr.
    apply lookup_ge_None in Hr. by rewrite Hr.
Qed.

Lemma same_links_linked (s s' : store) e :
  same_links s s' → linked s e → linked s' e.
Proof.
  intros Hs Hl r' p Hr' Hk Hp.
  destruct (lookup_same_length s s' e r' (proj1 Hs) Hr') as [r Hr].
  destruct (proj2 Hs e r Hr) as (r'' & Hr'' & Hx & Hpar & Hf & _).
  assert (r'' = r') as -> by congruence.
  destruct (Hl r p Hr) as [Hfin Hc].
  - unfold is_kineto in *. by rewrite <- Hx.
  - congruence.
  - split; [congruence|]. by rewrite (same_links_children_of s s' p Hs).
Qed.

(** [v] is a Kineto event that starts the async CPU-to-device flow [fid]. *)
Definition is_flow_start (s : store) (v : ptr) (fid : Z) : Prop :=
  ∃ r i, s !! v = Some r ∧ extra_fields_ r = Kineto i ∧
         flow_type (flow i) = kLinkAsyncCpuGpu ∧
         flow_start (flow i) = true ∧ flow_id (flow i) = fid.

Definition same_extra (s s' : store) : Prop :=
  length s' = length s ∧
  ∀ y ry, s !! y = Some ry →
    ∃ ry', s' !! y = Some ry' ∧ extra_fields_ ry' = extra_fields_ ry.

Lemma same_extra_flow_start (s s' : store) v fid :
  same_extra s s' → is_flow_start s v fid ↔ is_flow_start s' v fid.
Proof.
  intros [Hl Hs]. split.
  - intros (r & i & Hr & Hi & Hrest).
    destruct (Hs v r Hr) as (r' & Hr' & Hx). exists r', i. by rewrite Hx.
  - intros (r' & i & Hr' & Hi & Hrest).
    destruct (lookup_same_length s s' v r' Hl Hr') as [r Hr].
    destruct (Hs v r Hr) as (r'' & Hr'' & Hx).
    assert (r'' = r') as -> by congruence. exists r, i. by rewrite <- Hx.
Qed.

Lemma first_pass_step_Ok (s s' : store) (fm fm' : gmap Z ptr) e :
  pass1_step (s, fm) e = Ok (s', fm') →
  same_extra s s' ∧
  (∀ fid v, fm !! fid = Some v → fm' !! fid = Some v) ∧
  (∀ fid v, fm' !! fid = Some v →
     fm !! fid = Some v ∨ (v = e ∧ is_flow_start s e fid)) ∧
  (∀ fid, is_flow_start s e fid →
     ∃ w, fm' !! fid = Some w ∧ (use_rocm = false → w = e)).
Proof.
  unfold first_pass_step. cbn [fst snd]. intros H.
  ok_bind H as r E. destruct (extra_fields_ r) as [| | | | | |i] eqn:Hx;
    try (ok_inv H; split; [by split; eauto|]; split; [done|];
         split; [by left|]; intros fid (r' & i' & ? & ? & _); congruence).
  ok_bind H as fm1 E1. ok_bind H as u E2. ok_inv H.
  split.
  { split; [by rewrite length_insert|]. intros y ry Hy.
    rewrite (lookup_insert_store _ _ _ _ _ E).
    destruct (decide (e = y)) as [<-|]; [|by exists ry].
    assert (ry = r) as -> by congruence. by eexists. }
  destruct ((flow_type (flow i) =? kLinkAsyncCpuGpu) && flow_start (flow i))
    eqn:Hstart.
  - apply andb_true_iff in Hstart as [Hty%Z.eqb_eq Hst].
    assert (Hfs : is_flow_start s e (flow_id (flow i))).
    { by exists r, i. }
    destruct (fm !! flow_id (flow i)) as [w|] eqn:Hfm.
    + destruct use_rocm eqn:Hrocm; [|discriminate]. ok_inv E1.
      split; [done|]. split; [by left|].
      intros fid (r' & i' & Hr' & Hi' & _ & _ & <-).
      assert (i' = i) as -> by congruence. exists w. done.
    + ok_inv E1. split; [|split].
      * intros fid v Hv. rewrite lookup_insert. case_decide; [congruence|done].
      * intros fid v. rewrite lookup_insert. case_decide; [|by left].
        intros [= <-]. right. by subst.
      * intros fid (r' & i' & Hr' & Hi' & _ & _ & <-).
        assert (i' = i) as -> by congruence. exists e.
        by rewrite lookup_insert_eq.
  - ok_inv E1. split; [done|]. split; [by left|].
    intros fid (r' & i' & Hr' & Hi' & Hty & Hst & _).
    assert (i' = i) as -> by congruence.
    rewrite Hty, Hst, Z.eqb_refl in Hstart. done.
Qed.

Lemma same_extra_trans s1 s2 s3 :
  same_extra s1 s2 → same_extra s2 s3 → same_extra s1 s3.
Proof.
  intros [Hl12 H12] [Hl23 H23]. split; [congruence|]. intros y ry Hy.
  destruct (H12 y ry Hy) as (r2 & Hy2 & ?).
  destruct (H23 y r2 Hy2) as (r3 & Hy3 & ?). exists r3. split; congruence.
Qed.

Lemma first_pass_Ok (s s' : store) (fm fm' : gmap Z ptr) results :
  pass1 (s, fm) results = Ok (s', fm') →
  same_extra s s' ∧
  (∀ fid v, fm !! fid = Some v → fm' !! fid = Some v) ∧
  (∀ fid v, fm' !! fid = Some v →
     fm !! fid = Some v ∨ (v ∈ results ∧ is_flow_start s v fid)) ∧
  (∀ fid v, v ∈ results → is_flow_start s v fid →
     ∃ w, fm' !! fid = Some w ∧ (use_rocm = false → w = v)).
Proof.
  revert s fm. induction results as [|e rest IH]; intros s fm H; cbn in H.
  - ok_inv H. split; [by split; eauto|]. split; [done|]. split; [by left|].
    intros fid v Hv. by apply elem_of_nil in Hv.
  - ok_bind H as acc E. destruct acc as [s1 fm1].
    apply first_pass_step_Ok in E as (Hx1 & Hm1 & Hb1 & Hc1).
    apply IH in H as (Hx2 & Hm2 & Hb2 & Hc2).
    split; [by eapply same_extra_trans|]. split; [auto|]. split.
    + intros fid v Hv. destruct (Hb2 fid v Hv) as [Hv1|[Hin Hfs]].
      * destruct (Hb1 fid v Hv1) as [?|[-> ?]]; [by left|].
        right. split; [by left|done].
      * right. split; [by right|].
        by apply (same_extra_flow_start s s1 v fid Hx1).
    + intros fid v [->|Hin]%elem_of_cons Hfs.
      * destruct (Hc1 fid Hfs) as (w & Hw & Hrocm). exists w. auto.
      * apply (Hc2 fid v Hin).
        by apply (same_extra_flow_start s s1 v fid Hx1).
Qed.

Lemma setParents_Ok (s s' : store) results :
  setParents raises kLinkAsyncCpuGpu use_rocm currentThreadId s results
    = Ok s' →
  ∃ s1 s2 flow_map,
    pass1 (s, ∅) results = Ok (s1, flow_map) ∧
    pass2 flow_map s1 results = Ok s2 ∧
    pass3 s2 results = Ok s'.
Proof.
  unfold setParents. intros H. ok_bind H as acc E. destruct acc as [s1 fm].
  ok_bind H as s2 E2. by exists s1, s2, fm.
Qed.

End SetParentsFacts.

(** C5.  After [setParents], a Kineto event that continues an async
    CPU-to-device flow has the start event of that flow as its parent, not
    its linked activity.  (With [USE_ROCM] a flow may have several start
    events, of which the first is kept; the statement then takes the start
    event to be the only one.) *)
Theorem flow_overrides_linked_activity raises kLinkAsyncCpuGpu use_rocm tid
  (s s' : store) results e r i L S :
  setParents raises kLinkAsyncCpuGpu use_rocm tid s results = Ok s' →
  e ∈ results → s !! e = Some r → extra_fields_ r = Kineto i →
  linked_activity_ i = Some L →
  flow_type (flow i) = kLinkAsyncCpuGpu → flow_start (flow i) = false →
  S ∈ results → is_flow_start kLinkAsyncCpuGpu s S (flow_id (flow i)) →
  S ≠ L →
  (use_rocm = true → ∀ w, w ∈ results →
     is_flow_start kLinkAsyncCpuGpu s w (flow_id (flow i)) → w = S) →
  parent_of s' e = Some S ∧ parent_of s' e ≠ Some L.
Proof.
  intros H He Hr Hi _ Hty Hst HS Hfs Hne Huniq.
  apply setParents_Ok in H as (s1 & s2 & fm & H1 & H2 & H3).
  apply first_pass_Ok in H1 as (Hx & _ & Hb & Hc).
  assert (Hfm : fm !! flow_id (flow i) = Some S).
  { destruct (Hc _ S HS Hfs) as (w & Hw & Hrocm).
    destruct use_rocm; [|by rewrite (Hrocm eq_refl) in Hw].
    destruct (Hb _ w Hw) as [Hemp|[Hin Hw']]; [by rewrite lookup_empty in Hemp|].
    by rewrite (Huniq eq_refl w Hin Hw') in Hw. }
  assert (Hcont : continues_flow kLinkAsyncCpuGpu fm s1 e S).
  { destruct (proj2 Hx e r Hr) as (r1 & Hr1 & Hx1).
    exists r1, i. by rewrite Hx1. }
  assert (parent_of s' e = Some S) as ->.
  { rewrite (same_links_parent_of s2 s' e (third_pass_links _ _ _ _ H3)).
    eapply second_pass_flow; [exact H2|exact Hcont|by left]. }
  split; congruence.
Qed.

Lemma flow_overrides_linked_activity_witness :
  ∃ s, setParents false 2 false 1 flow_store [0; 1; 2]%nat = Ok s ∧
       parent_of s 2 = Some 1%nat ∧ parent_of s 2 ≠ Some 0%nat.
Proof.
  eexists. split; [vm_compute; reflexivity|].
  refine (flow_overrides_linked_activity false 2 false 1 flow_store _
            [0; 1; 2]%nat 2%nat _ _ 0%nat 1%nat _ _ _ _ _ _ _ _ _ _ _);
    try reflexivity.
  - right. right. by left.
  - right. by left.
  - eexists _, _. split; [reflexivity|]. cbn. done.
  - done.
  - discriminate.
Defined.

(** C6.  A Kineto event that has a parent after [setParents] is finished
    and is in the child list of that parent; [build_tree] run afterwards
    leaves the event exactly as it is, parent included. *)
Theorem merged_events_are_settled raises kLinkAsyncCpuGpu use_rocm tid
  (s s1 s2 : store) results evs e r p :
  setParents raises kLinkAsyncCpuGpu use_rocm tid s results = Ok s1 →
  NoDup evs → build_tree raises s1 evs = Ok s2 →
  e ∈ results → s1 !! e = Some r → is_kineto r = true → parent_ r = Some p →
  finished_ r = true ∧ e ∈ children_of s1 p ∧ s2 !! e = Some r.
Proof.
  intros H Hnd Hbt He Hr Hk Hp.
  apply setParents_Ok in H as (sa & sb & fm & _ & H2 & H3).
  assert (Hl : linked s1 e).
  { apply (same_links_linked sb s1 e (third_pass_links _ _ _ _ H3)).
    eapply second_pass_linked; [exact H2|by left]. }
  destruct (Hl r p Hr Hk Hp) as [Hf Hc]. split; [done|]. split; [done|].
  apply (build_tree_inv raises s1 evs s2 Hnd) in Hbt.
  rewrite (inv_untouched _ _ _ Hbt e); [done|].
  unfold pushed. rewrite list_elem_of_filter. unfold skipped.
  rewrite Hr, Hk, Hf. intros [? _]. done.
Qed.

Lemma merged_events_are_settled_witness :
  ∃ s1 s2 r,
    setParents false 2 false 1 flow_store [0; 1; 2]%nat = Ok s1 ∧
    build_tree false s1 (stable_sort s1 [0; 1; 2]%nat) = Ok s2 ∧
    s1 !! 2%nat = Some r ∧ parent_ r = Some 1%nat ∧
    finished_ r = true ∧ 2%nat ∈ children_of s1 1 ∧ s2 !! 2%nat = Some r.
Proof.
  eexists _, _, _. split; [vm_compute; reflexivity|].
  split; [vm_compute; reflexivity|]. split; [reflexivity|].
  split; [reflexivity|].
  refine (merged_events_are_settled false 2 false 1 flow_store _ _
            [0; 1; 2]%nat [0; 1; 2]%nat 2%nat _ 1%nat _ _ _ _ _ _ _);
    try reflexivity.
  - apply (bool_decide_unpack (NoDup [0; 1; 2]%nat)). vm_compute. exact I.
  - right. right. by left.
Defined.

(** ** Correlation ids *)

Section CorrelationIdFacts.

Context (ChunkSize : Z) (ChunkSize_pos : 0 < ChunkSize).


Lemma wrap_uint64_small z : 0 ≤ z < 2 ^ 64 → wrap_uint64 z = z.
Proof. intros. unfold wrap_uint64. by apply Z.mod_small. Qed.

(** The invariant of a session whose counter started at [c0]: [used] holds
    of the ids handed out so far.  Every block in use has a base
    [1 + ChunkSize * k] for a counter value [k] already drawn, different
    threads use different blocks, and the ids of a block from [next_] on
    are still free. *)
Record session_inv (c0 : Z) (st : session) (used : Z → Prop) : Prop := {
  si_counter : c0 ≤ counter st;
  si_used : ∀ id, used id → id < 1 + ChunkSize * counter st;
  si_block : ∀ tid b n, op_events_ st !! tid = Some (Some (b, n)) →
    ∃ k, c0 ≤ k < counter st ∧ b = 1 + ChunkSize * k ∧ 0 ≤ n ≤ ChunkSize ∧
         ∀ j, n ≤ j < ChunkSize → ¬ used (b + j);
  si_apart : ∀ t1 t2 b1 n1 b2 n2, t1 ≠ t2 →
    op_events_ st !! t1 = Some (Some (b1, n1)) →
    op_events_ st !! t2 = Some (Some (b2, n2)) → b1 ≠ b2 }.

Lemma begin_op_grow c0 st used tid :
  0 ≤ c0 → session_inv c0 st used →
  ChunkSize * (counter st + 1) < 2 ^ 64 →
  let id := 1 + ChunkSize * counter st in
  ¬ used id ∧
  session_inv c0 (mkSession (counter st + 1)
                    (<[tid := Some (id, 0 + 1)]> (op_events_ st)))
              (fun x => used x ∨ x = id).
Proof.
  intros Hc0 [Hc Hu Hb Ha] Hbound id. split.
  { intros Hid%Hu. unfold id in Hid. lia. }
  split; cbn.
  - lia.
  - intros x [Hx%Hu| ->]; unfold id; nia.
  - intros t b n. rewrite lookup_insert. case_decide as Ht.
    + intros [= <- <-]. exists (counter st).
      split; [lia|]. split; [done|]. split; [lia|].
      intros j Hj [Hx%Hu|Hx]; unfold id in *; lia.
    + intros Ht'. destruct (Hb t b n Ht') as (k & Hk & -> & Hn & Hfree).
      exists k. split; [lia|]. split; [done|]. split; [done|].
      intros j Hj [Hx|Hx]; [by apply (Hfree j Hj)|]. unfold id in Hx. nia.
  - intros t1 t2 b1 n1 b2 n2 Hne. rewrite !lookup_insert.
    repeat case_decide; subst; try done.
    + intros [= <- _] Ht2. destruct (Hb _ _ _ Ht2) as (k & Hk & -> & _).
      unfold id. nia.
    + intros Ht1 [= <- _]. destruct (Hb _ _ _ Ht1) as (k & Hk & -> & _).
      unfold id. nia.
    + by apply Ha.
Qed.

Lemma begin_op_next c0 st used tid b n :
  session_inv c0 st used →
  op_events_ st !! tid = Some (Some (b, n)) → n < ChunkSize →
  ¬ used (b + n) ∧
  session_inv c0 (mkSession (counter st)
                    (<[tid := Some (b, n + 1)]> (op_events_ st)))
              (fun x => used x ∨ x = b + n).
Proof.
  intros [Hc Hu Hb Ha] Htid Hn.
  destruct (Hb _ _ _ Htid) as (k & Hk & -> & Hn0 & Hfree).
  split; [apply Hfree; lia|]. split; cbn.
  - done.
  - intros x [Hx%Hu| ->]; [done|]. nia.
  - intros t b' n'. rewrite lookup_insert. case_decide as Ht.
    + intros [= <- <-]. exists k. split; [done|]. split; [done|].
      split; [lia|]. intros j Hj [Hx|Hx]; [|lia]. apply (Hfree j); [lia|done].
    + intros Ht'. destruct (Hb t b' n' Ht') as (k' & Hk' & -> & Hn' & Hfree').
      exists k'. split; [done|]. split; [done|]. split; [done|].
      intros j Hj [Hx|Hx]; [by apply (Hfree' j Hj)|].
      assert (1 + ChunkSize * k' ≠ 1 + ChunkSize * k) as Hkk.
      { by apply (Ha t tid _ n' _ n). }
      assert (k' ≠ k) as Hne by (intros ->; done).
      assert (k' < k ∨ k < k') as [Hlt|Hlt] by lia.
      * assert (ChunkSize * (k' + 1) ≤ ChunkSize * k) by nia. lia.
      * assert (ChunkSize * (k + 1) ≤ ChunkSize * k') by nia. lia.
  - intros t1 t2 b1 n1 b2 n2 Hne. rewrite !lookup_insert.
    destruct (decide (tid = t1)) as [<-|], (decide (tid = t2)) as [<-|];
      try done.
    + intros [= <- _] Ht2. by apply (Ha tid t2 _ n _ n2).
    + intros Ht1 [= <- _]. by apply (Ha t1 tid _ n1 _ n).
    + by apply Ha.
Qed.

(** One [begin_op]: the id is new and has the form base plus index. *)
Lemma begin_op_fresh c0 st used tid st' id :
  0 ≤ c0 → session_inv c0 st used →
  ChunkSize * (counter st + 1) < 2 ^ 64 →
  begin_op ChunkSize st tid = (st', id) →
  ¬ used id ∧ session_inv c0 st' (fun x => used x ∨ x = id) ∧
  counter st' ≤ counter st + 1 ∧
  ∃ k j, c0 ≤ k < counter st' ∧ 0 ≤ j < ChunkSize ∧ id = 1 + ChunkSize * k + j.
Proof.
  intros Hc0 Hinv Hbound H.
  pose proof (si_counter _ _ _ Hinv) as Hc.
  assert (Hnew : EventBlock_new ChunkSize (counter st) =
                 (1 + ChunkSize * counter st, counter st + 1)).
  { unfold EventBlock_new.
    rewrite (wrap_uint64_small (ChunkSize * counter st)) by nia.
    rewrite !wrap_uint64_small by nia. done. }
  assert (Hgrow : ∀ l, maybe_grow ChunkSize (counter st) l =
                       (counter st + 1, (1 + ChunkSize * counter st, 0)) →
                  begin_op ChunkSize st tid = (st', id) →
                  default None (op_events_ st !! tid) = l →
                  ¬ used id ∧ session_inv c0 st' (fun x => used x ∨ x = id) ∧
                  counter st' ≤ counter st + 1 ∧
                  ∃ k j, c0 ≤ k < counter st' ∧ 0 ≤ j < ChunkSize ∧
                         id = 1 + ChunkSize * k + j).
  { intros l Hl Hb Hdef. unfold begin_op, emplace_back in Hb.
    rewrite Hdef, Hl in Hb. unfold correlation_id in Hb.
    rewrite wrap_uint64_small in Hb by nia.
    injection Hb as <- <-. rewrite Z.add_0_r.
    destruct (begin_op_grow c0 st used tid Hc0 Hinv Hbound) as [Hfresh Hinv'].
    split; [done|]. split; [done|]. cbn. split; [lia|].
    exists (counter st), 0. lia. }
  destruct (default None (op_events_ st !! tid)) as [[b n]|] eqn:Hdef.
  - assert (Htid : op_events_ st !! tid = Some (Some (b, n))).
    { destruct (op_events_ st !! tid) as [[?|]|]; cbn in Hdef; congruence. }
    destruct (Z.ltb_spec n ChunkSize) as [Hlt|Hge].
    + destruct (si_block _ _ _ Hinv _ _ _ Htid) as (k & Hk & Hbk & Hn0 & _).
      unfold begin_op, emplace_back, maybe_grow in H.
      rewrite Hdef in H. destruct (Z.ltb_spec n ChunkSize); [|lia].
      unfold correlation_id in H. rewrite wrap_uint64_small in H by nia.
      injection H as <- <-.
      destruct (begin_op_next c0 st used tid b n Hinv Htid Hlt)
        as [Hfresh Hinv'].
      split; [done|]. split; [done|]. cbn. split; [lia|].
      exists k, n. lia.
    + apply (Hgrow (Some (b, n))); [|done|done].
      unfold maybe_grow. destruct (Z.ltb_spec n ChunkSize); [lia|].
      by rewrite Hnew.
  - apply (Hgrow None); [|done|done].
    unfold maybe_grow. by rewrite Hnew.
Qed.

Lemma correlation_ids_fresh c0 schedule : ∀ st used,
  0 ≤ c0 → session_inv c0 st used →
  ChunkSize * (counter st + Z.of_nat (length schedule)) < 2 ^ 64 →
  NoDup (correlation_ids ChunkSize st schedule) ∧
  Forall (fun id => ¬ used id ∧
            ∃ k j, c0 ≤ k < counter st + Z.of_nat (length schedule) ∧
                   0 ≤ j < ChunkSize ∧ id = 1 + ChunkSize * k + j)
         (correlation_ids ChunkSize st schedule).
Proof.
  induction schedule as [|tid rest IH]; intros st used Hc0 Hinv Hbound.
  { split; constructor. }
  cbn [correlation_ids length] in *.
  rewrite Nat2Z.inj_succ in *.
  pose proof (Nat2Z.is_nonneg (length rest)) as Hlen.
  destruct (begin_op ChunkSize st tid) as [st' id] eqn:Hstep.
  pose proof (si_counter _ _ _ Hinv) as Hc.
  destruct (begin_op_fresh c0 st used tid st' id Hc0 Hinv) as
    (Hfresh & Hinv' & Hcnt & k & j & Hk & Hj & Hid); [nia|done|].
  destruct (IH st' _ Hc0 Hinv') as [Hnd Hall]; [nia|].
  rewrite Forall_forall in Hall. split.
  - apply NoDup_cons. split; [|done].
    intros Hin. destruct (Hall id Hin) as [Hn _]. apply Hn. by right.
  - constructor.
    + split; [done|]. exists k, j. split; [lia|done].
    + apply Forall_forall. intros x Hx.
      destruct (Hall x Hx) as (Hn & k' & j' & Hk' & Hj' & Hx').
      split; [tauto|]. exists k', j'. split; [lia|done].
Qed.

End CorrelationIdFacts.

(** C3.  In a session whose block counter starts at [c0] the correlation ids
    handed out by any interleaving of [begin_op] calls of any threads are
    pairwise different, each of them being [1 + ChunkSize * k + j] for a
    counter value [k] drawn in the session and an index [j] inside the
    chunk, as long as the 64-bit ids do not wrap around. *)
Theorem correlation_ids_unique ChunkSize c0 (schedule : list Z) :
  0 < ChunkSize → 0 ≤ c0 →
  ChunkSize * (c0 + Z.of_nat (length schedule)) < 2 ^ 64 →
  NoDup (correlation_ids ChunkSize (mkSession c0 ∅) schedule) ∧
  Forall (fun id => ∃ k j, c0 ≤ k < c0 + Z.of_nat (length schedule) ∧
                          0 ≤ j < ChunkSize ∧ id = 1 + ChunkSize * k + j)
         (correlation_ids ChunkSize (mkSession c0 ∅) schedule).
Proof.
  intros Hcs Hc0 Hbound.
  destruct (correlation_ids_fresh ChunkSize Hcs c0 schedule
              (mkSession c0 ∅) (fun _ => False)) as [Hnd Hall];
    [done| |done|].
  - split; cbn; [lia|done| |].
    + intros tid b n. by rewrite lookup_empty.
    + intros t1 t2 b1 n1 b2 n2 _. by rewrite lookup_empty.
  - split; [done|]. eapply Forall_impl; [exact Hall|].
    cbn. intros id [_ H]. exact H.
Qed.

Lemma correlation_ids_unique_witness :
  NoDup (correlation_ids 4 (mkSession 0 ∅) [1; 2; 1; 1; 1; 1; 2; 3; 1]) ∧
  correlation_ids 4 (mkSession 0 ∅) [1; 2; 1; 1; 1; 1; 2; 3; 1]
  = [1; 5; 2; 3; 4; 9; 6; 13; 10].
Proof.
  split; [|vm_compute; reflexivity].
  apply (correlation_ids_unique 4 0 [1; 2; 1; 1; 1; 1; 2; 3; 1]);
    [lia|lia|vm_compute; reflexivity].
Defined.

(** ** Buffer identities *)

Definition is_input_ref (t : TensorStoragePair) : Prop :=
  ∃ event k, id_ref_ t = InputRef event k.

(** Every storage id in [tensor_set] belongs to the pair of an op input. *)
Definition tensor_set_ok (c : clustering) : Prop :=
  ∀ sid, sid ∈ tensor_set c →
    ∃ t, t ∈ tensors c ∧ is_input_ref t ∧ storage_id_ t = sid.

Lemma storage_lookup_same (c : clustering) data :
  tensor_set (storage_lookup c data).1 = tensor_set c ∧
  tensors (storage_lookup c data).1 = tensors c.
Proof. unfold storage_lookup. by destruct (live_storage c !! data). Qed.

Lemma visit_inputs_ok event ms : ∀ k c,
  tensor_set_ok c → tensor_set_ok (visit_inputs event k ms c).
Proof.
  induction ms as [|m ms IH]; intros k c Hc; [done|]. cbn. apply IH.
  destruct m as [md|]; [|done].
  destruct (negb (impl_ md =? 0) && negb (data_ md =? 0)); [|done].
  destruct (storage_lookup_same c (data_ md)) as [Hts Ht].
  destruct (storage_lookup c (data_ md)) as [c1 id]. cbn in Hts, Ht.
  intros sid. cbn. rewrite Hts, Ht, elem_of_union, elem_of_singleton.
  intros [->|Hin].
  - eexists. split; [apply elem_of_app; right; by left|].
    split; [by eexists _, _|done].
  - destruct (Hc sid Hin) as (t & Ht1 & Ht2 & Ht3). exists t.
    split; [apply elem_of_app; by left|done].
Qed.

Lemma visit_allocation_ok event a c :
  tensor_set_ok c → tensor_set_ok (visit_allocation event a c).
Proof.
  intros Hc. unfold visit_allocation.
  destruct (storage_lookup_same c (ptr_ a)) as [Hts Ht].
  destruct (storage_lookup c (ptr_ a)) as [c1 id]. cbn in Hts, Ht.
  intros sid. cbn. rewrite Hts, Ht. intros Hin.
  destruct (Hc sid Hin) as (t & Ht1 & Ht2 & Ht3). exists t.
  split; [apply elem_of_app; by left|done].
Qed.

Lemma flatten_ok (s : store) sorted_results : ∀ c c',
  tensor_set_ok c → flatten s c sorted_results = Ok c' → tensor_set_ok c'.
Proof.
  induction sorted_results as [|event rest IH]; intros c c' Hc H; cbn in H.
  - by ok_inv H.
  - ok_bind H as c1 E. apply (IH c1 c'); [|done].
    unfold visit_result in E. ok_bind E as r Er.
    destruct (extra_fields_ r); ok_inv E;
      auto using visit_inputs_ok, visit_allocation_ok.
Qed.

Lemma write_id_other (s s' : store) ref v event r a :
  write_id s ref v = Ok s' → ref ≠ AllocRef event →
  s !! event = Some r → extra_fields_ r = Allocation a →
  s' !! event = Some r.
Proof.
  intros H Hne Hr Ha. destruct ref as [e k|e]; cbn in H.
  - ok_bind H as re E. destruct (extra_fields_ re) eqn:Hx; ok_inv H.
    rewrite list_lookup_insert_ne; [done|]. intros ->. congruence.
  - ok_bind H as re E. destruct (extra_fields_ re) eqn:Hx; ok_inv H.
    rewrite list_lookup_insert_ne; [done|]. intros ->. done.
Qed.

Lemma write_back_other id_map ts : ∀ (s s' : store) event r a,
  write_back id_map s ts = Ok s' →
  (∀ t, t ∈ ts → id_ref_ t ≠ AllocRef event) →
  s !! event = Some r → extra_fields_ r = Allocation a →
  s' !! event = Some r.
Proof.
  induction ts as [|t rest IH]; intros s s' event r a H Hts Hr Ha; cbn in H.
  - by ok_inv H.
  - ok_bind H as v E. ok_bind H as s1 E1.
    apply (IH s1 s' event r a H); [|
      eapply write_id_other; eauto; apply Hts; by left|done].
    intros t' Ht'. apply Hts. by right.
Qed.

(** C8.  An Allocation event whose storage id (its live-address cluster) is
    the storage id of no op-input reference is dropped before the final ids
    are assigned: [calculate_unique_tensor_ids] leaves the event, and so its
    [id_], as it was. *)
Theorem unreferenced_allocation_keeps_no_id (s s' : store) sorted_results c
  event r a :
  cluster_by_address s sorted_results = Ok c →
  calculate_unique_tensor_ids s sorted_results = Ok s' →
  s !! event = Some r → extra_fields_ r = Allocation a →
  (∀ t t', t ∈ tensors c → id_ref_ t = AllocRef event →
           t' ∈ tensors c → is_input_ref t' →
           storage_id_ t' ≠ storage_id_ t) →
  s' !! event = Some r ∧ allocation_id s' event = alloc_id_ a.
Proof.
  intros Hc H Hr Ha Hunref. unfold calculate_unique_tensor_ids in H.
  rewrite Hc in H. cbn [mbind outcome_bind] in H.
  assert (s' !! event = Some r) as Hr'.
  { eapply write_back_other; [exact H| |exact Hr|exact Ha].
    intros t [Hset Hin]%list_elem_of_filter Href.
    assert (tensor_set_ok c) as Hok.
    { eapply flatten_ok; [|exact Hc]. intros sid Hsid. cbn in Hsid.
      by apply not_elem_of_empty in Hsid. }
    destruct (Hok _ Hset) as (t' & Hin' & Hinput & Hsid).
    by apply (Hunref t t' Hin Href Hin' Hinput). }
  split; [done|]. unfold allocation_id. by rewrite Hr', Ha.
Qed.

Lemma unreferenced_allocation_keeps_no_id_witness :
  ∃ s', calculate_unique_tensor_ids two_buffers_store [0; 1; 2]%nat = Ok s' ∧
        allocation_id s' 0 = None ∧ allocation_id s' 1 = Some 0.
Proof.
  eexists. split; [vm_compute; reflexivity|]. split; [|reflexivity].
  refine (proj2 (unreferenced_allocation_keeps_no_id two_buffers_store _
            [0; 1; 2]%nat _ 0%nat _ (mkAllocation 4096 16 None) _ _ _ _ _));
    try reflexivity.
  intros t t' Ht Href Ht' (e & k & Hin).
  vm_compute in Ht, Ht'.
  apply list_elem_of_In in Ht. apply list_elem_of_In in Ht'.
  destruct Ht as [<-|[<-|[<-|[]]]]; try discriminate.
  destruct Ht' as [<-|[<-|[<-|[]]]]; discriminate.
Defined.

(** *** Address reuse *)

(** The two allocations have final identities and these differ. *)
Definition distinct_identities (s : store) (a b : ptr) : Prop :=
  ∃ i j, allocation_id s a = Some i ∧ allocation_id s b = Some j ∧ i ≠ j.

Lemma visit_allocation_fresh event a cur (live : gmap Z Z) tset ts :
  live !! ptr_ a = None →
  visit_allocation event a (mkClustering cur live tset ts) =
  mkClustering (wrap_uint64 (cur + 1))
    (if alloc_size_ a <? 0 then delete (ptr_ a) (<[ptr_ a := cur]> live)
     else <[ptr_ a := cur]> live)
    tset (ts ++ [mkPair 0 cur (AllocRef event)]).
Proof. intros H. unfold visit_allocation, storage_lookup. cbn. by rewrite H. Qed.

Lemma visit_allocation_live event a cur (live : gmap Z Z) tset ts id :
  live !! ptr_ a = Some id →
  visit_allocation event a (mkClustering cur live tset ts) =
  mkClustering cur
    (if alloc_size_ a <? 0 then delete (ptr_ a) live else live)
    tset (ts ++ [mkPair 0 id (AllocRef event)]).
Proof. intros H. unfold visit_allocation, storage_lookup. cbn. by rewrite H. Qed.

Lemma visit_input_live event k impl data cur (live : gmap Z Z) tset ts id :
  impl ≠ 0 → data ≠ 0 → live !! data = Some id →
  visit_inputs event k [Some (mkTensorMetadata impl data None)]
               (mkClustering cur live tset ts) =
  mkClustering cur live ({[id]} ∪ tset)
               (ts ++ [mkPair impl id (InputRef event k)]).
Proof.
  intros Hi Hd H. cbn [visit_inputs impl_ data_].
  apply Z.eqb_neq in Hi, Hd. rewrite Hi, Hd. cbn [negb andb].
  unfold storage_lookup. cbn [live_storage]. by rewrite H.
Qed.

(** Step 1 on the scenario: the second allocation gets a new storage id
    because the free removed the address from the live set. *)
Lemma reuse_scenario_clusters X I1 I2 sz1 sz2 sz3 :
  X ≠ 0 → I1 ≠ 0 → I2 ≠ 0 → 0 ≤ sz1 → sz2 < 0 → 0 ≤ sz3 →
  cluster_by_address (reuse_scenario X I1 I2 sz1 sz2 sz3)
                     [0; 1; 2; 3; 4]%nat =
  Ok (mkClustering 2 (<[X := 1]> (delete X (<[X := 0]> ∅)))
        ({[1]} ∪ ({[0]} ∪ ∅))
        [mkPair 0 0 (AllocRef 0); mkPair I1 0 (InputRef 1 0);
         mkPair 0 0 (AllocRef 2); mkPair 0 1 (AllocRef 3);
         mkPair I2 1 (InputRef 4 0)]).
Proof.
  intros HX HI1 HI2 Hs1 Hs2 Hs3. unfold cluster_by_address, reuse_scenario.
  cbn [flatten visit_result deref lookup list_lookup mbind outcome_bind
       extra_fields_ tensor_metadata_].
  rewrite visit_allocation_fresh by apply lookup_empty.
  cbn [ptr_ alloc_size_]. destruct (Z.ltb_spec sz1 0); [lia|].
  rewrite (visit_input_live _ _ _ _ _ _ _ _ 0)
    by (try done; apply lookup_insert_eq).
  rewrite (visit_allocation_live _ _ _ _ _ _ 0) by apply lookup_insert_eq.
  cbn [ptr_ alloc_size_]. destruct (Z.ltb_spec sz2 0); [|lia].
  rewrite visit_allocation_fresh by apply lookup_delete_eq.
  cbn [ptr_ alloc_size_]. destruct (Z.ltb_spec sz3 0); [lia|].
  rewrite (visit_input_live _ _ _ _ _ _ _ _ 1)
    by (try done; apply lookup_insert_eq).
  reflexivity.
Qed.

(** With nothing but the three allocation events no identity is assigned:
    every pair is removed by the [remove_if] of step 1. *)
Lemma reuse_alone_gets_no_identity :
  ∃ s, calculate_unique_tensor_ids reuse_alone_store [0; 1; 2]%nat = Ok s ∧
       allocation_id s 0 = None ∧ allocation_id s 2 = None ∧
       ¬ distinct_identities s 0 2.
Proof.
  eexists. split; [vm_compute; reflexivity|].
  split; [reflexivity|]. split; [reflexivity|].
  intros (i & j & Hi & _). discriminate Hi.
Qed.

(** In the scenario with both buffers read through one and the same handle,
    step 2 puts the two storage ids on one edge and the allocations share an
    id. *)
Lemma reuse_same_handle_shares_identity :
  ∃ s, calculate_unique_tensor_ids (reuse_scenario 4096 77 77 16 (-16) 32)
         [0; 1; 2; 3; 4]%nat = Ok s ∧
       allocation_id s 0 = Some 0 ∧ allocation_id s 3 = Some 0.
Proof. eexists. split; [vm_compute; reflexivity|]. by split. Qed.

(** ** The recursion bounds of the model are never reached *)

(** A run that ends with a result or with a failure of the source, not with
    the exhaustion of a bound that only the model has. *)
Definition fueled {A} (m : outcome A) : Prop := m ≠ Err OutOfFuel.

Lemma fueled_bind {A B} (m : outcome A) (f : A → outcome B) :
  fueled m → (∀ a, m = Ok a → fueled (f a)) → fueled (m ≫= f).
Proof.
  destruct m as [a|e]; intros Hm Hf; [by apply Hf|].
  unfold fueled in *. cbn. intros [= ->]. by apply Hm.
Qed.

Lemma fueled_deref (s : store) p : fueled (deref s p).
Proof. unfold deref, fueled. by destruct (s !! p). Qed.

Lemma fueled_check b : fueled (check b).
Proof. by destruct b. Qed.

(** The number of events that are not finished. *)
Definition unfinished (s : store) : nat :=
  length (filter (fun r => finished_ r = false) s).

Lemma unfinished_set_finished (s : store) p r :
  s !! p = Some r → finished_ r = false →
  S (unfinished (<[p := set_finished r]> s)) = unfinished s.
Proof.
  unfold unfinished. revert p. induction s as [|x s IH]; intros p Hp Hf.
  - done.
  - destruct p as [|p]; cbn in Hp.
    + injection Hp as ->.
      change (<[0%nat := set_finished r]> (r :: s)) with (set_finished r :: s).
      rewrite filter_cons_False by (cbn; done).
      by rewrite filter_cons_True by done.
    + change (<[S p := set_finished r]> (x :: s))
        with (x :: <[p := set_finished r]> s).
      rewrite !filter_cons. destruct (decide (finished_ x = false));
        cbn [length]; by rewrite <- (IH p Hp Hf).
Qed.

Lemma unfinished_pos (s : store) p r :
  s !! p = Some r → finished_ r = false → (0 < unfinished s)%nat.
Proof.
  intros Hp Hf. unfold unfinished.
  assert (r ∈ filter (fun r => finished_ r = false) s) as Hin.
  { apply list_elem_of_filter. split; [done|]. by eapply list_elem_of_lookup_2. }
  destruct (filter _ s); [by apply elem_of_nil in Hin|cbn; lia].
Qed.

Lemma NoDup_bounded (l : list ptr) n :
  NoDup l → (∀ x, x ∈ l → (x < n)%nat) → (length l ≤ n)%nat.
Proof.
  intros Hnd Hlt. rewrite <- (length_seq n 0).
  apply submseteq_length, NoDup_submseteq; [done|].
  intros x Hx. apply elem_of_seq. specialize (Hlt x Hx). lia.
Qed.

Lemma before_lookup (l : list ptr) q e :
  before q e l → ∃ i j, (i < j)%nat ∧ l !! i = Some q ∧ l !! j = Some e.
Proof.
  intros (l1 & l2 & -> & Hq).
  apply list_elem_of_lookup_1 in Hq as [i Hi].
  exists i, (length l1). split; [by eapply lookup_lt_Some|]. split.
  - by apply lookup_app_l_Some.
  - by rewrite list_lookup_middle.
Qed.

Section Fuel.

Context (raises : bool) (s0 : store).

Lemma store_inv_set_finished done (s : store) p r :
  store_inv s0 done s → p ∈ pushed s0 done → s !! p = Some r →
  store_inv s0 done (<[p := set_finished r]> s).
Proof.
  intros [Hv Hu Hk Hp Hc Hl] Hin Hr. split.
  - done.
  - intros q Hq. rewrite (lookup_insert_store _ _ _ _ _ Hr).
    destruct (decide (p = q)) as [<-|]; [done|by apply Hu].
  - intros q rq. rewrite (lookup_insert_store _ _ _ _ _ Hr).
    destruct (decide (p = q)) as [<-|]; [|by apply Hk].
    intros [= <-]. cbn. by apply Hk.
  - intros e q He. rewrite (parent_of_set_finished _ _ _ _ Hr). by apply Hp.
  - intros q Hq. rewrite (children_of_set_finished _ _ _ _ Hr), (Hc q Hq).
    f_equal. apply filter_ext_elem. intros x _.
    by rewrite (parent_of_set_finished _ _ _ _ Hr).
  - by rewrite length_insert.
Qed.

(** The parent chain of a pushed event only visits events pushed earlier. *)
Lemma endTimeNS_fueled done (s : store) :
  store_inv s0 done s → NoDup done →
  ∀ fuel j p, pushed s0 done !! j = Some p → (j < fuel)%nat →
              fueled (endTimeNS raises fuel s p).
Proof.
  intros Hinv Hnd.
  assert (Hndp : NoDup (pushed s0 done)) by by apply NoDup_filter.
  induction fuel as [|fuel IH]; intros j p Hj Hlt; [lia|].
  cbn [endTimeNS]. apply fueled_bind; [apply fueled_deref|].
  intros r Hr%deref_Ok. apply fueled_bind.
  - destruct (extra_fields_ r); try done.
    destruct (finished_ r && (end_time_ns_ e =? time_min)); [|done].
    destruct (parent_ r) as [q|] eqn:Hq; [|done].
    pose proof (list_elem_of_lookup_2 _ _ _ Hj) as Hp.
    destruct (inv_parent _ _ _ Hinv p q Hp) as (Hb & Hqp & _).
    { unfold parent_of. by rewrite Hr. }
    assert (before q p (pushed s0 done)) as Hb'.
    { apply before_filter; [done| |].
      - unfold pushed in Hqp. by apply list_elem_of_filter in Hqp as [? _].
      - unfold pushed in Hp. by apply list_elem_of_filter in Hp as [? _]. }
    apply before_lookup in Hb' as (i & j' & Hij & Hi & Hj').
    assert (j' = j) as -> by (by eapply NoDup_lookup).
    apply (IH i q Hi). lia.
  - intros t _. destruct (negb (finished_ r)); [done|].
    destruct (start_time_ns_ r <=? t); [done|]. by destruct raises.
Qed.

Lemma end_ns_fueled done (s : store) p :
  store_inv s0 done s → NoDup done → p ∈ pushed s0 done →
  fueled (end_ns raises s p).
Proof.
  intros Hinv Hnd Hp. apply list_elem_of_lookup_1 in Hp as [j Hj].
  apply (endTimeNS_fueled done s Hinv Hnd _ j p Hj).
  unfold chain_fuel. apply lookup_lt_Some in Hj.
  assert (length (pushed s0 done) ≤ length s)%nat; [|lia].
  apply NoDup_bounded; [by apply NoDup_filter|].
  intros x Hx. rewrite (inv_length _ _ _ Hinv).
  apply lookup_lt_is_Some. by apply (inv_valid _ _ _ Hinv).
Qed.

Lemma mark_finished_fueled done (s : store) p :
  store_inv s0 done s → NoDup done → p ∈ pushed s0 done →
  fueled (mark_finished raises s p).
Proof.
  intros Hinv Hnd Hp. unfold mark_finished.
  apply fueled_bind; [apply fueled_deref|]. intros r Hr%deref_Ok.
  apply fueled_bind; [apply fueled_check|]. intros _ _.
  apply fueled_bind.
  - apply (end_ns_fueled done); [by apply store_inv_set_finished|done|done].
  - intros t _. apply fueled_bind; [apply fueled_check|done].
Qed.

Lemma finish_frames_fueled done fuel : ∀ (s : store) frame event r,
  store_inv s0 done s → NoDup done → frame ∈ pushed s0 done →
  s !! event = Some r → finished_ r = false →
  (unfinished s ≤ fuel)%nat →
  fueled (finish_frames raises fuel s frame event).
Proof.
  induction fuel as [|fuel IH]; intros s frame event r Hinv Hnd Hf Hr Hfin Hle;
    cbn [finish_frames]; case_bool_decide as Hfe; try done.
  { pose proof (unfinished_pos s event r Hr Hfin). lia. }
  apply fueled_bind; [by apply (mark_finished_fueled done)|].
  intros s1 Hs1.
  pose proof (store_inv_mark_finished raises s0 done s s1 frame Hinv Hf Hs1)
    as Hinv1.
  apply mark_finished_Ok in Hs1 as (rf & Hrf & Hff & ->).
  apply fueled_bind; [apply fueled_deref|]. intros r1 Hr1%deref_Ok.
  destruct (parent_ r1) as [q|] eqn:Hq; [|done].
  apply (IH _ q event r); try done.
  - eapply (inv_parent _ _ _ Hinv1 frame q Hf). unfold parent_of.
    by rewrite Hr1.
  - by rewrite list_lookup_insert_ne.
  - pose proof (unfinished_set_finished s frame rf Hrf Hff). lia.
Qed.

Lemma pop_event_fueled done (s : store) (stk : gmap Z ptr) event :
  store_inv s0 done s → frames_inv s0 done stk → NoDup done →
  event ∈ pushed s0 done → fueled (pop_event raises s stk event).
Proof.
  intros Hinv Hst Hnd Hin. unfold pop_event.
  apply fueled_bind; [apply fueled_deref|]. intros r Hr%deref_Ok.
  destruct (finished_ r) eqn:Hfin; [done|].
  destruct (stk !! start_tid_ r) as [f|] eqn:Hf; [|done].
  cbn [mbind outcome_bind]. destruct (Hst _ _ Hf) as [Hfp _].
  apply fueled_bind.
  { apply (finish_frames_fueled done _ s f event r); try done.
    unfold unfinished. apply length_filter. }
  intros s1 Hs1.
  pose proof (store_inv_finish_frames raises s0 done _ s s1 f event Hinv Hfp Hs1)
    as Hinv1.
  apply fueled_bind; [by apply (mark_finished_fueled done)|].
  intros s2 Hs2. apply fueled_bind; [apply fueled_deref|].
  intros r2 _. by destruct (parent_ r2).
Qed.

Lemma close_before_fueled done heap t : ∀ (s : store) (stk : gmap Z ptr),
  store_inv s0 done s → frames_inv s0 done stk → NoDup done →
  (∀ v, v ∈ heap → v ∈ pushed s0 done) →
  fueled (close_before raises s stk heap t).
Proof.
  induction heap as [|top rest IH]; intros s stk Hinv Hst Hnd Hh; [done|].
  rewrite close_before_cons. apply fueled_bind.
  { apply (end_ns_fueled done); [done|done|]. apply Hh. by left. }
  intros x _. destruct (x <? t); [|done].
  apply fueled_bind.
  { apply (pop_event_fueled done); [done|done|done|]. apply Hh. by left. }
  intros [s1 stk1] Hpop.
  apply (inv_pop_event raises s0 done) in Hpop as [? ?];
    [|done|done|apply Hh; by left].
  apply IH; try done. intros v Hv. apply Hh. by right.
Qed.

Lemma close_all_fueled done heap : ∀ (s : store) (stk : gmap Z ptr),
  store_inv s0 done s → frames_inv s0 done stk → NoDup done →
  (∀ v, v ∈ heap → v ∈ pushed s0 done) →
  fueled (close_all raises s stk heap).
Proof.
  induction heap as [|top rest IH]; intros s stk Hinv Hst Hnd Hh; [done|].
  cbn [close_all]. apply fueled_bind.
  { apply (pop_event_fueled done); [done|done|done|]. apply Hh. by left. }
  intros [s1 stk1] Hpop.
  apply (inv_pop_event raises s0 done) in Hpop as [? ?];
    [|done|done|apply Hh; by left].
  apply IH; try done. intros v Hv. apply Hh. by right.
Qed.

Lemma heap_push_fueled done (s : store) heap event key :
  store_inv s0 done s → NoDup done →
  (∀ v, v ∈ heap → v ∈ pushed s0 done) →
  fueled (heap_push raises s heap event key).
Proof.
  intros Hinv Hnd. induction heap as [|top rest IH]; intros Hh; [done|].
  cbn [heap_push]. apply fueled_bind.
  { apply (end_ns_fueled done); [done|done|]. apply Hh. by left. }
  intros k _. destruct (key <? k); [done|].
  apply fueled_bind; [|done]. apply IH. intros v Hv. apply Hh. by right.
Qed.

Lemma check_children_finished_fueled (s : store) cs :
  fueled (check_children_finished s cs).
Proof.
  induction cs as [|c cs IH]; [done|]. cbn [check_children_finished].
  apply fueled_bind; [apply fueled_deref|]. intros rc _.
  apply fueled_bind; [apply fueled_check|]. by intros _ _.
Qed.

Lemma attach_fueled (s : store) event p : fueled (attach s event p).
Proof.
  unfold attach. apply fueled_bind; [apply fueled_deref|]. intros r _.
  apply fueled_bind; [apply fueled_deref|]. by intros rp _.
Qed.

Lemma push_event_fueled done st e :
  replay_inv s0 done st → NoDup (done ++ [e]) →
  fueled (push_event raises st e).
Proof.
  intros [Hs Hst Hh] Hnd.
  assert (Hne : e ∉ done).
  { apply NoDup_app in Hnd as (_ & Hd & _). intros Hin.
    apply (Hd e Hin). by left. }
  unfold push_event. apply fueled_bind; [apply fueled_deref|].
  intros r Hr%deref_Ok.
  assert (Hr0 : s0 !! e = Some r).
  { rewrite <- (inv_untouched _ _ _ Hs); [done|]. by intros ?%pushed_done. }
  destruct (is_kineto r && finished_ r) eqn:Hskip; [done|].
  assert (Hsk : skipped s0 e = false) by (unfold skipped; by rewrite Hr0).
  assert (Hein : e ∈ pushed s0 (done ++ [e])).
  { rewrite pushed_app, Hsk. apply elem_of_app. right. by left. }
  apply fueled_bind; [apply fueled_check|]. intros u0 E0%check_Ok.
  apply bool_decide_eq_true in E0.
  apply fueled_bind; [apply check_children_finished_fueled|]. intros u1 _.
  apply fueled_bind; [apply fueled_check|]. intros u2 _.
  apply fueled_bind.
  { destruct (find_parent (stacks st) r); [apply attach_fueled|done]. }
  intros s1 Hs1.
  assert (store_inv s0 (done ++ [e]) s1) as Hinv1.
  { destruct (find_parent (stacks st) r) as [p|] eqn:Hfp.
    - destruct (find_parent_Some _ _ _ Hfp) as [tid Htid].
      destruct (Hst _ _ Htid) as [Hpin Hpn]. by eapply store_inv_attach.
    - injection Hs1 as <-. apply store_inv_root; [done|done|by eauto|].
      unfold parent_of. by rewrite Hr. }
  assert (Hmono : ∀ v, v ∈ end_events_ st → v ∈ pushed s0 (done ++ [e])).
  { intros v Hv. rewrite pushed_app. apply elem_of_app. left. by apply Hh. }
  apply fueled_bind; [by apply (end_ns_fueled (done ++ [e]))|].
  intros t _. destruct (start_time_ns_ r <? t).
  { apply fueled_bind; [by apply (heap_push_fueled (done ++ [e]))|done]. }
  destruct (t =? time_min); [done|].
  apply fueled_bind; [by apply (mark_finished_fueled (done ++ [e]))|done].
Qed.

Lemma replay_fueled events : ∀ seen st,
  replay_inv s0 seen st → NoDup (seen ++ events) →
  fueled (replay raises st events).
Proof.
  induction events as [|e rest IH]; intros seen st Hinv Hnd; [done|].
  assert (Hnd1 : NoDup (seen ++ [e])).
  { replace (seen ++ e :: rest) with ((seen ++ [e]) ++ rest) in Hnd
      by (by rewrite <- app_assoc).
    apply NoDup_app in Hnd as (Hnd1 & _ & _). exact Hnd1. }
  assert (Hnd0 : NoDup seen).
  { pose proof Hnd1 as Hnd0. apply NoDup_app in Hnd0 as (Hnd0 & _ & _).
    exact Hnd0. }
  cbn [replay]. apply fueled_bind.
  - unfold replay_step. apply fueled_bind; [apply fueled_deref|].
    intros r _. destruct Hinv as [Hs Hst Hh]. apply fueled_bind.
    + by apply (close_before_fueled seen).
    + intros st1 Hst1%(inv_close_before raises s0 seen); [|done..].
      by apply (push_event_fueled seen).
  - intros st1 Hstep. unfold replay_step in Hstep.
    ok_bind Hstep as r E. ok_bind Hstep as st2 E2.
    destruct Hinv as [Hs Hst Hh].
    apply (inv_close_before raises s0 seen) in E2; [|done..].
    apply (inv_push_event raises s0 seen) in Hstep; [|done|].
    + apply (IH (seen ++ [e])); [done|]. by rewrite <- app_assoc.
    + apply NoDup_app in Hnd1 as (_ & Hd & _). intros Hin.
      apply (Hd e Hin). by left.
Qed.

End Fuel.

(** X10.  The walks of [build_tree] end.  Whatever the store and the
    sequence of distinct events, [build_tree] ends with a tree or with a
    failed assertion of the source: the loop of [pop_event] that closes the
    frames above an event and the recursion of [endTimeNS] along parent
    links never take more steps than there are events, so the bounds that
    the model puts on them are never exhausted. *)
Theorem build_tree_fueled raises (s0 : store) sorted_events :
  NoDup sorted_events → fueled (build_tree raises s0 sorted_events).
Proof.
  intros Hnd. unfold build_tree, build_tree_state.
  apply fueled_bind; [|done]. apply fueled_bind.
  - by apply (replay_fueled raises s0 sorted_events [] _ (replay_inv_init s0)).
  - intros st Hst.
    apply (inv_replay raises s0 [] _ _ _ (replay_inv_init s0) Hnd) in Hst.
    cbn in Hst. destruct Hst as [Hs Hstk Hh].
    by apply (close_all_fueled raises s0 sorted_events).
Qed.

Lemma build_tree_fueled_witness :
  fueled (build_tree false abc_store [0; 1; 2]%nat).
Proof.
  apply build_tree_fueled.
  apply (bool_decide_unpack (NoDup [0; 1; 2]%nat)). vm_compute. exact I.
Defined.

(** * Further properties of the tree builder *)

Lemma attach_finishes (s s' : store) event p :
  attach s event p = Ok s' → finishes s s'.
Proof.
  intros (r & rp & Hr & Hrp & ->)%attach_Ok.
  assert (Hstep : ∀ (t : store) q rq rq', t !! q = Some rq →
            start_time_ns_ rq' = start_time_ns_ rq →
            extra_fields_ rq' = extra_fields_ rq →
            finished_ rq' = finished_ rq → finishes t (<[q := rq']> t)).
  { intros t q rq rq' Hq Hs Hx Hf y ry Hy.
    rewrite (lookup_insert_store _ _ _ _ _ Hq).
    destruct (decide (q = y)) as [<-|]; [|eauto].
    assert (ry = rq) as -> by congruence. exists rq'.
    repeat split; [done|done|congruence]. }
  eapply finishes_trans; by eapply Hstep.
Qed.

Lemma close_before_closed raises heap t : ∀ (s : store) (stk : gmap Z ptr) st,
  close_before raises s stk heap t = Ok st →
  finishes s (bt_store st) ∧
  ∀ e, e ∈ heap →
       e ∈ end_events_ st ∨ ∃ r, bt_store st !! e = Some r ∧ finished_ r = true.
Proof.
  induction heap as [|top rest IH]; intros s stk st H.
  - cbn in H. ok_inv H. split; [apply finishes_refl|].
    intros e He. by apply elem_of_nil in He.
  - rewrite close_before_cons in H. ok_bind H as x E.
    destruct (x <? t).
    + ok_bind H as q E'. destruct q as [s1 stk1].
      apply pop_event_finishes in E' as [Hfin (r1 & Hr1 & Hf1)].
      destruct (IH _ _ _ H) as [Hfin' Hrest].
      split; [by eapply finishes_trans|].
      intros e [->|He]%elem_of_cons; [|by apply Hrest].
      right. destruct (Hfin' _ _ Hr1) as (r2 & Hr2 & _ & _ & Hf2). eauto.
    + ok_inv H. split; [apply finishes_refl|]. intros e He. by left.
Qed.

Lemma close_all_closed raises heap : ∀ (s : store) (stk : gmap Z ptr) st,
  close_all raises s stk heap = Ok st →
  finishes s (bt_store st) ∧
  ∀ e, e ∈ heap → ∃ r, bt_store st !! e = Some r ∧ finished_ r = true.
Proof.
  induction heap as [|top rest IH]; intros s stk st H; cbn [close_all] in H.
  - ok_inv H. split; [apply finishes_refl|].
    intros e He. by apply elem_of_nil in He.
  - ok_bind H as q E'. destruct q as [s1 stk1].
    apply pop_event_finishes in E' as [Hfin (r1 & Hr1 & Hf1)].
    destruct (IH _ _ _ H) as [Hfin' Hrest].
    split; [by eapply finishes_trans|].
    intros e [->|He]%elem_of_cons; [|by apply Hrest].
    destruct (Hfin' _ _ Hr1) as (r2 & Hr2 & _ & _ & Hf2). eauto.
Qed.

(** What [push_event] does to the finished flags and to [end_events_]: an
    event whose stored end time is not the "unset" marker is finished or
    pending afterwards. *)
Lemma push_event_settles raises st st' e :
  push_event raises st e = Ok st' →
  finishes (bt_store st) (bt_store st') ∧
  (∀ v, v ∈ end_events_ st → v ∈ end_events_ st') ∧
  ∀ r, bt_store st !! e = Some r → own_end_ns r ≠ time_min →
       e ∈ end_events_ st' ∨
       ∃ r', bt_store st' !! e = Some r' ∧ finished_ r' = true.
Proof.
  intros H. unfold push_event in H. ok_bind H as r E.
  destruct (is_kineto r && finished_ r) eqn:Hskip.
  { ok_inv H. split; [apply finishes_refl|]. split; [done|].
    intros r' Hr' _. assert (r' = r) as -> by congruence.
    right. apply andb_true_iff in Hskip as [_ ?]. eauto. }
  ok_bind H as u0 E0. ok_bind H as u1 E1. ok_bind H as u2 E2.
  apply negb_true_iff in E2. ok_bind H as s1 E3.
  assert (Hf1 : finishes (bt_store st) s1).
  { destruct (find_parent (stacks st) r); [by eapply attach_finishes|].
    ok_inv E3. apply finishes_refl. }
  assert (∃ r1, s1 !! e = Some r1 ∧ finished_ r1 = false ∧
                own_end_ns r1 = own_end_ns r) as (r1 & Hr1 & Hfr1 & Hown).
  { destruct (find_parent (stacks st) r) as [p|]; [|ok_inv E3; eauto].
    apply attach_Ok in E3 as (r' & rp & Hr' & Hrp & ->).
    assert (r' = r) as -> by congruence.
    destruct (decide (p = e)) as [->|Hne].
    - rewrite list_lookup_insert_eq in Hrp by (by eapply lookup_lt_Some).
      injection Hrp as <-. exists (push_child e (set_parent (Some e) r)).
      split; [|done]. apply list_lookup_insert_eq.
      rewrite length_insert. by eapply lookup_lt_Some.
    - exists (set_parent (Some p) r). split; [|done].
      rewrite list_lookup_insert_ne by done.
      apply list_lookup_insert_eq. by eapply lookup_lt_Some. }
  ok_bind H as t E4. unfold end_ns, chain_fuel in E4.
  rewrite (endTimeNS_unfinished _ _ _ _ _ Hr1 Hfr1), Hown in E4.
  injection E4 as <-.
  destruct (start_time_ns_ r <? own_end_ns r).
  { ok_bind H as heap E5. ok_inv H. cbn. split; [done|].
    split; [intros v Hv; apply (heap_push_elem _ _ _ _ _ _ E5); by right|].
    intros _ _ _. left. apply (heap_push_elem _ _ _ _ _ _ E5). by left. }
  destruct (Z.eqb_spec (own_end_ns r) time_min) as [Hmin|Hnmin].
  { ok_inv H. cbn. split; [done|]. split; [done|].
    intros r' Hr' Hne. congruence. }
  ok_bind H as s2 E5. ok_inv H. cbn.
  apply mark_finished_finishes in E5 as [Hf2 Hdone].
  split; [by eapply finishes_trans|]. split; [done|]. intros _ _ _. by right.
Qed.

Lemma finishes_own_end (s s' : store) e r r' :
  finishes s s' → s !! e = Some r → s' !! e = Some r' →
  own_end_ns r' = own_end_ns r.
Proof.
  intros Hfin Hr Hr'. destruct (Hfin e r Hr) as (r2 & Hr2 & Hs & Hx & _).
  assert (r2 = r') as -> by congruence. unfold own_end_ns. by rewrite Hx, Hs.
Qed.

(** After a part of the replay every replayed event with a stored end time
    is finished or still pending. *)
Lemma replay_settles raises (s0 : store) events : ∀ seen st st',
  finishes s0 (bt_store st) →
  (∀ e r0, e ∈ seen → s0 !! e = Some r0 → own_end_ns r0 ≠ time_min →
     e ∈ end_events_ st ∨ ∃ r, bt_store st !! e = Some r ∧ finished_ r = true) →
  replay raises st events = Ok st' →
  finishes s0 (bt_store st') ∧
  ∀ e r0, e ∈ seen ++ events → s0 !! e = Some r0 → own_end_ns r0 ≠ time_min →
    e ∈ end_events_ st' ∨ ∃ r, bt_store st' !! e = Some r ∧ finished_ r = true.
Proof.
  induction events as [|x rest IH]; intros seen st st' Hfin Hseen H;
    cbn [replay] in H.
  - ok_inv H. by rewrite app_nil_r.
  - ok_bind H as st2 E. unfold replay_step in E.
    ok_bind E as rx Ex. ok_bind E as st1 E1.
    apply close_before_closed in E1 as [Hf1 Hh1].
    apply push_event_settles in E as (Hf2 & Hh2 & Hx2).
    assert (Hfin2 : finishes s0 (bt_store st2)).
    { eapply finishes_trans; [exact Hfin|]. by eapply finishes_trans. }
    replace (seen ++ x :: rest) with ((seen ++ [x]) ++ rest)
      by (by rewrite <- app_assoc).
    apply (IH (seen ++ [x]) st2 st' Hfin2); [|done].
    intros e r0 [He|He]%elem_of_app Hr0 Hne.
    + destruct (Hseen e r0 He Hr0 Hne) as [Hin|(r & Hr & Hf)].
      * destruct (Hh1 e Hin) as [Hin1|(r1 & Hr1 & Hfr1)]; [left; auto|].
        right. destruct (Hf2 _ _ Hr1) as (r2 & Hr2 & _ & _ & Hfr2). eauto.
      * right. destruct (Hf1 _ _ Hr) as (r1 & Hr1 & _ & _ & Hfr1).
        destruct (Hf2 _ _ Hr1) as (r2 & Hr2 & _ & _ & Hfr2). eauto.
    + apply list_elem_of_singleton in He as ->.
      destruct (Hfin x r0 Hr0) as (ra & Hra & _).
      destruct (Hf1 x ra Hra) as (rb & Hrb & _).
      apply (Hx2 rb Hrb).
      assert (Hf01 : finishes s0 (bt_store st1))
        by exact (finishes_trans _ _ _ Hfin Hf1).
      by rewrite (finishes_own_end s0 (bt_store st1) x r0 rb Hf01 Hr0 Hrb).
Qed.

(** X1.  When [build_tree] succeeds, every event of its input whose stored
    end time is not the "unset" marker is finished; no start time and no
    payload has changed and no event that was finished has been reopened. *)
Theorem build_tree_finishes_resolved raises (s0 s : store) sorted_events :
  build_tree raises s0 sorted_events = Ok s →
  finishes s0 s ∧
  ∀ e r0, e ∈ sorted_events → s0 !! e = Some r0 →
          own_end_ns r0 ≠ time_min →
          ∃ r, s !! e = Some r ∧ finished_ r = true.
Proof.
  intros H. unfold build_tree, build_tree_state in H.
  ok_bind H as st E. ok_bind E as st1 E1. ok_inv H.
  destruct (replay_settles raises s0 sorted_events [] (mkBt s0 ∅ []) st1)
    as [Hfin Hall]; [apply finishes_refl| |done|].
  { intros e r0 He. by apply elem_of_nil in He. }
  apply close_all_closed in E as [Hfin' Hheap].
  split; [by eapply finishes_trans|].
  intros e r0 He Hr0 Hne. destruct (Hall e r0 He Hr0 Hne) as [Hin|(r & Hr & Hf)].
  - by apply Hheap.
  - destruct (Hfin' _ _ Hr) as (r' & Hr' & _ & _ & Hf'). eauto.
Qed.

Lemma build_tree_finishes_resolved_witness :
  ∃ s r, build_tree false overlap_store [0; 1]%nat = Ok s ∧
         s !! 1%nat = Some r ∧ finished_ r = true.
Proof.
  destruct (build_tree false overlap_store [0; 1]%nat) as [s|] eqn:H;
    [|by vm_compute in H].
  destruct (proj2 (build_tree_finishes_resolved false overlap_store s
                     [0; 1]%nat H) 1%nat
              (mkResult 10 1 (TorchOp (mkTorchOp 150 0 [])) false None []))
    as (r & Hr & Hf); [right; by left|reflexivity|by cbn|].
  by exists s, r.
Defined.

(** X2.  [build_tree] only appends to [children_]: the list of a node is
    its list on entry followed, without repetition, by exactly the replayed
    events that ended up with this node as parent. *)
Theorem build_tree_children raises (s0 s : store) sorted_events p :
  NoDup sorted_events →
  build_tree raises s0 sorted_events = Ok s →
  is_Some (s0 !! p) →
  ∃ added, children_of s p = children_of s0 p ++ added ∧ NoDup added ∧
    ∀ c, c ∈ added ↔
         c ∈ sorted_events ∧ skipped s0 c = false ∧ parent_of s c = Some p.
Proof.
  intros Hnd H Hp. apply (build_tree_inv raises s0 _ s Hnd) in H.
  exists (filter (fun e => parent_of s e = Some p) (pushed s0 sorted_events)).
  split; [by apply (inv_children _ _ _ H)|]. split.
  - apply NoDup_filter. by apply NoDup_filter.
  - intros c. unfold pushed. rewrite !list_elem_of_filter. tauto.
Qed.

Lemma build_tree_children_witness :
  ∃ s added, build_tree false abc_store [0; 1; 2]%nat = Ok s ∧
    children_of s 0 = children_of abc_store 0 ++ added ∧ NoDup added.
Proof.
  destruct (build_tree false abc_store [0; 1; 2]%nat) as [s|] eqn:H;
    [|by vm_compute in H].
  destruct (build_tree_children false abc_store s [0; 1; 2]%nat 0%nat)
    as (added & Hc & Hnd & _).
  - apply (bool_decide_unpack (NoDup [0; 1; 2]%nat)). vm_compute. exact I.
  - exact H.
  - by eexists.
  - by exists s, added.
Defined.

(** X3.  A parent chosen by [build_tree] stands strictly earlier in the
    replayed sequence than the child (so the new parent links cannot form a
    cycle), and the first event of the sequence is never given a parent. *)
Theorem build_tree_parent_earlier raises (s0 s : store) sorted_events :
  NoDup sorted_events →
  build_tree raises s0 sorted_events = Ok s →
  (∀ c q, parent_of s0 c = None → parent_of s c = Some q →
          before q c sorted_events ∧ q ≠ c) ∧
  (∀ e0 rest, sorted_events = e0 :: rest → parent_of s0 e0 = None →
              parent_of s e0 = None).
Proof.
  intros Hnd H. apply (build_tree_inv raises s0 _ s Hnd) in H.
  assert (Hb : ∀ c q, parent_of s0 c = None → parent_of s c = Some q →
                      before q c sorted_events).
  { intros c q H0 H1. pose proof (adopted_pushed _ _ _ _ _ H H0 H1) as Hc.
    by destruct (inv_parent _ _ _ H c q Hc H1) as (Hb & _ & _). }
  split.
  - intros c q H0 H1. split; [by apply Hb|]. intros ->.
    destruct (Hb c c H0 H1) as (l1 & l2 & -> & Hin).
    apply NoDup_app in Hnd as (_ & Hd & _). apply (Hd c Hin). by left.
  - intros e0 rest -> H0. destruct (parent_of s e0) as [q|] eqn:Hq; [|done].
    destruct (Hb e0 q H0 Hq) as (l1 & l2 & Heq & Hin).
    destruct l1 as [|x l1]; [by apply elem_of_nil in Hin|].
    injection Heq as <- ->. apply NoDup_cons in Hnd as [Hn _].
    exfalso. apply Hn. apply elem_of_app. right. by left.
Qed.

Lemma build_tree_parent_earlier_witness :
  ∃ s, build_tree false abc_store [0; 1; 2]%nat = Ok s ∧
       parent_of s 0 = None.
Proof.
  destruct (build_tree false abc_store [0; 1; 2]%nat) as [s|] eqn:H;
    [|by vm_compute in H].
  exists s. split; [done|].
  refine (proj2 (build_tree_parent_earlier false abc_store s [0; 1; 2]%nat
                   _ H) 0%nat [1; 2]%nat eq_refl eq_refl).
  apply (bool_decide_unpack (NoDup [0; 1; 2]%nat)). vm_compute. exact I.
Defined.

Lemma replay_app raises events1 : ∀ st events2 st',
  replay raises st (events1 ++ events2) = Ok st' →
  ∃ st1, replay raises st events1 = Ok st1 ∧
         replay raises st1 events2 = Ok st'.
Proof.
  induction events1 as [|x rest IH]; intros st events2 st' H; cbn in *.
  - eauto.
  - ok_bind H as st2 E. destruct (IH _ _ _ H) as (st1 & H1 & H2).
    exists st1. by rewrite E.
Qed.

(** X4.  [build_tree] rejects an input that breaks the entry conditions of
    [push_event]: a replayed event that is not an already finished Kineto
    event must be unfinished and must have no parent. *)
Theorem build_tree_rejects_settled raises (s0 : store) sorted_events e r :
  NoDup sorted_events →
  e ∈ sorted_events → s0 !! e = Some r →
  is_kineto r && finished_ r = false →
  finished_ r = true ∨ parent_ r ≠ None →
  ∀ s, build_tree raises s0 sorted_events ≠ Ok s.
Proof.
  intros Hnd He Hr Hskip Hbad s H.
  unfold build_tree, build_tree_state in H.
  ok_bind H as st E. ok_bind E as stf Ef. clear H E.
  apply list_elem_of_split in He as (l1 & l2 & ->).
  apply replay_app in Ef as (st1 & E1 & E2).
  assert (Hinv : replay_inv s0 l1 st1).
  { apply (inv_replay raises s0 [] _ _ _ (replay_inv_init s0)) in E1; [done|].
    cbn. by apply NoDup_app in Hnd as (? & _ & _). }
  cbn [replay] in E2. ok_bind E2 as st2 E. clear E2.
  unfold replay_step in E. ok_bind E as rx Ex. ok_bind E as st3 E3.
  destruct Hinv as [Hs Hst Hh].
  apply (inv_close_before raises s0 l1) in E3 as [Hs3 _ _]; [|done..].
  assert (Hr3 : bt_store st3 !! e = Some r).
  { rewrite (inv_untouched _ _ _ Hs3); [done|].
    intros Hin%list_elem_of_filter. destruct Hin as [_ Hin].
    apply NoDup_app in Hnd as (_ & Hd & _). apply (Hd e Hin). by left. }
  unfold push_event in E. ok_bind E as r' Er'.
  assert (r' = r) as -> by congruence. rewrite Hskip in E.
  destruct Hbad as [Hf|Hp].
  - ok_bind E as u0 E0. ok_bind E as u1 E4. ok_bind E as u2 E5.
    rewrite Hf in E5. done.
  - ok_bind E as u0 E0. by apply bool_decide_eq_true in E0.
Qed.

Lemma build_tree_rejects_settled_witness :
  ¬ ∃ s, build_tree false
           [mkResult 0 1 (TorchOp (mkTorchOp 100 0 [])) true None []] [0%nat]
         = Ok s.
Proof.
  intros [s H]. revert s H.
  apply (build_tree_rejects_settled false _ [0%nat] 0%nat
           (mkResult 0 1 (TorchOp (mkTorchOp 100 0 [])) true None [])).
  - apply (bool_decide_unpack (NoDup [0%nat])). vm_compute. exact I.
  - by left.
  - reflexivity.
  - reflexivity.
  - by left.
Defined.

(** X5.  Sorting and tree building composed, as [getRecords] runs them: the
    sorted vector holds the same events as the input vector, and every event
    that the builder gave a parent is a child of that parent and starts no
    earlier than it.  No order of the input vector is assumed. *)
Theorem sort_and_build_nests_by_start raises (s0 s : store) out :
  NoDup out →
  sort_and_build raises s0 out = Ok s →
  (∀ v, v ∈ stable_sort s0 out ↔ v ∈ out) ∧
  ∀ c q, parent_of s0 c = None → parent_of s c = Some q →
         c ∈ children_of s q ∧
         start_of s0 q ≤ start_of s0 c ∧ start_of s q ≤ start_of s c.
Proof.
  intros Hnd H. unfold sort_and_build in H.
  split; [intros v; apply stable_sort_elem|].
  apply (build_tree_inv raises s0 _ s (stable_sort_NoDup s0 out Hnd)) in H.
  intros c q H0 H1.
  pose proof (adopted_pushed _ _ _ _ _ H H0 H1) as Hc.
  split; [by eapply adopted_child|].
  rewrite !(start_of_build_tree s0 s (stable_sort s0 out)) by done.
  destruct (inv_parent _ _ _ H c q Hc H1) as (Hb & _ & _).
  assert (start_of s0 q ≤ start_of s0 c); [|done].
  pose proof (stable_sort_sorted s0 out) as Hsorted.
  apply Sorted_StronglySorted in Hsorted; [|intros x y z; lia].
  by apply (before_sorted _ _ _ _ Hsorted) in Hb.
Qed.

Lemma sort_and_build_nests_by_start_witness :
  ∃ s, sort_and_build false abc_store [2; 0; 1]%nat = Ok s ∧
       1%nat ∈ children_of s 0.
Proof.
  destruct (sort_and_build false abc_store [2; 0; 1]%nat) as [s|] eqn:H;
    [|by vm_compute in H].
  exists s. split; [done|].
  refine (proj1 (proj2 (sort_and_build_nests_by_start false abc_store s
                          [2; 0; 1]%nat _ H) 1%nat 0%nat eq_refl _)).
  - apply (bool_decide_unpack (NoDup [2; 0; 1]%nat)). vm_compute. exact I.
  - vm_compute in H. injection H as <-. reflexivity.
Defined.

(** * Further properties of the external-trace merge *)

Section SetParentsMore.

Context (raises : bool) (kLinkAsyncCpuGpu : Z) (use_rocm : bool)
        (currentThreadId : Z).

(** [s'] is [s] with changes to Kineto events only: start times and payloads
    are kept everywhere, the other events keep thread id, parent and
    finished flag as well, and child lists are only appended to. *)
Definition merge_keeps (s s' : store) : Prop :=
  length s' = length s ∧
  ∀ y ry, s !! y = Some ry →
    ∃ ry', s' !! y = Some ry' ∧
      start_time_ns_ ry' = start_time_ns_ ry ∧
      extra_fields_ ry' = extra_fields_ ry ∧
      (is_kineto ry = false →
         start_tid_ ry' = start_tid_ ry ∧ parent_ ry' = parent_ ry ∧
         finished_ ry' = finished_ ry) ∧
      ∃ added, children_ ry' = children_ ry ++ added.

Lemma merge_keeps_refl s : merge_keeps s s.
Proof.
  split; [done|]. intros y ry Hy. exists ry. repeat split; try done.
  exists []. by rewrite app_nil_r.
Qed.

Lemma merge_keeps_trans s1 s2 s3 :
  merge_keeps s1 s2 → merge_keeps s2 s3 → merge_keeps s1 s3.
Proof.
  intros [Hl12 H12] [Hl23 H23]. split; [congruence|]. intros y ry Hy.
  destruct (H12 y ry Hy) as (r2 & Hy2 & Hs2 & Hx2 & Hk2 & a2 & Hc2).
  destruct (H23 y r2 Hy2) as (r3 & Hy3 & Hs3 & Hx3 & Hk3 & a3 & Hc3).
  exists r3. split; [done|]. split; [congruence|]. split; [congruence|].
  split.
  - intros Hk. destruct (Hk2 Hk) as (? & ? & ?).
    assert (is_kineto r2 = false) as Hk'
      by (unfold is_kineto in *; by rewrite Hx2).
    destruct (Hk3 Hk') as (? & ? & ?). repeat split; congruence.
  - exists (a2 ++ a3). by rewrite Hc3, Hc2, <- app_assoc.
Qed.

Lemma merge_keeps_insert (s : store) y ry ry' :
  s !! y = Some ry →
  start_time_ns_ ry' = start_time_ns_ ry →
  extra_fields_ ry' = extra_fields_ ry →
  (is_kineto ry = false →
     start_tid_ ry' = start_tid_ ry ∧ parent_ ry' = parent_ ry ∧
     finished_ ry' = finished_ ry) →
  (∃ added, children_ ry' = children_ ry ++ added) →
  merge_keeps s (<[y := ry']> s).
Proof.
  intros Hy Hs Hx Hk Hc. split; [by rewrite length_insert|].
  intros z rz Hz. rewrite (lookup_insert_store _ _ _ _ _ Hy).
  destruct (decide (y = z)) as [<-|Hne].
  - assert (rz = ry) as -> by congruence. by exists ry'.
  - exists rz. repeat split; try done. exists []. by rewrite app_nil_r.
Qed.

Lemma first_pass_step_keeps (s s' : store) (fm fm' : gmap Z ptr) e :
  first_pass_step kLinkAsyncCpuGpu use_rocm (s, fm) e = Ok (s', fm') →
  merge_keeps s s'.
Proof.
  unfold first_pass_step. cbn [fst snd]. intros H. ok_bind H as r E.
  destruct (extra_fields_ r) as [| | | | | |i] eqn:Hx;
    try (ok_inv H; apply merge_keeps_refl).
  ok_bind H as fm1 E1. ok_bind H as u E2. ok_inv H.
  eapply merge_keeps_insert; try done.
  - unfold is_kineto. by rewrite Hx.
  - exists []. by rewrite app_nil_r.
Qed.

Lemma first_pass_keeps results : ∀ (s s' : store) (fm fm' : gmap Z ptr),
  first_pass kLinkAsyncCpuGpu use_rocm (s, fm) results = Ok (s', fm') →
  merge_keeps s s'.
Proof.
  induction results as [|e rest IH]; intros s s' fm fm' H; cbn in H.
  - ok_inv H. apply merge_keeps_refl.
  - ok_bind H as acc E. destruct acc as [s1 fm1].
    eapply merge_keeps_trans; [by eapply first_pass_step_keeps|by eapply IH].
Qed.

Lemma second_pass_step_keeps flow_map (s s' : store) e :
  second_pass_step raises kLinkAsyncCpuGpu flow_map s e = Ok s' →
  merge_keeps s s'.
Proof.
  unfold second_pass_step. intros H. ok_bind H as r E.
  destruct (extra_fields_ r) as [| | | | | |i] eqn:Hx;
    try (ok_inv H; apply merge_keeps_refl).
  assert (Hk : is_kineto r = true) by (unfold is_kineto; by rewrite Hx).
  set (r1 := set_parent (flow_parent kLinkAsyncCpuGpu flow_map i (parent_ r)) r)
    in *.
  assert (H1 : merge_keeps s (<[e := r1]> s)).
  { eapply merge_keeps_insert; try done; [by rewrite Hk|].
    exists []. by rewrite app_nil_r. }
  assert (Hr1 : <[e := r1]> s !! e = Some r1).
  { apply list_lookup_insert_eq. by eapply lookup_lt_Some. }
  destruct (parent_ r1) as [p|] eqn:Hp; [|by ok_inv H].
  ok_bind H as rp Ep.
  apply mark_finished_Ok in H as (rf & Hrf & _ & ->).
  eapply merge_keeps_trans; [exact H1|].
  eapply merge_keeps_trans.
  - eapply (merge_keeps_insert _ p rp (push_child e rp)); try done.
    by exists [e].
  - eapply merge_keeps_insert; try done.
    + intros Hkf. exfalso.
      destruct (decide (p = e)) as [->|Hne].
      * rewrite list_lookup_insert_eq in Hrf by (by eapply lookup_lt_Some).
        injection Hrf as <-. assert (rp = r1) as -> by congruence.
        unfold is_kineto in Hkf. cbn in Hkf. by rewrite Hx in Hkf.
      * rewrite list_lookup_insert_ne in Hrf by done.
        assert (rf = r1) as -> by congruence.
        unfold is_kineto in Hkf. cbn in Hkf. by rewrite Hx in Hkf.
    + exists []. by rewrite app_nil_r.
Qed.

Lemma second_pass_keeps flow_map results : ∀ (s s' : store),
  second_pass raises kLinkAsyncCpuGpu flow_map s results = Ok s' →
  merge_keeps s s'.
Proof.
  induction results as [|e rest IH]; intros s s' H; cbn in H.
  - ok_inv H. apply merge_keeps_refl.
  - ok_bind H as s1 E.
    eapply merge_keeps_trans; [by eapply second_pass_step_keeps|by eapply IH].
Qed.

(** [s'] is [s] except for thread ids given to Kineto events that had
    none. *)
Definition fills_tid (s s' : store) : Prop :=
  ∀ y ry, s !! y = Some ry →
    is_kineto ry = false ∨ start_tid_ ry ≠ noTID → s' !! y = Some ry.

Lemma fills_tid_trans s1 s2 s3 :
  fills_tid s1 s2 → fills_tid s2 s3 → fills_tid s1 s3.
Proof. intros H12 H23 y ry Hy Hc. apply H23; [by apply H12|done]. Qed.

Lemma setKinetoTID_step (s s1 : store) r rr (parent : option ptr) :
  s !! r = Some rr →
  (if is_kineto rr then
     _ ← check (start_tid_ rr =? noTID);
     tid ← match parent with
           | Some p => rp ← deref s p; Ok (start_tid_ rp)
           | None => Ok currentThreadId
           end;
     Ok (<[r := set_start_tid tid rr]> s)
   else Ok s) = Ok s1 →
  fills_tid s s1 ∧ merge_keeps s s1 ∧
  (is_kineto rr = true → parent = None →
   s1 !! r = Some (set_start_tid currentThreadId rr)).
Proof.
  intros Hr H. destruct (is_kineto rr) eqn:Hk.
  - ok_bind H as u E. apply Z.eqb_eq in E. ok_bind H as tid Et. ok_inv H.
    split; [|split].
    + intros y ry Hy Hc. rewrite (lookup_insert_store _ _ _ _ _ Hr).
      destruct (decide (r = y)) as [<-|]; [|done].
      assert (ry = rr) as -> by congruence. destruct Hc; congruence.
    + eapply merge_keeps_insert; try done; [by rewrite Hk|].
      exists []. by rewrite app_nil_r.
    + intros _ ->. ok_inv Et. apply list_lookup_insert_eq.
      by eapply lookup_lt_Some.
  - ok_inv H. split; [by intros y ry Hy _|]. split; [apply merge_keeps_refl|].
    done.
Qed.

Lemma setKinetoTID_fills fuel : ∀ (s s' : store) r parent,
  setKinetoTID currentThreadId fuel s r parent = Ok s' →
  fills_tid s s' ∧ merge_keeps s s'.
Proof.
  induction fuel as [|fuel IH]; intros s s' r parent H; [discriminate|].
  cbn [setKinetoTID] in H. ok_bind H as rr E. ok_bind H as s1 E1.
  apply (setKinetoTID_step _ _ _ _ _ E) in E1 as (Hf1 & Hk1 & _).
  enough (fills_tid s1 s' ∧ merge_keeps s1 s') as [? ?]
    by (split; [by eapply fills_tid_trans|by eapply merge_keeps_trans]).
  clear E Hf1 Hk1. revert s1 H.
  induction (children_ rr) as [|c cs IHcs]; intros s1 H.
  - ok_inv H. split; [by intros y ry Hy _|apply merge_keeps_refl].
  - ok_bind H as s2 E2. destruct (IH _ _ _ _ E2), (IHcs _ H).
    split; [by eapply fills_tid_trans|by eapply merge_keeps_trans].
Qed.

Lemma setKinetoTID_root fuel (s s' : store) e r :
  currentThreadId ≠ noTID →
  setKinetoTID currentThreadId fuel s e None = Ok s' →
  s !! e = Some r → is_kineto r = true →
  s' !! e = Some (set_start_tid currentThreadId r).
Proof.
  intros Hne H Hr Hk. destruct fuel as [|fuel]; [discriminate|].
  cbn [setKinetoTID] in H. ok_bind H as rr E.
  assert (rr = r) as -> by congruence. ok_bind H as s1 E1.
  apply (setKinetoTID_step s s1 e r None E) in E1 as (_ & _ & He).
  specialize (He Hk eq_refl).
  enough (fills_tid s1 s') as Hf by (apply (Hf _ _ He); by right).
  clear E He. revert s1 H.
  induction (children_ r) as [|c cs IHcs]; intros s1 H.
  - ok_inv H. by intros y ry Hy _.
  - ok_bind H as s2 E2. eapply fills_tid_trans; [|by apply IHcs].
    by apply setKinetoTID_fills in E2 as [? _].
Qed.

Lemma third_pass_fills results : ∀ (s s' : store),
  third_pass currentThreadId s results = Ok s' →
  fills_tid s s' ∧ merge_keeps s s'.
Proof.
  induction results as [|x rest IH]; intros s s' H; cbn [third_pass] in H.
  - ok_inv H. split; [by intros y ry Hy _|apply merge_keeps_refl].
  - ok_bind H as rx Ex. ok_bind H as s1 E1. destruct (IH _ _ H).
    destruct (parent_ rx).
    + by ok_inv E1.
    + apply setKinetoTID_fills in E1 as [? ?].
      split; [by eapply fills_tid_trans|by eapply merge_keeps_trans].
Qed.

Lemma third_pass_root results e : ∀ (s s' : store) r,
  currentThreadId ≠ noTID →
  third_pass currentThreadId s results = Ok s' →
  e ∈ results → s !! e = Some r → is_kineto r = true → parent_ r = None →
  s' !! e = Some (set_start_tid currentThreadId r).
Proof.
  induction results as [|x rest IH]; intros s s' r Hne H He Hr Hk Hp;
    [by apply elem_of_nil in He|].
  cbn [third_pass] in H. ok_bind H as rx Ex. ok_bind H as s1 E1.
  destruct (decide (x = e)) as [->|Hxe].
  - assert (rx = r) as -> by congruence. rewrite Hp in E1.
    apply (setKinetoTID_root _ _ _ _ _ Hne E1 Hr) in Hk.
    apply third_pass_fills in H as [Hf _]. apply (Hf _ _ Hk). by right.
  - apply elem_of_cons in He as [->|He]; [done|].
    destruct (parent_ rx); [ok_inv E1; by eapply IH|].
    destruct (decide (start_tid_ r = noTID)) as [Htid|Htid].
    + pose proof E1 as Hl. apply setKinetoTID_links in Hl as [_ Hl].
      pose proof E1 as Hm. apply setKinetoTID_fills in Hm as [_ [_ Hm]].
      destruct (Hl e r Hr) as (r1 & Hr1 & Hx1 & Hp1 & Hf1 & Hc1).
      destruct (Hm e r Hr) as (r1' & Hr1' & Hs1 & _).
      assert (r1' = r1) as -> by congruence.
      pose proof (IH s1 s' r1 Hne H He Hr1) as Hfin.
      rewrite Hfin;
        [|unfold is_kineto in *; by rewrite Hx1|congruence].
      unfold set_start_tid. by rewrite Hs1, Hx1, Hf1, Hp1, Hc1.
    + apply setKinetoTID_fills in E1 as [Hf _].
      eapply IH; try done. apply Hf; [done|by right].
Qed.

(** The parent that the first pass leaves on a Kineto event is its linked
    activity. *)
Lemma first_pass_parent results e i : ∀ (s s' : store) (fm fm' : gmap Z ptr),
  first_pass kLinkAsyncCpuGpu use_rocm (s, fm) results = Ok (s', fm') →
  (∃ r, s !! e = Some r ∧ extra_fields_ r = Kineto i) →
  e ∈ results ∨ parent_of s e = linked_activity_ i →
  parent_of s' e = linked_activity_ i.
Proof.
  induction results as [|x rest IH]; intros s s' fm fm' H Hr He; cbn in H.
  - ok_inv H. destruct He as [He|]; [by apply elem_of_nil in He|done].
  - ok_bind H as acc E. destruct acc as [s1 fm1].
    destruct Hr as (r & Hr & Hi).
    assert (∃ r1, s1 !! e = Some r1 ∧ extra_fields_ r1 = Kineto i ∧
                  (x = e → parent_ r1 = linked_activity_ i) ∧
                  (x ≠ e → parent_ r1 = parent_ r))
      as (r1 & Hr1 & Hi1 & Hxe & Hne).
    { unfold first_pass_step in E. cbn [fst snd] in E. ok_bind E as rx Ex.
      destruct (decide (x = e)) as [->|Hxe].
      - assert (rx = r) as -> by congruence. rewrite Hi in E.
        ok_bind E as fm2 E2. ok_bind E as u Eu. ok_inv E.
        exists (set_parent (linked_activity_ i) r).
        rewrite list_lookup_insert_eq by (by eapply lookup_lt_Some). done.
      - exists r. destruct (extra_fields_ rx);
          try (ok_inv E; by repeat split).
        ok_bind E as fm2 E2. ok_bind E as u Eu. ok_inv E.
        rewrite list_lookup_insert_ne by done. by repeat split. }
    apply (IH _ _ _ _ H); [by eauto|].
    destruct (decide (x = e)) as [Heq|Hneq].
    + right. unfold parent_of. rewrite Hr1. cbn. auto.
    + destruct He as [[->|He]%elem_of_cons|He]; [done|by left|].
      right. unfold parent_of in *. rewrite Hr1. rewrite Hr in He. cbn in *.
      by rewrite Hne.
Qed.

Lemma flow_parent_idemp flow_map i p :
  flow_parent kLinkAsyncCpuGpu flow_map i
    (flow_parent kLinkAsyncCpuGpu flow_map i p)
  = flow_parent kLinkAsyncCpuGpu flow_map i p.
Proof.
  unfold flow_parent. destruct (flow_map !! flow_id (flow i)); [|done].
  by destruct ((flow_type (flow i) =? kLinkAsyncCpuGpu)
               && negb (flow_start (flow i))).
Qed.

(** The parent after the second pass, in terms of the parent before it. *)
Lemma second_pass_parent flow_map results e i p0 : ∀ (s s' : store),
  second_pass raises kLinkAsyncCpuGpu flow_map s results = Ok s' →
  (∃ r, s !! e = Some r ∧ extra_fields_ r = Kineto i ∧
        ((e ∈ results ∧ parent_ r = p0) ∨
         parent_ r = flow_parent kLinkAsyncCpuGpu flow_map i p0)) →
  parent_of s' e = flow_parent kLinkAsyncCpuGpu flow_map i p0.
Proof.
  induction results as [|x rest IH]; intros s s' H (r & Hr & Hi & Hc);
    cbn in H.
  - ok_inv H. destruct Hc as [[He _]|Hc]; [by apply elem_of_nil in He|].
    unfold parent_of. rewrite Hr. done.
  - ok_bind H as s1 E. apply (IH _ _ H).
    destruct (second_pass_step_Ok _ _ _ _ _ _ E) as [[_ Hm] Hself].
    destruct (decide (x = e)) as [->|Hxe].
    + destruct (Hself r i Hr Hi) as (r' & Hr' & Hp' & _).
      destruct (Hm e r Hr) as (r'' & Hr'' & Hx'' & _).
      assert (r'' = r') as -> by congruence.
      exists r'. split; [done|]. split; [congruence|]. right.
      rewrite Hp'. destruct Hc as [[_ Hc]|Hc]; rewrite Hc; [done|].
      apply flow_parent_idemp.
    + destruct (Hm e r Hr) as (r' & Hr' & Hx' & Hp' & _).
      destruct (Hp' (not_eq_sym Hxe)) as [Hpar _].
      exists r'. split; [done|]. split; [congruence|]. rewrite Hpar.
      destruct Hc as [[[->|He]%elem_of_cons Hp]|Hc]; [done|by left|by right].
Qed.

End SetParentsMore.

(** X6.  [setParents] changes Kineto events only.  Every event keeps its
    start time and its payload; an event of another kind keeps thread id,
    parent and finished flag as well, and its list of children is only
    appended to. *)
Theorem setParents_keeps_profiler_events raises kLinkAsyncCpuGpu use_rocm tid
  (s s' : store) results :
  setParents raises kLinkAsyncCpuGpu use_rocm tid s results = Ok s' →
  length s' = length s ∧
  ∀ y ry, s !! y = Some ry →
    ∃ ry', s' !! y = Some ry' ∧
      start_time_ns_ ry' = start_time_ns_ ry ∧
      extra_fields_ ry' = extra_fields_ ry ∧
      (is_kineto ry = false →
         start_tid_ ry' = start_tid_ ry ∧ parent_ ry' = parent_ ry ∧
         finished_ ry' = finished_ ry) ∧
      ∃ added, children_ ry' = children_ ry ++ added.
Proof.
  intros H. apply setParents_Ok in H as (s1 & s2 & fm & H1 & H2 & H3).
  apply first_pass_keeps in H1. apply second_pass_keeps in H2.
  apply third_pass_fills in H3 as [_ H3].
  exact (merge_keeps_trans _ _ _ (merge_keeps_trans _ _ _ H1 H2) H3).
Qed.

Lemma setParents_keeps_profiler_events_witness :
  ∃ s r, setParents false 2 false 1 flow_store [0; 1; 2]%nat = Ok s ∧
         s !! 0%nat = Some r ∧ parent_ r = None ∧ finished_ r = false ∧
         start_tid_ r = 1.
Proof.
  destruct (setParents false 2 false 1 flow_store [0; 1; 2]%nat) as [s|] eqn:H;
    [|by vm_compute in H].
  destruct (proj2 (setParents_keeps_profiler_events false 2 false 1 flow_store
                     s [0; 1; 2]%nat H) 0%nat
              (mkResult 0 1 (TorchOp (mkTorchOp 100 0 [])) false None [])
              eq_refl)
    as (r & Hr & _ & _ & Hk & _).
  destruct (Hk eq_refl) as (Ht & Hp & Hf). by exists s, r.
Defined.

(** X7.  Thread ids of the merged events: after [setParents] a Kineto event
    of [results] that has no parent carries the id of the calling thread
    (provided that id is not the "no thread" marker). *)
Theorem root_kineto_gets_current_tid raises kLinkAsyncCpuGpu use_rocm tid
  (s s' : store) results e r' :
  tid ≠ noTID →
  setParents raises kLinkAsyncCpuGpu use_rocm tid s results = Ok s' →
  e ∈ results → s' !! e = Some r' → is_kineto r' = true → parent_ r' = None →
  start_tid_ r' = tid.
Proof.
  intros Hne H He Hr' Hk Hp.
  apply setParents_Ok in H as (s1 & s2 & fm & _ & _ & H3).
  pose proof (third_pass_links _ _ _ _ H3) as [Hl Hs].
  destruct (lookup_same_length s2 s' e r' Hl Hr') as [r2 Hr2].
  destruct (Hs e r2 Hr2) as (r'' & Hr'' & Hx & Hpar & _).
  assert (r'' = r') as -> by congruence.
  rewrite (third_pass_root tid results e s2 s' r2 Hne H3 He Hr2) in Hr'.
  - by injection Hr' as <-.
  - unfold is_kineto in *. by rewrite <- Hx.
  - congruence.
Qed.

Lemma root_kineto_gets_current_tid_witness :
  ∃ s r, setParents false 2 false 1
           [mkResult 10 noTID (Kineto (mkKineto 5 (mkFlow 0 0 false) None))
                     false None []] [0%nat] = Ok s ∧
         s !! 0%nat = Some r ∧ start_tid_ r = 1.
Proof.
  eexists _, _. split; [vm_compute; reflexivity|]. split; [reflexivity|].
  apply (root_kineto_gets_current_tid false 2 false 1
           [mkResult 10 noTID (Kineto (mkKineto 5 (mkFlow 0 0 false) None))
                     false None []]
           [mkResult 10 1 (Kineto (mkKineto 5 (mkFlow 0 0 false) None))
                     false None []] [0%nat] 0%nat).
  - by vm_compute.
  - vm_compute. reflexivity.
  - by left.
  - reflexivity.
  - reflexivity.
  - reflexivity.
Defined.

(** X8.  Without [USE_ROCM] two different events of [results] that start
    the same async CPU-to-device flow make [setParents] fail. *)
Theorem duplicate_flow_start_rejected raises kLinkAsyncCpuGpu tid
  (s : store) results S1 S2 fid :
  S1 ∈ results → S2 ∈ results → S1 ≠ S2 →
  is_flow_start kLinkAsyncCpuGpu s S1 fid →
  is_flow_start kLinkAsyncCpuGpu s S2 fid →
  ∀ s', setParents raises kLinkAsyncCpuGpu false tid s results ≠ Ok s'.
Proof.
  intros H1 H2 Hne Hf1 Hf2 s' H.
  apply setParents_Ok in H as (s1 & s2 & fm & Hp1 & _ & _).
  apply first_pass_Ok in Hp1 as (_ & _ & _ & Hc).
  destruct (Hc fid S1 H1 Hf1) as (w1 & Hw1 & Hs1).
  destruct (Hc fid S2 H2 Hf2) as (w2 & Hw2 & Hs2).
  rewrite (Hs1 eq_refl) in Hw1. rewrite (Hs2 eq_refl) in Hw2. congruence.
Qed.

Lemma duplicate_flow_start_rejected_witness :
  ¬ ∃ s', setParents false 2 false 1
            [mkResult 10 noTID (Kineto (mkKineto 5 (mkFlow 7 2 true) None))
                      false None [];
             mkResult 20 noTID (Kineto (mkKineto 5 (mkFlow 7 2 true) None))
                      false None []] [0; 1]%nat = Ok s'.
Proof.
  intros [s' H]. revert s' H.
  apply (duplicate_flow_start_rejected false 2 1 _ [0; 1]%nat 0%nat 1%nat 7).
  - by left.
  - right. by left.
  - done.
  - eexists _, _. split; [reflexivity|]. by cbn.
  - eexists _, _. split; [reflexivity|]. by cbn.
Defined.

(** X9.  The fallback of the merge: a Kineto event of [results] that does
    not continue a registered async CPU-to-device flow (its flow has another
    type, or it starts the flow, or no event of [results] starts a flow
    with its id) ends up with its linked activity as parent, and without a
    parent if it has no linked activity. *)
Theorem unmatched_flow_keeps_linked_activity raises kLinkAsyncCpuGpu use_rocm
  tid (s s' : store) results e r i :
  setParents raises kLinkAsyncCpuGpu use_rocm tid s results = Ok s' →
  e ∈ results → s !! e = Some r → extra_fields_ r = Kineto i →
  flow_type (flow i) ≠ kLinkAsyncCpuGpu ∨ flow_start (flow i) = true ∨
    (∀ w, w ∈ results →
          ¬ is_flow_start kLinkAsyncCpuGpu s w (flow_id (flow i))) →
  parent_of s' e = linked_activity_ i.
Proof.
  intros H He Hr Hi Hflow.
  apply setParents_Ok in H as (s1 & s2 & fm & H1 & H2 & H3).
  pose proof (first_pass_parent _ _ _ e i _ _ _ _ H1
                (ex_intro _ r (conj Hr Hi)) (or_introl He)) as Hp1.
  apply first_pass_Ok in H1 as (Hx & _ & Hb & _).
  destruct (proj2 Hx e r Hr) as (r1 & Hr1 & Hx1).
  rewrite (same_links_parent_of s2 s' e (third_pass_links _ _ _ _ H3)).
  rewrite (second_pass_parent raises kLinkAsyncCpuGpu fm results e i
             (parent_ r1) s1 s2 H2).
  - unfold parent_of in Hp1. rewrite Hr1 in Hp1. cbn in Hp1. rewrite Hp1.
    unfold flow_parent.
    destruct (fm !! flow_id (flow i)) as [w|] eqn:Hw; [|done].
    destruct Hflow as [Hty|[Hst|Hno]].
    + apply Z.eqb_neq in Hty. by rewrite Hty.
    + rewrite Hst. cbn. by rewrite andb_false_r.
    + destruct (Hb _ w Hw) as [Hemp|[Hin Hfs]];
        [by rewrite lookup_empty in Hemp|]. by destruct (Hno w Hin).
  - exists r1. split; [done|]. split; [congruence|]. by left.
Qed.

Lemma unmatched_flow_keeps_linked_activity_witness :
  ∃ s, setParents false 2 false 1 flow_store [0; 1; 2]%nat = Ok s ∧
       parent_of s 1 = Some 0%nat.
Proof.
  eexists. split; [vm_compute; reflexivity|].
  refine (unmatched_flow_keeps_linked_activity false 2 false 1 flow_store _
            [0; 1; 2]%nat 1%nat
            (mkResult 10 noTID
               (Kineto (mkKineto 5 (mkFlow 7 2 true) (Some 0%nat)))
               false None [])
            (mkKineto 5 (mkFlow 7 2 true) (Some 0%nat)) _ _ _ _ _);
    try reflexivity.
  - right. by left.
  - right. by left.
Defined.

(** * Further properties of the buffer identities *)

(** The payload of an event without the identities. *)
Definition erase_id (m : option TensorMetadata) : option TensorMetadata :=
  match m with
  | Some md => Some (mkTensorMetadata (impl_ md) (data_ md) None)
  | None => None
  end.

Definition erase_ids (x : ExtraFields) : ExtraFields :=
  match x with
  | TorchOp e =>
    TorchOp (mkTorchOp (end_time_ns_ e) (forward_tid_ e)
                       (map erase_id (tensor_metadata_ e)))
  | Allocation a => Allocation (mkAllocation (ptr_ a) (alloc_size_ a) None)
  | x => x
  end.

(** [s'] is [s] up to the [id_] fields. *)
Definition ids_only (s s' : store) : Prop :=
  length s' = length s ∧
  ∀ y ry, s !! y = Some ry →
    ∃ ry', s' !! y = Some ry' ∧
      start_time_ns_ ry' = start_time_ns_ ry ∧
      start_tid_ ry' = start_tid_ ry ∧
      finished_ ry' = finished_ ry ∧
      parent_ ry' = parent_ ry ∧
      children_ ry' = children_ ry ∧
      erase_ids (extra_fields_ ry') = erase_ids (extra_fields_ ry).

Lemma ids_only_refl s : ids_only s s.
Proof. split; [done|]. intros y ry Hy. by exists ry. Qed.

Lemma ids_only_trans s1 s2 s3 :
  ids_only s1 s2 → ids_only s2 s3 → ids_only s1 s3.
Proof.
  intros [Hl12 H12] [Hl23 H23]. split; [congruence|]. intros y ry Hy.
  destruct (H12 y ry Hy) as (r2 & Hy2 & ? & ? & ? & ? & ? & ?).
  destruct (H23 y r2 Hy2) as (r3 & Hy3 & ? & ? & ? & ? & ? & ?).
  exists r3. repeat split; congruence.
Qed.

Lemma erase_id_alter v k : ∀ ms,
  map erase_id (alter (set_input_id v) k ms) = map erase_id ms.
Proof.
  induction k as [|k IH]; intros [|m ms]; cbn; try done.
  - by destruct m.
  - f_equal. apply IH.
Qed.

Lemma write_id_ids_only (s s' : store) ref v :
  write_id s ref v = Ok s' → ids_only s s'.
Proof.
  intros H.
  assert (Hins : ∀ e r x, s !! e = Some r →
            erase_ids x = erase_ids (extra_fields_ r) →
            ids_only s (<[e := set_extra x r]> s)).
  { intros e r x Hr Hx. split; [by rewrite length_insert|]. intros y ry Hy.
    rewrite (lookup_insert_store _ _ _ _ _ Hr).
    destruct (decide (e = y)) as [<-|]; [|by exists ry].
    assert (ry = r) as -> by congruence. by exists (set_extra x r). }
  destruct ref as [e k|e]; cbn in H; ok_bind H as r E;
    destruct (extra_fields_ r) eqn:Hx; ok_inv H; apply Hins; try done;
    rewrite Hx; cbn; [by rewrite erase_id_alter|done].
Qed.

Lemma write_back_ids_only id_map ts : ∀ (s s' : store),
  write_back id_map s ts = Ok s' → ids_only s s'.
Proof.
  induction ts as [|t rest IH]; intros s s' H; cbn in H.
  - ok_inv H. apply ids_only_refl.
  - ok_bind H as v E. ok_bind H as s1 E1.
    eapply ids_only_trans; [by eapply write_id_ids_only|by apply IH].
Qed.

(** X11.  [calculate_unique_tensor_ids] writes [id_] fields and nothing
    else: every event keeps start time, thread id, finished flag, parent and
    children, and its payload is the same once the identities are left
    out. *)
Theorem calculate_unique_tensor_ids_only_ids (s s' : store) sorted_results :
  calculate_unique_tensor_ids s sorted_results = Ok s' →
  length s' = length s ∧
  ∀ y ry, s !! y = Some ry →
    ∃ ry', s' !! y = Some ry' ∧
      start_time_ns_ ry' = start_time_ns_ ry ∧
      start_tid_ ry' = start_tid_ ry ∧
      finished_ ry' = finished_ ry ∧
      parent_ ry' = parent_ ry ∧
      children_ ry' = children_ ry ∧
      erase_ids (extra_fields_ ry') = erase_ids (extra_fields_ ry).
Proof.
  unfold calculate_unique_tensor_ids. intros H. ok_bind H as c E.
  by apply write_back_ids_only in H.
Qed.

Lemma calculate_unique_tensor_ids_only_ids_witness :
  ∃ s', calculate_unique_tensor_ids two_buffers_store [0; 1; 2]%nat = Ok s' ∧
        length s' = 3%nat.
Proof.
  destruct (calculate_unique_tensor_ids two_buffers_store [0; 1; 2]%nat)
    as [s'|] eqn:H; [|by vm_compute in H].
  exists s'. split; [done|].
  exact (proj1 (calculate_unique_tensor_ids_only_ids two_buffers_store s'
                  [0; 1; 2]%nat H)).
Defined.

(** *** The lookups of the write-back never fail *)

(** What [id_ref_] points to: a tensor input with both addresses, or the
    [id_] of an Allocation. *)
Definition ref_ok (s : store) (t : TensorStoragePair) : Prop :=
  match id_ref_ t with
  | InputRef event k =>
    ∃ r e md, s !! event = Some r ∧ extra_fields_ r = TorchOp e ∧
              tensor_metadata_ e !! k = Some (Some md) ∧
              impl_ md ≠ 0 ∧ data_ md ≠ 0 ∧ pair_impl_ t = impl_ md
  | AllocRef event =>
    ∃ r a, s !! event = Some r ∧ extra_fields_ r = Allocation a
  end.

Lemma storage_lookup_tensors (c : clustering) data :
  tensors (storage_lookup c data).1 = tensors c.
Proof. apply storage_lookup_same. Qed.

Lemma visit_inputs_refs (s : store) event r e ms : ∀ k c,
  s !! event = Some r → extra_fields_ r = TorchOp e →
  (∀ j m, ms !! j = Some m → tensor_metadata_ e !! (k + j)%nat = Some m) →
  Forall (ref_ok s) (tensors c) →
  Forall (ref_ok s) (tensors (visit_inputs event k ms c)).
Proof.
  induction ms as [|m ms IH]; intros k c Hr Hx Hms Hc; [done|].
  cbn [visit_inputs]. apply IH; [done|done| |].
  - intros j m' Hj. replace (S k + j)%nat with (k + S j)%nat by lia.
    by apply Hms.
  - destruct m as [md|]; [|done].
    destruct (negb (impl_ md =? 0) && negb (data_ md =? 0)) eqn:Hnz; [|done].
    pose proof (storage_lookup_tensors c (data_ md)) as Ht.
    destruct (storage_lookup c (data_ md)) as [c1 id]. cbn in Ht. cbn.
    rewrite Ht. apply Forall_app. split; [done|]. apply Forall_singleton.
    apply andb_true_iff in Hnz as [Hi%negb_true_iff%Z.eqb_neq
                                     Hd%negb_true_iff%Z.eqb_neq].
    exists r, e, md. repeat split; try done.
    rewrite <- (Hms 0%nat (Some md) eq_refl). f_equal. lia.
Qed.

Lemma flatten_refs (s : store) sorted_results : ∀ c c',
  Forall (ref_ok s) (tensors c) → flatten s c sorted_results = Ok c' →
  Forall (ref_ok s) (tensors c').
Proof.
  induction sorted_results as [|event rest IH]; intros c c' Hc H; cbn in H.
  - by ok_inv H.
  - ok_bind H as c1 E. apply (IH c1 c'); [|done].
    unfold visit_result in E. ok_bind E as r Er.
    destruct (extra_fields_ r) as [e| |a| | | |] eqn:Hx; ok_inv E; try done.
    + by eapply visit_inputs_refs.
    + unfold visit_allocation.
      pose proof (storage_lookup_tensors c (ptr_ a)) as Ht.
      destruct (storage_lookup c (ptr_ a)) as [c1 id]. cbn in Ht. cbn.
      rewrite Ht. apply Forall_app. split; [done|]. apply Forall_singleton.
      by exists r, a.
Qed.

Lemma flatten_total (s : store) sorted_results : ∀ c,
  (∀ e, e ∈ sorted_results → is_Some (s !! e)) →
  ∃ c', flatten s c sorted_results = Ok c'.
Proof.
  induction sorted_results as [|event rest IH]; intros c Hv; cbn.
  - by eexists.
  - destruct (Hv event) as [r Hr]; [by left|].
    unfold visit_result, deref. rewrite Hr. cbn.
    destruct (extra_fields_ r); cbn; apply IH; intros e' He; apply Hv;
      by right.
Qed.

Lemma group_step_mono acc t edge :
  edge ∈ acc.2 → edge ∈ (group_step acc t).2.
Proof.
  unfold group_step. destruct (pair_impl_ t =? 0); [done|]. cbn.
  set_solver.
Qed.

Lemma group_fold_mono ts : ∀ acc edge,
  edge ∈ acc.2 → edge ∈ (foldl group_step acc ts).2.
Proof.
  induction ts as [|t ts IH]; intros acc edge H; [done|].
  cbn. apply IH. by apply group_step_mono.
Qed.

(** Every pair with a TensorImpl has an edge on its storage id. *)
Lemma group_fold_covers ts : ∀ acc t,
  t ∈ ts → pair_impl_ t ≠ 0 →
  ∃ edge, edge ∈ (foldl group_step acc ts).2 ∧
          (edge.1 = storage_id_ t ∨ edge.2 = storage_id_ t).
Proof.
  induction ts as [|x ts IH]; intros acc t Ht Hi;
    [by apply elem_of_nil in Ht|].
  apply elem_of_cons in Ht as [->|Ht]; [|by apply IH].
  cbn [foldl].
  set (first := default (storage_id_ x) (acc.1 !! pair_impl_ x)).
  exists (if first <? storage_id_ x then (first, storage_id_ x)
          else (storage_id_ x, first)).
  split.
  - apply group_fold_mono. unfold group_step.
    apply Z.eqb_neq in Hi. rewrite Hi. cbn. fold first. set_solver.
  - destruct (first <? storage_id_ x); cbn; auto.
Qed.

Lemma insert_pair_elem x l y : y ∈ insert_pair x l ↔ y = x ∨ y ∈ l.
Proof.
  induction l as [|z l IH]; cbn.
  - rewrite list_elem_of_singleton, elem_of_nil. tauto.
  - destruct (pair_leb x z); rewrite !elem_of_cons; [done|].
    rewrite IH. tauto.
Qed.

Lemma sort_pairs_elem l y : y ∈ sort_pairs l ↔ y ∈ l.
Proof.
  induction l as [|x l IH]; cbn; [done|].
  rewrite insert_pair_elem, elem_of_cons, IH. done.
Qed.

Lemma coalesce_step_dom acc i :
  (∀ k, is_Some (acc.2 !! k) → is_Some ((coalesce_step acc i).2 !! k)) ∧
  is_Some ((coalesce_step acc i).2 !! i.1) ∧
  is_Some ((coalesce_step acc i).2 !! i.2).
Proof.
  unfold coalesce_step. destruct (acc.2 !! i.1) as [v|] eqn:H1; cbn [snd].
  - destruct (acc.2 !! i.2) as [w|] eqn:H2.
    + rewrite H1, H2. by repeat split.
    + split; [|split].
      * intros k Hk. apply lookup_insert_is_Some'. by right.
      * apply lookup_insert_is_Some'. right. by rewrite H1.
      * apply lookup_insert_is_Some'. by left.
  - destruct (<[i.1 := acc.1]> acc.2 !! i.2) as [w|] eqn:H2.
    + split; [|split].
      * intros k Hk. apply lookup_insert_is_Some'. by right.
      * apply lookup_insert_is_Some'. by left.
      * by rewrite H2.
    + split; [|split].
      * intros k Hk. apply lookup_insert_is_Some'. right.
        apply lookup_insert_is_Some'. by right.
      * apply lookup_insert_is_Some'. right.
        apply lookup_insert_is_Some'. by left.
      * apply lookup_insert_is_Some'. by left.
Qed.

Lemma coalesce_fold_dom l : ∀ acc,
  (∀ k, is_Some (acc.2 !! k) →
        is_Some ((foldl coalesce_step acc l).2 !! k)) ∧
  ∀ i, i ∈ l → is_Some ((foldl coalesce_step acc l).2 !! i.1) ∧
               is_Some ((foldl coalesce_step acc l).2 !! i.2).
Proof.
  induction l as [|x l IH]; intros acc; cbn [foldl].
  - split; [done|]. intros i Hi. by apply elem_of_nil in Hi.
  - destruct (coalesce_step_dom acc x) as (Hm & H1 & H2).
    destruct (IH (coalesce_step acc x)) as [Hm' Hin].
    split; [auto|]. intros i [->|Hi]%elem_of_cons; auto.
Qed.

Lemma coalesce_dom (G : gset (Z * Z)) edge :
  edge ∈ G →
  is_Some (coalesce G !! edge.1) ∧ is_Some (coalesce G !! edge.2).
Proof.
  intros H. unfold coalesce. apply coalesce_fold_dom.
  apply sort_pairs_elem. by apply elem_of_elements.
Qed.

Lemma ref_ok_ids_only (s s' : store) t :
  ids_only s s' → ref_ok s t → ref_ok s' t.
Proof.
  intros [_ H]. unfold ref_ok. destruct (id_ref_ t) as [event k|event].
  - intros (r & e & md & Hr & Hx & Hk & Hi & Hd & Hp).
    destruct (H event r Hr) as (r' & Hr' & _ & _ & _ & _ & _ & Hxe).
    rewrite Hx in Hxe. destruct (extra_fields_ r') as [e'| | | | | |] eqn:Hx';
      try discriminate.
    injection Hxe as _ _ Hms.
    assert (map erase_id (tensor_metadata_ e') !! k
            = map erase_id (tensor_metadata_ e) !! k) as Hk'
      by (by rewrite Hms).
    rewrite !list_lookup_fmap, Hk in Hk'. cbn in Hk'.
    destruct (tensor_metadata_ e' !! k) as [[md'|]|] eqn:Hmd'; try discriminate.
    injection Hk' as Hi' Hd'.
    exists r', e', md'. repeat split; try done; congruence.
  - intros (r & a & Hr & Hx).
    destruct (H event r Hr) as (r' & Hr' & _ & _ & _ & _ & _ & Hxe).
    rewrite Hx in Hxe. destruct (extra_fields_ r') as [| |a'| | | |] eqn:Hx';
      try discriminate. by exists r', a'.
Qed.

Lemma write_id_total (s : store) t v :
  ref_ok s t → ∃ s', write_id s (id_ref_ t) v = Ok s'.
Proof.
  unfold ref_ok, write_id, deref. destruct (id_ref_ t) as [event k|event].
  - intros (r & e & md & -> & Hx & _). cbn. rewrite Hx. by eexists.
  - intros (r & a & -> & Hx). cbn. rewrite Hx. by eexists.
Qed.

Lemma write_back_total id_map ts : ∀ (s : store),
  Forall (ref_ok s) ts →
  (∀ t, t ∈ ts → is_Some (id_map !! storage_id_ t)) →
  ∃ s', write_back id_map s ts = Ok s'.
Proof.
  induction ts as [|t rest IH]; intros s Hrefs Hdom; cbn.
  - by eexists.
  - destruct (Hdom t) as [v Hv]; [by left|]. rewrite Hv. cbn.
    apply Forall_cons in Hrefs as [Ht Hrest].
    destruct (write_id_total s t v Ht) as [s1 Hs1]. rewrite Hs1. cbn.
    apply IH.
    + eapply Forall_impl; [exact Hrest|]. intros t'.
      apply ref_ok_ids_only. by eapply write_id_ids_only.
    + intros t' Ht'. apply Hdom. by right.
Qed.

Lemma tensor_set_ok_init : tensor_set_ok (mkClustering 0 ∅ ∅ []).
Proof. intros sid Hsid. cbn in Hsid. by apply not_elem_of_empty in Hsid. Qed.

(** Every pair that survives the [remove_if] has a final id. *)
Lemma prune_has_id (s : store) c sorted_results t :
  cluster_by_address s sorted_results = Ok c →
  t ∈ prune c →
  is_Some (coalesce (same_group_set (prune c)) !! storage_id_ t).
Proof.
  intros Hc [Hset Hin]%list_elem_of_filter.
  pose proof (flatten_ok _ _ _ _ tensor_set_ok_init Hc) as Hok.
  pose proof (flatten_refs s _ (mkClustering 0 ∅ ∅ []) _ (Forall_nil_2 _) Hc)
    as Hrefs.
  destruct (Hok _ Hset) as (t' & Hin' & (e & k & Hinput) & Hsid).
  assert (Hi : pair_impl_ t' ≠ 0).
  { rewrite Forall_forall in Hrefs. specialize (Hrefs t' Hin').
    unfold ref_ok in Hrefs. rewrite Hinput in Hrefs.
    destruct Hrefs as (r & f & md & _ & _ & _ & Hnz & _ & ->). done. }
  assert (Hp : t' ∈ prune c).
  { apply list_elem_of_filter. split; [by rewrite Hsid|done]. }
  destruct (group_fold_covers (prune c) (∅, ∅) t' Hp Hi)
    as (edge & Hedge & Hside).
  destruct (coalesce_dom _ edge Hedge) as [H1 H2].
  rewrite <- Hsid. by destruct Hside as [<-|<-].
Qed.

(** The lookups [id_map.at] of the write-back find their keys. *)
Lemma tensor_ids_complete (s : store) sorted_results :
  (∀ e, e ∈ sorted_results → is_Some (s !! e)) →
  ∃ s', calculate_unique_tensor_ids s sorted_results = Ok s'.
Proof.
  intros Hv. unfold calculate_unique_tensor_ids.
  destruct (flatten_total s sorted_results (mkClustering 0 ∅ ∅ []) Hv)
    as [c Hc].
  unfold cluster_by_address at 1. rewrite Hc. cbn [mbind outcome_bind].
  apply write_back_total.
  - pose proof (flatten_refs s _ (mkClustering 0 ∅ ∅ []) _ (Forall_nil_2 _) Hc)
      as Hrefs.
    unfold prune. rewrite Forall_forall in *.
    intros t [_ Hin]%list_elem_of_filter. by apply Hrefs.
  - intros t Ht. by eapply prune_has_id.
Qed.

(** X12.  [calculate_unique_tensor_ids] always runs to completion on a
    vector of valid events: every lookup [id_map.at] of the write-back finds
    its key. *)
Theorem calculate_unique_tensor_ids_total (s : store) sorted_results :
  (∀ e, e ∈ sorted_results → is_Some (s !! e)) →
  ∃ s', calculate_unique_tensor_ids s sorted_results = Ok s'.
Proof. apply tensor_ids_complete. Qed.

Lemma calculate_unique_tensor_ids_total_witness :
  ∃ s', calculate_unique_tensor_ids reuse_alone_store [0; 1; 2]%nat = Ok s'.
Proof.
  apply calculate_unique_tensor_ids_total.
  intros e He. apply lookup_lt_is_Some.
  apply list_elem_of_In in He. cbn in *. lia.
Defined.

(** *** Where the identities are written *)

(** Input [k] of the TorchOp [event]. *)
Definition input_of (s : store) (event : ptr) (k : nat)
  : option (option TensorMetadata) :=
  match s !! event with
  | Some r =>
    match extra_fields_ r with
    | TorchOp e => tensor_metadata_ e !! k
    | _ => None
    end
  | None => None
  end.

(** The identity that [ref] points to. *)
Definition id_at (s : store) (ref : id_ref) : option Z :=
  match ref with
  | InputRef event k =>
    match input_of s event k with
    | Some (Some md) => id_ md
    | _ => None
    end
  | AllocRef event => allocation_id s event
  end.

Lemma write_id_at_other (s s' : store) ref v ref' :
  write_id s ref v = Ok s' → ref' ≠ ref → id_at s' ref' = id_at s ref'.
Proof.
  intros H Hne. destruct ref as [e k|e]; cbn in H; ok_bind H as r E;
    destruct (extra_fields_ r) as [f| |a| | | |] eqn:Hx; ok_inv H;
    destruct ref' as [e' k'|e']; unfold id_at, input_of, allocation_id;
    rewrite (lookup_insert_store _ _ _ _ _ E);
    (destruct (decide (e = e')) as [<-|]; [|done]); rewrite E; cbn;
    rewrite Hx; try done.
  rewrite list_lookup_alter_ne; [done|]. congruence.
Qed.

Lemma write_id_at_same (s s' : store) t v :
  ref_ok s t → write_id s (id_ref_ t) v = Ok s' →
  id_at s' (id_ref_ t) = Some v.
Proof.
  unfold ref_ok. intros Hok H. destruct (id_ref_ t) as [e k|e]; cbn in H.
  - destruct Hok as (r & f & md & Hr & Hx & Hk & _).
    ok_bind H as r' E. assert (r' = r) as -> by congruence.
    rewrite Hx in H. ok_inv H. unfold id_at, input_of.
    rewrite list_lookup_insert_eq by (by eapply lookup_lt_Some). cbn.
    by rewrite list_lookup_alter_eq, Hk.
  - destruct Hok as (r & a & Hr & Hx).
    ok_bind H as r' E. assert (r' = r) as -> by congruence.
    rewrite Hx in H. ok_inv H. unfold id_at, allocation_id.
    by rewrite list_lookup_insert_eq by (by eapply lookup_lt_Some).
Qed.

Lemma write_back_at_other id_map ts ref : ∀ (s s' : store),
  write_back id_map s ts = Ok s' →
  (∀ t, t ∈ ts → id_ref_ t ≠ ref) →
  id_at s' ref = id_at s ref.
Proof.
  induction ts as [|t rest IH]; intros s s' H Hts; cbn in H.
  - by ok_inv H.
  - ok_bind H as v E. ok_bind H as s1 E1.
    rewrite (IH s1 s' H) by (intros t' Ht'; apply Hts; by right).
    eapply write_id_at_other; [exact E1|]. apply not_eq_sym, Hts. by left.
Qed.

(** With one pair per reference, the write-back leaves at every reference
    the final id of the storage id of its pair. *)
Lemma write_back_value id_map ts : ∀ (s s' : store),
  NoDup (id_ref_ <$> ts) → Forall (ref_ok s) ts →
  write_back id_map s ts = Ok s' →
  ∀ t, t ∈ ts →
    id_at s' (id_ref_ t) = id_map !! storage_id_ t ∧
    is_Some (id_map !! storage_id_ t).
Proof.
  induction ts as [|t0 rest IH]; intros s s' Hnd Hrefs H t Ht; cbn in H.
  - by apply elem_of_nil in Ht.
  - rewrite fmap_cons in Hnd. apply NoDup_cons in Hnd as [Hnin Hnd].
    apply Forall_cons in Hrefs as [Hok0 Hrefs].
    destruct (id_map !! storage_id_ t0) as [v|] eqn:Hv; [|discriminate].
    cbn in H. ok_bind H as s1 E1.
    assert (Hrefs1 : Forall (ref_ok s1) rest).
    { eapply Forall_impl; [exact Hrefs|]. intros t'.
      apply ref_ok_ids_only. by eapply write_id_ids_only. }
    apply elem_of_cons in Ht as [->|Ht].
    + rewrite Hv. split; [|by eexists].
      rewrite (write_back_at_other _ _ _ _ _ H).
      * by eapply write_id_at_same.
      * intros t' Ht' Heq. apply Hnin. rewrite <- Heq.
        by apply list_elem_of_fmap_2.
    + by apply (IH s1 s' Hnd Hrefs1 H).
Qed.

(** *** The pairs that step 1 collects *)

Definition has_addresses (m : option TensorMetadata) : bool :=
  match m with
  | Some md => negb (impl_ md =? 0) && negb (data_ md =? 0)
  | None => false
  end.

(** The references that the TorchOp visitor appends, in order. *)
Fixpoint input_refs (event : ptr) (k : nat) (ms : list (option TensorMetadata))
  : list id_ref :=
  match ms with
  | [] => []
  | m :: ms' =>
    (if has_addresses m then [InputRef event k] else [])
    ++ input_refs event (S k) ms'
  end.

(** The references that one event contributes. *)
Definition refs_of (s : store) (event : ptr) : list id_ref :=
  match s !! event with
  | Some r =>
    match extra_fields_ r with
    | TorchOp e => input_refs event 0 (tensor_metadata_ e)
    | Allocation _ => [AllocRef event]
    | _ => []
    end
  | None => []
  end.

Definition ref_event (ref : id_ref) : ptr :=
  match ref with InputRef event _ => event | AllocRef event => event end.

Lemma visit_inputs_refs_of event ms : ∀ k c,
  id_ref_ <$> tensors (visit_inputs event k ms c)
  = (id_ref_ <$> tensors c) ++ input_refs event k ms.
Proof.
  induction ms as [|m ms IH]; intros k c; cbn [visit_inputs input_refs].
  - by rewrite app_nil_r.
  - rewrite IH, app_assoc. f_equal. destruct m as [md|]; cbn [has_addresses].
    + destruct (negb (impl_ md =? 0) && negb (data_ md =? 0));
        [|by rewrite app_nil_r].
      pose proof (storage_lookup_tensors c (data_ md)) as Ht.
      destruct (storage_lookup c (data_ md)) as [c1 id]. cbn in Ht. cbn.
      by rewrite Ht, fmap_app.
    + by rewrite app_nil_r.
Qed.

Lemma flatten_refs_of (s : store) sorted_results : ∀ c c',
  flatten s c sorted_results = Ok c' →
  id_ref_ <$> tensors c'
  = (id_ref_ <$> tensors c) ++ concat (refs_of s <$> sorted_results).
Proof.
  induction sorted_results as [|event rest IH]; intros c c' H; cbn in H.
  - ok_inv H. cbn. by rewrite app_nil_r.
  - ok_bind H as c1 E. rewrite (IH _ _ H). rewrite fmap_cons. cbn [concat].
    rewrite app_assoc. f_equal.
    unfold visit_result in E. ok_bind E as r Er. unfold refs_of. rewrite Er.
    destruct (extra_fields_ r) as [e| |a| | | |] eqn:Hx; ok_inv E;
      try by rewrite app_nil_r.
    + apply visit_inputs_refs_of.
    + unfold visit_allocation.
      pose proof (storage_lookup_tensors c (ptr_ a)) as Ht.
      destruct (storage_lookup c (ptr_ a)) as [c1 id]. cbn in Ht. cbn.
      by rewrite Ht, fmap_app.
Qed.

Lemma input_refs_elem event ms : ∀ k ref,
  ref ∈ input_refs event k ms → ∃ j, ref = InputRef event j ∧ (k ≤ j)%nat.
Proof.
  induction ms as [|m ms IH]; intros k ref H; cbn in H.
  - by apply elem_of_nil in H.
  - apply elem_of_app in H as [H|H].
    + destruct (has_addresses m); [|by apply elem_of_nil in H].
      apply list_elem_of_singleton in H as ->. by exists k.
    + destruct (IH _ _ H) as (j & -> & Hj). exists j. split; [done|lia].
Qed.

Lemma input_refs_NoDup event ms : ∀ k, NoDup (input_refs event k ms).
Proof.
  induction ms as [|m ms IH]; intros k; cbn; [constructor|].
  apply NoDup_app. split; [|split; [|apply IH]].
  - destruct (has_addresses m); [apply NoDup_singleton|constructor].
  - intros ref Hin Hin'. destruct (has_addresses m);
      [|by apply elem_of_nil in Hin].
    apply list_elem_of_singleton in Hin as ->.
    apply input_refs_elem in Hin' as (j & [= <-] & Hj). lia.
Qed.

Lemma refs_of_event (s : store) event ref :
  ref ∈ refs_of s event → ref_event ref = event.
Proof.
  unfold refs_of. destruct (s !! event) as [r|]; [|by intros ?%elem_of_nil].
  destruct (extra_fields_ r); try by intros ?%elem_of_nil.
  - by intros (j & -> & _)%input_refs_elem.
  - by intros ->%list_elem_of_singleton.
Qed.

Lemma refs_of_NoDup (s : store) event : NoDup (refs_of s event).
Proof.
  unfold refs_of. destruct (s !! event) as [r|]; [|constructor].
  destruct (extra_fields_ r); try constructor.
  - apply input_refs_NoDup.
  - by intros ?%elem_of_nil.
  - constructor.
Qed.

Lemma elem_of_concat {A} (x : A) (ls : list (list A)) :
  x ∈ concat ls ↔ ∃ l, x ∈ l ∧ l ∈ ls.
Proof.
  induction ls as [|l0 ls IH]; cbn.
  - split; [by intros ?%elem_of_nil|]. by intros (l & _ & ?%elem_of_nil).
  - rewrite elem_of_app, IH. split.
    + intros [H|(l & H1 & H2)]; [exists l0; split; [done|by left]|].
      exists l. split; [done|by right].
    + intros (l & H1 & [->|H2]%elem_of_cons); [by left|]. right. eauto.
Qed.

Lemma all_refs_NoDup (s : store) sorted_results :
  NoDup sorted_results → NoDup (concat (refs_of s <$> sorted_results)).
Proof.
  induction sorted_results as [|event rest IH]; intros Hnd; cbn;
    [constructor|].
  apply NoDup_cons in Hnd as [Hnin Hnd]. apply NoDup_app.
  split; [apply refs_of_NoDup|]. split; [|by apply IH].
  intros ref Hin Hin'. apply refs_of_event in Hin.
  apply elem_of_concat in Hin' as (l & Hl & Hin').
  apply list_elem_of_fmap in Hin' as (e' & -> & He').
  apply refs_of_event in Hl. congruence.
Qed.

Lemma NoDup_fmap_filter {A B} (f : A → B) (P : A → Prop)
  `{!∀ x, Decision (P x)} (l : list A) :
  NoDup (f <$> l) → NoDup (f <$> filter P l).
Proof.
  induction l as [|x l IH]; [done|]. rewrite fmap_cons.
  intros [Hnin Hnd]%NoDup_cons. rewrite filter_cons.
  destruct (decide (P x)); [|by apply IH].
  rewrite fmap_cons. apply NoDup_cons. split; [|by apply IH].
  intros (y & Hy & [_ Hin]%list_elem_of_filter)%list_elem_of_fmap.
  apply Hnin. rewrite Hy. by apply list_elem_of_fmap_2.
Qed.

(** The pairs kept for the write-back, one per reference. *)
Lemma prune_NoDup (s : store) sorted_results c :
  NoDup sorted_results → cluster_by_address s sorted_results = Ok c →
  NoDup (id_ref_ <$> prune c).
Proof.
  intros Hnd Hc. unfold prune. apply NoDup_fmap_filter.
  rewrite (flatten_refs_of _ _ _ _ Hc). cbn. by apply all_refs_NoDup.
Qed.

(** The identity that [calculate_unique_tensor_ids] leaves at the reference
    of a pair that survives the [remove_if]. *)
Lemma final_id_of_pair (s s' : store) sorted_results c t :
  NoDup sorted_results →
  cluster_by_address s sorted_results = Ok c →
  calculate_unique_tensor_ids s sorted_results = Ok s' →
  t ∈ tensors c → storage_id_ t ∈ tensor_set c →
  id_at s' (id_ref_ t)
  = coalesce (same_group_set (prune c)) !! storage_id_ t ∧
  is_Some (id_at s' (id_ref_ t)).
Proof.
  intros Hnd Hc H Hin Hset. unfold calculate_unique_tensor_ids in H.
  rewrite Hc in H. cbn [mbind outcome_bind] in H.
  assert (Hrefs : Forall (ref_ok s) (prune c)).
  { pose proof (flatten_refs s _ (mkClustering 0 ∅ ∅ []) _ (Forall_nil_2 _) Hc)
      as Hrefs.
    unfold prune. rewrite Forall_forall in *.
    intros t' [_ Hin']%list_elem_of_filter. by apply Hrefs. }
  destruct (write_back_value _ _ _ _ (prune_NoDup _ _ _ Hnd Hc) Hrefs H t)
    as [Hv Hs]; [by apply list_elem_of_filter|].
  split; [done|]. by rewrite Hv.
Qed.

(** X13.  Identities are written through the collected references only: a
    tensor input without TensorImpl address or without storage address keeps
    the [id_] it had. *)
Theorem input_without_storage_keeps_id (s s' : store) sorted_results
  event k md :
  calculate_unique_tensor_ids s sorted_results = Ok s' →
  input_of s event k = Some (Some md) →
  impl_ md = 0 ∨ data_ md = 0 →
  id_at s' (InputRef event k) = id_ md.
Proof.
  intros H Hin Hnull. unfold calculate_unique_tensor_ids in H.
  ok_bind H as c Hc.
  rewrite (write_back_at_other _ _ (InputRef event k) _ _ H).
  - unfold id_at. by rewrite Hin.
  - intros t [_ Ht]%list_elem_of_filter Href.
    pose proof (flatten_refs s _ (mkClustering 0 ∅ ∅ []) _ (Forall_nil_2 _) Hc)
      as Hrefs.
    rewrite Forall_forall in Hrefs. specialize (Hrefs t Ht).
    unfold ref_ok in Hrefs. rewrite Href in Hrefs.
    destruct Hrefs as (r & e & md' & Hr & Hx & Hk & Hi & Hd & _).
    unfold input_of in Hin. rewrite Hr, Hx, Hk in Hin.
    injection Hin as ->. by destruct Hnull.
Qed.

Lemma input_without_storage_keeps_id_witness :
  ∃ s', calculate_unique_tensor_ids
          [mkResult 0 1 (TorchOp (mkTorchOp 5 0
             [Some (mkTensorMetadata 77 0 None);
              Some (mkTensorMetadata 78 4096 None)])) false None []]
          [0%nat] = Ok s' ∧
        id_at s' (InputRef 0 0) = None ∧ id_at s' (InputRef 0 1) = Some 0.
Proof.
  eexists. split; [vm_compute; reflexivity|]. split; [|reflexivity].
  apply (input_without_storage_keeps_id
           [mkResult 0 1 (TorchOp (mkTorchOp 5 0
              [Some (mkTensorMetadata 77 0 None);
               Some (mkTensorMetadata 78 4096 None)])) false None []]
           _ [0%nat] 0%nat 0%nat (mkTensorMetadata 77 0 None)).
  - vm_compute. reflexivity.
  - reflexivity.
  - by right.
Defined.

(** *** Live addresses *)

(** [ref] is the [id_] of a tensor input with both addresses whose storage
    is at [X], or the [id_] of an Allocation event at [X]. *)
Definition accesses (s : store) (ref : id_ref) (X : Z) : Prop :=
  match ref with
  | InputRef event k =>
    ∃ md, input_of s event k = Some (Some md) ∧
          impl_ md ≠ 0 ∧ data_ md ≠ 0 ∧ data_ md = X
  | AllocRef event =>
    ∃ r a, s !! event = Some r ∧ extra_fields_ r = Allocation a ∧ ptr_ a = X
  end.

(** [event] records that the memory at [X] is freed. *)
Definition frees (s : store) (event : ptr) (X : Z) : Prop :=
  ∃ r a, s !! event = Some r ∧ extra_fields_ r = Allocation a ∧
         ptr_ a = X ∧ alloc_size_ a < 0.

Definition has_pair (c : clustering) (ref : id_ref) (sid : Z) : Prop :=
  ∃ t, t ∈ tensors c ∧ id_ref_ t = ref ∧ storage_id_ t = sid.

Definition is_input (ref : id_ref) : Prop :=
  match ref with InputRef _ _ => True | AllocRef _ => False end.

(** Step 1 only adds pairs and storage ids. *)
Definition grows (c c' : clustering) : Prop :=
  (∀ t, t ∈ tensors c → t ∈ tensors c') ∧
  (∀ sid, sid ∈ tensor_set c → sid ∈ tensor_set c').

Lemma grows_refl c : grows c c.
Proof. by split. Qed.

Lemma grows_trans c1 c2 c3 : grows c1 c2 → grows c2 c3 → grows c1 c3.
Proof. intros [? ?] [? ?]. split; auto. Qed.

Lemma grows_has_pair c c' ref sid :
  grows c c' → has_pair c ref sid → has_pair c' ref sid.
Proof. intros [Ht _] (t & Hin & Hrest). exists t. auto. Qed.

Lemma storage_lookup_keep (c : clustering) Y X sid :
  live_storage c !! X = Some sid →
  live_storage (storage_lookup c Y).1 !! X = Some sid.
Proof.
  intros H. unfold storage_lookup.
  destruct (live_storage c !! Y) as [id|] eqn:HY; [done|]. cbn.
  rewrite lookup_insert_ne; [done|]. intros ->. congruence.
Qed.

Lemma storage_lookup_live (c : clustering) Y :
  live_storage (storage_lookup c Y).1 !! Y = Some (storage_lookup c Y).2.
Proof.
  unfold storage_lookup.
  destruct (live_storage c !! Y) as [id|] eqn:HY; [done|]. cbn.
  by rewrite lookup_insert_eq.
Qed.

Lemma storage_lookup_hit (c : clustering) Y sid :
  live_storage c !! Y = Some sid → storage_lookup c Y = (c, sid).
Proof. intros H. unfold storage_lookup. by rewrite H. Qed.

(** One iteration of the loop over the inputs of a TorchOp. *)
Definition visit_input (event : ptr) (k : nat) (m : option TensorMetadata)
  (c : clustering) : clustering :=
  match m with
  | Some md =>
    if negb (impl_ md =? 0) && negb (data_ md =? 0) then
      let '(c1, id) := storage_lookup c (data_ md) in
      mkClustering (current_id c1) (live_storage c1)
                   ({[id]} ∪ tensor_set c1)
                   (tensors c1 ++ [mkPair (impl_ md) id (InputRef event k)])
    else c
  | None => c
  end.

Lemma visit_inputs_cons event k m ms c :
  visit_inputs event k (m :: ms) c
  = visit_inputs event (S k) ms (visit_input event k m c).
Proof. reflexivity. Qed.

Lemma visit_input_grows event k m c : grows c (visit_input event k m c).
Proof.
  unfold visit_input. destruct m as [md|]; [|apply grows_refl].
  destruct (negb (impl_ md =? 0) && negb (data_ md =? 0));
    [|apply grows_refl].
  destruct (storage_lookup_same c (data_ md)) as [Hts Ht].
  destruct (storage_lookup c (data_ md)) as [c1 id]. cbn in *.
  split; cbn; intros x Hx.
  - rewrite Ht. apply elem_of_app. by left.
  - rewrite Hts. apply elem_of_union. by right.
Qed.

Lemma visit_input_keep event k m c X sid :
  live_storage c !! X = Some sid →
  live_storage (visit_input event k m c) !! X = Some sid.
Proof.
  intros H. unfold visit_input. destruct m as [md|]; [|done].
  destruct (negb (impl_ md =? 0) && negb (data_ md =? 0)); [|done].
  pose proof (storage_lookup_keep c (data_ md) X sid H) as Hk.
  by destruct (storage_lookup c (data_ md)) as [c1 id].
Qed.

Lemma visit_input_access event k md c :
  impl_ md ≠ 0 → data_ md ≠ 0 →
  ∃ sid, live_storage (visit_input event k (Some md) c) !! data_ md
         = Some sid ∧
         has_pair (visit_input event k (Some md) c) (InputRef event k) sid ∧
         sid ∈ tensor_set (visit_input event k (Some md) c).
Proof.
  intros Hi%Z.eqb_neq Hd%Z.eqb_neq. unfold visit_input. rewrite Hi, Hd. cbn.
  pose proof (storage_lookup_live c (data_ md)) as Hl.
  destruct (storage_lookup c (data_ md)) as [c1 id]. cbn in *.
  exists id. split; [done|]. split; [|set_solver].
  eexists. split; [apply elem_of_app; right; by left|done].
Qed.

Lemma visit_inputs_grows event ms : ∀ k c,
  grows c (visit_inputs event k ms c).
Proof.
  induction ms as [|m ms IH]; intros k c; [apply grows_refl|].
  rewrite visit_inputs_cons.
  eapply grows_trans; [apply visit_input_grows|apply IH].
Qed.

Lemma visit_inputs_keep event ms X sid : ∀ k c,
  live_storage c !! X = Some sid →
  live_storage (visit_inputs event k ms c) !! X = Some sid.
Proof.
  induction ms as [|m ms IH]; intros k c H; [done|].
  rewrite visit_inputs_cons. apply IH. by apply visit_input_keep.
Qed.

Lemma visit_inputs_access event ms : ∀ k c j md,
  ms !! j = Some (Some md) → impl_ md ≠ 0 → data_ md ≠ 0 →
  ∃ sid, live_storage (visit_inputs event k ms c) !! data_ md = Some sid ∧
         has_pair (visit_inputs event k ms c) (InputRef event (k + j)) sid ∧
         sid ∈ tensor_set (visit_inputs event k ms c).
Proof.
  induction ms as [|m ms IH]; intros k c j md Hj Hi Hd; [done|].
  rewrite visit_inputs_cons. destruct j as [|j]; cbn in Hj.
  - injection Hj as ->. rewrite Nat.add_0_r.
    destruct (visit_input_access event k md c Hi Hd) as (sid & Hl & Hp & Hs).
    exists sid. split; [by apply visit_inputs_keep|].
    pose proof (visit_inputs_grows event ms (S k)
                  (visit_input event k (Some md) c)) as Hg.
    split; [by eapply grows_has_pair|by apply Hg].
  - replace (k + S j)%nat with (S k + j)%nat by lia. by apply IH.
Qed.

Lemma visit_allocation_grows event a c : grows c (visit_allocation event a c).
Proof.
  unfold visit_allocation.
  destruct (storage_lookup_same c (ptr_ a)) as [Hts Ht].
  destruct (storage_lookup c (ptr_ a)) as [c1 id]. cbn in *.
  split; cbn; intros x Hx.
  - rewrite Ht. apply elem_of_app. by left.
  - by rewrite Hts.
Qed.

Lemma visit_allocation_keep event a c X sid :
  live_storage c !! X = Some sid →
  ¬ (ptr_ a = X ∧ alloc_size_ a < 0) →
  live_storage (visit_allocation event a c) !! X = Some sid.
Proof.
  intros H Hfree. unfold visit_allocation.
  pose proof (storage_lookup_keep c (ptr_ a) X sid H) as Hk.
  destruct (storage_lookup c (ptr_ a)) as [c1 id]. cbn in *.
  destruct (Z.ltb_spec (alloc_size_ a) 0); [|done].
  rewrite lookup_delete_ne; [done|]. intros Heq. apply Hfree. by split.
Qed.

Lemma visit_allocation_pair event a c :
  ∃ sid, has_pair (visit_allocation event a c) (AllocRef event) sid ∧
         (∀ sid0, live_storage c !! ptr_ a = Some sid0 → sid = sid0) ∧
         (¬ alloc_size_ a < 0 →
          live_storage (visit_allocation event a c) !! ptr_ a = Some sid).
Proof.
  unfold visit_allocation.
  pose proof (storage_lookup_live c (ptr_ a)) as Hl.
  pose proof (storage_lookup_hit c (ptr_ a)) as Hh.
  destruct (storage_lookup c (ptr_ a)) as [c1 id]. cbn in *.
  exists id. split; [|split].
  - eexists. split; [apply elem_of_app; right; by left|done].
  - intros sid0 H0. specialize (Hh sid0 H0). congruence.
  - intros Hsz. by destruct (Z.ltb_spec (alloc_size_ a) 0).
Qed.

Lemma visit_result_grows (s : store) c c' event :
  visit_result s c event = Ok c' → grows c c'.
Proof.
  unfold visit_result. intros H. ok_bind H as r Er.
  destruct (extra_fields_ r); ok_inv H;
    auto using grows_refl, visit_inputs_grows, visit_allocation_grows.
Qed.

Lemma visit_result_keep (s : store) c c' event X sid :
  visit_result s c event = Ok c' → ¬ frees s event X →
  live_storage c !! X = Some sid → live_storage c' !! X = Some sid.
Proof.
  unfold visit_result. intros H Hfree Hl. ok_bind H as r Er.
  destruct (extra_fields_ r) as [e| |a| | | |] eqn:Hx; ok_inv H; try done.
  - by apply visit_inputs_keep.
  - apply visit_allocation_keep; [done|]. intros [HX Hsz].
    apply Hfree. by exists r, a.
Qed.

(** The event of [ref] is visited while [X] may or may not be live. *)
Lemma visit_result_first (s : store) c c' ref X :
  visit_result s c (ref_event ref) = Ok c' →
  accesses s ref X → ¬ frees s (ref_event ref) X →
  ∃ sid, live_storage c' !! X = Some sid ∧ has_pair c' ref sid ∧
         (is_input ref → sid ∈ tensor_set c').
Proof.
  unfold visit_result. intros H Hacc Hfree. ok_bind H as r Er.
  destruct ref as [event k|event]; cbn in *.
  - destruct Hacc as (md & Hin & Hi & Hd & <-). unfold input_of in Hin.
    rewrite Er in Hin.
    destruct (extra_fields_ r) as [e| | | | | |] eqn:Hx; try discriminate.
    ok_inv H.
    destruct (visit_inputs_access event (tensor_metadata_ e) 0 c k md
                Hin Hi Hd) as (sid & ? & ? & ?).
    exists sid. by repeat split.
  - destruct Hacc as (r' & a & Hr' & Hx & <-).
    assert (r' = r) as -> by congruence. rewrite Hx in H. ok_inv H.
    destruct (visit_allocation_pair event a c) as (sid & Hp & _ & Hl).
    exists sid. split; [|by split]. apply Hl. intros Hsz.
    apply Hfree. by exists r, a.
Qed.

(** The event of [ref] is visited while [X] is live. *)
Lemma visit_result_second (s : store) c c' ref X sid :
  visit_result s c (ref_event ref) = Ok c' →
  accesses s ref X → live_storage c !! X = Some sid →
  has_pair c' ref sid ∧ (is_input ref → sid ∈ tensor_set c').
Proof.
  unfold visit_result. intros H Hacc Hlive. ok_bind H as r Er.
  destruct ref as [event k|event]; cbn in *.
  - destruct Hacc as (md & Hin & Hi & Hd & <-). unfold input_of in Hin.
    rewrite Er in Hin.
    destruct (extra_fields_ r) as [e| | | | | |] eqn:Hx; try discriminate.
    ok_inv H.
    destruct (visit_inputs_access event (tensor_metadata_ e) 0 c k md
                Hin Hi Hd) as (sid' & Hl' & ? & ?).
    rewrite (visit_inputs_keep _ _ _ _ _ _ Hlive) in Hl'.
    injection Hl' as <-. by split.
  - destruct Hacc as (r' & a & Hr' & Hx & <-).
    assert (r' = r) as -> by congruence. rewrite Hx in H. ok_inv H.
    destruct (visit_allocation_pair event a c) as (sid' & Hp & Heq & _).
    rewrite (Heq sid Hlive) in Hp. by split.
Qed.

Lemma flatten_grows (s : store) events : ∀ c c',
  flatten s c events = Ok c' → grows c c'.
Proof.
  induction events as [|e rest IH]; intros c c' H; cbn in H.
  - ok_inv H. apply grows_refl.
  - ok_bind H as c1 E.
    eapply grows_trans; [by eapply visit_result_grows|by apply IH].
Qed.

Lemma flatten_keep (s : store) events X sid : ∀ c c',
  flatten s c events = Ok c' → (∀ e, e ∈ events → ¬ frees s e X) →
  live_storage c !! X = Some sid → live_storage c' !! X = Some sid.
Proof.
  induction events as [|e rest IH]; intros c c' H Hfree Hl; cbn in H.
  - by ok_inv H.
  - ok_bind H as c1 E. apply (IH c1 c' H).
    + intros e' He'. apply Hfree. by right.
    + eapply visit_result_keep; [exact E| |done]. apply Hfree. by left.
Qed.

Lemma flatten_app (s : store) events1 : ∀ events2 c c',
  flatten s c (events1 ++ events2) = Ok c' →
  ∃ c1, flatten s c events1 = Ok c1 ∧ flatten s c1 events2 = Ok c'.
Proof.
  induction events1 as [|e rest IH]; intros events2 c c' H; cbn in *.
  - eauto.
  - ok_bind H as c2 E. destruct (IH _ _ _ H) as (c1 & H1 & H2).
    exists c1. by rewrite E.
Qed.

(** Over a stretch of events none of which frees [X], every reference to
    [X] is paired with the storage id that [X] has at the end of it. *)
Lemma flatten_segment (s : store) seg X ref : ∀ c c',
  flatten s c seg = Ok c' → (∀ e, e ∈ seg → ¬ frees s e X) →
  ref_event ref ∈ seg → accesses s ref X →
  ∃ sid, live_storage c' !! X = Some sid ∧ has_pair c' ref sid ∧
         (is_input ref → sid ∈ tensor_set c').
Proof.
  induction seg as [|e rest IH]; intros c c' H Hfree Hin Hacc;
    [by apply elem_of_nil in Hin|].
  cbn in H. ok_bind H as c1 E.
  assert (Hrest : ∀ e', e' ∈ rest → ¬ frees s e' X)
    by (intros e' He'; apply Hfree; by right).
  destruct (decide (ref_event ref = e)) as [Heq|Hne].
  - subst e.
    destruct (visit_result_first s c c1 ref X E Hacc) as (sid & Hl & Hp & Hs);
      [apply Hfree; by left|].
    exists sid. pose proof (flatten_grows _ _ _ _ H) as Hg.
    split; [by eapply flatten_keep|].
    split; [by eapply grows_has_pair|]. intros Hi. apply Hg. auto.
  - apply elem_of_cons in Hin as [?|Hin]; [done|]. by apply (IH c1 c').
Qed.

(** X14.  Every tensor input of a visited TorchOp that has a TensorImpl
    address and a storage address receives an identity. *)
Theorem input_with_storage_gets_id (s s' : store) sorted_results event k md :
  NoDup sorted_results →
  calculate_unique_tensor_ids s sorted_results = Ok s' →
  event ∈ sorted_results →
  input_of s event k = Some (Some md) → impl_ md ≠ 0 → data_ md ≠ 0 →
  is_Some (id_at s' (InputRef event k)).
Proof.
  intros Hnd H Hev Hin Hi Hd. pose proof H as Hcalc.
  unfold calculate_unique_tensor_ids in H. ok_bind H as c Hc.
  apply list_elem_of_split in Hev as (l1 & l3 & ->).
  pose proof Hc as Hfl. unfold cluster_by_address in Hfl.
  apply flatten_app in Hfl as (c1 & _ & Hfl).
  change (event :: l3) with ([event] ++ l3) in Hfl.
  apply flatten_app in Hfl as (c2 & Hseg & Hrest).
  destruct (flatten_segment s [event] (data_ md) (InputRef event k) c1 c2 Hseg)
    as (sid & _ & Hp & Hs).
  - intros e ->%list_elem_of_singleton (r & a & Hr & Hx & _).
    unfold input_of in Hin. rewrite Hr, Hx in Hin. done.
  - by left.
  - by exists md.
  - apply (grows_has_pair _ _ _ _ (flatten_grows _ _ _ _ Hrest)) in Hp.
    destruct Hp as (t & Ht & Href & Hsid).
    destruct (final_id_of_pair s s' _ c t Hnd Hc Hcalc Ht) as [_ Hsome].
    + rewrite Hsid. apply (flatten_grows _ _ _ _ Hrest). by apply Hs.
    + by rewrite Href in Hsome.
Qed.

Lemma input_with_storage_gets_id_witness :
  ∃ s', calculate_unique_tensor_ids two_buffers_store [0; 1; 2]%nat = Ok s' ∧
        is_Some (id_at s' (InputRef 2 0)).
Proof.
  destruct (calculate_unique_tensor_ids two_buffers_store [0; 1; 2]%nat)
    as [s'|] eqn:H; [|by vm_compute in H].
  exists s'. split; [done|].
  apply (input_with_storage_gets_id two_buffers_store s' [0; 1; 2]%nat
           2%nat 0%nat (mkTensorMetadata 77 8192 None)).
  - apply (bool_decide_unpack (NoDup [0; 1; 2]%nat)). vm_compute. exact I.
  - exact H.
  - right. right. by left.
  - reflexivity.
  - done.
  - done.
Defined.

(** X15.  References to the same live address get the same identity.  In a
    stretch of the event vector in which no event frees the address [X],
    any two references to [X] (tensor inputs with storage at [X], Allocation
    events at [X]), of which at least one is a tensor input, end up with
    one and the same identity. *)
Theorem same_live_address_same_identity (s s' : store) l1 seg l3 X ref1 ref2 :
  NoDup (l1 ++ seg ++ l3) →
  calculate_unique_tensor_ids s (l1 ++ seg ++ l3) = Ok s' →
  (∀ e, e ∈ seg → ¬ frees s e X) →
  ref_event ref1 ∈ seg → accesses s ref1 X →
  ref_event ref2 ∈ seg → accesses s ref2 X →
  is_input ref1 ∨ is_input ref2 →
  ∃ v, id_at s' ref1 = Some v ∧ id_at s' ref2 = Some v.
Proof.
  intros Hnd H Hfree He1 Ha1 He2 Ha2 Hinput. pose proof H as Hcalc.
  unfold calculate_unique_tensor_ids in H. ok_bind H as c Hc.
  pose proof Hc as Hfl. unfold cluster_by_address in Hfl.
  apply flatten_app in Hfl as (c1 & _ & Hfl).
  apply flatten_app in Hfl as (c2 & Hseg & Hrest).
  pose proof (flatten_grows _ _ _ _ Hrest) as Hg.
  destruct (flatten_segment s seg X ref1 c1 c2 Hseg Hfree He1 Ha1)
    as (sid & Hl & Hp1 & Hs1).
  destruct (flatten_segment s seg X ref2 c1 c2 Hseg Hfree He2 Ha2)
    as (sid' & Hl' & Hp2 & Hs2).
  assert (sid' = sid) as -> by congruence.
  assert (Hset : sid ∈ tensor_set c).
  { apply Hg. destruct Hinput; auto. }
  apply (grows_has_pair _ _ _ _ Hg) in Hp1 as (t1 & Ht1 & <- & Hsid1).
  apply (grows_has_pair _ _ _ _ Hg) in Hp2 as (t2 & Ht2 & <- & Hsid2).
  destruct (final_id_of_pair s s' _ c t1 Hnd Hc Hcalc Ht1) as [Hv1 [v Hv]];
    [by rewrite Hsid1|].
  destruct (final_id_of_pair s s' _ c t2 Hnd Hc Hcalc Ht2) as [Hv2 _];
    [by rewrite Hsid2|].
  exists v. split; [done|]. rewrite Hv2, Hsid2, <- Hsid1, <- Hv1. done.
Qed.

Lemma same_live_address_same_identity_witness :
  ∃ s' v, calculate_unique_tensor_ids two_buffers_store [0; 1; 2]%nat = Ok s' ∧
          id_at s' (AllocRef 1) = Some v ∧ id_at s' (InputRef 2 0) = Some v.
Proof.
  destruct (calculate_unique_tensor_ids two_buffers_store [0; 1; 2]%nat)
    as [s'|] eqn:H; [|by vm_compute in H].
  destruct (same_live_address_same_identity two_buffers_store s'
              [0%nat] [1; 2]%nat [] 8192 (AllocRef 1) (InputRef 2 0))
    as (v & H1 & H2).
  - apply (bool_decide_unpack (NoDup [0; 1; 2]%nat)). vm_compute. exact I.
  - exact H.
  - intros e He (r & a & Hr & Hx & Hp & Hsz).
    apply list_elem_of_In in He. destruct He as [<-|[<-|[]]];
      cbn in Hr; injection Hr as <-; cbn in Hx; [|discriminate].
    injection Hx as <-. cbn in Hsz. lia.
  - by left.
  - eexists _, _. split; [reflexivity|]. by cbn.
  - right. by left.
  - eexists. split; [reflexivity|]. by cbn.
  - by right.
  - by exists s', v.
Defined.

(** X16.  The event that frees a buffer carries the identity of the buffer:
    if a tensor input refers to the address [X] and nothing frees [X] from
    there up to an Allocation event at [X] (the free itself, typically),
    that event gets the identity of the input. *)
Theorem free_event_shares_identity (s s' : store) l1 seg last l3 X ref k :
  NoDup (l1 ++ seg ++ last :: l3) →
  calculate_unique_tensor_ids s (l1 ++ seg ++ last :: l3) = Ok s' →
  (∀ e, e ∈ seg → ¬ frees s e X) →
  ref_event ref ∈ seg → ref = InputRef (ref_event ref) k →
  accesses s ref X → accesses s (AllocRef last) X →
  ∃ v, id_at s' ref = Some v ∧ id_at s' (AllocRef last) = Some v.
Proof.
  intros Hnd H Hfree He Hin Ha1 Ha2. pose proof H as Hcalc.
  unfold calculate_unique_tensor_ids in H. ok_bind H as c Hc.
  pose proof Hc as Hfl. unfold cluster_by_address in Hfl.
  apply flatten_app in Hfl as (c1 & _ & Hfl).
  apply flatten_app in Hfl as (c2 & Hseg & Hrest).
  cbn [flatten] in Hrest. ok_bind Hrest as c3 Hlast.
  pose proof (flatten_grows _ _ _ _ Hrest) as Hg.
  pose proof (visit_result_grows _ _ _ _ Hlast) as Hg3.
  destruct (flatten_segment s seg X ref c1 c2 Hseg Hfree He Ha1)
    as (sid & Hl & Hp1 & Hs1).
  destruct (visit_result_second s c2 c3 (AllocRef last) X sid Hlast Ha2 Hl)
    as [Hp2 _].
  assert (Hset : sid ∈ tensor_set c).
  { apply Hg, Hg3, Hs1. by rewrite Hin. }
  apply (grows_has_pair _ _ _ _ (grows_trans _ _ _ Hg3 Hg)) in Hp1
    as (t1 & Ht1 & <- & Hsid1).
  apply (grows_has_pair _ _ _ _ Hg) in Hp2 as (t2 & Ht2 & Href2 & Hsid2).
  destruct (final_id_of_pair s s' _ c t1 Hnd Hc Hcalc Ht1) as [Hv1 [v Hv]];
    [by rewrite Hsid1|].
  destruct (final_id_of_pair s s' _ c t2 Hnd Hc Hcalc Ht2) as [Hv2 _];
    [by rewrite Hsid2|].
  exists v. split; [done|].
  rewrite <- Href2, Hv2, Hsid2, <- Hsid1, <- Hv1. done.
Qed.

Lemma free_event_shares_identity_witness :
  ∃ s' v, calculate_unique_tensor_ids (reuse_scenario 4096 7 8 16 (-16) 32)
            [0; 1; 2; 3; 4]%nat = Ok s' ∧
          id_at s' (InputRef 1 0) = Some v ∧ id_at s' (AllocRef 2) = Some v.
Proof.
  destruct (calculate_unique_tensor_ids (reuse_scenario 4096 7 8 16 (-16) 32)
              [0; 1; 2; 3; 4]%nat) as [s'|] eqn:H; [|by vm_compute in H].
  destruct (free_event_shares_identity (reuse_scenario 4096 7 8 16 (-16) 32)
              s' [0%nat] [1%nat] 2%nat [3; 4]%nat 4096 (InputRef 1 0) 0%nat)
    as (v & H1 & H2).
  - apply (bool_decide_unpack (NoDup [0; 1; 2; 3; 4]%nat)). vm_compute.
    exact I.
  - exact H.
  - intros e ->%list_elem_of_singleton (r & a & Hr & Hx & _).
    cbn in Hr. injection Hr as <-. discriminate.
  - by left.
  - reflexivity.
  - eexists. split; [reflexivity|]. by cbn.
  - eexists _, _. split; [reflexivity|]. by cbn.
  - by exists s', v.
Defined.

(** * Properties of the input/output encoder *)

Section EncoderFacts.

Context {IValue : Type} `{!IValueOps IValue}.
Context (kStrided : Z) (type_name : Z → string).

(** The values that [push] records as [Tag::Tensor]. *)
Definition encoded_tensor (v : IValue) : bool :=
  isTensor v && (defined (toTensor v) && negb (is_nested (toTensor v))).

(** What the getter is expected to report for one value. *)
Definition shape_of (v : IValue) : list Z :=
  if encoded_tensor v then sizes (toTensor v) else [].

Definition stride_of (v : IValue) : list Z :=
  if encoded_tensor v && (layout (toTensor v) =? kStrided)
  then strides (toTensor v) else [].

Definition ivalue_of (v : IValue) : IValue :=
  if negb (isTensor v) && isScalar v then v else IValue_default.

Definition dtype_of (v : IValue) : string :=
  if isTensor v then
    if encoded_tensor v then type_name (scalar_type (toTensor v)) else ""
  else if isScalar v then "Scalar"
  else if isTensorList v then "TensorList"
  else "".

Definition metadata_of (v : IValue) : option TensorMetadata :=
  if encoded_tensor v then
    Some (mkTensorMetadata (unsafeGetTensorImpl (toTensor v))
            (if has_storage (toTensor v) then storage_data (toTensor v) else 0)
            None)
  else None.

(** The inputs of one op, described value by value. *)
Definition describe (values : list IValue) : Inputs IValue :=
  mkInputs (shape_of <$> values) (stride_of <$> values)
           (ivalue_of <$> values) (dtype_of <$> values)
           (metadata_of <$> values).

(** A strided tensor has one stride per dimension. *)
Definition strides_match (v : IValue) : Prop :=
  encoded_tensor v = true → layout (toTensor v) = kStrided →
  length (strides (toTensor v)) = length (sizes (toTensor v)).

Definition dim_fits (v : IValue) : Prop :=
  encoded_tensor v = true →
  Z.of_nat (length (sizes (toTensor v))) ≤ 2 ^ 32 - 1.

(** What one value adds to each of the four streams. *)
Definition tags_of (v : IValue) : list Tag.t :=
  if isTensor v then
    if encoded_tensor v then [Tag.Tensor] else [Tag.UndefinedTensor]
  else if isScalar v then [Tag.Scalar]
  else if isTensorList v then [Tag.TensorListBegin; Tag.TERMINATOR]
  else [Tag.Other].

Definition mds_of (v : IValue) : list RawTensorMetadata :=
  if encoded_tensor v then [RawTensorMetadata_of (toTensor v)] else [].

Definition szs_of (v : IValue) : list Z :=
  if encoded_tensor v then
    sizes (toTensor v)
    ++ (if layout (toTensor v) =? kStrided then strides (toTensor v) else [])
  else [].

Definition ivs_of (v : IValue) : list IValue :=
  if negb (isTensor v) && isScalar v then [v] else [].

Definition extend (enc : InputOutputEncoder IValue) (tags : list Tag.t)
  (mds : list RawTensorMetadata) (szs : list Z) (ivs : list IValue)
  : InputOutputEncoder IValue :=
  mkEncoder (tags_ enc ++ tags) (encoder_tensor_metadata_ enc ++ mds)
            (tensor_sizes_strides_ enc ++ szs) (ivalues_ enc ++ ivs).

Lemma extend_nil enc : extend enc [] [] [] [] = enc.
Proof. destruct enc. unfold extend. cbn. by rewrite !app_nil_r. Qed.

Lemma extend_extend enc t1 m1 s1 i1 t2 m2 s2 i2 :
  extend (extend enc t1 m1 s1 i1) t2 m2 s2 i2
  = extend enc (t1 ++ t2) (m1 ++ m2) (s1 ++ s2) (i1 ++ i2).
Proof. unfold extend. cbn. by rewrite !app_assoc. Qed.

Lemma push_value_Returns enc v enc' :
  push_value kStrided enc v = Returns enc' →
  enc' = extend enc (tags_of v) (mds_of v) (szs_of v) (ivs_of v) ∧ dim_fits v.
Proof.
  unfold push_value, push_tensor, tags_of, mds_of, szs_of, ivs_of, dim_fits,
    encoded_tensor, extend.
  destruct (isTensor v); cbn.
  - destruct (defined (toTensor v) && negb (is_nested (toTensor v))); cbn.
    + destruct (Z.leb_spec (Z.of_nat (length (sizes (toTensor v))))
                  (2 ^ 32 - 1)); [|done].
      intros [= <-]. by rewrite !app_nil_r.
    + intros [= <-]. by rewrite !app_nil_r.
  - destruct (isScalar v); [intros [= <-]; by rewrite !app_nil_r|].
    destruct (isTensorList v); intros [= <-]; by rewrite !app_nil_r.
Qed.

Lemma read_sizes_app (l rest : list Z) :
  read_sizes (length l) (l ++ rest) = Some (l, rest).
Proof.
  unfold read_sizes. rewrite length_app.
  destruct (decide (length l ≤ length l + length rest)%nat); [|lia].
  by rewrite take_app_length, drop_app_length.
Qed.

(** The decoder reads back what [push_value] wrote for one value. *)
Lemma next_loop_value v rt rm rs ri out :
  strides_match v → dim_fits v →
  next_loop kStrided type_name false (tags_of v ++ rt) (mds_of v ++ rm)
            (szs_of v ++ rs) (ivs_of v ++ ri) out
  = next_loop kStrided type_name false rt rm rs ri
      (emplace_input out (shape_of v) (stride_of v) (metadata_of v)
                     (ivalue_of v) (dtype_of v)).
Proof.
  unfold strides_match, dim_fits, tags_of, mds_of, szs_of, ivs_of, shape_of,
    stride_of, metadata_of, ivalue_of, dtype_of.
  intros Hst Hdim. destruct (isTensor v) eqn:Ht; cbn [negb andb].
  - destruct (encoded_tensor v) eqn:Henc; [|done].
    cbn [app next_loop RawTensorMetadata_of dim_ layout_ raw_impl_ raw_data_
         dtype_ andb].
    specialize (Hdim eq_refl). unfold wrap_uint32.
    rewrite Z.mod_small by lia. rewrite Nat2Z.id.
    rewrite <- app_assoc, read_sizes_app. cbn [mbind option_bind].
    destruct (layout (toTensor v) =? kStrided) eqn:Hl.
    + rewrite <- (Hst eq_refl) by (by apply Z.eqb_eq).
      by rewrite read_sizes_app.
    + done.
  - assert (encoded_tensor v = false) as ->
      by (unfold encoded_tensor; by rewrite Ht).
    destruct (isScalar v); [done|]. by destruct (isTensorList v).
Qed.

Definition tags_all (values : list IValue) := concat (tags_of <$> values).
Definition mds_all (values : list IValue) := concat (mds_of <$> values).
Definition szs_all (values : list IValue) := concat (szs_of <$> values).
Definition ivs_all (values : list IValue) := concat (ivs_of <$> values).

Lemma push_values_Returns values : ∀ enc enc',
  push_values kStrided enc values = Returns enc' →
  enc' = extend enc (tags_all values) (mds_all values) (szs_all values)
                (ivs_all values) ∧
  Forall dim_fits values.
Proof.
  induction values as [|v vs IH]; intros enc enc' H; cbn in H.
  - injection H as <-. by rewrite extend_nil.
  - destruct (push_value kStrided enc v) as [enc1|] eqn:Hv; [|done].
    apply push_value_Returns in Hv as [-> Hfit].
    apply IH in H as [-> Hfits]. split; [|by constructor].
    by rewrite extend_extend.
Qed.

(** [out] with the description of further values appended. *)
Definition append_inputs (out : Inputs IValue) (values : list IValue)
  : Inputs IValue :=
  mkInputs (shapes_ out ++ (shape_of <$> values))
           (strides_ out ++ (stride_of <$> values))
           (inputs_ivalues_ out ++ (ivalue_of <$> values))
           (dtypes_ out ++ (dtype_of <$> values))
           (inputs_tensor_metadata_ out ++ (metadata_of <$> values)).

Lemma next_loop_values values : ∀ rt rm rs ri out,
  Forall strides_match values → Forall dim_fits values →
  next_loop kStrided type_name false (tags_all values ++ rt)
            (mds_all values ++ rm) (szs_all values ++ rs)
            (ivs_all values ++ ri) out
  = next_loop kStrided type_name false rt rm rs ri (append_inputs out values).
Proof.
  induction values as [|v vs IH]; intros rt rm rs ri out Hst Hfit.
  - unfold append_inputs. cbn. rewrite !app_nil_r. by destruct out.
  - apply Forall_cons in Hst as [Hst1 Hst]. apply Forall_cons in Hfit as [Hf1 Hf].
    unfold tags_all, mds_all, szs_all, ivs_all. rewrite !fmap_cons. cbn [concat].
    rewrite <- !app_assoc, (next_loop_value v) by done.
    fold (tags_all vs) (mds_all vs) (szs_all vs) (ivs_all vs).
    rewrite IH by done. f_equal. unfold append_inputs, emplace_input. cbn.
    by rewrite <- !app_assoc.
Qed.

(** One op: the getter returns the description of the values that [push]
    recorded and stops behind them. *)
Lemma push_next enc values enc' :
  push kStrided enc values = Returns enc' →
  Forall strides_match values →
  ∃ tags mds szs ivs,
    enc' = extend enc tags mds szs ivs ∧
    ∀ rt rm rs ri,
      next_inputs kStrided type_name
        (mkDecoder (tags ++ rt) (mds ++ rm) (szs ++ rs) (ivs ++ ri))
      = Some (describe values, mkDecoder rt rm rs ri).
Proof.
  unfold push. intros H Hst.
  destruct (push_values kStrided enc values) as [enc1|] eqn:Hv; [|done].
  apply push_values_Returns in Hv as [-> Hfit]. injection H as <-.
  exists (tags_all values ++ [Tag.TERMINATOR]), (mds_all values),
    (szs_all values), (ivs_all values).
  split; [unfold extend; cbn; by rewrite app_assoc|].
  intros rt rm rs ri. unfold next_inputs. cbn [tag_it tensor_metadata_it
    tensor_size_strides_it ivals_it].
  rewrite <- app_assoc, next_loop_values by done. cbn.
  by rewrite !removelast_last.
Qed.

(** [push] once per op, in order. *)
Fixpoint push_ops (enc : InputOutputEncoder IValue) (ops : list (list IValue))
  : checked (InputOutputEncoder IValue) :=
  match ops with
  | [] => Returns enc
  | values :: rest =>
    match push kStrided enc values with
    | Returns enc' => push_ops enc' rest
    | Throws enc' => Throws enc'
    end
  end.

(** The getter called [n] times. *)
Fixpoint next_n (n : nat) (d : decoder IValue)
  : option (list (Inputs IValue) * decoder IValue) :=
  match n with
  | O => Some ([], d)
  | S n' =>
    '(out, d1) ← next_inputs kStrided type_name d;
    '(outs, d2) ← next_n n' d1;
    Some (out :: outs, d2)
  end.

Lemma push_ops_next ops : ∀ enc enc',
  push_ops enc ops = Returns enc' →
  Forall (Forall strides_match) ops →
  ∃ tags mds szs ivs,
    enc' = extend enc tags mds szs ivs ∧
    ∀ rt rm rs ri,
      next_n (length ops)
        (mkDecoder (tags ++ rt) (mds ++ rm) (szs ++ rs) (ivs ++ ri))
      = Some (describe <$> ops, mkDecoder rt rm rs ri).
Proof.
  induction ops as [|values rest IH]; intros enc enc' H Hst; cbn in H.
  - injection H as <-. exists [], [], [], []. by rewrite extend_nil.
  - apply Forall_cons in Hst as [Hst1 Hst].
    destruct (push kStrided enc values) as [enc1|] eqn:Hp; [|done].
    apply push_next in Hp as (t1 & m1 & s1 & i1 & -> & Hn1); [|done].
    apply IH in H as (t2 & m2 & s2 & i2 & -> & Hn2); [|done].
    exists (t1 ++ t2), (m1 ++ m2), (s1 ++ s2), (i1 ++ i2).
    split; [by rewrite extend_extend|].
    intros rt rm rs ri. cbn [length next_n].
    rewrite <- !app_assoc, Hn1. cbn. by rewrite Hn2.
Qed.

(** The vectors of a decoded [Inputs] are of one length. *)
Definition aligned (out : Inputs IValue) : Prop :=
  length (shapes_ out) = length (dtypes_ out) ∧
  length (strides_ out) = length (dtypes_ out) ∧
  length (inputs_ivalues_ out) = length (dtypes_ out) ∧
  length (inputs_tensor_metadata_ out) = length (dtypes_ out).

Lemma aligned_emplace out shape stride md ivalue dtype :
  aligned out → aligned (emplace_input out shape stride md ivalue dtype).
Proof.
  unfold aligned, emplace_input. cbn. rewrite !length_app. cbn. lia.
Qed.

Lemma next_loop_aligned tags : ∀ skipping mds szs ivs out out' d',
  next_loop kStrided type_name skipping tags mds szs ivs out = Some (out', d') →
  aligned out → aligned out'.
Proof.
  induction tags as [|tag tags IH]; intros skipping mds szs ivs out out' d' H Ha;
    cbn [next_loop] in H.
  - destruct skipping; [done|]. by injection H as <- _.
  - destruct skipping.
    + destruct tag; try (by eapply IH).
      eapply IH; [exact H|]. by apply aligned_emplace.
    + destruct tag.
      * destruct mds as [|md mds']; [done|].
        destruct (read_sizes (Z.to_nat (dim_ md)) szs) as [[shape szs1]|];
          [|done]. cbn [mbind option_bind] in H.
        destruct (if layout_ md =? kStrided
                  then read_sizes (Z.to_nat (dim_ md)) szs1
                  else Some ([], szs1)) as [[stride szs2]|]; [|done].
        cbn [mbind option_bind] in H.
        eapply IH; [exact H|]. by apply aligned_emplace.
      * eapply IH; [exact H|]. by apply aligned_emplace.
      * by eapply IH.
      * destruct ivs as [|ivalue ivs']; [done|].
        eapply IH; [exact H|]. by apply aligned_emplace.
      * eapply IH; [exact H|]. by apply aligned_emplace.
      * injection H as <- _. unfold aligned in *. cbn.
        by rewrite !removelast_last.
Qed.

End EncoderFacts.

(** * Properties of recording and collation *)

Section CollationFacts.

Import ThreadLocalSubqueue.

Context {IValue : Type} `{!IValueOps IValue}.
Context (kStrided : Z) (type_name : Z → string) (ChunkSize : Z).
Context (lite_interpreter : bool).
Context (Event_start_time Event_end_time : Z) (Event_allow_tf32 : bool).
Context (config_ : ProfilerConfig).

#[local] Abbreviation call := (@RecordFunction IValue * @Observed IValue)%type.

#[local] Abbreviation record :=
  (begin_op kStrided ChunkSize lite_interpreter Event_start_time
            Event_end_time Event_allow_tf32 config_).

(** [begin_op] for every call of [calls], in order, on one subqueue: the
    block counter, the correlation ids and the storage at the end. *)
Fixpoint record_all (counter_ : Z) (q : TorchOpStorage) (calls : list call)
  : Z * list Z * checked TorchOpStorage :=
  match calls with
  | [] => (counter_, [], Returns q)
  | (fn, now) :: rest =>
    match record counter_ q fn now with
    | (counter', corr_id, Returns q') =>
      let '(counter'', ids, result) := record_all counter' q' rest in
      (counter'', corr_id :: ids, result)
    | (counter', corr_id, Throws q') => (counter', [corr_id], Throws q')
    end
  end.

Definition empty_storage : @TorchOpStorage IValue :=
  mkStorage (mkOpEvents [] None) (mkEncoder [] [] [] []) [] [] [] [].

(** Whether [begin_op] takes the call stack (the module hierarchy) of a
    call. *)
Definition takes_stack (c : call) : bool :=
  negb lite_interpreter && with_stack config_
  && negb (bool_decide (scope c.1 = BACKWARD_FUNCTION)).

Definition takes_modules (c : call) : bool :=
  negb lite_interpreter && with_modules config_
  && negb (bool_decide (scope c.1 = BACKWARD_FUNCTION)).

(** The event that [begin_op] leaves in [op_events_]. *)
Definition event_of (c : call) : Event :=
  mkEvent (mkBasicFields (seqNr c.1) (forwardThreadId c.1) (scope c.1)
                         (isAsync c.1) (debugHandle c.1) (name c.1))
          (approximate_time c.2) Event_end_time (allowTF32CuBLAS c.2).

(** The correlation id of an element of [op_events_], from its address. *)
Definition address_id (x : Event * (Z * Z)) : Z :=
  correlation_id x.2.1 x.2.2.

Lemma begin_op_Returns counter_ q fn now counter' corr_id q' :
  record counter_ q fn now = (counter', corr_id, Returns q') →
  (∃ address,
     elements (op_events_ q')
     = elements (op_events_ q) ++ [(event_of (fn, now), address)] ∧
     address_id (event_of (fn, now), address) = corr_id) ∧
  (if report_input_shapes config_
   then push kStrided (inputs_outputs_ q) (inputs fn)
        = Returns (inputs_outputs_ q')
   else inputs_outputs_ q' = inputs_outputs_ q) ∧
  jit_stack_ q'
  = jit_stack_ q ++ (if takes_stack (fn, now) then [callstack now] else []) ∧
  jit_modules_ q'
  = jit_modules_ q
    ++ (if takes_modules (fn, now) then [module_hierarchy now] else []) ∧
  extra_args_ q'
  = extra_args_ q
    ++ (if with_flops config_ then [saved_extra_args now] else []) ∧
  gpu_fallback_ q'
  = gpu_fallback_ q
    ++ (if bool_decide (state config_ = KINETO_GPU_FALLBACK)
        then [mkFallbackPair (recorded_cuda_event now) None] else []).
Proof.
  unfold begin_op, takes_stack, takes_modules, event_of. cbn [fst snd].
  destruct (maybe_grow ChunkSize counter_ (buffer_last_ (op_events_ q)))
    as [c1 [id_start next]].
  destruct (if report_input_shapes config_
            then push kStrided (inputs_outputs_ q) (inputs fn)
            else Returns (inputs_outputs_ q)) as [enc|enc] eqn:Hpush;
    [|done].
  intros [= <- <- <-]. cbn.
  split; [by exists (id_start, next)|].
  split; [by destruct (report_input_shapes config_); [|injection Hpush]|].
  repeat split.
  - destruct (negb lite_interpreter && with_stack config_
              && negb (bool_decide (scope fn = BACKWARD_FUNCTION)));
      [done|by rewrite app_nil_r].
  - destruct (negb lite_interpreter && with_modules config_
              && negb (bool_decide (scope fn = BACKWARD_FUNCTION)));
      [done|by rewrite app_nil_r].
  - destruct (with_flops config_); [done|by rewrite app_nil_r].
  - destruct (bool_decide (state config_ = KINETO_GPU_FALLBACK));
      [done|by rewrite app_nil_r].
Qed.

(** The storage after a run of calls none of which throws. *)
Lemma record_all_Returns calls : ∀ counter_ q counter' ids q',
  record_all counter_ q calls = (counter', ids, Returns q') →
  (∃ added,
     elements (op_events_ q') = elements (op_events_ q) ++ added ∧
     added.*1 = event_of <$> calls ∧ address_id <$> added = ids) ∧
  (if report_input_shapes config_
   then push_ops kStrided (inputs_outputs_ q) ((λ c : call, inputs c.1) <$> calls)
        = Returns (inputs_outputs_ q')
   else inputs_outputs_ q' = inputs_outputs_ q) ∧
  jit_stack_ q'
  = jit_stack_ q ++ ((λ c : call, callstack c.2) <$> filter takes_stack calls) ∧
  jit_modules_ q'
  = jit_modules_ q
    ++ ((λ c : call, module_hierarchy c.2) <$> filter takes_modules calls) ∧
  extra_args_ q'
  = extra_args_ q
    ++ (if with_flops config_
        then (λ c : call, saved_extra_args c.2) <$> calls else []) ∧
  gpu_fallback_ q'
  = gpu_fallback_ q
    ++ (if bool_decide (state config_ = KINETO_GPU_FALLBACK)
        then (λ c : call, mkFallbackPair (recorded_cuda_event c.2) None)
             <$> calls
        else []).
Proof.
  induction calls as [|[fn now] rest IH]; intros counter_ q counter' ids q' H;
    cbn [record_all] in H.
  - injection H as <- <- <-. split; [exists []; by rewrite app_nil_r|].
    split; [by destruct (report_input_shapes config_)|].
    rewrite !app_nil_r.
    repeat split; repeat case_match; by rewrite ?app_nil_r.
  - destruct (record counter_ q fn now) as [[c1 id1] [q1|q1]] eqn:H1;
      [|by injection H].
    destruct (record_all c1 q1 rest) as [[c2 ids2] r2] eqn:H2.
    injection H as <- <- ->.
    apply begin_op_Returns in H1
      as ((address & He1 & Hid1) & Hp1 & Hs1 & Hm1 & Ha1 & Hg1).
    apply IH in H2 as ((added & He2 & Hev2 & Hid2) & Hp2 & Hs2 & Hm2 & Ha2 & Hg2).
    split; [|split; [|split; [|split; [|split]]]].
    + exists ((event_of (fn, now), address) :: added).
      rewrite He2, He1, <- app_assoc. split; [done|].
      rewrite !fmap_cons. cbn [fst]. by rewrite Hev2, Hid1, Hid2.
    + destruct (report_input_shapes config_); [|congruence].
      rewrite fmap_cons. cbn [push_ops fst]. by rewrite Hp1.
    + rewrite Hs2, Hs1, <- app_assoc. f_equal. rewrite filter_cons.
      unfold decide. cbn. by destruct (takes_stack (fn, now)).
    + rewrite Hm2, Hm1, <- app_assoc. f_equal. rewrite filter_cons.
      by destruct (takes_modules (fn, now)).
    + rewrite Ha2, Ha1, <- app_assoc. by destruct (with_flops config_).
    + rewrite Hg2, Hg1, <- app_assoc.
      by destruct (bool_decide (state config_ = KINETO_GPU_FALLBACK)).
Qed.

(** What the autograd loop makes of an event, given its successor. *)
Definition plumb_pair (e1 e2 : Event) : Event :=
  if bool_decide (scope_ (basic_fields_ e1) = FUNCTION)
     && bool_decide (scope_ (basic_fields_ e2) = BACKWARD_FUNCTION)
     && String.prefix "autograd::engine::evaluate_function: "
                      (name_ (basic_fields_ e1))
  then mkEvent (mkBasicFields (sequence_number_ (basic_fields_ e2))
                  (forward_tid_ (basic_fields_ e2)) (scope_ (basic_fields_ e1))
                  (is_async_ (basic_fields_ e1))
                  (debug_handle_ (basic_fields_ e1)) (name_ (basic_fields_ e1)))
               (start_time_ e1) (end_time_ e1) (allow_tf32_cublas_ e1)
  else e1.

(** The events after the loop, position by position. *)
Definition plumbed (events : list (Event * (Z * Z))) (i : nat)
  : option (Event * (Z * Z)) :=
  match events !! i, events !! S i with
  | Some (e1, address), Some (e2, _) => Some (plumb_pair e1 e2, address)
  | x, _ => x
  end.

Lemma plumb_step_insert (events : list (Event * (Z * Z))) i e1 a e2 a2 :
  events !! i = Some (e1, a) → events !! S i = Some (e2, a2) →
  plumb_step events i = <[i := (plumb_pair e1 e2, a)]> events.
Proof.
  intros H1 H2. unfold plumb_step, plumb_pair. rewrite H1, H2.
  destruct (bool_decide (scope_ (basic_fields_ e1) = FUNCTION)
            && bool_decide (scope_ (basic_fields_ e2) = BACKWARD_FUNCTION)
            && String.prefix "autograd::engine::evaluate_function: "
                             (name_ (basic_fields_ e1))); [done|].
  symmetry. by apply list_insert_id.
Qed.

Lemma plumb_prefix (events : list (Event * (Z * Z))) k :
  (k ≤ length events - 1)%nat →
  length (foldl plumb_step events (seq 0 k)) = length events ∧
  ∀ j, foldl plumb_step events (seq 0 k) !! j
       = if decide (j < k)%nat then plumbed events j else events !! j.
Proof.
  induction k as [|k IH]; intros Hk.
  - cbn. split; [done|]. intros j. destruct (decide (j < 0)%nat); [lia|done].
  - destruct IH as [Hlen IH]; [lia|].
    rewrite seq_S, foldl_app. cbn [foldl plus].
    set (l := foldl plumb_step events (seq 0 k)) in *.
    destruct (lookup_lt_is_Some_2 events k) as [[e1 a] H1]; [lia|].
    destruct (lookup_lt_is_Some_2 events (S k)) as [[e2 a2] H2]; [lia|].
    rewrite (plumb_step_insert l k e1 a e2 a2).
    + split; [by rewrite length_insert|]. intros j.
      destruct (decide (j = k)) as [->|Hne].
      * rewrite list_lookup_insert_eq by lia.
        destruct (decide (k < S k)%nat); [|lia].
        unfold plumbed. by rewrite H1, H2.
      * rewrite list_lookup_insert_ne by done. rewrite IH.
        destruct (decide (j < k)%nat), (decide (j < S k)%nat); try done; lia.
    + rewrite IH. destruct (decide (k < k)%nat); [lia|done].
    + rewrite IH. destruct (decide (S k < k)%nat); [lia|done].
Qed.

Lemma plumb_autograd_lookup (events : list (Event * (Z * Z))) i :
  plumb_autograd events !! i = plumbed events i.
Proof.
  unfold plumb_autograd.
  destruct (plumb_prefix events (length events - 1)) as [_ H]; [done|].
  rewrite H. destruct (decide (i < length events - 1)%nat); [done|].
  unfold plumbed. destruct (events !! i) as [[e1 a]|] eqn:H1; [|done].
  rewrite (lookup_ge_None_2 events (S i)); [done|].
  apply lookup_lt_Some in H1. lia.
Qed.

Lemma plumb_autograd_length (events : list (Event * (Z * Z))) :
  length (plumb_autograd events) = length events.
Proof. by apply (plumb_prefix events (length events - 1)). Qed.

(** The loop of [materialize], result by result. *)
Lemma materialize_loop_spec conv tid ki events :
  ∀ d js jm ea gf ins d',
  next_n kStrided type_name (length events) d = Some (ins, d') →
  ∃ out,
    materialize_loop kStrided type_name conv tid ki events d js jm ea gf
    = Some out ∧
    length out = length events ∧
    ∀ i m, out !! i = Some m →
      ∃ ev address inp,
        events !! i = Some (ev, address) ∧ ins !! i = Some inp ∧
        m = mkMaterialized (conv (start_time_ ev)) tid ki (basic_fields_ ev)
              (address_id (ev, address)) (conv (end_time_ ev)) inp
              (default [] (js !! i)) (default [] (jm !! i))
              (default ∅ (ea !! i))
              (default (mkFallbackPair None None) (gf !! i))
              (allow_tf32_cublas_ ev).
Proof.
  induction events as [|[ev [id_start offset]] rest IH];
    intros d js jm ea gf ins d' Hn; cbn [length next_n] in Hn.
  - exists []. split; [done|]. split; [done|]. intros i m Hi. done.
  - destruct (next_inputs kStrided type_name d) as [[inp d1]|] eqn:Hd;
      [|done]. cbn [mbind option_bind] in Hn.
    destruct (next_n kStrided type_name (length rest) d1) as [[ins1 d2]|]
      eqn:Hn1; [|done]. cbn in Hn. injection Hn as <- <-.
    cbn [materialize_loop]. rewrite Hd. cbn [mbind option_bind].
    destruct (IH d1 (tail js) (tail jm) (tail ea) (tail gf) ins1 d2 Hn1)
      as (out & Hout & Hlen & Hspec).
    exists (mkMaterialized (conv (start_time_ ev)) tid ki (basic_fields_ ev)
              (correlation_id id_start offset) (conv (end_time_ ev)) inp
              (default [] (js !! 0%nat)) (default [] (jm !! 0%nat))
              (default ∅ (ea !! 0%nat))
              (default (mkFallbackPair None None) (gf !! 0%nat))
              (allow_tf32_cublas_ ev) :: out).
    split; [|split].
    + destruct js, jm, ea, gf; cbn in *; by rewrite Hout.
    + cbn. by rewrite Hlen.
    + intros [|i] m Hi; cbn in Hi.
      * injection Hi as <-. by exists ev, (id_start, offset), inp.
      * destruct (Hspec i m Hi) as (ev' & a' & inp' & He & Hi' & ->).
        exists ev', a', inp'. split; [done|]. split; [done|].
        by rewrite <- !lookup_tail.
Qed.

(** The getter on an empty encoder. *)
Lemma next_n_empty n :
  next_n kStrided type_name n (mkDecoder [] [] [] [])
  = Some (replicate n (mkInputs [] [] [] [] []), mkDecoder [] [] [] []).
Proof. induction n as [|n IH]; [done|]. cbn. by rewrite IH. Qed.

Lemma extend_empty tags mds szs ivs :
  getNextShapesAndDtypes (extend (mkEncoder [] [] [] []) tags mds szs ivs)
  = mkDecoder (IValue := IValue) (tags ++ []) (mds ++ []) (szs ++ []) (ivs ++ []).
Proof. unfold getNextShapesAndDtypes, extend. cbn. by rewrite !app_nil_r. Qed.

(** [materialize] after the calls of [calls] on an empty subqueue: the
    result for every call. *)
Lemma materialize_spec conv tid ki calls counter_ counter' ids q :
  record_all counter_ empty_storage calls = (counter', ids, Returns q) →
  Forall (λ c : call, Forall (strides_match kStrided) (inputs c.1)) calls →
  ∃ out q',
    materialize kStrided type_name conv tid ki q = Some (out, q') ∧
    length out = length calls ∧
    ∀ i m, out !! i = Some m →
      ∃ ev address c,
        plumbed (elements (op_events_ q)) i = Some (ev, address) ∧
        (address_id <$> elements (op_events_ q)) !! i
        = Some (op_correlation_id_ m) ∧
        calls !! i = Some c ∧
        result_start_time_ns_ m = conv (approximate_time c.2) ∧
        op_basic_fields_ m = basic_fields_ ev ∧
        op_inputs_ m = (if report_input_shapes config_
                        then describe kStrided type_name (inputs c.1)
                        else mkInputs [] [] [] [] []) ∧
        op_jit_stack_ m
        = default [] (((λ c : call, callstack c.2)
                       <$> filter takes_stack calls) !! i) ∧
        op_jit_modules_ m
        = default [] (((λ c : call, module_hierarchy c.2)
                       <$> filter takes_modules calls) !! i).
Proof.
  intros Hrun Hst.
  apply record_all_Returns in Hrun
    as ((added & He & Hev & Hid) & Hp & Hs & Hm & Ha & Hg).
  cbn in He, Hs, Hm, Ha, Hg, Hp.
  assert (Hlen : length (elements (op_events_ q)) = length calls).
  { rewrite He. rewrite <- (length_fmap fst), Hev. by rewrite length_fmap. }
  assert (∃ d', next_n kStrided type_name (length calls)
                  (getNextShapesAndDtypes (inputs_outputs_ q))
                = Some ((λ c : call, if report_input_shapes config_
                             then describe kStrided type_name (inputs c.1)
                             else mkInputs [] [] [] [] []) <$> calls, d'))
    as [d' Hnext].
  { destruct (report_input_shapes config_).
    - apply (push_ops_next kStrided type_name) in Hp
        as (tags & mds & szs & ivs & -> & Hn).
      + rewrite extend_empty. rewrite length_fmap in Hn. rewrite Hn.
        eexists. by rewrite <- list_fmap_compose.
      + apply Forall_fmap. by eapply Forall_impl; [exact Hst|].
    - rewrite Hp. exists (mkDecoder [] [] [] []).
      unfold getNextShapesAndDtypes. cbn. rewrite next_n_empty. f_equal.
      f_equal. clear. induction calls as [|c cs IH]; [done|].
      cbn. by rewrite IH. }
  rewrite <- Hlen, <- (plumb_autograd_length (elements (op_events_ q)))
    in Hnext.
  destruct (materialize_loop_spec conv tid ki _ _ (jit_stack_ q)
              (jit_modules_ q) (extra_args_ q) (gpu_fallback_ q) _ _ Hnext)
    as (out & Hout & Hlo & Hspec).
  unfold materialize. rewrite Hout. cbn [mbind option_bind].
  eexists _, _. split; [done|].
  split; [by rewrite Hlo, plumb_autograd_length|].
  intros i m Him.
  destruct (Hspec i m Him) as (ev & address & inp & Hevi & Hinp & ->).
  rewrite plumb_autograd_lookup in Hevi.
  rewrite list_lookup_fmap in Hinp.
  destruct (calls !! i) as [c|] eqn:Hc; [|done]. cbn in Hinp.
  injection Hinp as <-.
  assert (Horig : ∃ e0, elements (op_events_ q) !! i = Some (e0, address) ∧
                        start_time_ ev = start_time_ e0).
  { unfold plumbed in Hevi.
    destruct (elements (op_events_ q) !! i) as [[e1 a1]|] eqn:H1; [|done].
    destruct (elements (op_events_ q) !! S i) as [[e2 a2]|].
    - injection Hevi as <- <-. exists e1. split; [done|].
      unfold plumb_pair.
      by destruct (bool_decide (scope_ (basic_fields_ e1) = FUNCTION)
                   && bool_decide (scope_ (basic_fields_ e2)
                                   = BACKWARD_FUNCTION)
                   && String.prefix "autograd::engine::evaluate_function: "
                                    (name_ (basic_fields_ e1))).
    - injection Hevi as <- <-. by exists e1. }
  destruct Horig as (e0 & He0 & Hstart).
  exists ev, address, c. cbn.
  split; [done|]. split; [by rewrite list_lookup_fmap, He0|].
  split; [done|]. split.
  { rewrite Hstart. f_equal.
    assert ((elements (op_events_ q)).*1 !! i = Some (event_of c)) as Hfst.
    { rewrite He. cbn. rewrite Hev, list_lookup_fmap, Hc. done. }
    rewrite list_lookup_fmap, He0 in Hfst. cbn in Hfst.
    by injection Hfst as ->. }
  split; [done|]. split; [done|]. by rewrite Hs, Hm.
Qed.

(** The side lists are read by position, whatever the decoder returns. *)
Lemma materialize_loop_side_lists conv tid ki events :
  ∀ d js jm ea gf out,
  materialize_loop kStrided type_name conv tid ki events d js jm ea gf
  = Some out →
  length out = length events ∧
  ∀ i m, out !! i = Some m →
    op_jit_stack_ m = default [] (js !! i) ∧
    op_jit_modules_ m = default [] (jm !! i) ∧
    op_extra_args_ m = default ∅ (ea !! i) ∧
    op_gpu_fallback_ m = default (mkFallbackPair None None) (gf !! i).
Proof.
  induction events as [|[ev [id_start offset]] rest IH];
    intros d js jm ea gf out H; cbn [materialize_loop] in H.
  - injection H as <-. split; [done|]. intros i m Hi. done.
  - destruct (next_inputs kStrided type_name d) as [[inp d1]|]; [|done].
    cbn [mbind option_bind] in H.
    destruct (StealOrDefault [] js) as [stack js'] eqn:Hjs.
    destruct (StealOrDefault [] jm) as [modules jm'] eqn:Hjm.
    destruct (StealOrDefault ∅ ea) as [args ea'] eqn:Hea.
    destruct (StealOrDefault (mkFallbackPair None None) gf) as [fb gf'] eqn:Hgf.
    destruct (materialize_loop kStrided type_name conv tid ki rest d1 js' jm'
                ea' gf') as [out1|] eqn:Hrest; [|done].
    cbn in H. injection H as <-.
    destruct (IH _ _ _ _ _ _ Hrest) as [Hlen Hspec].
    split; [cbn; by rewrite Hlen|].
    assert (Hsteal : ∀ {T} (dflt : T) (l l' : list T) x,
              StealOrDefault dflt l = (x, l') →
              x = default dflt (l !! 0%nat) ∧
              ∀ i, default dflt (l' !! i) = default dflt (l !! S i)).
    { intros T dflt [|y l] l' x [= <- <-]; by split. }
    apply Hsteal in Hjs as [-> Hjs], Hjm as [-> Hjm], Hea as [-> Hea],
      Hgf as [-> Hgf].
    intros [|i] m Hi; cbn in Hi.
    + by injection Hi as <-.
    + destruct (Hspec i m Hi) as (-> & -> & -> & ->).
      by rewrite Hjs, Hjm, Hea, Hgf.
Qed.

(** X19.  Collation pairs every event with the inputs recorded for it.
    After any run of [begin_op] on an empty subqueue, [materialize] returns
    one result per call, in order, and the result of a call carries the
    description of the inputs of that call (empty if input shapes are not
    recorded), the correlation id that [begin_op] returned for it and its
    converted start time. *)
Theorem materialize_inputs_align conv tid ki (calls : list call)
  counter_ counter' ids q :
  record_all counter_ empty_storage calls = (counter', ids, Returns q) →
  Forall (λ c : call, Forall (strides_match kStrided) (inputs c.1)) calls →
  ∃ out q',
    materialize kStrided type_name conv tid ki q = Some (out, q') ∧
    op_inputs_ <$> out
    = (λ c : call, if report_input_shapes config_
                   then describe kStrided type_name (inputs c.1)
                   else mkInputs [] [] [] [] []) <$> calls ∧
    op_correlation_id_ <$> out = ids ∧
    result_start_time_ns_ <$> out
    = (λ c : call, conv (approximate_time c.2)) <$> calls.
Proof.
  intros Hrun Hst.
  destruct (materialize_spec conv tid ki calls _ _ _ _ Hrun Hst)
    as (out & q' & Hm & Hlen & Hspec).
  apply record_all_Returns in Hrun as ((added & He & Hev & Hid) & _).
  cbn in He. exists out, q'. split; [done|].
  assert (Hpoint : ∀ {A} (f : Materialized → A) (g : call → A),
            (∀ i m c, out !! i = Some m → calls !! i = Some c → f m = g c) →
            f <$> out = g <$> calls).
  { intros A f g Hfg. apply list_eq. intros i. rewrite !list_lookup_fmap.
    destruct (out !! i) as [m|] eqn:Hm'.
    - destruct (Hspec i m Hm') as (_ & _ & c & _ & _ & Hc & _).
      rewrite Hc. cbn. f_equal. by eapply Hfg.
    - apply lookup_ge_None in Hm'. rewrite Hlen in Hm'.
      apply lookup_ge_None in Hm'. by rewrite Hm'. }
  split; [|split].
  - apply Hpoint. intros i m c Hi Hc.
    destruct (Hspec i m Hi) as (_ & _ & c' & _ & _ & Hc' & _ & _ & Hin & _).
    assert (c' = c) as -> by congruence. done.
  - rewrite <- Hid, <- He. apply list_eq. intros i.
    rewrite list_lookup_fmap.
    destruct (out !! i) as [m|] eqn:Hm'.
    + by destruct (Hspec i m Hm') as (_ & _ & _ & _ & -> & _).
    + cbn. symmetry. apply lookup_ge_None. rewrite length_fmap.
      apply lookup_ge_None in Hm'.
      rewrite He, <- (length_fmap fst), Hev, length_fmap. lia.
  - apply Hpoint. intros i m c Hi Hc.
    destruct (Hspec i m Hi) as (_ & _ & c' & _ & _ & Hc' & Hs & _).
    assert (c' = c) as -> by congruence. done.
Qed.

(** X20.  Call stacks and module hierarchies are handed out by position in
    their own lists.  [begin_op] stores them only for calls outside the
    backward scope, so the result at position [i] gets the call stack of the
    [i]-th call that stored one (an empty stack when there is none); the
    stacks are those of the calls themselves exactly when every call stored
    one. *)
Theorem materialize_stack_positions conv tid ki (calls : list call)
  counter_ counter' ids q out q' :
  record_all counter_ empty_storage calls = (counter', ids, Returns q) →
  materialize kStrided type_name conv tid ki q = Some (out, q') →
  op_jit_stack_ <$> out
  = (λ i, default [] (((λ c : call, callstack c.2)
                       <$> filter takes_stack calls) !! i))
    <$> seq 0 (length calls) ∧
  op_jit_modules_ <$> out
  = (λ i, default [] (((λ c : call, module_hierarchy c.2)
                       <$> filter takes_modules calls) !! i))
    <$> seq 0 (length calls) ∧
  (Forall takes_stack calls →
   op_jit_stack_ <$> out = (λ c : call, callstack c.2) <$> calls).
Proof.
  intros Hrun Hm.
  apply record_all_Returns in Hrun
    as ((added & He & Hev & _) & _ & Hs & Hmod & _).
  cbn in He, Hs, Hmod. unfold materialize in Hm.
  destruct (materialize_loop kStrided type_name conv tid ki
              (plumb_autograd (elements (op_events_ q)))
              (getNextShapesAndDtypes (inputs_outputs_ q)) (jit_stack_ q)
              (jit_modules_ q) (extra_args_ q) (gpu_fallback_ q))
    as [out0|] eqn:Hloop; [|done].
  cbn in Hm. injection Hm as <- <-.
  apply materialize_loop_side_lists in Hloop as [Hlen Hspec].
  rewrite plumb_autograd_length, He, <- (length_fmap fst), Hev, length_fmap
    in Hlen.
  assert (Hpoint : ∀ (f : Materialized → list string) (g : nat → list string),
            (∀ i m, out0 !! i = Some m → f m = g i) →
            f <$> out0 = g <$> seq 0 (length calls)).
  { intros f g Hfg. apply list_eq. intros i. rewrite !list_lookup_fmap.
    destruct (out0 !! i) as [m|] eqn:Hm'.
    - rewrite lookup_seq_lt by (apply lookup_lt_Some in Hm'; lia).
      cbn. f_equal. by apply Hfg.
    - apply lookup_ge_None in Hm'. by rewrite lookup_seq_ge by lia. }
  assert (H1 : op_jit_stack_ <$> out0
               = (λ i, default [] (((λ c : call, callstack c.2)
                                    <$> filter takes_stack calls) !! i))
                 <$> seq 0 (length calls)).
  { apply Hpoint. intros i m Hi. destruct (Hspec i m Hi) as (-> & _).
    by rewrite Hs. }
  split; [done|]. split.
  - apply Hpoint. intros i m Hi. destruct (Hspec i m Hi) as (_ & -> & _).
    by rewrite Hmod.
  - intros Hall. rewrite H1.
    assert (filter takes_stack calls = calls) as ->.
    { clear -Hall. induction Hall as [|c cs Hc _ IH]; [done|].
      rewrite filter_cons_True by done. by rewrite IH. }
    apply list_eq. intros i. rewrite !list_lookup_fmap.
    destruct (calls !! i) as [c|] eqn:Hc.
    + rewrite lookup_seq_lt by (apply lookup_lt_Some in Hc; lia).
      cbn. by rewrite list_lookup_fmap, Hc.
    + apply lookup_ge_None in Hc. by rewrite lookup_seq_ge by lia.
Qed.

(** X21.  The autograd loop of [materialize] gives an event the sequence
    number and the forward thread id of its successor when the event has
    scope FUNCTION, the successor has scope BACKWARD_FUNCTION and the name
    of the event starts with "autograd::engine::evaluate_function: ".  The
    loop runs in place, yet every event is compared with its successor as
    recorded; nothing else changes, the last event and the order
    included. *)
Theorem autograd_info_from_successor (events : list (Event * (Z * Z))) i :
  plumb_autograd events !! i
  = match events !! i, events !! S i with
    | Some (e1, address), Some (e2, _) => Some (plumb_pair e1 e2, address)
    | x, _ => x
    end.
Proof.
  unfold plumb_autograd.
  destruct (plumb_prefix events (length events - 1)) as [_ H]; [done|].
  rewrite H. destruct (decide (i < length events - 1)%nat); [done|].
  destruct (events !! i) as [[e1 a]|] eqn:H1; [|done].
  rewrite (lookup_ge_None_2 events (S i)); [done|].
  apply lookup_lt_Some in H1. lia.
Qed.

End CollationFacts.

Lemma materialize_inputs_align_witness :
  ∃ ids q out q',
    record_all 0 4 false 0 0 false example_config 0 empty_storage example_calls
    = (1, ids, Returns q) ∧
    ThreadLocalSubqueue.materialize 0 example_type_name (λ t, t * 1000) 1
      (0, 1) q = Some (out, q') ∧
    ThreadLocalSubqueue.op_correlation_id_ <$> out = [1; 2; 3] ∧
    ThreadLocalSubqueue.result_start_time_ns_ <$> out = [10000; 20000; 30000].
Proof.
  destruct (record_all 0 4 false 0 0 false example_config 0 empty_storage
              example_calls) as [[c ids] [q|q]] eqn:Hrun;
    [|by vm_compute in Hrun].
  destruct (materialize_inputs_align 0 example_type_name 4 false 0 0 false
              example_config (λ t, t * 1000) 1 (0, 1) example_calls 0 c ids q
              Hrun) as (out & q' & Hm & _ & Hids & Hstart).
  - repeat constructor; try done; intros _ _; reflexivity.
  - vm_compute in Hrun. injection Hrun as <- <- <-.
    eexists _, _, out, q'. split; [reflexivity|]. split; [exact Hm|].
    split; [exact Hids|exact Hstart].
Defined.

Lemma materialize_stack_positions_witness :
  ∃ ids q out q',
    record_all 0 4 false 0 0 false example_config 0 empty_storage example_calls
    = (1, ids, Returns q) ∧
    ThreadLocalSubqueue.materialize 0 example_type_name (λ t, t * 1000) 1
      (0, 1) q = Some (out, q') ∧
    ThreadLocalSubqueue.op_jit_stack_ <$> out = [["a.py:1"]; ["c.py:3"]; []].
Proof.
  destruct (record_all 0 4 false 0 0 false example_config 0 empty_storage
              example_calls) as [[c ids] [q|q]] eqn:Hrun;
    [|by vm_compute in Hrun].
  destruct (ThreadLocalSubqueue.materialize 0 example_type_name
              (λ t, t * 1000) 1 (0, 1) q) as [[out q']|] eqn:Hm.
  - destruct (materialize_stack_positions 0 example_type_name 4 false 0 0
                false example_config (λ t, t * 1000) 1 (0, 1) example_calls
                0 c ids q out q' Hrun Hm) as (Hs & _ & _).
    vm_compute in Hrun. injection Hrun as <- <- <-.
    eexists _, _, out, q'. split; [reflexivity|]. split; [exact Hm|].
    exact Hs.
  - vm_compute in Hrun. injection Hrun as <- <- <-. by vm_compute in Hm.
Defined.


Section EncoderTheorems.

Context {IValue : Type} `{!IValueOps IValue}.
Context (kStrided : Z) (type_name : Z → string).

(** X17.  The encoder round trip.  After [push] has been called for the
    inputs of a sequence of ops on an empty encoder, the getter returned by
    [getNextShapesAndDtypes], called once per op, yields for every op one
    entry per input value: sizes, strides (for strided tensors only),
    metadata and dtype name of a defined tensor that is not nested; the
    value itself for a scalar; the placeholder "TensorList" for a list of
    tensors; empty entries otherwise.  No read leaves the streams, and once
    they are used up the getter returns empty inputs. *)
Theorem encoder_round_trip (ops : list (list IValue)) enc :
  push_ops kStrided (mkEncoder [] [] [] []) ops = Returns enc →
  Forall (Forall (strides_match kStrided)) ops →
  next_n kStrided type_name (length ops) (getNextShapesAndDtypes enc)
  = Some (describe kStrided type_name <$> ops, mkDecoder [] [] [] []) ∧
  next_inputs kStrided type_name (mkDecoder [] [] [] [])
  = Some (mkInputs [] [] [] [] [], mkDecoder [] [] [] []).
Proof.
  intros Hp Hst. split; [|done].
  apply (push_ops_next kStrided type_name) in Hp
    as (tags & mds & szs & ivs & -> & Hn); [|done].
  unfold getNextShapesAndDtypes, extend. cbn.
  specialize (Hn [] [] [] []). by rewrite !app_nil_r in Hn.
Qed.

(** X18.  Whatever the streams hold, the vectors of an [Inputs] that the
    getter returns have one length: shapes, strides, values, dtype names
    and metadata can be read side by side. *)
Theorem decoded_inputs_aligned (d : decoder IValue) out d' :
  next_inputs kStrided type_name d = Some (out, d') →
  length (shapes_ out) = length (dtypes_ out) ∧
  length (strides_ out) = length (dtypes_ out) ∧
  length (inputs_ivalues_ out) = length (dtypes_ out) ∧
  length (inputs_tensor_metadata_ out) = length (dtypes_ out).
Proof.
  unfold next_inputs. intros H.
  by apply (next_loop_aligned kStrided type_name) in H.
Qed.

End EncoderTheorems.

Lemma encoder_round_trip_witness :
  ∃ enc outs,
    push_ops 0 (mkEncoder [] [] [] []) example_ops = Returns enc ∧
    next_n 0 example_type_name 2 (getNextShapesAndDtypes enc)
    = Some (outs, mkDecoder [] [] [] []) ∧
    shapes_ <$> outs = [[[2; 3]; []; []; [4; 4]]; [[]]] ∧
    strides_ <$> outs = [[[3; 1]; []; []; []]; [[]]] ∧
    dtypes_ <$> outs = [["float"; "Scalar"; "TensorList"; "double"]; [""]].
Proof.
  destruct (push_ops 0 (mkEncoder [] [] [] []) example_ops) as [enc|enc]
    eqn:Hp; [|by vm_compute in Hp].
  destruct (encoder_round_trip 0 example_type_name example_ops enc Hp)
    as [Hn _].
  - unfold example_ops.
    repeat first [apply Forall_nil_2 | apply Forall_cons_2
                 | (intros _ _; reflexivity)
                 | (intros _ Hl; by vm_compute in Hl)].
  - exists enc, (describe 0 example_type_name <$> example_ops).
    split; [done|]. split; [exact Hn|]. by vm_compute.
Defined.

Lemma decoded_inputs_aligned_witness :
  ∃ out d',
    next_inputs 0 example_type_name
      (mkDecoder [Tag.Scalar; Tag.TensorListBegin; Tag.Other; Tag.TERMINATOR;
                  Tag.TERMINATOR; Tag.Other]
                 [] [] [ExScalar 1]) = Some (out, d') ∧
    length (shapes_ out) = length (dtypes_ out) ∧
    dtypes_ out = ["Scalar"; "TensorList"].
Proof.
  destruct (next_inputs 0 example_type_name
              (mkDecoder [Tag.Scalar; Tag.TensorListBegin; Tag.Other;
                          Tag.TERMINATOR; Tag.TERMINATOR; Tag.Other]
                         [] [] [ExScalar 1])) as [[out d']|] eqn:H;
    [|by vm_compute in H].
  exists out, d'. split; [done|].
  split; [exact (proj1 (decoded_inputs_aligned 0 example_type_name _ _ _ H))|].
  vm_compute in H. by injection H as <- _.
Defined.

(** * Properties of the directory of subqueues *)

Section RecordQueueFacts.

Import RecordQueues.

(** The subqueue that the queue at [this] holds for [thread]. *)
Definition registered (p : process) (this : nat) (thread : Z) : option ptr :=
  q ← queues p !! this; sub_queues_ q !! thread.

(** What holds of the process between the calls. *)
Record directory_ok (p : process) : Prop := {
  ok_counter : 0 ≤ queue_id_ p < 2 ^ 32;
  ok_ids : ∀ h q, queues p !! h = Some q → 1 ≤ id_ q ≤ queue_id_ p;
  ok_unique : ∀ h h' q q',
    queues p !! h = Some q → queues p !! h' = Some q' →
    id_ q = id_ q' → h = h';
  ok_cache : ∀ t c, sub_queue_cache_ p !! t = Some c →
    0 ≤ key_ c ≤ queue_id_ p ∧
    ∀ h q, queues p !! h = Some q → id_ q = key_ c →
           ∃ s, ref_ c = Some s ∧ sub_queues_ q !! t = Some s;
  ok_live : ∀ h t s, registered p h t = Some s →
    subqueues p !! s = Some (Some t);
  ok_owner : ∀ h h' t t' s,
    registered p h t = Some s → registered p h' t' = Some s → h = h' }.

Lemma registered_Some p h t s :
  registered p h t = Some s ↔
  ∃ q, queues p !! h = Some q ∧ sub_queues_ q !! t = Some s.
Proof.
  unfold registered. destruct (queues p !! h) as [q|]; cbn.
  - split; [eauto|]. by intros (q' & [= <-] & ?).
  - split; [done|]. by intros (q' & ? & _).
Qed.

Lemma initial_ok : directory_ok initial.
Proof.
  split; cbn.
  - lia.
  - intros h q. by rewrite lookup_empty.
  - intros h h' q q'. by rewrite lookup_empty.
  - intros t c. by rewrite lookup_empty.
  - intros h t s. unfold registered. cbn. by rewrite lookup_empty.
  - intros h h' t t' s. unfold registered. cbn. by rewrite lookup_empty.
Qed.

Lemma new_ok p :
  directory_ok p → queue_id_ p + 1 < 2 ^ 32 →
  directory_ok (RecordQueue_new p).1 ∧
  queue_id_ (RecordQueue_new p).1 = queue_id_ p + 1.
Proof.
  intros [Hc Hids Huniq Hcache Hlive Hown] Hroom.
  unfold RecordQueue_new. cbn [fst].
  assert (Hid : wrap_uint32 (queue_id_ p + 1) = queue_id_ p + 1)
    by (unfold wrap_uint32; apply Z.mod_small; lia).
  rewrite Hid. split; [|done].
  set (this := fresh (dom (queues p))).
  assert (Hfresh : queues p !! this = None).
  { apply not_elem_of_dom. apply is_fresh. }
  assert (Hreg : ∀ h t s,
            registered (mkProcess (queue_id_ p + 1) (sub_queue_cache_ p)
                          (<[this := mkQueue (queue_id_ p + 1) ∅]> (queues p))
                          (subqueues p)) h t = Some s →
            registered p h t = Some s).
  { intros h t s (q & Hq & Hs)%registered_Some. cbn in Hq.
    apply registered_Some. rewrite lookup_insert in Hq.
    case_decide; [|by eauto]. injection Hq as <-. cbn in Hs.
    by rewrite lookup_empty in Hs. }
  split; cbn.
  - lia.
  - intros h q. rewrite lookup_insert. case_decide.
    + intros [= <-]. cbn. lia.
    + intros Hq. specialize (Hids h q Hq). lia.
  - intros h h' q q'. rewrite !lookup_insert. repeat case_decide.
    + congruence.
    + intros [= <-] Hq' Heq. cbn in Heq. specialize (Hids h' q' Hq'). lia.
    + intros Hq [= <-] Heq. cbn in Heq. specialize (Hids h q Hq). lia.
    + apply Huniq.
  - intros t c Hc'. destruct (Hcache t c Hc') as [Hk Hm]. split; [lia|].
    intros h q. rewrite lookup_insert. case_decide; [|by apply Hm].
    intros [= <-]. cbn. lia.
  - intros h t s Hr. by apply (Hlive h), Hreg.
  - intros h h' t t' s Hr Hr'. apply (Hown h h' t t' s); by apply Hreg.
Qed.

Lemma get_ok p this thread p' r :
  directory_ok p → getSubqueue p this thread = Some (p', r) →
  directory_ok p' ∧ queue_id_ p' = queue_id_ p ∧
  ∃ s, r = Some s ∧ registered p' this thread = Some s ∧
       (∀ s0, registered p this thread = Some s0 → s0 = s).
Proof.
  intros Hok H. pose proof Hok as [Hc Hids Huniq Hcache Hlive Hown].
  unfold getSubqueue in H.
  destruct (queues p !! this) as [q|] eqn:Hq; [|done]. cbn in H.
  destruct (Z.eqb_spec (id_ q)
              (key_ (default (mkCache 0 None) (sub_queue_cache_ p !! thread))))
    as [Hhit|Hmiss].
  - injection H as <- <-. split; [done|]. split; [done|].
    destruct (sub_queue_cache_ p !! thread) as [c|] eqn:Hcs; cbn in *.
    + destruct (Hcache thread c Hcs) as [_ Hm].
      destruct (Hm this q Hq Hhit) as (s & Href & Hs).
      exists s. split; [done|]. unfold registered. rewrite Hq. cbn.
      split; [done|]. congruence.
    + specialize (Hids this q Hq). lia.
  - destruct (sub_queues_ q !! thread) as [it|] eqn:Hit.
    + injection H as <- <-. split; [|split; [done|]].
      * split; cbn; try done.
        intros t c. rewrite lookup_insert. case_decide; [|by apply Hcache].
        intros [= <-]. cbn. subst t. split; [specialize (Hids this q Hq); lia|].
        intros h q' Hq' Heq.
        assert (h = this) as -> by (by eapply Huniq).
        assert (q' = q) as -> by congruence. eauto.
      * exists it. split; [done|]. unfold registered. cbn. rewrite Hq. cbn.
        split; [done|]. congruence.
    + injection H as <- <-.
      set (it := length (subqueues p)).
      set (q1 := mkQueue (id_ q) (<[thread := it]> (sub_queues_ q))).
      assert (Hreg : ∀ h t s,
                registered (mkProcess (queue_id_ p)
                  (<[thread := mkCache (id_ q) (Some it)]> (sub_queue_cache_ p))
                  (<[this := q1]> (queues p)) (subqueues p ++ [Some thread]))
                  h t = Some s →
                (h = this ∧ t = thread ∧ s = it) ∨ registered p h t = Some s).
      { intros h t s (q' & Hq' & Hs)%registered_Some. cbn in Hq'.
        rewrite lookup_insert in Hq'. case_decide.
        - injection Hq' as <-. subst h. cbn in Hs. rewrite lookup_insert in Hs.
          case_decide; [left; split; [done|]; split; congruence|].
          right. apply registered_Some. eauto.
        - right. apply registered_Some. eauto. }
      assert (Hold : ∀ h t s, registered p h t = Some s → (s < it)%nat).
      { intros h t s Hr. apply Hlive in Hr. by apply lookup_lt_Some in Hr. }
      split; [|split; [done|]].
      * split; cbn.
        -- done.
        -- intros h q'. rewrite lookup_insert. case_decide; [|by apply Hids].
           intros [= <-]. cbn. by apply (Hids this).
        -- intros h h' qa qb. rewrite !lookup_insert.
           repeat case_decide; try congruence.
           ++ intros [= <-] Hqb Heq. cbn in Heq. subst h.
              by apply (Huniq this h' q qb).
           ++ intros Hqa [= <-] Heq. cbn in Heq. subst h'.
              by apply (Huniq h this qa q).
           ++ apply Huniq.
        -- intros t c. rewrite lookup_insert. case_decide.
           ++ intros [= <-]. cbn. subst t.
              split; [specialize (Hids this q Hq); lia|].
              intros h q'. rewrite lookup_insert. case_decide.
              ** intros [= <-] _. exists it. cbn.
                 by rewrite lookup_insert_eq.
              ** intros Hq' Heq. exfalso.
                 by pose proof (Huniq h this q' q Hq' Hq Heq).
           ++ intros Hc'. destruct (Hcache t c Hc') as [Hk Hm].
              split; [done|]. intros h q'. rewrite lookup_insert.
              case_decide; [|by apply Hm].
              intros [= <-] Heq. cbn in Heq. subst h.
              destruct (Hm this q Hq Heq) as (s & Href & Hs).
              exists s. split; [done|]. cbn.
              by rewrite lookup_insert_ne.
        -- intros h t s Hr. apply Hreg in Hr as [(-> & -> & ->)|Hr].
           ++ by rewrite lookup_app_r, Nat.sub_diag.
           ++ rewrite lookup_app_l by (by eapply Hold). by eapply Hlive.
        -- intros h h' t t' s Hr Hr'.
           apply Hreg in Hr as [(-> & -> & ->)|Hr];
             apply Hreg in Hr' as [(-> & -> & Heq)|Hr']; try done.
           ++ apply Hold in Hr'. lia.
           ++ apply Hold in Hr. lia.
           ++ by eapply Hown.
      * exists it. split; [done|]. split.
        -- unfold registered. cbn. rewrite lookup_insert_eq. cbn.
           by rewrite lookup_insert_eq.
        -- unfold registered. rewrite Hq. cbn. congruence.
Qed.

Lemma delete_ok p this p' :
  directory_ok p → RecordQueue_delete p this = Some p' →
  directory_ok p' ∧ queue_id_ p' = queue_id_ p.
Proof.
  intros [Hc Hids Huniq Hcache Hlive Hown] H. unfold RecordQueue_delete in H.
  destruct (queues p !! this) as [q|] eqn:Hq; [|done]. cbn in H.
  injection H as <-. split; [|done].
  assert (Hreg : ∀ h t s,
            registered (mkProcess (queue_id_ p) (sub_queue_cache_ p)
               (delete this (queues p))
               (imap (λ s o, if decide (s ∈ (map_img (sub_queues_ q)
                                              : gset nat))
                             then None else o) (subqueues p))) h t = Some s →
            h ≠ this ∧ registered p h t = Some s).
  { intros h t s (q' & Hq' & Hs)%registered_Some. cbn in Hq'.
    apply lookup_delete_Some in Hq' as [Hne Hq']. split; [done|].
    apply registered_Some. eauto. }
  split; cbn.
  - done.
  - intros h q' [_ Hq']%lookup_delete_Some. by eapply Hids.
  - intros h h' qa qb [_ Ha]%lookup_delete_Some [_ Hb]%lookup_delete_Some.
    by eapply Huniq.
  - intros t c Hc'. destruct (Hcache t c Hc') as [Hk Hm]. split; [done|].
    intros h q' [_ Hq']%lookup_delete_Some. by apply (Hm h).
  - intros h t s Hr. apply Hreg in Hr as [Hne Hr].
    rewrite list_lookup_imap, (Hlive h t s Hr). cbn.
    destruct (decide (s ∈ (map_img (sub_queues_ q) : gset nat)))
      as [Hin|]; [|done].
    apply elem_of_map_img in Hin as [t' Ht'].
    exfalso. apply Hne. apply (Hown h this t t' s Hr).
    apply registered_Some. eauto.
  - intros h h' t t' s Hr Hr'. apply Hreg in Hr as [_ Hr].
    apply Hreg in Hr' as [_ Hr']. by eapply Hown.
Qed.

(** The calls that touch the directory. *)
Inductive directory_call :=
| New
| Get (this : nat) (thread : Z)
| Delete (this : nat).

Definition directory_step (p : process) (c : directory_call)
  : option process :=
  match c with
  | New => Some (RecordQueue_new p).1
  | Get this thread => fst <$> getSubqueue p this thread
  | Delete this => RecordQueue_delete p this
  end.

Fixpoint directory_run (p : process) (calls : list directory_call)
  : option process :=
  match calls with
  | [] => Some p
  | c :: rest => p' ← directory_step p c; directory_run p' rest
  end.

Lemma run_ok calls : ∀ p p',
  directory_ok p → queue_id_ p + Z.of_nat (length calls) < 2 ^ 32 →
  directory_run p calls = Some p' → directory_ok p'.
Proof.
  induction calls as [|c rest IH]; intros p p' Hok Hroom H; cbn in H.
  - by injection H as <-.
  - destruct (directory_step p c) as [p1|] eqn:Hstep; [|done]. cbn in H.
    cbn [length] in Hroom. rewrite Nat2Z.inj_succ in Hroom.
    assert (directory_ok p1 ∧ queue_id_ p1 ≤ queue_id_ p + 1) as [Hok1 Hle].
    { destruct c as [|this thread|this]; cbn in Hstep.
      - injection Hstep as <-. destruct (new_ok p Hok) as [Hn Heq]; [lia|].
        unfold RecordQueue_new in Hn, Heq. cbn in Hn, Heq.
        split; [exact Hn|cbn; lia].
      - destruct (getSubqueue p this thread) as [[p2 r]|] eqn:Hget; [|done].
        injection Hstep as <-.
        destruct (get_ok _ _ _ _ _ Hok Hget) as (? & Heq & _).
        split; [done|cbn; lia].
      - destruct (delete_ok _ _ _ Hok Hstep) as [? Heq]. split; [done|lia]. }
    apply (IH p1 p' Hok1); [lia|done].
Qed.

(** X22.  [getSubqueue] returns the calling thread's own subqueue.  Whatever
    queues were made and deleted and whichever threads asked for subqueues
    before (fewer than 2^32 calls in all, so that [queue_id_] has not wrapped
    around), a call on an existing queue returns a subqueue that is not
    freed, has the caller's thread id and is the one registered for the
    caller in this queue; no other queue and no other thread has it; it is
    the subqueue that was registered before the call if there was one. *)
Theorem getSubqueue_own_subqueue calls p this thread p' r :
  Z.of_nat (length calls) < 2 ^ 32 →
  directory_run initial calls = Some p →
  getSubqueue p this thread = Some (p', r) →
  ∃ s, r = Some s ∧
       subqueues p' !! s = Some (Some thread) ∧
       registered p' this thread = Some s ∧
       (∀ this' thread', registered p' this' thread' = Some s →
                         this' = this ∧ thread' = thread) ∧
       (∀ s0, registered p this thread = Some s0 → s0 = s).
Proof.
  intros Hroom Hrun Hget.
  assert (Hok : directory_ok p).
  { apply (run_ok calls initial p initial_ok); [cbn; lia|done]. }
  destruct (get_ok _ _ _ _ _ Hok Hget) as (Hok' & _ & s & -> & Hreg & Hold).
  exists s. split; [done|]. split; [by eapply ok_live|]. split; [done|].
  split; [|done]. intros this' thread' Hreg'.
  assert (this' = this) as -> by (by eapply ok_owner).
  split; [done|].
  pose proof (ok_live _ Hok' _ _ _ Hreg) as H1.
  pose proof (ok_live _ Hok' _ _ _ Hreg') as H2. congruence.
Qed.

End RecordQueueFacts.

Lemma getSubqueue_own_subqueue_witness :
  ∃ p p' s,
    directory_run RecordQueues.initial
      [New; Get 0 7; Get 0 8; Delete 0; New] = Some p ∧
    RecordQueues.getSubqueue p 0 7 = Some (p', Some s) ∧
    RecordQueues.subqueues p' !! s = Some (Some 7) ∧
    RecordQueues.subqueues p' !! 0%nat = Some None.
Proof.
  destruct (directory_run RecordQueues.initial
              [New; Get 0 7; Get 0 8; Delete 0; New]) as [p|] eqn:Hrun;
    [|by vm_compute in Hrun].
  destruct (RecordQueues.getSubqueue p 0 7) as [[p' r]|] eqn:Hget.
  - destruct (getSubqueue_own_subqueue
                [New; Get 0 7; Get 0 8; Delete 0; New] p 0%nat 7 p' r)
      as (s & -> & Hs & _); [by vm_compute|exact Hrun|exact Hget|].
    exists p, p', s. split; [done|]. split; [done|]. split; [done|].
    vm_compute in Hrun. injection Hrun as <-.
    vm_compute in Hget. by injection Hget as <- _.
  - vm_compute in Hrun. injection Hrun as <-. by vm_compute in Hget.
Defined.

(** * Further properties of the correlation ids *)

Section CorrelationOrder.

Context (ChunkSize : Z) (ChunkSize_pos : 0 < ChunkSize).

(** [seen tid id]: the thread [tid] has been given [id].  All ids given out
    lie below the base of the next block, and the ids of a thread lie below
    the next free id of its current block. *)
Record order_inv (st : session) (seen : Z → Z → Prop) : Prop := {
  oi_counter : 0 ≤ counter st;
  oi_below : ∀ tid id, seen tid id → id < 1 + ChunkSize * counter st;
  oi_block : ∀ tid b n, op_events_ st !! tid = Some (Some (b, n)) →
    1 ≤ b ∧ 0 ≤ n ≤ ChunkSize ∧ b + ChunkSize ≤ 1 + ChunkSize * counter st ∧
    ∀ id, seen tid id → id < b + n }.

Lemma begin_op_order st seen tid st' id :
  order_inv st seen → ChunkSize * (counter st + 1) < 2 ^ 64 →
  begin_op ChunkSize st tid = (st', id) →
  1 ≤ id ∧ (∀ id0, seen tid id0 → id0 < id) ∧
  counter st' ≤ counter st + 1 ∧
  order_inv st' (λ t x, seen t x ∨ (t = tid ∧ x = id)).
Proof.
  intros [Hc Hbelow Hblock] Hbound H.
  assert (Hnew : EventBlock_new ChunkSize (counter st) =
                 (1 + ChunkSize * counter st, counter st + 1)).
  { unfold EventBlock_new.
    rewrite (wrap_uint64_small (ChunkSize * counter st)) by nia.
    rewrite !wrap_uint64_small by nia. done. }
  assert (Hgrow : ∀ l, maybe_grow ChunkSize (counter st) l =
                       (counter st + 1, (1 + ChunkSize * counter st, 0)) →
                  default None (op_events_ st !! tid) = l →
                  1 ≤ id ∧ (∀ id0, seen tid id0 → id0 < id) ∧
                  counter st' ≤ counter st + 1 ∧
                  order_inv st' (λ t x, seen t x ∨ (t = tid ∧ x = id))).
  { intros l Hl Hdef. unfold begin_op, emplace_back in H.
    rewrite Hdef, Hl in H. unfold correlation_id in H.
    rewrite wrap_uint64_small in H by nia.
    injection H as <- <-. rewrite Z.add_0_r.
    split; [nia|]. split; [by intros id0 ?%Hbelow|]. cbn. split; [lia|].
    split; cbn.
    - lia.
    - intros t x [Hx%Hbelow|[_ ->]]; nia.
    - intros t b n. rewrite lookup_insert. case_decide as Ht.
      + intros [= <- <-]. split; [nia|]. split; [lia|]. split; [nia|].
        intros x [Hx|[_ ->]]; [|lia]. subst t. apply Hbelow in Hx. lia.
      + intros Ht'. destruct (Hblock t b n Ht') as (Hb & Hn & Hend & Hmine).
        split; [done|]. split; [done|]. split; [nia|].
        intros x [Hx|[-> _]]; [by apply Hmine|done]. }
  destruct (default None (op_events_ st !! tid)) as [[b n]|] eqn:Hdef.
  - assert (Htid : op_events_ st !! tid = Some (Some (b, n))).
    { destruct (op_events_ st !! tid) as [[?|]|]; cbn in Hdef; congruence. }
    destruct (Hblock _ _ _ Htid) as (Hb & Hn & Hend & Hmine).
    destruct (Z.ltb_spec n ChunkSize) as [Hlt|Hge].
    + unfold begin_op, emplace_back, maybe_grow in H.
      rewrite Hdef in H. destruct (Z.ltb_spec n ChunkSize); [|lia].
      unfold correlation_id in H. rewrite wrap_uint64_small in H by nia.
      injection H as <- <-.
      split; [lia|]. split; [done|]. cbn. split; [lia|].
      split; cbn.
      * done.
      * intros t x [Hx%Hbelow|[_ ->]]; [done|lia].
      * intros t b' n'. rewrite lookup_insert. case_decide as Ht.
        -- intros [= <- <-]. split; [done|]. split; [lia|]. split; [done|].
           intros x [Hx|[_ ->]]; [|lia]. subst t. apply Hmine in Hx. lia.
        -- intros Ht'.
           destruct (Hblock t b' n' Ht') as (Hb' & Hn' & Hend' & Hmine').
           split; [done|]. split; [done|]. split; [done|].
           intros x [Hx|[-> _]]; [by apply Hmine'|done].
    + apply (Hgrow (Some (b, n))); [|done].
      unfold maybe_grow. destruct (Z.ltb_spec n ChunkSize); [lia|].
      by rewrite Hnew.
  - apply (Hgrow None); [|done]. unfold maybe_grow. by rewrite Hnew.
Qed.

Lemma correlation_ids_order schedule : ∀ st seen,
  order_inv st seen →
  ChunkSize * (counter st + Z.of_nat (length schedule)) < 2 ^ 64 →
  (∀ i tid a, schedule !! i = Some tid →
     correlation_ids ChunkSize st schedule !! i = Some a →
     1 ≤ a ∧ ∀ id0, seen tid id0 → id0 < a) ∧
  (∀ i j tid a b, (i < j)%nat →
     schedule !! i = Some tid → schedule !! j = Some tid →
     correlation_ids ChunkSize st schedule !! i = Some a →
     correlation_ids ChunkSize st schedule !! j = Some b → a < b).
Proof.
  induction schedule as [|tid rest IH]; intros st seen Hinv Hbound.
  { split; intros; done. }
  cbn [correlation_ids length] in *. rewrite Nat2Z.inj_succ in Hbound.
  pose proof (Nat2Z.is_nonneg (length rest)) as Hlen.
  pose proof (oi_counter _ _ Hinv) as Hc.
  destruct (begin_op ChunkSize st tid) as [st' id] eqn:Hstep.
  destruct (begin_op_order st seen tid st' id Hinv) as
    (Hpos & Hnew & Hcnt & Hinv'); [nia|done|].
  destruct (IH st' _ Hinv') as [Hfirst Hpairs]; [nia|].
  split.
  - intros [|i] t a Ht Ha; cbn in Ht, Ha.
    + injection Ht as <-. injection Ha as <-. done.
    + destruct (Hfirst i t a Ht Ha) as [H1 H2]. split; [done|].
      intros id0 Hid0. apply H2. by left.
  - intros [|i] [|j] t a b Hij Hi Hj Ha Hb; cbn in Hi, Hj, Ha, Hb; try lia.
    + injection Hi as <-. injection Ha as <-.
      destruct (Hfirst j tid b Hj Hb) as [_ H2]. apply H2. by right.
    + apply (Hpairs i j t a b); [lia|done..].
Qed.

End CorrelationOrder.

(** X23.  The correlation ids of one thread increase.  In a session whose
    block counter starts at [c0], whatever the interleaving of the threads,
    an id that a thread is given is greater than every id the same thread
    was given before, and no id is 0 (which [kinetoEventCorrelationID]
    reads as "no correlation id"), as long as the 64-bit ids do not wrap
    around.  (Across threads the ids are not ordered.) *)
Theorem correlation_ids_increase_per_thread ChunkSize c0
  (schedule : list Z) :
  0 < ChunkSize → 0 ≤ c0 →
  ChunkSize * (c0 + Z.of_nat (length schedule)) < 2 ^ 64 →
  Forall (λ id, 1 ≤ id) (correlation_ids ChunkSize (mkSession c0 ∅) schedule) ∧
  ∀ i j tid a b, (i < j)%nat →
    schedule !! i = Some tid → schedule !! j = Some tid →
    correlation_ids ChunkSize (mkSession c0 ∅) schedule !! i = Some a →
    correlation_ids ChunkSize (mkSession c0 ∅) schedule !! j = Some b →
    a < b.
Proof.
  intros Hcs Hc0 Hbound.
  destruct (correlation_ids_order ChunkSize Hcs schedule (mkSession c0 ∅)
              (λ _ _, False)) as [Hfirst Hpairs]; [|done|].
  { split; cbn; [done|done|]. intros tid b n. by rewrite lookup_empty. }
  split; [|done]. apply Forall_lookup. intros i a Ha.
  assert (is_Some (schedule !! i)) as [tid Ht].
  { apply lookup_lt_is_Some. apply lookup_lt_Some in Ha.
    clear -Ha. revert i Ha.
    generalize (mkSession c0 ∅).
    induction schedule as [|t rest IH]; intros st i Ha; cbn in *; [lia|].
    destruct (begin_op ChunkSize st t) as [st' id]. cbn in Ha.
    destruct i as [|i]; [lia|]. apply Nat.succ_lt_mono in Ha.
    specialize (IH st' i Ha). lia. }
  by destruct (Hfirst i tid a Ht Ha).
Qed.

Lemma correlation_ids_increase_per_thread_witness :
  correlation_ids 4 (mkSession 0 ∅) [1; 2; 1; 1; 1; 1; 2; 3; 1]
  = [1; 5; 2; 3; 4; 9; 6; 13; 10] ∧ 4 < 9.
Proof.
  split; [vm_compute; reflexivity|].
  refine (proj2 (correlation_ids_increase_per_thread 4 0
                   [1; 2; 1; 1; 1; 1; 2; 3; 1] _ _ _)
            4%nat 5%nat 1 4 9 _ _ _ _ _); try reflexivity; lia.
Defined.

(** * The identities and the tree *)

(** An event and a store without the identities. *)
Definition erase_result (r : Result) : Result :=
  mkResult (start_time_ns_ r) (start_tid_ r) (erase_ids (extra_fields_ r))
           (finished_ r) (parent_ r) (children_ r).

Definition erase_store (s : store) : store := erase_result <$> s.

Definition outcome_map {A B} (f : A → B) (m : outcome A) : outcome B :=
  match m with
  | Ok a => Ok (f a)
  | Err e => Err e
  end.

Lemma ids_only_erase (s s' : store) :
  ids_only s s' → erase_store s' = erase_store s.
Proof.
  intros [Hl H]. apply list_eq. intros i. unfold erase_store.
  rewrite !list_lookup_fmap. destruct (s !! i) as [r|] eqn:Hr.
  - destruct (H i r Hr) as (r' & -> & Hs & Ht & Hf & Hp & Hc & Hx). cbn.
    unfold erase_result. by rewrite Hs, Ht, Hf, Hp, Hc, Hx.
  - apply lookup_ge_None in Hr. rewrite <- Hl in Hr.
    apply lookup_ge_None in Hr. by rewrite Hr.
Qed.

Lemma erase_ids_only (s s' : store) :
  erase_store s' = erase_store s → ids_only s s'.
Proof.
  intros H. split.
  - apply (f_equal length) in H. unfold erase_store in H.
    by rewrite !length_fmap in H.
  - intros y ry Hy.
    assert (erase_store s' !! y = Some (erase_result ry)) as Hy'.
    { rewrite H. unfold erase_store. by rewrite list_lookup_fmap, Hy. }
    unfold erase_store in Hy'. rewrite list_lookup_fmap in Hy'.
    destruct (s' !! y) as [ry'|]; [|done]. cbn in Hy'.
    injection Hy' as ? ? ? ? ? ?. by exists ry'.
Qed.

Section EraseTree.

Context (raises : bool).

Lemma deref_erase (s : store) p :
  deref (erase_store s) p = outcome_map erase_result (deref s p).
Proof.
  unfold deref, erase_store. rewrite list_lookup_fmap.
  by destruct (s !! p).
Qed.

Lemma erase_insert (s : store) p r :
  <[p := erase_result r]> (erase_store s) = erase_store (<[p := r]> s).
Proof. unfold erase_store. by rewrite list_fmap_insert. Qed.

Lemma own_end_erase r : own_end_ns (erase_result r) = own_end_ns r.
Proof. unfold own_end_ns. cbn. by destruct (extra_fields_ r). Qed.

Lemma endTimeNS_erase fuel : ∀ (s : store) p,
  endTimeNS raises fuel (erase_store s) p = endTimeNS raises fuel s p.
Proof.
  induction fuel as [|fuel IH]; intros s p; [done|].
  cbn [endTimeNS]. rewrite deref_erase.
  destruct (deref s p) as [r|]; [|done]. cbn.
  destruct (extra_fields_ r) as [e| | | | | |] eqn:Hx; cbn; try done.
  - destruct (finished_ r && (end_time_ns_ e =? time_min)); [|done].
    destruct (parent_ r); [|done]. by rewrite IH.
  - unfold own_end_ns. cbn. by rewrite Hx.
  - unfold own_end_ns. cbn. by rewrite Hx.
  - unfold own_end_ns. cbn. by rewrite Hx.
  - unfold own_end_ns. cbn. by rewrite Hx.
  - unfold own_end_ns. cbn. by rewrite Hx.
  - unfold own_end_ns. cbn. by rewrite Hx.
Qed.

Lemma end_ns_erase (s : store) p :
  end_ns raises (erase_store s) p = end_ns raises s p.
Proof.
  unfold end_ns, chain_fuel, erase_store at 1. rewrite length_fmap.
  apply endTimeNS_erase.
Qed.

Definition erase_state (st : bt_state) : bt_state :=
  mkBt (erase_store (bt_store st)) (stacks st) (end_events_ st).

Ltac osimpl :=
  cbn [outcome_map mbind outcome_bind check negb erase_result erase_state
       finished_ parent_ children_ start_time_ns_ start_tid_ extra_fields_
       bt_store stacks end_events_ fst snd].

Lemma mark_finished_erase (s : store) p :
  mark_finished raises (erase_store s) p
  = outcome_map erase_store (mark_finished raises s p).
Proof.
  unfold mark_finished. rewrite deref_erase.
  destruct (deref s p) as [r|]; [|done]. osimpl.
  destruct (finished_ r); [done|]. osimpl.
  change (set_finished (erase_result r)) with (erase_result (set_finished r)).
  rewrite erase_insert, end_ns_erase.
  destruct (end_ns raises (<[p := set_finished r]> s) p) as [e|]; [|done].
  osimpl. by destruct (start_time_ns_ r <=? e).
Qed.

Lemma heap_push_erase (s : store) heap event key :
  heap_push raises (erase_store s) heap event key
  = heap_push raises s heap event key.
Proof.
  induction heap as [|top rest IH]; [done|]. cbn [heap_push].
  rewrite end_ns_erase, IH. done.
Qed.

Lemma check_children_finished_erase (s : store) cs :
  check_children_finished (erase_store s) cs = check_children_finished s cs.
Proof.
  induction cs as [|c cs IH]; [done|]. cbn [check_children_finished].
  rewrite deref_erase, IH. by destruct (deref s c).
Qed.

Lemma attach_erase (s : store) event p :
  attach (erase_store s) event p = outcome_map erase_store (attach s event p).
Proof.
  unfold attach. rewrite deref_erase.
  destruct (deref s event) as [r|]; [|done]. osimpl.
  change (set_parent (Some p) (erase_result r))
    with (erase_result (set_parent (Some p) r)).
  rewrite erase_insert, deref_erase.
  destruct (deref (<[event := set_parent (Some p) r]> s) p) as [rp|]; [|done].
  osimpl. change (push_child event (erase_result rp))
    with (erase_result (push_child event rp)).
  by rewrite erase_insert.
Qed.

Lemma push_event_erase st event :
  push_event raises (erase_state st) event
  = outcome_map erase_state (push_event raises st event).
Proof.
  unfold push_event. cbn [erase_state bt_store stacks end_events_].
  rewrite deref_erase. destruct (deref (bt_store st) event) as [r|]; [|done].
  cbn [outcome_map mbind outcome_bind].
  assert (is_kineto (erase_result r) = is_kineto r) as ->
    by (unfold is_kineto; cbn; by destruct (extra_fields_ r)).
  cbn [erase_result finished_ parent_ children_ start_time_ns_ start_tid_].
  destruct (is_kineto r && finished_ r); [done|].
  destruct (check (bool_decide (parent_ r = None))); [|done]. osimpl.
  rewrite check_children_finished_erase.
  destruct (check_children_finished (bt_store st) (children_ r)); [|done]. osimpl.
  destruct (check (negb (finished_ r))); [|done]. osimpl.
  assert (find_parent (stacks st) (erase_result r)
          = find_parent (stacks st) r) as ->.
  { unfold find_parent, fwd_tid. cbn. by destruct (extra_fields_ r). }
  assert (match find_parent (stacks st) r with
          | Some p => attach (erase_store (bt_store st)) event p
          | None => Ok (erase_store (bt_store st))
          end
          = outcome_map erase_store
              match find_parent (stacks st) r with
              | Some p => attach (bt_store st) event p
              | None => Ok (bt_store st)
              end) as ->.
  { destruct (find_parent (stacks st) r); [apply attach_erase|done]. }
  destruct (match find_parent (stacks st) r with
            | Some p => attach (bt_store st) event p
            | None => Ok (bt_store st)
            end) as [s1|]; [|done]. osimpl.
  rewrite end_ns_erase. destruct (end_ns raises s1 event) as [e|]; [|done].
  osimpl. destruct (start_time_ns_ r <? e).
  - rewrite heap_push_erase.
    by destruct (heap_push raises s1 (end_events_ st) event e).
  - destruct (e =? time_min); [done|].
    rewrite mark_finished_erase.
    by destruct (mark_finished raises s1 event).
Qed.

Lemma finish_frames_erase fuel : ∀ (s : store) frame event,
  finish_frames raises fuel (erase_store s) frame event
  = outcome_map erase_store (finish_frames raises fuel s frame event).
Proof.
  induction fuel as [|fuel IH]; intros s frame event; cbn [finish_frames].
  - by destruct (bool_decide (frame = event)).
  - destruct (bool_decide (frame = event)); [done|].
    rewrite mark_finished_erase.
    destruct (mark_finished raises s frame) as [s'|]; [|done]. osimpl.
    rewrite deref_erase. destruct (deref s' frame) as [r|]; [|done]. osimpl.
    destruct (parent_ r); [apply IH|done].
Qed.

Lemma pop_event_erase (s : store) (stk : gmap Z ptr) event :
  pop_event raises (erase_store s) stk event
  = outcome_map (λ x, (erase_store x.1, x.2)) (pop_event raises s stk event).
Proof.
  unfold pop_event. rewrite deref_erase.
  destruct (deref s event) as [r|]; [|done]. osimpl.
  destruct (finished_ r); [done|].
  destruct (stk !! start_tid_ r) as [f|]; [|done]. osimpl.
  unfold erase_store at 1. rewrite length_fmap.
  rewrite finish_frames_erase.
  destruct (finish_frames raises (length s) s f event) as [s1|]; [|done]. osimpl.
  rewrite mark_finished_erase.
  destruct (mark_finished raises s1 event) as [s2|]; [|done]. osimpl.
  rewrite deref_erase. destruct (deref s2 event) as [r2|]; [|done]. osimpl.
  by destruct (parent_ r2).
Qed.

Lemma close_before_erase heap t : ∀ (s : store) (stk : gmap Z ptr),
  close_before raises (erase_store s) stk heap t
  = outcome_map erase_state (close_before raises s stk heap t).
Proof.
  induction heap as [|top rest IH]; intros s stk; [done|].
  rewrite !close_before_cons. rewrite end_ns_erase.
  destruct (end_ns raises s top) as [e|]; [|done]. osimpl.
  destruct (e <? t); [|done]. rewrite pop_event_erase.
  destruct (pop_event raises s stk top) as [[s1 stk1]|]; [|done]. osimpl.
  apply IH.
Qed.

Lemma close_all_erase heap : ∀ (s : store) (stk : gmap Z ptr),
  close_all raises (erase_store s) stk heap
  = outcome_map erase_state (close_all raises s stk heap).
Proof.
  induction heap as [|top rest IH]; intros s stk; [done|].
  cbn [close_all]. rewrite pop_event_erase.
  destruct (pop_event raises s stk top) as [[s1 stk1]|]; [|done]. osimpl.
  apply IH.
Qed.

Lemma replay_erase events : ∀ st,
  replay raises (erase_state st) events
  = outcome_map erase_state (replay raises st events).
Proof.
  induction events as [|event rest IH]; intros st; [done|].
  cbn [replay]. unfold replay_step.
  cbn [erase_state bt_store stacks end_events_].
  rewrite deref_erase. destruct (deref (bt_store st) event) as [r|]; [|done].
  osimpl. rewrite close_before_erase.
  destruct (close_before raises (bt_store st) (stacks st) (end_events_ st)
              (start_time_ns_ r)) as [st1|]; [|done]. osimpl.
  rewrite push_event_erase.
  destruct (push_event raises st1 event) as [st2|]; [|done]. osimpl.
  apply IH.
Qed.

Lemma build_tree_erase (s : store) sorted_events :
  build_tree raises (erase_store s) sorted_events
  = outcome_map erase_store (build_tree raises s sorted_events).
Proof.
  unfold build_tree, build_tree_state.
  change (mkBt (erase_store s) ∅ []) with (erase_state (mkBt s ∅ [])).
  rewrite replay_erase.
  destruct (replay raises (mkBt s ∅ []) sorted_events) as [st|]; [|done].
  osimpl. rewrite close_all_erase.
  by destruct (close_all raises (bt_store st) (stacks st) (end_events_ st)).
Qed.

End EraseTree.

(** X24.  The identities do not change the tree.  Whether or not
    [getRecords] computes buffer identities between the sort and
    [build_tree], [build_tree] succeeds or fails alike, and the two
    resulting stores agree in everything but the [id_] fields: parents,
    children, finished flags, times and thread ids are the same. *)
Theorem identities_leave_tree_alone raises (s : store) out :
  (∀ e, e ∈ out → is_Some (s !! e)) →
  match sort_identify_build raises true true s out,
        sort_and_build raises s out with
  | Ok t1, Ok t => ids_only t t1
  | Err e1, Err e => e1 = e
  | _, _ => False
  end.
Proof.
  intros Hvalid. unfold sort_identify_build, sort_and_build. cbn [andb].
  destruct (tensor_ids_complete s (stable_sort s out)) as [s1 Hs1].
  { intros e He. apply Hvalid. by apply stable_sort_elem in He. }
  rewrite Hs1. cbn [mbind outcome_bind].
  assert (ids_only s s1) as Hids.
  { unfold calculate_unique_tensor_ids in Hs1. ok_bind Hs1 as c E.
    by apply write_back_ids_only in Hs1. }
  pose proof (build_tree_erase raises s (stable_sort s out)) as H.
  pose proof (build_tree_erase raises s1 (stable_sort s out)) as H1.
  rewrite (ids_only_erase _ _ Hids), H in H1.
  destruct (build_tree raises s1 (stable_sort s out)) as [t1|e1],
           (build_tree raises s (stable_sort s out)) as [t|e]; cbn in H1;
    try done.
  - apply erase_ids_only. by injection H1.
  - by injection H1.
Qed.

Lemma identities_leave_tree_alone_witness :
  ∃ t1 t, sort_identify_build false true true two_buffers_store [0; 1; 2]%nat
          = Ok t1 ∧
          sort_and_build false two_buffers_store [0; 1; 2]%nat = Ok t ∧
          ids_only t t1 ∧ allocation_id t1 1 = Some 0 ∧
          allocation_id t 1 = None.
Proof.
  pose proof (identities_leave_tree_alone false two_buffers_store
                [0; 1; 2]%nat) as H.
  destruct (sort_identify_build false true true two_buffers_store
              [0; 1; 2]%nat) as [t1|] eqn:H1; [|by vm_compute in H1].
  destruct (sort_and_build false two_buffers_store [0; 1; 2]%nat) as [t|]
    eqn:H2; [|by vm_compute in H2].
  exists t1, t. split; [done|]. split; [done|]. split.
  - apply H. intros e He. apply lookup_lt_is_Some.
    apply list_elem_of_In in He. cbn in *. lia.
  - vm_compute in H1, H2. injection H1 as <-. injection H2 as <-. by split.
Defined.

(** * The final identities are compact *)

(** [n] final ids are in use, and they are the numbers below [n]. *)
Definition compact (acc : Z * gmap Z Z) : Prop :=
  0 ≤ acc.1 ∧
  (∀ sid v, acc.2 !! sid = Some v → 0 ≤ v < acc.1) ∧
  (∀ w, 0 ≤ w < acc.1 → ∃ sid, acc.2 !! sid = Some w).

Lemma coalesce_step_compact acc i :
  compact acc → acc.1 + 1 < 2 ^ 64 →
  compact (coalesce_step acc i) ∧
  (coalesce_step acc i).1 ≤ acc.1 + 1 ∧
  ∀ sid, is_Some ((coalesce_step acc i).2 !! sid) →
         is_Some (acc.2 !! sid) ∨ sid = i.1 ∨ sid = i.2.
Proof.
  destruct acc as [n m]. intros (Hn & Hval & Hsur) Hroom. cbn in *.
  unfold coalesce_step, compact. cbn [fst snd].
  destruct (m !! i.1) as [v|] eqn:H1.
  - destruct (m !! i.2) as [w|] eqn:H2; cbn [fst snd].
    + split; [done|]. split; [lia|]. by left.
    + split; [|split; [lia|]].
      * split; [done|]. split.
        -- intros sid x. rewrite lookup_insert. case_decide; [|by apply Hval].
           intros [= <-]. by eapply Hval.
        -- intros x Hx. destruct (Hsur x Hx) as [sid Hsid]. exists sid.
           rewrite lookup_insert_ne; [done|]. intros <-. congruence.
      * intros sid [x Hx]. rewrite lookup_insert in Hx.
        case_decide; [by right; right|]. left. by eexists.
  - assert (Hw : wrap_uint64 (n + 1) = n + 1)
      by (apply wrap_uint64_small; lia).
    rewrite Hw.
    assert (Hbase : compact (n + 1, <[i.1 := n]> m)).
    { unfold compact. split; [cbn; lia|]. split; cbn.
      - intros sid x. rewrite lookup_insert. case_decide.
        + intros [= <-]. lia.
        + intros Hx%Hval. lia.
      - intros x Hx. destruct (decide (x = n)) as [->|Hne].
        + exists i.1. by rewrite lookup_insert_eq.
        + destruct (Hsur x) as [sid Hsid]; [lia|]. exists sid.
          rewrite lookup_insert_ne; [done|]. intros <-. congruence. }
    destruct (<[i.1 := n]> m !! i.2) as [w|] eqn:H2; cbn [fst snd].
    + split; [done|]. split; [lia|].
      intros sid [x Hx]. rewrite lookup_insert in Hx.
      case_decide; [by right; left|]. left. by eexists.
    + destruct Hbase as (Hn' & Hval' & Hsur'). cbn in *.
      split; [|split; [lia|]].
      * split; [cbn; lia|]. split; cbn.
        -- intros sid x. rewrite lookup_insert. case_decide; [|by apply Hval'].
           intros [= <-]. lia.
        -- intros x Hx. destruct (Hsur' x Hx) as [sid Hsid]. exists sid.
           rewrite lookup_insert_ne; [done|]. intros <-. congruence.
      * intros sid [x Hx]. rewrite !lookup_insert in Hx.
        repeat case_decide; [by right; right|by right; left|].
        left. by eexists.
Qed.

Lemma coalesce_fold_compact l : ∀ acc,
  compact acc → acc.1 + Z.of_nat (length l) < 2 ^ 64 →
  compact (foldl coalesce_step acc l) ∧
  ∀ sid, is_Some ((foldl coalesce_step acc l).2 !! sid) →
         is_Some (acc.2 !! sid) ∨ ∃ i, i ∈ l ∧ (sid = i.1 ∨ sid = i.2).
Proof.
  induction l as [|i l IH]; intros acc Hc Hroom; cbn [foldl].
  - split; [done|]. by left.
  - cbn [length] in Hroom. rewrite Nat2Z.inj_succ in Hroom.
    destruct (coalesce_step_compact acc i Hc) as (Hc1 & Hle & Hk1); [lia|].
    destruct (IH (coalesce_step acc i) Hc1) as [Hc2 Hk2]; [lia|].
    split; [done|]. intros sid Hsid.
    destruct (Hk2 sid Hsid) as [H1|(j & Hj & Hs)].
    + destruct (Hk1 sid H1) as [?|Hs]; [by left|].
      right. exists i. split; [by left|done].
    + right. exists j. split; [by right|done].
Qed.

Lemma insert_pair_length x l : length (insert_pair x l) = S (length l).
Proof.
  induction l as [|y l IH]; cbn; [done|].
  destruct (pair_leb x y); cbn; [done|]. by rewrite IH.
Qed.

Lemma sort_pairs_length l : length (sort_pairs l) = length l.
Proof.
  unfold sort_pairs. induction l as [|x l IH]; cbn; [done|].
  by rewrite insert_pair_length, IH.
Qed.

(** The final ids are the numbers below their count, and only storage ids
    on an edge of [same_group] have one. *)
Lemma coalesce_compact (G : gset (Z * Z)) :
  Z.of_nat (size G) < 2 ^ 64 →
  (∀ sid v, coalesce G !! sid = Some v →
     0 ≤ v ∧ ∀ w, 0 ≤ w ≤ v → ∃ sid', coalesce G !! sid' = Some w) ∧
  (∀ sid, is_Some (coalesce G !! sid) →
     ∃ edge, edge ∈ G ∧ (sid = edge.1 ∨ sid = edge.2)).
Proof.
  intros Hsize. unfold coalesce.
  destruct (coalesce_fold_compact (sort_pairs (elements G)) (0, ∅))
    as [(Hn & Hval & Hsur) Hkeys].
  { split; [done|]. split; cbn.
    - intros sid v. by rewrite lookup_empty.
    - intros w Hw. lia. }
  { cbn. by rewrite sort_pairs_length. }
  split.
  - intros sid v Hv. destruct (Hval sid v Hv) as [H0 Hlt]. split; [done|].
    intros w Hw. apply Hsur. lia.
  - intros sid Hsid. destruct (Hkeys sid Hsid) as [[x Hx]|(i & Hi & Hs)].
    + cbn in Hx. by rewrite lookup_empty in Hx.
    + exists i. split; [|done].
      by apply elem_of_elements, sort_pairs_elem.
Qed.

(** The edges of [same_group_set] join storage ids of pairs of [ts]. *)
Lemma group_fold_sids ts : ∀ acc (sids : Z → Prop),
  (∀ impl sid, acc.1 !! impl = Some sid → sids sid) →
  (∀ edge, edge ∈ acc.2 → sids edge.1 ∧ sids edge.2) →
  (∀ t, t ∈ ts → sids (storage_id_ t)) →
  ∀ edge, edge ∈ (foldl group_step acc ts).2 → sids edge.1 ∧ sids edge.2.
Proof.
  induction ts as [|t ts IH]; intros acc sids Hmap Hedges Hts; [done|].
  cbn [foldl]. apply IH.
  - unfold group_step. destruct (pair_impl_ t =? 0); [done|]. cbn.
    intros impl sid. rewrite lookup_insert. case_decide; [|by apply Hmap].
    intros [= <-]. destruct (acc.1 !! pair_impl_ t) as [f|] eqn:Hf; cbn.
    + by eapply Hmap.
    + apply Hts. by left.
  - unfold group_step. destruct (pair_impl_ t =? 0); [done|]. cbn.
    assert (sids (default (storage_id_ t) (acc.1 !! pair_impl_ t))) as Hfirst.
    { destruct (acc.1 !! pair_impl_ t) as [f|] eqn:Hf; cbn.
      - by eapply Hmap.
      - apply Hts. by left. }
    assert (sids (storage_id_ t)) as Hsid by (apply Hts; by left).
    intros edge [->%elem_of_singleton|He]%elem_of_union; [|by apply Hedges].
    by destruct (default (storage_id_ t) (acc.1 !! pair_impl_ t)
                 <? storage_id_ t).
  - intros t' Ht'. apply Hts. by right.
Qed.

(** X25.  The identities are compact.  On a store without identities, the
    identities that [calculate_unique_tensor_ids] hands out are 0, 1, 2, ...
    without a gap: if a reference gets [v], every number from 0 to [v] is
    the identity of some reference.  (Events are distinct and there are
    fewer than 2^64 edges between storage ids.) *)
Theorem identities_are_compact (s s' : store) sorted_results c ref v :
  NoDup sorted_results →
  cluster_by_address s sorted_results = Ok c →
  Z.of_nat (size (same_group_set (prune c))) < 2 ^ 64 →
  (∀ ref0, id_at s ref0 = None) →
  calculate_unique_tensor_ids s sorted_results = Ok s' →
  id_at s' ref = Some v →
  0 ≤ v ∧ ∀ w, 0 ≤ w ≤ v → ∃ ref', id_at s' ref' = Some w.
Proof.
  intros Hnd Hc Hsize Hnone H Hv.
  destruct (coalesce_compact _ Hsize) as [Hcompact Hkeys].
  assert (Hwritten : ∃ t, t ∈ prune c ∧ id_ref_ t = ref).
  { destruct (decide (ref ∈ id_ref_ <$> prune c)) as [Hin|Hnot].
    - apply list_elem_of_fmap in Hin as (t & -> & Ht). by exists t.
    - exfalso. pose proof H as H'. unfold calculate_unique_tensor_ids in H'.
      rewrite Hc in H'. cbn [mbind outcome_bind] in H'.
      rewrite (write_back_at_other _ _ ref _ _ H'), Hnone in Hv; [done|].
      intros t Ht <-. apply Hnot. by apply list_elem_of_fmap_2. }
  destruct Hwritten as (t & [Hset Ht]%list_elem_of_filter & <-).
  destruct (final_id_of_pair s s' _ c t Hnd Hc H Ht Hset) as [Hid _].
  rewrite Hid in Hv. destruct (Hcompact _ _ Hv) as [H0 Hall].
  split; [done|]. intros w Hw. destruct (Hall w Hw) as [sid' Hsid'].
  destruct (Hkeys sid') as (edge & Hedge & Hside); [by eexists|].
  assert (∃ t', t' ∈ prune c ∧ storage_id_ t' = sid') as (t' & Ht' & <-).
  { assert (Hmap : ∀ impl sid, (∅ : gmap Z Z) !! impl = Some sid →
                     ∃ t', t' ∈ prune c ∧ storage_id_ t' = sid)
      by (intros impl sid; by rewrite lookup_empty).
    assert (Hedges : ∀ e : Z * Z, e ∈ (∅ : gset (Z * Z)) →
                     (∃ t', t' ∈ prune c ∧ storage_id_ t' = e.1) ∧
                     (∃ t', t' ∈ prune c ∧ storage_id_ t' = e.2))
      by (intros e He; by apply not_elem_of_empty in He).
    destruct (group_fold_sids (prune c) (∅, ∅)
                (λ sid, ∃ t', t' ∈ prune c ∧ storage_id_ t' = sid)
                Hmap Hedges (λ t' Ht', ex_intro _ t' (conj Ht' eq_refl))
                edge Hedge) as [H1 H2].
    by destruct Hside as [->| ->]. }
  apply list_elem_of_filter in Ht' as [Hset' Ht'].
  destruct (final_id_of_pair s s' _ c t' Hnd Hc H Ht' Hset') as [Hid' _].
  exists (id_ref_ t'). by rewrite Hid'.
Qed.

Lemma identities_are_compact_witness :
  ∃ s' ref', calculate_unique_tensor_ids (reuse_scenario 4096 7 8 16 (-16) 32)
               [0; 1; 2; 3; 4]%nat = Ok s' ∧
             id_at s' (InputRef 4 0) = Some 1 ∧ id_at s' ref' = Some 0.
Proof.
  destruct (calculate_unique_tensor_ids (reuse_scenario 4096 7 8 16 (-16) 32)
              [0; 1; 2; 3; 4]%nat) as [s'|] eqn:H; [|by vm_compute in H].
  destruct (cluster_by_address (reuse_scenario 4096 7 8 16 (-16) 32)
              [0; 1; 2; 3; 4]%nat) as [c|] eqn:Hc; [|by vm_compute in Hc].
  assert (Hv : id_at s' (InputRef 4 0) = Some 1).
  { vm_compute in H. by injection H as <-. }
  destruct (identities_are_compact (reuse_scenario 4096 7 8 16 (-16) 32) s'
              [0; 1; 2; 3; 4]%nat c (InputRef 4 0) 1) as [_ Hall]; try done.
  - apply (bool_decide_unpack (NoDup [0; 1; 2; 3; 4]%nat)). vm_compute.
    exact I.
  - vm_compute in Hc. injection Hc as <-. by vm_compute.
  - intros [[|[|[|[|[|e]]]]] [|k]|[|[|[|[|[|e]]]]]]; try reflexivity.
    all: unfold id_at, input_of; cbn; by destruct k.
  - destruct (Hall 0) as [ref' Href']; [lia|]. by exists s', ref'.
Defined.

(** * Properties of the transfer from the external trace *)

Section TransferFacts.

Context (activities : list ITraceActivity).

(** An event without its link to another activity. *)
Definition forget_linked (r : Result) : Result := set_linked_activity None r.

(** The event vector holds valid, pairwise different events; the events that
    activities are mapped to are in it; links between Kineto events are
    valid. *)
Record transfer_ok (st : transfer) : Prop := {
  tr_valid : ∀ e, e ∈ results_ st → (e < length (tr_store st))%nat;
  tr_known : ∀ k e, kineto_events_ st !! k = Some e → e ∈ results_ st;
  tr_nodup : NoDup (results_ st);
  tr_links : ∀ p r i l, tr_store st !! p = Some r →
    extra_fields_ r = Kineto i → linked_activity_ i = Some l →
    (l < length (tr_store st))%nat }.

(** [st'] is [st] with new events at the end of the store and of the event
    vector and with other links in Kineto events. *)
Record transfer_grows (st st' : transfer) : Prop := {
  tg_store : ∃ added,
    forget_linked <$> tr_store st'
    = (forget_linked <$> tr_store st) ++ added ∧
    Forall (λ r, ∃ a, a ∈ activities ∧
                      passed_by_profiler (activity_type a) = false ∧
                      r = resultFromActivity a) added;
  tg_results : ∃ new,
    results_ st' = results_ st ++ new ∧
    Forall (λ e, (length (tr_store st) ≤ e)%nat) new;
  tg_events : ∀ k e, kineto_events_ st !! k = Some e →
                     kineto_events_ st' !! k = Some e;
  tg_other : ∀ p r, tr_store st !! p = Some r → is_kineto r = false →
                    tr_store st' !! p = Some r }.

Lemma transfer_grows_refl st : transfer_grows st st.
Proof.
  split; try done.
  - exists []. by rewrite app_nil_r.
  - exists []. by rewrite app_nil_r.
Qed.

Lemma transfer_grows_length st st' :
  transfer_grows st st' → (length (tr_store st) ≤ length (tr_store st'))%nat.
Proof.
  intros [(added & Hs & _) _ _ _]. apply (f_equal length) in Hs.
  rewrite length_app, !length_fmap in Hs. lia.
Qed.

Lemma transfer_grows_trans st1 st2 st3 :
  transfer_grows st1 st2 → transfer_grows st2 st3 → transfer_grows st1 st3.
Proof.
  intros H12 H23. pose proof (transfer_grows_length _ _ H12) as Hlen.
  destruct H12 as [(a1 & Hs1 & Ha1) (n1 & Hr1 & Hn1) He1 Ho1].
  destruct H23 as [(a2 & Hs2 & Ha2) (n2 & Hr2 & Hn2) He2 Ho2].
  split.
  - exists (a1 ++ a2). rewrite Hs2, Hs1, <- app_assoc. split; [done|].
    by apply Forall_app.
  - exists (n1 ++ n2). rewrite Hr2, Hr1, <- app_assoc. split; [done|].
    apply Forall_app. split; [done|].
    eapply Forall_impl; [exact Hn2|]. cbn. lia.
  - auto.
  - auto.
Qed.

Lemma lookup_activity_ok st key st' e :
  lookup_activity activities st key = Ok (st', e) →
  tr_store st' = tr_store st ∧ results_ st' = results_ st ∧
  kineto_activity_ st' = kineto_activity_ st ∧
  (∀ k x, kineto_events_ st !! k = Some x → kineto_events_ st' !! k = Some x) ∧
  (∀ k x, kineto_events_ st' !! k = Some x →
     kineto_events_ st !! k = Some x ∨
     (key = Some k ∧ e = Some x ∧ kineto_events_ st !! k = None ∧
      ∃ a, activities !! k = Some a ∧ metadata_index a ≠ unmatchedIndex ∧
           results_ st !! Z.to_nat (wrap_uint64 (metadata_index a)) = Some x)) ∧
  (∀ x, e = Some x → ∃ k, key = Some k ∧ kineto_events_ st' !! k = Some x) ∧
  (e = None → ∀ k, key = Some k → kineto_events_ st' !! k = None).
Proof.
  unfold lookup_activity. intros H. destruct key as [k|].
  2: { injection H as <- <-. repeat split; try done. by left. }
  destruct (kineto_events_ st !! k) as [x|] eqn:Hk.
  { injection H as <- <-. repeat split; try done; [by left|].
    intros y [= <-]. by exists k. }
  unfold activity_at in H. destruct (activities !! k) as [a|] eqn:Ha; [|done].
  cbn in H. case_bool_decide as Hidx.
  - destruct (results_ st !! Z.to_nat (wrap_uint64 (metadata_index a)))
      as [out|] eqn:Hout; [|done].
    injection H as <- <-. cbn. repeat split; try done.
    + intros k' x Hx. rewrite lookup_insert_ne; [done|]. congruence.
    + intros k' x. rewrite lookup_insert. case_decide; [|by left].
      intros [= <-]. subst k'. right. repeat split; try done. by exists a.
    + intros x [= <-]. exists k. by rewrite lookup_insert_eq.
  - injection H as <- <-. repeat split; try done; [by left|].
    intros _ k' [= <-]. done.
Qed.

Lemma lookup_activity_grows st key st' e :
  lookup_activity activities st key = Ok (st', e) → transfer_grows st st'.
Proof.
  intros H.
  destruct (lookup_activity_ok _ _ _ _ H) as (Hs & Hr & _ & Hmono & _).
  split; rewrite ?Hs, ?Hr; try done.
  - exists []. by rewrite app_nil_r.
  - exists []. by rewrite app_nil_r.
Qed.

Lemma lookup_activity_inv st key st' e :
  transfer_ok st → lookup_activity activities st key = Ok (st', e) →
  transfer_ok st' ∧ (∀ x, e = Some x → x ∈ results_ st').
Proof.
  intros [Hv Hk Hn Hl] H.
  destruct (lookup_activity_ok _ _ _ _ H) as (Hs & Hr & Ha & Hmono & Hnew & He & _).
  assert (Hknown : ∀ k x, kineto_events_ st' !! k = Some x → x ∈ results_ st').
  { intros k x Hx. rewrite Hr.
    destruct (Hnew k x Hx) as [Hold|(_ & _ & _ & a & _ & _ & Hin)];
      [by eapply Hk|]. by eapply list_elem_of_lookup_2. }
  split.
  - split; rewrite ?Hs, ?Hr; try done. by rewrite <- Hr.
  - intros x Hx. destruct (He x Hx) as (k & _ & Hk'). by eapply Hknown.
Qed.

Lemma toResult_grows st activity st' e :
  toResult activities st activity = Ok (st', e) →
  transfer_grows st st' ∧
  (∀ x, e = Some x → kineto_events_ st' !! activity = Some x).
Proof.
  intros H. unfold toResult in H. ok_bind H as q E. destruct q as [st1 e1].
  destruct (lookup_activity_ok _ _ _ _ E) as (Hs & Hr & Ha & Hmono & Hnew & He & Hnone).
  pose proof (lookup_activity_grows _ _ _ _ E) as Hg1.
  unfold activity_at in H. destruct (activities !! activity) as [a|] eqn:Hact;
    [|done]. cbn in H.
  destruct e1 as [x|].
  { injection H as <- <-. split; [done|]. intros y [= <-].
    destruct (He x eq_refl) as (k & [= <-] & Hk). done. }
  destruct (passed_by_profiler (activity_type a)) eqn:Htype.
  { injection H as <- <-. by split. }
  injection H as <- <-. split.
  - eapply transfer_grows_trans; [exact Hg1|]. split; cbn.
    + exists [resultFromActivity a]. rewrite fmap_app. split; [done|].
      apply Forall_singleton. exists a.
      split; [by eapply list_elem_of_lookup_2|done].
    + exists [length (tr_store st1)]. split; [done|].
      by apply Forall_singleton.
    + intros k x Hx. rewrite lookup_insert_ne; [done|]. intros <-.
      rewrite (Hnone eq_refl activity eq_refl) in Hx. done.
    + intros p r Hp _. by apply lookup_app_l_Some.
  - intros x [= <-]. cbn. by rewrite lookup_insert_eq.
Qed.

Lemma toResult_inv st activity st' e :
  transfer_ok st → toResult activities st activity = Ok (st', e) →
  transfer_ok st' ∧ (∀ x, e = Some x → x ∈ results_ st').
Proof.
  intros Hok H. unfold toResult in H. ok_bind H as q E. destruct q as [st1 e1].
  destruct (lookup_activity_inv _ _ _ _ Hok E) as (Hok1 & Hin1).
  destruct (lookup_activity_ok _ _ _ _ E) as (_ & _ & _ & _ & _ & _ & Hnone).
  unfold activity_at in H. destruct (activities !! activity) as [a|] eqn:Hact;
    [|done]. cbn in H.
  destruct e1 as [x|]; [by injection H as <- <-|].
  destruct (passed_by_profiler (activity_type a)) eqn:Htype;
    [by injection H as <- <-|].
  injection H as <- <-. destruct Hok1 as [Hv Hk Hn Hl].
  assert (Hfresh : length (tr_store st1) ∉ results_ st1).
  { intros Hin%Hv. lia. }
  split.
  - split; cbn.
    + intros x [Hx%Hv| ->%list_elem_of_singleton]%elem_of_app;
        rewrite length_app; cbn; lia.
    + intros k x. rewrite lookup_insert. case_decide.
      * intros [= <-]. apply elem_of_app. right. by left.
      * intros Hx%Hk. apply elem_of_app. by left.
    + apply NoDup_app. split; [done|]. split; [|apply NoDup_singleton].
      intros x Hx ->%list_elem_of_singleton. done.
    + intros p r i l Hp Hi Hlink. rewrite length_app. cbn.
      apply lookup_app_Some in Hp as [Hp|[_ Hp]].
      * specialize (Hl p r i l Hp Hi Hlink). lia.
      * apply list_lookup_singleton_Some in Hp as [_ <-]. cbn in Hi.
        injection Hi as <-. done.
  - intros x [= <-]. cbn. apply elem_of_app. right. by left.
Qed.

Lemma forget_set_linked linked r :
  forget_linked (set_linked_activity linked r) = forget_linked r.
Proof.
  unfold forget_linked, set_linked_activity. destruct r as [t0 tid x f p c].
  by destruct x.
Qed.

Lemma is_kineto_forget r : is_kineto (forget_linked r) = is_kineto r.
Proof.
  unfold forget_linked, set_linked_activity, is_kineto.
  destruct r as [t0 tid x f p c]. by destruct x.
Qed.

Definition with_linked (st : transfer) (e : ptr) (linked : option ptr)
  (r : Result) : transfer :=
  mkTransfer (<[e := set_linked_activity linked r]> (tr_store st))
             (results_ st) (kineto_events_ st) (kineto_activity_ st).

Lemma with_linked_grows st e r linked :
  tr_store st !! e = Some r → is_kineto r = true →
  transfer_grows st (with_linked st e linked r).
Proof.
  intros Hr Hkin. split; cbn; try done.
  - exists []. rewrite app_nil_r. split; [|done].
    rewrite list_fmap_insert. apply list_insert_id.
    rewrite list_lookup_fmap, Hr. cbn. f_equal.
    symmetry. apply forget_set_linked.
  - exists []. by rewrite app_nil_r.
  - intros p r' Hp Hnk. rewrite list_lookup_insert_ne; [done|].
    intros <-. congruence.
Qed.

Lemma with_linked_inv st e r linked :
  transfer_ok st → tr_store st !! e = Some r →
  (∀ l, linked = Some l → l ∈ results_ st) →
  transfer_ok (with_linked st e linked r).
Proof.
  intros [Hv Hk Hn Hl] Hr Hlinked.
  split; cbn; rewrite ?length_insert; try done.
  intros p r' i l. rewrite (lookup_insert_store _ _ _ _ _ Hr).
  destruct (decide (e = p)) as [<-|]; [|by apply Hl].
  intros [= <-]. unfold set_linked_activity.
  destruct (extra_fields_ r) as [| | | | | |i0] eqn:Hx;
    cbn; try (intros Hi; congruence).
  intros [= <-]. cbn. intros ->. by apply Hv, Hlinked.
Qed.

(** One iteration of the loop of [extractEventsFromTrace]. *)
Lemma extract_step st activity st1 e a st3 :
  toResult activities st activity = Ok (st1, e) →
  match e, linkedActivity a with
  | Some e, Some linked_activity =>
    r ← deref (tr_store st1) e;
    match extra_fields_ r with
    | Kineto _ =>
      '(st2, linked) ← toResult activities st1 linked_activity;
      r2 ← deref (tr_store st2) e;
      Ok (mkTransfer
            (<[e := set_linked_activity linked r2]> (tr_store st2))
            (results_ st2) (kineto_events_ st2) (kineto_activity_ st2))
    | _ => Err InternalAssert
    end
  | _, _ => Ok st1
  end = Ok st3 →
  transfer_grows st st3 ∧ (transfer_ok st → transfer_ok st3).
Proof.
  intros E E3. destruct (toResult_grows _ _ _ _ E) as [Hg1 _].
  assert (Hok1 : transfer_ok st → transfer_ok st1 ∧
                 ∀ x, e = Some x → x ∈ results_ st1).
  { intros Hok. by eapply toResult_inv. }
  destruct e as [e|];
    [|injection E3 as <-; split; [done|by intros [? _]%Hok1]].
  destruct (linkedActivity a) as [linked_activity|];
    [|injection E3 as <-; split; [done|by intros [? _]%Hok1]].
  ok_bind E3 as r Er.
  destruct (extra_fields_ r) as [| | | | | |i] eqn:Hx; try done.
  ok_bind E3 as q2 E2. destruct q2 as [st2 linked].
  destruct (toResult_grows _ _ _ _ E2) as [Hg2 _].
  ok_bind E3 as r2 Er2. injection E3 as <-.
  assert (Hk2 : is_kineto r2 = true).
  { destruct Hg2 as [(added & Hs & _) _ _ _].
    assert ((forget_linked <$> tr_store st2) !! e
            = Some (forget_linked r)) as Hfe.
    { rewrite Hs. apply lookup_app_l_Some.
      by rewrite list_lookup_fmap, Er. }
    rewrite list_lookup_fmap, Er2 in Hfe. cbn in Hfe.
    injection Hfe as Hfe. apply (f_equal is_kineto) in Hfe.
    rewrite !is_kineto_forget in Hfe. rewrite Hfe.
    unfold is_kineto. by rewrite Hx. }
  split.
  - eapply transfer_grows_trans; [exact Hg1|].
    eapply transfer_grows_trans; [exact Hg2|].
    by apply (with_linked_grows st2 e r2 linked).
  - intros [Hok1' _]%Hok1.
    destruct (toResult_inv _ _ _ _ Hok1' E2) as [Hok2 Hin2].
    apply (with_linked_inv st2 e r2 linked); [done|done|].
    intros l ->. by apply Hin2.
Qed.

Lemma extractEventsFromTrace_inv trace : ∀ st st',
  extractEventsFromTrace activities st trace = Ok st' →
  transfer_grows st st' ∧ (transfer_ok st → transfer_ok st').
Proof.
  induction trace as [|activity rest IH]; intros st st' H;
    cbn [extractEventsFromTrace] in H.
  - injection H as <-. split; [apply transfer_grows_refl|done].
  - ok_bind H as q E. destruct q as [st1 e].
    ok_bind H as a Ea. ok_bind H as st3 E3.
    destruct (extract_step _ _ _ _ _ _ E E3) as [Hg3 Hok3].
    destruct (IH _ _ H) as [Hg' Hok'].
    split; [by eapply transfer_grows_trans|auto].
Qed.

(** The event of the profiler that the metadata of an activity name. *)
Definition event_of_activity (results : list ptr) (k : nat) : option ptr :=
  a ← activities !! k;
  if bool_decide (metadata_index a ≠ unmatchedIndex)
  then results !! Z.to_nat (wrap_uint64 (metadata_index a))
  else None.

(** The map of [lookup] holds what the metadata say. *)
Definition events_from_metadata (st : transfer) : Prop :=
  ∀ k x, kineto_events_ st !! k = Some x →
         event_of_activity (results_ st) k = Some x.

Lemma lookup_activity_metadata st k st' e :
  events_from_metadata st →
  lookup_activity activities st (Some k) = Ok (st', e) →
  events_from_metadata st' ∧ e = event_of_activity (results_ st) k.
Proof.
  intros Hm H.
  destruct (lookup_activity_ok _ _ _ _ H) as (Hs & Hr & Ha & Hmono & Hnew & He & Hnone).
  assert (Hm' : events_from_metadata st').
  { intros k' x Hx. rewrite Hr.
    destruct (Hnew k' x Hx) as [Hold|(_ & _ & _ & a & Hact & Hidx & Hin)];
      [by apply Hm|].
    unfold event_of_activity. rewrite Hact. cbn.
    by rewrite bool_decide_eq_true_2. }
  split; [done|]. destruct e as [x|].
  - destruct (He x eq_refl) as (k' & [= <-] & Hk). symmetry.
    rewrite <- Hr. by apply Hm'.
  - unfold lookup_activity in H.
    destruct (kineto_events_ st !! k) as [x|]; [done|].
    unfold activity_at in H. unfold event_of_activity.
    destruct (activities !! k) as [a|]; [|done]. cbn in *.
    case_bool_decide; [|done].
    by destruct (results_ st !! Z.to_nat (wrap_uint64 (metadata_index a))).
Qed.

Lemma reassociate_inv trace : ∀ st st',
  events_from_metadata st →
  reassociate activities st trace = Ok st' →
  tr_store st' = tr_store st ∧ results_ st' = results_ st ∧
  events_from_metadata st' ∧
  (∀ k x, kineto_events_ st !! k = Some x → kineto_events_ st' !! k = Some x) ∧
  (∀ x, is_Some (kineto_activity_ st !! x) →
        kineto_activity_ st' !! x = kineto_activity_ st !! x) ∧
  Forall (λ activity, activity ≠ None) trace ∧
  (∀ i k x, trace !! i = Some (Some k) →
     event_of_activity (results_ st) k = Some x →
     kineto_activity_ st !! x = None ∧ kineto_activity_ st' !! x = Some k) ∧
  (∀ i j k1 k2 x, trace !! i = Some (Some k1) → trace !! j = Some (Some k2) →
     event_of_activity (results_ st) k1 = Some x →
     event_of_activity (results_ st) k2 = Some x → i = j).
Proof.
  induction trace as [|activity rest IH]; intros st st' Hm H;
    cbn [reassociate] in H.
  - injection H as <-. repeat split; try done.
  - ok_bind H as u Eu. clear u. case_bool_decide as Hnn; [|done].
    destruct activity as [k|]; [|done].
    ok_bind H as q E. destruct q as [st1 e].
    destruct (lookup_activity_metadata _ _ _ _ Hm E) as [Hm1 He].
    destruct (lookup_activity_ok _ _ _ _ E) as (Hs1 & Hr1 & Ha1 & Hmono1 & _).
    ok_bind H as st2 E2.
    assert (tr_store st2 = tr_store st ∧ results_ st2 = results_ st ∧
            kineto_events_ st2 = kineto_events_ st1 ∧
            match e with
            | Some x => kineto_activity_ st !! x = None ∧
                        kineto_activity_ st2 = <[x := k]> (kineto_activity_ st)
            | None => kineto_activity_ st2 = kineto_activity_ st
            end) as (Hs2 & Hr2 & He2 & Ha2).
    { destruct e as [x|].
      - ok_bind E2 as u' Eu'. clear u'. case_bool_decide as Hfree; [|done].
        injection E2 as <-. cbn. rewrite <- Ha1. done.
      - injection E2 as <-. by rewrite Ha1. }
    assert (Hm2 : events_from_metadata st2).
    { intros k' x. rewrite He2, Hr2, <- Hr1. apply Hm1. }
    destruct (IH _ _ Hm2 H) as (Hs & Hr & Hm' & Hmono & Hact & Hall & Hset & Hinj).
    rewrite Hr2 in Hset, Hinj.
    assert (Hkeep : ∀ x, is_Some (kineto_activity_ st !! x) →
                         is_Some (kineto_activity_ st2 !! x) ∧
                         kineto_activity_ st2 !! x = kineto_activity_ st !! x).
    { intros x Hx. destruct e as [y|].
      - destruct Ha2 as [Hnone ->]. rewrite lookup_insert_ne; [done|].
        intros <-. rewrite Hnone in Hx. by destruct Hx.
      - by rewrite Ha2. }
    assert (Hhead : ∀ x, event_of_activity (results_ st) k = Some x →
              kineto_activity_ st !! x = None ∧
              kineto_activity_ st2 !! x = Some k).
    { intros x Hx. rewrite <- He in Hx. rewrite Hx in Ha2.
      destruct Ha2 as [Hnone ->].
      split; [done|]. by rewrite lookup_insert_eq. }
    split; [congruence|]. split; [congruence|]. split; [done|].
    split; [|split; [|split; [|split]]].
    + intros k' x Hx. apply Hmono. rewrite He2. by apply Hmono1.
    + intros x Hx. destruct (Hkeep x Hx) as [Hx2 Heq].
      by rewrite (Hact x Hx2).
    + by constructor.
    + intros i k0 x Hi Hx. destruct i as [|i]; cbn in Hi.
      * injection Hi as <-. destruct (Hhead x Hx) as [Hnone Hx2].
        split; [done|]. rewrite (Hact x); [done|]. by rewrite Hx2.
      * destruct (Hset i k0 x Hi Hx) as [Hnone Hx'].
        split; [|done].
        destruct (kineto_activity_ st !! x) eqn:Hold; [|done].
        destruct (Hkeep x) as [Hx2 _]; [by rewrite Hold|].
        rewrite Hnone in Hx2. by destruct Hx2.
    + intros i j k1 k2 x Hi Hj Hx1 Hx2.
      destruct i as [|i], j as [|j]; cbn in Hi, Hj; try done.
      * injection Hi as <-. destruct (Hhead x Hx1) as [_ Hy].
        destruct (Hset j k2 x Hj Hx2) as [Hnone _]. congruence.
      * injection Hj as <-. destruct (Hhead x Hx2) as [_ Hy].
        destruct (Hset i k1 x Hi Hx1) as [Hnone _]. congruence.
      * f_equal. by eapply Hinj.
Qed.

(** X26. [extractEventsFromTrace] only adds: it keeps the invariant of the
    event vector (valid, pairwise different events, valid links), leaves
    every event that is not a Kineto event as it is, and appends to the
    vector only events made by [resultFromActivity] from activities of a
    type that the profiler does not pass to Kineto. *)
Theorem extractEventsFromTrace_appends st trace st' :
  transfer_ok st →
  extractEventsFromTrace activities st trace = Ok st' →
  transfer_ok st' ∧
  (∀ p r, tr_store st !! p = Some r → is_kineto r = false →
          tr_store st' !! p = Some r) ∧
  ∃ new, results_ st' = results_ st ++ new ∧
    ∀ e, e ∈ new →
      ∃ r a, tr_store st' !! e = Some r ∧ a ∈ activities ∧
             passed_by_profiler (activity_type a) = false ∧
             forget_linked r = resultFromActivity a.
Proof.
  intros Hok H. destruct (extractEventsFromTrace_inv _ _ _ H) as [Hg Hok'].
  specialize (Hok' Hok). split; [done|].
  destruct Hg as [(added & Hs & Hadded) (new & Hr & Hnew) _ Hother].
  split; [done|]. exists new. split; [done|]. intros e He.
  rewrite Forall_forall in Hnew. specialize (Hnew e He).
  assert (Hlt : (e < length (tr_store st'))%nat).
  { apply (tr_valid _ Hok'). rewrite Hr. apply elem_of_app. by right. }
  apply lookup_lt_is_Some_2 in Hlt as [r Hlook]. exists r.
  assert ((forget_linked <$> tr_store st') !! e = Some (forget_linked r)) as Hf.
  { by rewrite list_lookup_fmap, Hlook. }
  rewrite Hs, lookup_app_r in Hf by (rewrite length_fmap; lia).
  rewrite Forall_forall in Hadded.
  destruct (Hadded _ (list_elem_of_lookup_2 _ _ _ Hf)) as (a & Ha & Ht & Heq).
  by exists a.
Qed.

(** X28. An activity that is reassociated to an event of the profiler (one
    that is not a Kineto event) must not have a linked activity: with one in
    the trace, [extractEventsFromTrace] does not return. *)
Theorem linked_activity_of_profiler_event_rejected st trace k e r a l :
  kineto_events_ st !! k = Some e →
  tr_store st !! e = Some r → is_kineto r = false →
  k ∈ trace → activities !! k = Some a → linkedActivity a = Some l →
  ∀ st', extractEventsFromTrace activities st trace ≠ Ok st'.
Proof.
  intros Hk Hr Hnk Hin Ha Hl. revert st Hk Hr.
  induction trace as [|activity rest IH]; intros st Hk Hr st' H;
    [by apply elem_of_nil in Hin|].
  cbn [extractEventsFromTrace] in H.
  ok_bind H as q E. destruct q as [st1 e1].
  ok_bind H as a1 Ea. ok_bind H as st3 E3.
  destruct (decide (activity = k)) as [->|Hne].
  - unfold toResult, lookup_activity in E. rewrite Hk in E. cbn in E.
    unfold activity_at in E, Ea. rewrite Ha in E, Ea. cbn in E.
    injection E as <- <-. injection Ea as <-. rewrite Hl in E3.
    unfold deref in E3. rewrite Hr in E3. cbn in E3.
    unfold is_kineto in Hnk. by destruct (extra_fields_ r).
  - apply elem_of_cons in Hin as [->|Hin]; [done|].
    destruct (extract_step _ _ _ _ _ _ E E3) as [[_ _ He Ho] _].
    eapply (IH Hin st3); [by apply He|by apply Ho|exact H].
Qed.

(** X29. [reassociate] gives every event at most one activity: when it
    returns, no activity of the trace was null, the store and the event
    vector are as before, every event that the metadata of an activity of
    the trace name holds that activity in [kineto_activity_], and no two
    positions of the trace name the same event. *)
Theorem reassociate_one_activity_per_event st trace st' :
  kineto_events_ st = ∅ →
  reassociate activities st trace = Ok st' →
  tr_store st' = tr_store st ∧ results_ st' = results_ st ∧
  Forall (λ activity, activity ≠ None) trace ∧
  (∀ i k x, trace !! i = Some (Some k) →
     event_of_activity (results_ st) k = Some x →
     kineto_activity_ st' !! x = Some k) ∧
  (∀ i j k1 k2 x, trace !! i = Some (Some k1) → trace !! j = Some (Some k2) →
     event_of_activity (results_ st) k1 = Some x →
     event_of_activity (results_ st) k2 = Some x → i = j).
Proof.
  intros Hempty H.
  assert (Hm : events_from_metadata st).
  { intros k x. by rewrite Hempty, lookup_empty. }
  destruct (reassociate_inv _ _ _ Hm H)
    as (Hs & Hr & _ & _ & _ & Hall & Hset & Hinj).
  repeat split; try done.
  intros i k x Hi Hx. by destruct (Hset i k x Hi Hx).
Qed.

Lemma reassociate_ok trace st st' :
  transfer_ok st → reassociate activities st trace = Ok st' →
  transfer_ok st' ∧ transfer_grows st st'.
Proof.
  revert st. induction trace as [|activity rest IH]; intros st Hok H;
    cbn [reassociate] in H.
  - injection H as <-. split; [done|apply transfer_grows_refl].
  - ok_bind H as u Eu. clear u Eu.
    ok_bind H as q E. destruct q as [st1 e].
    destruct (lookup_activity_inv _ _ _ _ Hok E) as [Hok1 _].
    pose proof (lookup_activity_grows _ _ _ _ E) as Hg1.
    ok_bind H as st2 E2.
    assert (transfer_ok st2 ∧ transfer_grows st1 st2) as [Hok2 Hg2].
    { destruct e as [x|], activity as [k|];
        try (injection E2 as <-; split; [done|apply transfer_grows_refl]).
      ok_bind E2 as u Eu. clear u Eu. injection E2 as <-.
      destruct Hok1 as [Hv Hk Hn Hl]. split; [by split|].
      split; cbn; try done.
      - exists []. by rewrite app_nil_r.
      - exists []. by rewrite app_nil_r. }
    destruct (IH _ Hok2 H) as [Hok' Hg'].
    split; [done|].
    eapply transfer_grows_trans; [exact Hg1|].
    by eapply transfer_grows_trans.
Qed.

End TransferFacts.

(** X27. The constructor of [TransferEvents] keeps the events of the
    profiler: when it returns, the event vector is the old one followed by
    new events, all of them valid and pairwise different, and an event that
    is not a Kineto event has its start, thread, fields, parent and
    [finished_] flag as before and its old children first. *)
Theorem TransferEvents_new_keeps_profiler_events raises kLinkAsyncCpuGpu
  use_rocm tid activities (s : store) results kineto_activity trace st' :
  transfer_ok (mkTransfer s results ∅ kineto_activity) →
  TransferEvents_new raises kLinkAsyncCpuGpu use_rocm tid activities s results
    kineto_activity trace = Ok st' →
  (∃ new, results_ st' = results ++ new) ∧
  NoDup (results_ st') ∧
  (∀ e, e ∈ results_ st' → is_Some (tr_store st' !! e)) ∧
  ∀ p r, s !! p = Some r → is_kineto r = false →
    ∃ r', tr_store st' !! p = Some r' ∧
      start_time_ns_ r' = start_time_ns_ r ∧
      start_tid_ r' = start_tid_ r ∧
      extra_fields_ r' = extra_fields_ r ∧
      parent_ r' = parent_ r ∧ finished_ r' = finished_ r ∧
      ∃ added, children_ r' = children_ r ++ added.
Proof.
  intros Hok H. unfold TransferEvents_new in H.
  destruct trace as [trace|]; [|done].
  ok_bind H as st1 E1. ok_bind H as st2 E2. ok_bind H as s3 E3.
  injection H as <-. cbn.
  destruct (reassociate_ok _ _ _ _ Hok E1) as [Hok1 Hg1].
  destruct (extractEventsFromTrace_inv _ _ _ _ E2) as [Hg2 Hok2].
  specialize (Hok2 Hok1).
  pose proof (transfer_grows_trans _ _ _ _ Hg1 Hg2) as Hg.
  apply setParents_Ok in E3 as (s1 & s2 & fm & H1 & H2 & H3).
  apply first_pass_keeps in H1. apply second_pass_keeps in H2.
  apply third_pass_fills in H3 as [_ H3].
  destruct (merge_keeps_trans _ _ _ (merge_keeps_trans _ _ _ H1 H2) H3)
    as [Hlen Hkeep].
  destruct Hg as [_ (new & Hr & _) _ Hother]. cbn in Hr, Hother.
  split; [by exists new|]. split; [apply (tr_nodup _ Hok2)|]. split.
  - intros e He. apply lookup_lt_is_Some_2. rewrite Hlen.
    by apply (tr_valid _ Hok2).
  - intros p r Hp Hnk.
    destruct (Hkeep p r (Hother p r Hp Hnk))
      as (r' & Hr' & Ht & Hx & Hrest & Hch).
    destruct (Hrest Hnk) as (Htid & Hpar & Hfin). by exists r'.
Qed.

Lemma extractEventsFromTrace_appends_witness :
  ∃ st', extractEventsFromTrace example_activities
           (mkTransfer profiled_store [0%nat] ∅ ∅) [0; 1; 2]%nat = Ok st' ∧
         transfer_ok st' ∧
         tr_store st' !! 0%nat
         = Some (mkResult 0 1 (TorchOp (mkTorchOp 100000 0 [])) false None []).
Proof.
  destruct (extractEventsFromTrace example_activities
              (mkTransfer profiled_store [0%nat] ∅ ∅) [0; 1; 2]%nat)
    as [st'|] eqn:H; [|by vm_compute in H].
  assert (Hok : transfer_ok (mkTransfer profiled_store [0%nat] ∅ ∅)).
  { split; cbn.
    - intros e ->%list_elem_of_singleton. lia.
    - intros k e. by rewrite lookup_empty.
    - apply NoDup_singleton.
    - intros p r i l Hp Hi.
      apply list_lookup_singleton_Some in Hp as [_ <-]. done. }
  destruct (extractEventsFromTrace_appends example_activities
              (mkTransfer profiled_store [0%nat] ∅ ∅) [0; 1; 2]%nat st' Hok H)
    as (Hok' & Hkeep & _).
  exists st'. split; [done|]. split; [done|]. by apply Hkeep.
Defined.

Lemma linked_activity_of_profiler_event_rejected_witness :
  ¬ ∃ st', extractEventsFromTrace example_activities
             (mkTransfer profiled_store [0%nat] {[3%nat := 0%nat]} ∅)
             [3%nat] = Ok st'.
Proof.
  intros [st' H].
  refine (linked_activity_of_profiler_event_rejected example_activities
            (mkTransfer profiled_store [0%nat] {[3%nat := 0%nat]} ∅)
            [3%nat] 3%nat 0%nat
            (mkResult 0 1 (TorchOp (mkTorchOp 100000 0 [])) false None [])
            (mkActivity CPU_OP 0 100 0 0 false (Some 1%nat) 0) 1%nat
            _ _ _ _ _ _ st' H); try reflexivity.
  apply list_elem_of_singleton. reflexivity.
Defined.

Lemma reassociate_one_activity_per_event_witness :
  ∃ st', reassociate example_activities
           (mkTransfer profiled_store [0%nat] ∅ ∅)
           [Some 0; Some 1; Some 2]%nat = Ok st' ∧
         kineto_activity_ st' !! 0%nat = Some 0%nat.
Proof.
  destruct (reassociate example_activities
              (mkTransfer profiled_store [0%nat] ∅ ∅)
              [Some 0; Some 1; Some 2]%nat) as [st'|] eqn:H;
    [|by vm_compute in H].
  destruct (reassociate_one_activity_per_event example_activities
              (mkTransfer profiled_store [0%nat] ∅ ∅)
              [Some 0; Some 1; Some 2]%nat st' eq_refl H)
    as (_ & _ & _ & Hset & _).
  exists st'. split; [done|].
  exact (Hset 0%nat 0%nat 0%nat eq_refl eq_refl).
Defined.

Lemma TransferEvents_new_keeps_profiler_events_witness :
  ∃ st' r', TransferEvents_new false 2 false 1 example_activities
              profiled_store [0%nat] ∅
              (Some [Some 0; Some 1; Some 2]%nat) = Ok st' ∧
            tr_store st' !! 0%nat = Some r' ∧
            start_tid_ r' = 1 ∧ parent_ r' = None ∧ finished_ r' = false.
Proof.
  destruct (TransferEvents_new false 2 false 1 example_activities
              profiled_store [0%nat] ∅ (Some [Some 0; Some 1; Some 2]%nat))
    as [st'|] eqn:H; [|by vm_compute in H].
  assert (Hok : transfer_ok (mkTransfer profiled_store [0%nat] ∅ ∅)).
  { split; cbn.
    - intros e ->%list_elem_of_singleton. lia.
    - intros k e. by rewrite lookup_empty.
    - apply NoDup_singleton.
    - intros p r i l Hp Hi.
      apply list_lookup_singleton_Some in Hp as [_ <-]. done. }
  destruct (TransferEvents_new_keeps_profiler_events false 2 false 1
              example_activities profiled_store [0%nat] ∅
              (Some [Some 0; Some 1; Some 2]%nat) st' Hok H)
    as (_ & _ & _ & Hkeep).
  destruct (Hkeep 0%nat
              (mkResult 0 1 (TorchOp (mkTorchOp 100000 0 [])) false None [])
              eq_refl eq_refl)
    as (r' & Hr' & _ & Htid & _ & Hpar & Hfin & _).
  exists st', r'. split; [reflexivity|]. split; [exact Hr'|].
  split; [exact Htid|]. split; [exact Hpar|exact Hfin].
Defined.

(** * Address reuse in general *)

(** ** Storage ids are handed out in increasing order *)

(** In [c] no more storage ids were handed out than pairs collected, the
    live ids are below the next one, and the id of [X], if [X] is live, was
    handed out when the next id was [T] or later. *)
Definition fresh_from (T X : Z) (c : clustering) : Prop :=
  0 ≤ T ≤ current_id c ∧
  current_id c ≤ Z.of_nat (length (tensors c)) ∧
  (∀ Y sid, live_storage c !! Y = Some sid → sid < current_id c) ∧
  (∀ sid, live_storage c !! X = Some sid → T ≤ sid).

Lemma storage_lookup_fresh T X (c : clustering) Y :
  fresh_from T X c → Z.of_nat (length (tensors c)) + 1 < 2 ^ 64 →
  let c1 := (storage_lookup c Y).1 in
  let id := (storage_lookup c Y).2 in
  id < current_id c1 ∧ (Y = X → T ≤ id) ∧
  current_id c ≤ current_id c1 ∧
  current_id c1 ≤ Z.of_nat (length (tensors c)) + 1 ∧
  (∀ Z0 sid, live_storage c1 !! Z0 = Some sid → sid < current_id c1) ∧
  (∀ sid, live_storage c1 !! X = Some sid → T ≤ sid).
Proof.
  intros ([HT0 HT] & Hlen & Hlive & HX) Hroom. unfold storage_lookup.
  destruct (live_storage c !! Y) as [id|] eqn:HY; cbn.
  - split; [by eapply Hlive|]. split; [intros ->; by apply HX|].
    repeat split; try done; lia.
  - rewrite wrap_uint64_small by lia.
    split; [lia|]. split; [lia|]. split; [lia|]. split; [lia|]. split.
    + intros Z0 sid. rewrite lookup_insert. case_decide.
      * intros [= <-]. lia.
      * intros Hs%Hlive. lia.
    + intros sid. rewrite lookup_insert. case_decide.
      * intros [= <-]. lia.
      * apply HX.
Qed.

Lemma visit_input_fresh T X event k m (c : clustering) :
  fresh_from T X c →
  Z.of_nat (length (tensors (visit_input event k m c))) < 2 ^ 64 →
  fresh_from T X (visit_input event k m c) ∧
  current_id c ≤ current_id (visit_input event k m c).
Proof.
  intros Hc Hroom. unfold visit_input in *. destruct m as [md|]; [|by split].
  destruct (negb (impl_ md =? 0) && negb (data_ md =? 0)); [|by split].
  pose proof (storage_lookup_tensors c (data_ md)) as Ht.
  pose proof (storage_lookup_fresh T X c (data_ md) Hc) as Hf.
  destruct (storage_lookup c (data_ md)) as [c1 id]. cbn in *.
  rewrite Ht, length_app in Hroom. cbn in Hroom.
  destruct Hf as (Hid & _ & Hmono & Hlen & Hlive & HX); [lia|].
  destruct Hc as ([HT0 HT] & _). split; [|done].
  unfold fresh_from. cbn [current_id live_storage tensors].
  split; [lia|]. split; [|by split].
  rewrite Ht, length_app. cbn [length]. lia.
Qed.

Lemma visit_inputs_length event ms : ∀ k (c : clustering),
  (length (tensors c) ≤ length (tensors (visit_inputs event k ms c)))%nat.
Proof.
  intros k c.
  pose proof (f_equal length (visit_inputs_refs_of event ms k c)) as H.
  rewrite length_app, !length_fmap in H. lia.
Qed.

Lemma visit_inputs_fresh T X event ms : ∀ k (c : clustering),
  fresh_from T X c →
  Z.of_nat (length (tensors (visit_inputs event k ms c))) < 2 ^ 64 →
  fresh_from T X (visit_inputs event k ms c) ∧
  current_id c ≤ current_id (visit_inputs event k ms c).
Proof.
  induction ms as [|m ms IH]; intros k c Hc Hroom; [by split|].
  rewrite visit_inputs_cons in *.
  pose proof (visit_inputs_length event ms (S k) (visit_input event k m c)).
  destruct (visit_input_fresh T X event k m c Hc) as [Hc1 Hm1]; [lia|].
  destruct (IH _ _ Hc1 Hroom) as [Hc2 Hm2]. split; [done|lia].
Qed.

(** The Allocation visitor: the id of the event is below the next id, and
    it is [T] or more when the event is at [X]; a free of [X] leaves [X]
    without a live id. *)
Lemma visit_allocation_fresh_from T X event a (c : clustering) :
  fresh_from T X c →
  Z.of_nat (length (tensors (visit_allocation event a c))) < 2 ^ 64 →
  fresh_from T X (visit_allocation event a c) ∧
  current_id c ≤ current_id (visit_allocation event a c) ∧
  (∃ sid, has_pair (visit_allocation event a c) (AllocRef event) sid ∧
          sid < current_id (visit_allocation event a c) ∧
          (ptr_ a = X → T ≤ sid)) ∧
  (ptr_ a = X → alloc_size_ a < 0 →
   live_storage (visit_allocation event a c) !! X = None).
Proof.
  intros Hc Hroom. unfold visit_allocation in *.
  pose proof (storage_lookup_tensors c (ptr_ a)) as Ht.
  pose proof (storage_lookup_fresh T X c (ptr_ a) Hc) as Hf.
  destruct (storage_lookup c (ptr_ a)) as [c1 id]. cbn in *.
  rewrite Ht, length_app in Hroom. cbn in Hroom.
  destruct Hf as (Hid & HidX & Hmono & Hlen & Hlive & HX); [lia|].
  destruct Hc as ([HT0 HT] & _).
  split; [|split; [done|split]].
  - unfold fresh_from. cbn [current_id live_storage tensors].
    split; [lia|]. split; [rewrite Ht, length_app; cbn [length]; lia|].
    split.
    + intros Y sid. destruct (alloc_size_ a <? 0); [|by apply Hlive].
      intros [_ Hs]%lookup_delete_Some. by eapply Hlive.
    + intros sid. destruct (alloc_size_ a <? 0); [|by apply HX].
      intros [_ Hs]%lookup_delete_Some. by apply HX.
  - exists id. split; [|by split].
    eexists. split; [apply elem_of_app; right; by left|done].
  - intros <- Hsz. destruct (Z.ltb_spec (alloc_size_ a) 0); [|lia].
    apply lookup_delete_eq.
Qed.

Lemma visit_result_fresh T X (s : store) (c c' : clustering) event :
  visit_result s c event = Ok c' → fresh_from T X c →
  Z.of_nat (length (tensors c')) < 2 ^ 64 →
  fresh_from T X c' ∧ current_id c ≤ current_id c'.
Proof.
  unfold visit_result. intros H Hc Hroom. ok_bind H as r Er.
  destruct (extra_fields_ r) as [e| |a| | | |]; ok_inv H; try by split.
  - by apply visit_inputs_fresh.
  - destruct (visit_allocation_fresh_from T X event a c Hc Hroom)
      as (? & ? & _). by split.
Qed.

Lemma flatten_length (s : store) events (c c' : clustering) :
  flatten s c events = Ok c' →
  (length (tensors c) ≤ length (tensors c'))%nat.
Proof.
  intros H%flatten_refs_of. apply (f_equal length) in H.
  rewrite length_app, !length_fmap in H. lia.
Qed.

Lemma flatten_fresh T X (s : store) events : ∀ (c c' : clustering),
  flatten s c events = Ok c' → fresh_from T X c →
  Z.of_nat (length (tensors c')) < 2 ^ 64 →
  fresh_from T X c' ∧ current_id c ≤ current_id c'.
Proof.
  induction events as [|e rest IH]; intros c c' H Hc Hroom; cbn in H.
  - ok_inv H. by split.
  - ok_bind H as c1 E. pose proof (flatten_length _ _ _ _ H).
    destruct (visit_result_fresh T X s c c1 e E Hc) as [Hc1 Hm1]; [lia|].
    destruct (IH _ _ H Hc1 Hroom) as [Hc2 Hm2]. split; [done|lia].
Qed.

(** The visit of an Allocation event at [X]. *)
Lemma visit_result_alloc_fresh T X (s : store) (c c' : clustering) event :
  visit_result s c event = Ok c' → fresh_from T X c →
  Z.of_nat (length (tensors c')) < 2 ^ 64 →
  accesses s (AllocRef event) X →
  ∃ sid, has_pair c' (AllocRef event) sid ∧ T ≤ sid < current_id c' ∧
         (frees s event X → live_storage c' !! X = None).
Proof.
  unfold visit_result. intros H Hc Hroom (r & a & Hr & Hx & HX).
  unfold deref in H. rewrite Hr in H. cbn in H. rewrite Hx in H.
  injection H as <-.
  destruct (visit_allocation_fresh_from T X event a c Hc Hroom)
    as (_ & _ & (sid & Hp & Hlt & Hge) & Hfree).
  exists sid. split; [done|]. split; [split; [by apply Hge|done]|].
  intros (r' & a' & Hr' & Hx' & _ & Hsz).
  assert (r' = r) as -> by congruence.
  assert (a' = a) as -> by congruence. by apply Hfree.
Qed.

(** Step 1 on an Allocation event at [X], a later event that frees [X] and
    a still later Allocation event at [X]: the second allocation gets a
    larger storage id than the first. *)
Lemma reuse_new_storage_id (s : store) l1 a1 seg f seg2 a2 l3 X
  (c : clustering) :
  cluster_by_address s (l1 ++ a1 :: seg ++ f :: seg2 ++ a2 :: l3) = Ok c →
  Z.of_nat (length (tensors c)) < 2 ^ 64 →
  accesses s (AllocRef a1) X → frees s f X → accesses s (AllocRef a2) X →
  ∃ sid1 sid2, has_pair c (AllocRef a1) sid1 ∧
               has_pair c (AllocRef a2) sid2 ∧ sid1 < sid2.
Proof.
  intros Hc Hroom Ha1 Hf Ha2. unfold cluster_by_address in Hc.
  apply flatten_app in Hc as (cA & HA & Hc). cbn [flatten] in Hc.
  ok_bind Hc as cB HB.
  apply flatten_app in Hc as (cC & HC & Hc). cbn [flatten] in Hc.
  ok_bind Hc as cD HD.
  apply flatten_app in Hc as (cE & HE & Hc). cbn [flatten] in Hc.
  ok_bind Hc as cF HF.
  pose proof (flatten_length _ _ _ _ Hc) as LF.
  pose proof (flatten_grows _ _ _ _ Hc) as GF.
  pose proof (visit_result_grows _ _ _ _ HF) as GE.
  pose proof (flatten_grows _ _ _ _ HE) as GD.
  pose proof (visit_result_grows _ _ _ _ HD) as GC.
  pose proof (flatten_grows _ _ _ _ HC) as GB.
  assert (LE : (length (tensors cE) ≤ length (tensors cF))%nat).
  { apply (flatten_length s [a2]). cbn. by rewrite HF. }
  pose proof (flatten_length _ _ _ _ HE) as LD.
  assert (LC : (length (tensors cC) ≤ length (tensors cD))%nat).
  { apply (flatten_length s [f]). cbn. by rewrite HD. }
  pose proof (flatten_length _ _ _ _ HC) as LB.
  assert (LA : (length (tensors cA) ≤ length (tensors cB))%nat).
  { apply (flatten_length s [a1]). cbn. by rewrite HB. }
  assert (H0 : fresh_from 0 X (mkClustering 0 ∅ ∅ [])).
  { split; [done|]. split; [done|]. cbn.
    split; [intros Y sid|intros sid]; by rewrite lookup_empty. }
  destruct (flatten_fresh 0 X _ _ _ _ HA H0) as [IA _]; [lia|].
  destruct (visit_result_alloc_fresh 0 X s cA cB a1 HB IA)
    as (sid1 & Hp1 & [_ Hlt1] & _); [lia|done|].
  destruct (visit_result_fresh 0 X s cA cB a1 HB IA) as [IB _]; [lia|].
  destruct (flatten_fresh 0 X _ _ _ _ HC IB) as [IC MC]; [lia|].
  destruct (visit_result_fresh 0 X s cC cD f HD IC) as [ID MD]; [lia|].
  assert (Hfa : accesses s (AllocRef f) X).
  { destruct Hf as (r & a & Hr & Hx & HX & _). by exists r, a. }
  destruct (visit_result_alloc_fresh 0 X s cC cD f HD IC)
    as (_ & _ & _ & Hnone); [lia|done|].
  specialize (Hnone Hf).
  assert (ID' : fresh_from (current_id cD) X cD).
  { destruct ID as ([? ?] & Hlen & Hlive & _). split; [lia|].
    split; [done|]. split; [done|]. intros sid. by rewrite Hnone. }
  destruct (flatten_fresh _ X _ _ _ _ HE ID') as [IE _]; [lia|].
  destruct (visit_result_alloc_fresh _ X s cE cF a2 HF IE)
    as (sid2 & Hp2 & [Hge2 _] & _); [lia|done|].
  exists sid1, sid2. split; [|split; [|lia]].
  - apply (grows_has_pair cB); [|done].
    repeat (eapply grows_trans; [eassumption|]). apply grows_refl.
  - by apply (grows_has_pair cF).
Qed.

(** ** Pairs of op inputs *)

(** The storage id of every pair of an op input is in [tensor_set]. *)
Definition inputs_in_set (c : clustering) : Prop :=
  ∀ t, t ∈ tensors c → is_input_ref t → storage_id_ t ∈ tensor_set c.

Lemma visit_input_in_set event k m (c : clustering) :
  inputs_in_set c → inputs_in_set (visit_input event k m c).
Proof.
  intros Hc. unfold visit_input. destruct m as [md|]; [|done].
  destruct (negb (impl_ md =? 0) && negb (data_ md =? 0)); [|done].
  destruct (storage_lookup_same c (data_ md)) as [Hts Ht].
  destruct (storage_lookup c (data_ md)) as [c1 id]. cbn in Hts, Ht.
  intros t. cbn [tensors tensor_set]. rewrite Ht, Hts.
  intros [Hin| ->%list_elem_of_singleton]%elem_of_app Hi.
  - apply elem_of_union. right. by apply Hc.
  - apply elem_of_union. left. by apply elem_of_singleton.
Qed.

Lemma visit_inputs_in_set event ms : ∀ k (c : clustering),
  inputs_in_set c → inputs_in_set (visit_inputs event k ms c).
Proof.
  induction ms as [|m ms IH]; intros k c Hc; [done|].
  rewrite visit_inputs_cons. by apply IH, visit_input_in_set.
Qed.

Lemma flatten_in_set (s : store) events : ∀ (c c' : clustering),
  flatten s c events = Ok c' → inputs_in_set c → inputs_in_set c'.
Proof.
  induction events as [|e rest IH]; intros c c' H Hc; cbn in H.
  - by ok_inv H.
  - ok_bind H as c1 E. apply (IH _ _ H).
    unfold visit_result in E. ok_bind E as r Er.
    destruct (extra_fields_ r) as [x| |a| | | |]; ok_inv E; try done.
    + by apply visit_inputs_in_set.
    + unfold visit_allocation.
      destruct (storage_lookup_same c (ptr_ a)) as [Hts Ht].
      destruct (storage_lookup c (ptr_ a)) as [c1 id]. cbn in Hts, Ht.
      intros t. cbn [tensors tensor_set]. rewrite Ht, Hts.
      intros [Hin| ->%list_elem_of_singleton]%elem_of_app Hi;
        [by apply Hc|].
      destruct Hi as (e' & k & Hi). discriminate Hi.
Qed.

(** The pairs with a TensorImpl address are the pairs of op inputs. *)
Lemma pair_impl_input (s : store) (t : TensorStoragePair) :
  ref_ok s t → is_input_ref t → pair_impl_ t ≠ 0.
Proof.
  unfold ref_ok. intros H (e & k & Hi). rewrite Hi in H.
  destruct H as (r & x & md & _ & _ & _ & Hnz & _ & ->). done.
Qed.

(** ** The edges of step 2 *)

(** [edge] joins the storage ids of two pairs of [ts] with one and the same
    TensorImpl address. *)
Definition joined (ts : list TensorStoragePair) (edge : Z * Z) : Prop :=
  ∃ t t', t ∈ ts ∧ t' ∈ ts ∧ pair_impl_ t ≠ 0 ∧
          pair_impl_ t' = pair_impl_ t ∧
          ((edge.1 = storage_id_ t ∧ edge.2 = storage_id_ t') ∨
           (edge.1 = storage_id_ t' ∧ edge.2 = storage_id_ t)).

Lemma group_fold_joined (all : list TensorStoragePair) ts : ∀ acc,
  (∀ t, t ∈ ts → t ∈ all) →
  (∀ impl sid, acc.1 !! impl = Some sid →
     ∃ t, t ∈ all ∧ pair_impl_ t = impl ∧ impl ≠ 0 ∧ storage_id_ t = sid) →
  (∀ edge, edge ∈ acc.2 → joined all edge) →
  ∀ edge, edge ∈ (foldl group_step acc ts).2 → joined all edge.
Proof.
  induction ts as [|t ts IH]; intros acc Hall Hmap Hedges; [done|].
  cbn [foldl].
  assert (Ht : t ∈ all) by (apply Hall; by left).
  apply IH.
  - intros t' Ht'. apply Hall. by right.
  - unfold group_step. destruct (Z.eqb_spec (pair_impl_ t) 0); [done|]. cbn.
    intros impl sid. rewrite lookup_insert. case_decide; [|by apply Hmap].
    subst impl. intros [= <-].
    destruct (acc.1 !! pair_impl_ t) as [first|] eqn:Hf; cbn.
    + by apply Hmap.
    + by exists t.
  - unfold group_step. destruct (Z.eqb_spec (pair_impl_ t) 0); [done|]. cbn.
    intros edge [->%elem_of_singleton|He]%elem_of_union; [|by apply Hedges].
    assert (∃ t', t' ∈ all ∧ pair_impl_ t' = pair_impl_ t ∧
                  storage_id_ t'
                  = default (storage_id_ t) (acc.1 !! pair_impl_ t))
      as (t' & Ht' & Himpl & Hsid).
    { destruct (acc.1 !! pair_impl_ t) as [first|] eqn:Hf; cbn.
      - destruct (Hmap _ _ Hf) as (t' & ? & ? & _ & ?). by exists t'.
      - by exists t. }
    rewrite <- Hsid. exists t, t'. repeat split; try done.
    destruct (storage_id_ t' <? storage_id_ t); cbn; auto.
Qed.

Lemma same_group_set_joined ts edge :
  edge ∈ same_group_set ts → joined ts edge.
Proof.
  unfold same_group_set. apply group_fold_joined; [done| |].
  - intros impl sid. cbn. by rewrite lookup_empty.
  - intros e He. cbn in He. by apply not_elem_of_empty in He.
Qed.

Lemma group_fold_size ts : ∀ acc,
  (size (foldl group_step acc ts).2 ≤ size acc.2 + length ts)%nat.
Proof.
  induction ts as [|t ts IH]; intros acc; cbn [foldl length]; [lia|].
  etrans; [apply IH|].
  assert (size (group_step acc t).2 ≤ S (size acc.2))%nat; [|lia].
  unfold group_step. destruct (pair_impl_ t =? 0); [lia|]. cbn [snd].
  match goal with |- (size ({[?e]} ∪ _) ≤ _)%nat => generalize e end.
  intros e. rewrite size_union_alt, size_singleton.
  assert (size (acc.2 ∖ {[e]}) ≤ size acc.2)%nat; [|lia].
  apply subseteq_size. by intros x [Hx _]%elem_of_difference.
Qed.

Lemma same_group_set_size ts : (size (same_group_set ts) ≤ length ts)%nat.
Proof.
  unfold same_group_set. pose proof (group_fold_size ts (∅, ∅)) as H.
  cbn [snd] in H. rewrite size_empty in H. lia.
Qed.

(** ** Step 3 keeps storage ids without a shared handle apart *)

Lemma coalesce_step_other acc i k :
  k ≠ i.1 → k ≠ i.2 → (coalesce_step acc i).2 !! k = acc.2 !! k.
Proof.
  intros H1 H2. unfold coalesce_step.
  destruct (acc.2 !! i.1) as [v|]; cbn [snd].
  - destruct (acc.2 !! i.2); [done|]. by rewrite lookup_insert_ne.
  - destruct (<[i.1:=acc.1]> acc.2 !! i.2);
      rewrite ?lookup_insert_ne by done; done.
Qed.

Lemma coalesce_step_self acc k :
  (coalesce_step acc (k, k)).2 !! k = Some (default acc.1 (acc.2 !! k)).
Proof.
  unfold coalesce_step. cbn [fst snd].
  destruct (acc.2 !! k) as [v|] eqn:Hk; cbn [snd default].
  - by rewrite Hk.
  - rewrite lookup_insert_eq. by rewrite lookup_insert_eq.
Qed.

(** [k] stands on no edge but its own loop. *)
Definition alone (l : list (Z * Z)) (k : Z) : Prop :=
  ∀ i, i ∈ l → i.1 = k ∨ i.2 = k → i = (k, k).

(** The final ids of [k1] and [k2], if they have one, differ. *)
Definition apart (m : gmap Z Z) (k1 k2 : Z) : Prop :=
  ∀ v1 v2, m !! k1 = Some v1 → m !! k2 = Some v2 → v1 ≠ v2.

Lemma coalesce_step_apart acc i k1 k2 :
  compact acc → k1 ≠ k2 →
  (i.1 = k1 ∨ i.2 = k1 → i = (k1, k1)) →
  (i.1 = k2 ∨ i.2 = k2 → i = (k2, k2)) →
  apart acc.2 k1 k2 → apart (coalesce_step acc i).2 k1 k2.
Proof.
  intros (_ & Hval & _) Hne H1 H2 Ha v1 v2.
  destruct (decide (i.1 = k1 ∨ i.2 = k1)) as [Hk1|Hn1].
  { rewrite (H1 Hk1), coalesce_step_self.
    rewrite coalesce_step_other by (cbn; congruence).
    destruct (acc.2 !! k1) as [w|] eqn:Hw; cbn [default].
    - intros [= <-] Hv2. by apply Ha.
    - intros [= <-] Hv2%Hval. lia. }
  destruct (decide (i.1 = k2 ∨ i.2 = k2)) as [Hk2|Hn2].
  { rewrite (H2 Hk2), coalesce_step_self.
    rewrite coalesce_step_other by (cbn; congruence).
    destruct (acc.2 !! k2) as [w|] eqn:Hw; cbn [default].
    - intros Hv1 [= <-]. by apply Ha.
    - intros Hv1%Hval [= <-]. lia. }
  assert (k1 ≠ i.1 ∧ k1 ≠ i.2 ∧ k2 ≠ i.1 ∧ k2 ≠ i.2) as (? & ? & ? & ?).
  { repeat split; intros Heq; [apply Hn1|apply Hn1|apply Hn2|apply Hn2];
      auto. }
  rewrite !coalesce_step_other by done. apply Ha.
Qed.

Lemma coalesce_fold_apart l k1 k2 : ∀ acc,
  compact acc → acc.1 + Z.of_nat (length l) < 2 ^ 64 → k1 ≠ k2 →
  alone l k1 → alone l k2 →
  apart acc.2 k1 k2 → apart (foldl coalesce_step acc l).2 k1 k2.
Proof.
  induction l as [|i l IH]; intros acc Hc Hroom Hne H1 H2 Ha; [done|].
  cbn [foldl]. cbn [length] in Hroom. rewrite Nat2Z.inj_succ in Hroom.
  destruct (coalesce_step_compact acc i Hc) as (Hc1 & Hle & _); [lia|].
  apply IH; [done|lia|done| | |].
  - intros j Hj. apply H1. by right.
  - intros j Hj. apply H2. by right.
  - apply coalesce_step_apart; [done|done| | |done].
    + apply H1. by left.
    + apply H2. by left.
Qed.

Lemma coalesce_apart (G : gset (Z * Z)) k1 k2 :
  Z.of_nat (size G) < 2 ^ 64 → k1 ≠ k2 →
  (∀ edge, edge ∈ G → edge.1 = k1 ∨ edge.2 = k1 → edge = (k1, k1)) →
  (∀ edge, edge ∈ G → edge.1 = k2 ∨ edge.2 = k2 → edge = (k2, k2)) →
  apart (coalesce G) k1 k2.
Proof.
  intros Hsize Hne H1 H2. unfold coalesce. apply coalesce_fold_apart.
  - split; [done|]. split; cbn.
    + intros sid v. by rewrite lookup_empty.
    + intros w Hw. lia.
  - cbn. by rewrite sort_pairs_length.
  - done.
  - intros i Hi%sort_pairs_elem%elem_of_elements. by apply H1.
  - intros i Hi%sort_pairs_elem%elem_of_elements. by apply H2.
  - intros v1 v2. cbn. by rewrite lookup_empty.
Qed.

(** ** Two allocations at one address with a free in between *)

(** Some op input is paired with the storage id [sid]: the buffer is known
    to be the storage of a tensor and its pairs survive the [remove_if]. *)
Definition read_by_input (c : clustering) (sid : Z) : Prop :=
  ∃ t, t ∈ tensors c ∧ is_input_ref t ∧ storage_id_ t = sid.

(** No TensorImpl address that is paired with [sid] is paired with another
    storage id as well. *)
Definition handles_stay (c : clustering) (sid : Z) : Prop :=
  ∀ t t', t ∈ tensors c → t' ∈ tensors c → pair_impl_ t ≠ 0 →
          pair_impl_ t' = pair_impl_ t →
          storage_id_ t = sid → storage_id_ t' = sid.

Lemma handles_stay_alone (s : store) sorted_results (c : clustering) sid edge :
  cluster_by_address s sorted_results = Ok c →
  handles_stay c sid → edge ∈ same_group_set (prune c) →
  edge.1 = sid ∨ edge.2 = sid → edge = (sid, sid).
Proof.
  intros Hc Hstay (t & t' & Ht & Ht' & Hnz & Himpl & Hside)%same_group_set_joined
    Htouch.
  apply list_elem_of_filter in Ht as [_ Ht].
  apply list_elem_of_filter in Ht' as [_ Ht'].
  assert (storage_id_ t = sid ∧ storage_id_ t' = sid) as [H1 H2].
  { assert (storage_id_ t = sid ∨ storage_id_ t' = sid) as [H|H].
    { destruct Hside as [[<- <-]|[<- <-]]; tauto. }
    - split; [done|]. by apply (Hstay t t').
    - split; [|done]. apply (Hstay t' t); try done. by rewrite Himpl. }
  destruct edge as [a b]. cbn in Hside.
  destruct Hside as [[-> ->]|[-> ->]]; congruence.
Qed.

(** The references of two pairs with different storage ids, each read by an
    op input and neither sharing a handle with another storage id, end up
    with different identities. *)
Lemma final_ids_apart (s s' : store) sorted_results (c : clustering) t1 t2 :
  NoDup sorted_results →
  cluster_by_address s sorted_results = Ok c →
  calculate_unique_tensor_ids s sorted_results = Ok s' →
  Z.of_nat (length (tensors c)) < 2 ^ 64 →
  t1 ∈ tensors c → t2 ∈ tensors c → storage_id_ t1 ≠ storage_id_ t2 →
  read_by_input c (storage_id_ t1) → read_by_input c (storage_id_ t2) →
  handles_stay c (storage_id_ t1) → handles_stay c (storage_id_ t2) →
  ∃ i j, id_at s' (id_ref_ t1) = Some i ∧ id_at s' (id_ref_ t2) = Some j ∧
         i ≠ j.
Proof.
  intros Hnd Hc Hcalc Hroom Ht1 Ht2 Hne Hr1 Hr2 Hs1 Hs2.
  assert (Hset : inputs_in_set c).
  { eapply flatten_in_set; [exact Hc|]. intros t Ht. cbn in Ht.
    by apply elem_of_nil in Ht. }
  assert (Hin1 : storage_id_ t1 ∈ tensor_set c).
  { destruct Hr1 as (u & Hu & Hi & <-). by apply Hset. }
  assert (Hin2 : storage_id_ t2 ∈ tensor_set c).
  { destruct Hr2 as (u & Hu & Hi & <-). by apply Hset. }
  destruct (final_id_of_pair s s' _ c t1 Hnd Hc Hcalc Ht1 Hin1)
    as [Hv1 [i Hi]].
  destruct (final_id_of_pair s s' _ c t2 Hnd Hc Hcalc Ht2 Hin2)
    as [Hv2 [j Hj]].
  exists i, j. split; [done|]. split; [done|].
  rewrite Hv1 in Hi. rewrite Hv2 in Hj.
  refine (coalesce_apart (same_group_set (prune c)) _ _ _ Hne _ _ i j Hi Hj).
  - pose proof (same_group_set_size (prune c)).
    pose proof (length_filter (λ t, storage_id_ t ∈ tensor_set c) (tensors c)).
    unfold prune in *. lia.
  - intros edge. by apply (handles_stay_alone s sorted_results).
  - intros edge. by apply (handles_stay_alone s sorted_results).
Qed.

(** Different handles are not enough: two handles that were first seen on a
    third buffer join the two buffers at [X], and both allocations end with
    one identity. *)
Lemma shared_handles_join_reused_address :
  ∃ s, calculate_unique_tensor_ids reuse_shared_store
         [0; 1; 2; 3; 4; 5]%nat = Ok s ∧
       allocation_id s 1 = Some 0 ∧ allocation_id s 4 = Some 0 ∧
       ¬ distinct_identities s 1 4.
Proof.
  eexists. split; [vm_compute; reflexivity|].
  split; [reflexivity|]. split; [reflexivity|].
  intros (i & j & Hi & Hj & Hne). vm_compute in Hi, Hj. congruence.
Qed.

(** C4 (amended).  An Allocation event [a1] at [X], a later event [f] that
    frees [X] and a still later Allocation event [a2] at [X]: step 1 gives
    [a2] a larger storage id than [a1], because the free erased [X] from
    [live_storage].  If each of the two storage ids is the storage id of an
    op input (so that the pairs survive the [remove_if]) and no TensorImpl
    address seen with one of them is seen with another storage id (so that
    steps 2 and 3 do not join them), the two events receive different
    identities.  The events are pairwise different and fewer than 2^64
    references are collected. *)
Theorem reused_address_distinct_identities (s s' : store)
  l1 a1 seg f seg2 a2 l3 X (c : clustering) :
  NoDup (l1 ++ a1 :: seg ++ f :: seg2 ++ a2 :: l3) →
  cluster_by_address s (l1 ++ a1 :: seg ++ f :: seg2 ++ a2 :: l3) = Ok c →
  calculate_unique_tensor_ids s (l1 ++ a1 :: seg ++ f :: seg2 ++ a2 :: l3)
  = Ok s' →
  Z.of_nat (length (tensors c)) < 2 ^ 64 →
  accesses s (AllocRef a1) X → frees s f X → accesses s (AllocRef a2) X →
  ∃ sid1 sid2,
    has_pair c (AllocRef a1) sid1 ∧ has_pair c (AllocRef a2) sid2 ∧
    sid1 < sid2 ∧
    (read_by_input c sid1 → read_by_input c sid2 →
     handles_stay c sid1 → handles_stay c sid2 →
     distinct_identities s' a1 a2).
Proof.
  intros Hnd Hc Hcalc Hroom Ha1 Hf Ha2.
  destruct (reuse_new_storage_id s l1 a1 seg f seg2 a2 l3 X c Hc Hroom
              Ha1 Hf Ha2) as (sid1 & sid2 & Hp1 & Hp2 & Hlt).
  exists sid1, sid2. split; [done|]. split; [done|]. split; [done|].
  intros Hr1 Hr2 Hs1 Hs2.
  destruct Hp1 as (t1 & Ht1 & Href1 & Hsid1).
  destruct Hp2 as (t2 & Ht2 & Href2 & Hsid2). subst sid1 sid2.
  destruct (final_ids_apart s s' _ c t1 t2 Hnd Hc Hcalc Hroom Ht1 Ht2)
    as (i & j & Hi & Hj & Hij); try done; [lia|].
  rewrite Href1 in Hi. rewrite Href2 in Hj. by exists i, j.
Qed.

Lemma reused_address_distinct_identities_witness :
  ∃ s', calculate_unique_tensor_ids (reuse_scenario 4096 77 78 16 (-16) 32)
          [0; 1; 2; 3; 4]%nat = Ok s' ∧
        distinct_identities s' 0 3.
Proof.
  destruct (calculate_unique_tensor_ids (reuse_scenario 4096 77 78 16 (-16) 32)
              [0; 1; 2; 3; 4]%nat) as [s'|] eqn:H; [|by vm_compute in H].
  exists s'. split; [done|].
  assert (Hc : cluster_by_address (reuse_scenario 4096 77 78 16 (-16) 32)
                 ([] ++ 0%nat :: [1%nat] ++ 2%nat :: [] ++ 3%nat :: [4%nat])
               = Ok (mkClustering 2 (<[4096 := 1]> (delete 4096 (<[4096 := 0]> ∅)))
                       ({[1]} ∪ ({[0]} ∪ ∅))
                       [mkPair 0 0 (AllocRef 0); mkPair 77 0 (InputRef 1 0);
                        mkPair 0 0 (AllocRef 2); mkPair 0 1 (AllocRef 3);
                        mkPair 78 1 (InputRef 4 0)])).
  { apply (reuse_scenario_clusters 4096 77 78 16 (-16) 32); lia. }
  assert (Hnd : NoDup ([] ++ 0 :: [1] ++ 2 :: [] ++ 3 :: [4])%nat).
  { apply (bool_decide_unpack (NoDup [0; 1; 2; 3; 4]%nat)). vm_compute.
    exact I. }
  destruct (reused_address_distinct_identities
              (reuse_scenario 4096 77 78 16 (-16) 32) s'
              [] 0%nat [1%nat] 2%nat [] 3%nat [4%nat] 4096 _ Hnd Hc H)
    as (sid1 & sid2 & Hp1 & Hp2 & _ & Hdist).
  - cbn [tensors length]. lia.
  - eexists _, _. split; [reflexivity|]. by cbn.
  - eexists _, _. split; [reflexivity|]. split; [reflexivity|].
    split; [reflexivity|]. cbn. lia.
  - eexists _, _. split; [reflexivity|]. by cbn.
  - assert (sid1 = 0) as ->.
    { destruct Hp1 as (t & Ht & Href & <-). cbn in Ht.
      apply list_elem_of_In in Ht.
      destruct Ht as [<-|[<-|[<-|[<-|[<-|[]]]]]]; by try discriminate Href. }
    assert (sid2 = 1) as ->.
    { destruct Hp2 as (t & Ht & Href & <-). cbn in Ht.
      apply list_elem_of_In in Ht.
      destruct Ht as [<-|[<-|[<-|[<-|[<-|[]]]]]]; by try discriminate Href. }
    apply Hdist.
    + exists (mkPair 77 0 (InputRef 1 0)). split; [|split; [|done]].
      * cbn. right. by left.
      * by exists 1%nat, 0%nat.
    + exists (mkPair 78 1 (InputRef 4 0)). split; [|split; [|done]].
      * cbn. do 4 right. by left.
      * by exists 4%nat, 0%nat.
    + intros t t' Ht Ht' Hnz Himpl Hsid. cbn in Ht, Ht'.
      apply list_elem_of_In in Ht. apply list_elem_of_In in Ht'.
      destruct Ht as [<-|[<-|[<-|[<-|[<-|[]]]]]]; cbn in *; try done;
        destruct Ht' as [<-|[<-|[<-|[<-|[<-|[]]]]]]; cbn in *; done.
    + intros t t' Ht Ht' Hnz Himpl Hsid. cbn in Ht, Ht'.
      apply list_elem_of_In in Ht. apply list_elem_of_In in Ht'.
      destruct Ht as [<-|[<-|[<-|[<-|[<-|[]]]]]]; cbn in *; try done;
        destruct Ht' as [<-|[<-|[<-|[<-|[<-|[]]]]]]; cbn in *; done.
Defined.
